(** * Transaction pool of erigon-lib: a shallow embedding of [txpool/pool.go]

    The pool keeps every pooled transaction in a [metaTx] object that is
    shared, by pointer, between the by-sender-and-nonce index, the hash
    map and the heaps of the three sub-pools.  The embedding keeps that
    sharing: objects live in a memory ([list metaTx]) and the containers
    hold addresses into it.  A Go panic (index out of range, nil
    dereference) is the result [None]. *)

From stdpp Require Import gmap list strings sorting.
From Stdlib Require Import ZArith Lia.

Local Open Scope Z_scope.

(** ** Machine integers *)

Definition MaxUint64 : Z := 18446744073709551615.

(** [uint64] arithmetic wraps around. *)
Definition u64 (x : Z) : Z := x mod 2 ^ 64.

(** [uint256.Int] arithmetic wraps around as well. *)
Definition u256 (x : Z) : Z := x mod 2 ^ 256.

Definition min (a b : Z) : Z := if bool_decide (a < b) then a else b.

(** ** Constants *)

Definition EnoughFeeCapProtocol : Z := 32.
Definition NoNonceGaps : Z := 16.
Definition EnoughBalance : Z := 8.
Definition NotTooMuchGas : Z := 4.
Definition EnoughFeeCapBlock : Z := 2.
Definition IsLocal : Z := 1.

Definition BaseFeePoolBits : Z :=
  EnoughFeeCapProtocol + NoNonceGaps + EnoughBalance + NotTooMuchGas.
Definition QueuedPoolBits : Z := EnoughFeeCapProtocol.

(** [x &^= bit] on a [SubPoolMarker]. *)
Definition clearBit (x bit : Z) : Z := Z.land x (Z.lnot bit).

Inductive DiscardReason : Set :=
| NotSet | Success | AlreadyKnown | Mined | ReplacedByHigherTip | UnderPriced
| ReplaceUnderpriced | FeeTooLow | OversizedData | InvalidSender
| NegativeValue | Spammer | PendingPoolOverflow | BaseFeePoolOverflow
| QueuedPoolOverflow | GasUintOverflow | IntrinsicGas | RLPTooLong
| NonceTooLow | InsufficientFunds | NotReplaced | DuplicateHash.

#[global] Instance DiscardReason_eq_dec : EqDecision DiscardReason.
Proof. solve_decision. Defined.

(** [SubPoolType]; the zero value is what [Pop] stores "for safety". *)
Inductive SubPoolType : Set :=
| NoSubPool | PendingSubPool | BaseFeeSubPool | QueuedSubPool.

#[global] Instance SubPoolType_eq_dec : EqDecision SubPoolType.
Proof. solve_decision. Defined.

(** ** Transactions *)

(** The parsed transaction.  [IdHash] is the 32-byte hash read as a
    number; [senderID] is the id the sender registry has interned for the
    sender's address; [value] is a 256-bit number; [rlp] is [None] once
    the encoded form has been handed to the database.  The [traced] flag
    only switches log lines on and is left out. *)
Record TxSlot : Set := mkTxSlot {
  IdHash : Z;
  senderID : Z;
  nonce : Z;
  feeCap : Z;
  tip : Z;
  gas : Z;
  value : Z;
  dataLen : Z;
  dataNonZeroLen : Z;
  creation : bool;
  rlp : option (list Z)
}.

Record metaTx : Set := mkMetaTx {
  Tx : TxSlot;
  subPool : Z;
  nonceDistance : Z;
  cumulativeBalanceDistance : Z;
  minFeeCap : Z;
  minTip : Z;
  bestIndex : Z;
  worstIndex : Z;
  currentSubPool : SubPoolType;
  timestamp : Z
}.

Definition newMetaTx (slot : TxSlot) (isLocal : bool) (timestmap : Z) : metaTx :=
  {| Tx := slot;
     subPool := if isLocal then IsLocal else 0;
     nonceDistance := 0;
     cumulativeBalanceDistance := 0;
     minFeeCap := 0;
     minTip := 0;
     bestIndex := -1;
     worstIndex := -1;
     currentSubPool := NoSubPool;
     timestamp := timestmap |}.

Definition set_Tx (v : TxSlot) (m : metaTx) : metaTx :=
  mkMetaTx v (subPool m) (nonceDistance m) (cumulativeBalanceDistance m)
    (minFeeCap m) (minTip m) (bestIndex m) (worstIndex m) (currentSubPool m)
    (timestamp m).
Definition set_subPool (v : Z) (m : metaTx) : metaTx :=
  mkMetaTx (Tx m) v (nonceDistance m) (cumulativeBalanceDistance m)
    (minFeeCap m) (minTip m) (bestIndex m) (worstIndex m) (currentSubPool m)
    (timestamp m).
Definition set_nonceDistance (v : Z) (m : metaTx) : metaTx :=
  mkMetaTx (Tx m) (subPool m) v (cumulativeBalanceDistance m)
    (minFeeCap m) (minTip m) (bestIndex m) (worstIndex m) (currentSubPool m)
    (timestamp m).
Definition set_cumulativeBalanceDistance (v : Z) (m : metaTx) : metaTx :=
  mkMetaTx (Tx m) (subPool m) (nonceDistance m) v
    (minFeeCap m) (minTip m) (bestIndex m) (worstIndex m) (currentSubPool m)
    (timestamp m).
Definition set_minFeeCap (v : Z) (m : metaTx) : metaTx :=
  mkMetaTx (Tx m) (subPool m) (nonceDistance m) (cumulativeBalanceDistance m)
    v (minTip m) (bestIndex m) (worstIndex m) (currentSubPool m)
    (timestamp m).
Definition set_minTip (v : Z) (m : metaTx) : metaTx :=
  mkMetaTx (Tx m) (subPool m) (nonceDistance m) (cumulativeBalanceDistance m)
    (minFeeCap m) v (bestIndex m) (worstIndex m) (currentSubPool m)
    (timestamp m).
Definition set_bestIndex (v : Z) (m : metaTx) : metaTx :=
  mkMetaTx (Tx m) (subPool m) (nonceDistance m) (cumulativeBalanceDistance m)
    (minFeeCap m) (minTip m) v (worstIndex m) (currentSubPool m)
    (timestamp m).
Definition set_worstIndex (v : Z) (m : metaTx) : metaTx :=
  mkMetaTx (Tx m) (subPool m) (nonceDistance m) (cumulativeBalanceDistance m)
    (minFeeCap m) (minTip m) (bestIndex m) v (currentSubPool m)
    (timestamp m).
Definition set_currentSubPool (v : SubPoolType) (m : metaTx) : metaTx :=
  mkMetaTx (Tx m) (subPool m) (nonceDistance m) (cumulativeBalanceDistance m)
    (minFeeCap m) (minTip m) (bestIndex m) (worstIndex m) v
    (timestamp m).

(** ** The comparators *)

(** The marker both comparators order by first: the stored marker with
    the virtual [EnoughFeeCapBlock] bit or-ed in. *)
Definition effectiveSubPool (mt : metaTx) (pendingBaseFee : Z) : Z :=
  if bool_decide (minFeeCap mt >= pendingBaseFee)
  then Z.lor (subPool mt) EnoughFeeCapBlock
  else subPool mt.

Definition effectiveTip (mt : metaTx) (pendingBaseFee : Z) : Z :=
  if bool_decide (pendingBaseFee <= minFeeCap mt)
  then min (minFeeCap mt - pendingBaseFee) (minTip mt)
  else 0.

Definition better (mt than : metaTx) (pendingBaseFee : Z) : bool :=
  let subPool := effectiveSubPool mt pendingBaseFee in
  let thanSubPool := effectiveSubPool than pendingBaseFee in
  if bool_decide (subPool <> thanSubPool) then bool_decide (subPool > thanSubPool)
  else
    let byTimestamp := bool_decide (timestamp mt < timestamp than) in
    match currentSubPool mt with
    | PendingSubPool =>
        let thanEffectiveTip := effectiveTip than pendingBaseFee in
        let effectiveTip := effectiveTip mt pendingBaseFee in
        if bool_decide (effectiveTip <> thanEffectiveTip)
        then bool_decide (effectiveTip > thanEffectiveTip)
        else byTimestamp
    | BaseFeeSubPool =>
        if bool_decide (minFeeCap mt <> minFeeCap than)
        then bool_decide (minFeeCap mt > minFeeCap than)
        else byTimestamp
    | QueuedSubPool =>
        if bool_decide (nonceDistance mt <> nonceDistance than)
        then bool_decide (nonceDistance mt < nonceDistance than)
        else if bool_decide (cumulativeBalanceDistance mt <> cumulativeBalanceDistance than)
        then bool_decide (cumulativeBalanceDistance mt < cumulativeBalanceDistance than)
        else byTimestamp
    | NoSubPool => byTimestamp
    end.

Definition worse (mt than : metaTx) (pendingBaseFee : Z) : bool :=
  let subPool := effectiveSubPool mt pendingBaseFee in
  let thanSubPool := effectiveSubPool than pendingBaseFee in
  if bool_decide (subPool <> thanSubPool) then bool_decide (subPool < thanSubPool)
  else
    let byTimestamp := bool_decide (timestamp mt > timestamp than) in
    let byDistance :=
      if bool_decide (nonceDistance mt <> nonceDistance than)
      then bool_decide (nonceDistance mt > nonceDistance than)
      else if bool_decide (cumulativeBalanceDistance mt <> cumulativeBalanceDistance than)
      then bool_decide (cumulativeBalanceDistance mt > cumulativeBalanceDistance than)
      else byTimestamp in
    match currentSubPool mt with
    | PendingSubPool =>
        if bool_decide (minFeeCap mt <> minFeeCap than)
        then bool_decide (minFeeCap mt < minFeeCap than)
        else byDistance
    | BaseFeeSubPool | QueuedSubPool => byDistance
    | NoSubPool => byTimestamp
    end.

(** ** Memory, slices and the queues *)

(** Addresses of [metaTx] objects; [Mem] is the memory they live in. *)
Abbreviation ptr := nat (only parsing).
Abbreviation Mem := (list metaTx) (only parsing).

(** [l[i]] for a Go [int] index: out of range panics. *)
Definition elemAt {A : Type} (l : list A) (i : Z) : option A :=
  if bool_decide (0 <= i) then l !! Z.to_nat i else None.

(** [bestSlice], [BestQueue] and [WorstQueue] are all a slice of
    pointers with the base fee their comparator uses. *)
Record Queue : Set := mkQueue {
  ms : list nat;
  pendingBaseFee : Z
}.

Abbreviation Heap := (list metaTx * Queue)%type (only parsing).

(** [BestQueue] and [WorstQueue] implement [heap.Interface] with the same
    five methods, up to the comparator they call and the index field they
    maintain; [bestSlice] shares [Less] and [Swap] with [BestQueue]. *)
Inductive QueueKind : Set := BestQueue | WorstQueue.

Definition index (k : QueueKind) (mt : metaTx) : Z :=
  match k with BestQueue => bestIndex mt | WorstQueue => worstIndex mt end.

Definition setIndex (k : QueueKind) (i : Z) (mt : metaTx) : metaTx :=
  match k with
  | BestQueue => set_bestIndex i mt
  | WorstQueue => set_worstIndex i mt
  end.

Definition less (k : QueueKind) (a b : metaTx) (fee : Z) : bool :=
  match k with BestQueue => better a b fee | WorstQueue => worse a b fee end.

Module Interface.

Definition Len (q : Queue) : Z := Z.of_nat (length (ms q)).

Definition Less (k : QueueKind) (h : Heap) (i j : Z) : option bool :=
  let '(mem, q) := h in
  pi ← elemAt (ms q) i;
  pj ← elemAt (ms q) j;
  a ← mem !! pi;
  b ← mem !! pj;
  Some (less k a b (pendingBaseFee q)).

Definition Swap (k : QueueKind) (h : Heap) (i j : Z) : option Heap :=
  let '(mem, q) := h in
  pi ← elemAt (ms q) i;
  pj ← elemAt (ms q) j;
  let ms' := <[Z.to_nat i := pj]> (<[Z.to_nat j := pi]> (ms q)) in
  a ← mem !! pj;
  let mem := <[pj := setIndex k i a]> mem in
  b ← mem !! pi;
  let mem := <[pi := setIndex k j b]> mem in
  Some (mem, mkQueue ms' (pendingBaseFee q)).

Definition Push (k : QueueKind) (h : Heap) (x : nat) : option Heap :=
  let '(mem, q) := h in
  let n := Len q in
  item ← mem !! x;
  Some (<[x := setIndex k n item]> mem, mkQueue (ms q ++ [x]) (pendingBaseFee q)).

Definition Pop (k : QueueKind) (h : Heap) : option (nat * Heap) :=
  let '(mem, q) := h in
  let n := Len q in
  item ← elemAt (ms q) (n - 1);
  a ← mem !! item;
  Some (item,
        (<[item := set_currentSubPool NoSubPool (setIndex k (-1) a)]> mem,
         mkQueue (take (Z.to_nat (n - 1)) (ms q)) (pendingBaseFee q))).

End Interface.

(** ** Package [container/heap]

    The library's five functions and its two loops, over the interface
    above.  The loops are bounded by the length of the slice, which is
    more than they can use: [up] halves its index and [down] at least
    doubles it. *)
Module heap.

Fixpoint up_loop (fuel : nat) (k : QueueKind) (h : Heap) (j : Z) : option Heap :=
  let i := Z.quot (j - 1) 2 in
  if bool_decide (i = j) then Some h
  else
    lt ← Interface.Less k h j i;
    if negb lt then Some h
    else match fuel with
         | O => None
         | S fuel' => h' ← Interface.Swap k h i j; up_loop fuel' k h' i
         end.

Definition up (k : QueueKind) (h : Heap) (j : Z) : option Heap :=
  up_loop (Z.to_nat j) k h j.

Fixpoint down_loop (fuel : nat) (k : QueueKind) (h : Heap) (i n : Z)
  : option (Z * Heap) :=
  let j1 := 2 * i + 1 in
  if bool_decide (j1 >= n) || bool_decide (j1 < 0) then Some (i, h)
  else
    let j2 := j1 + 1 in
    right ← (if bool_decide (j2 < n) then Interface.Less k h j2 j1 else Some false);
    let j := if right : bool then j2 else j1 in
    lt ← Interface.Less k h j i;
    if negb lt then Some (i, h)
    else match fuel with
         | O => None
         | S fuel' => h' ← Interface.Swap k h i j; down_loop fuel' k h' j n
         end.

Definition down (k : QueueKind) (h : Heap) (i0 n : Z) : option (bool * Heap) :=
  '(i, h') ← down_loop (Z.to_nat n) k h i0 n;
  Some (bool_decide (i > i0), h').

Definition Init (k : QueueKind) (h : Heap) : option Heap :=
  let n := Interface.Len h.2 in
  foldl (fun acc i => h ← acc; '(_, h') ← down k h (Z.of_nat i) n; Some h')
        (Some h) (rev (seq 0 (Z.to_nat (n / 2)))).

Definition Push (k : QueueKind) (h : Heap) (x : nat) : option Heap :=
  h' ← Interface.Push k h x;
  up k h' (Interface.Len h'.2 - 1).

Definition Pop (k : QueueKind) (h : Heap) : option (nat * Heap) :=
  let n := Interface.Len h.2 - 1 in
  h1 ← Interface.Swap k h 0 n;
  '(_, h2) ← down k h1 0 n;
  Interface.Pop k h2.

Definition Remove (k : QueueKind) (h : Heap) (i : Z) : option (nat * Heap) :=
  let n := Interface.Len h.2 - 1 in
  h' ← (if bool_decide (n <> i)
        then h1 ← Interface.Swap k h i n;
             '(moved, h2) ← down k h1 i n;
             if negb moved then up k h2 i else Some h2
        else Some h);
  Interface.Pop k h'.

Definition Fix (k : QueueKind) (h : Heap) (i : Z) : option Heap :=
  '(moved, h1) ← down k h i (Interface.Len h.2);
  if negb moved then up k h1 i else Some h1.

End heap.

(** ** Package [sort]

    [sort.Sort] is library code; on the short slices it is run on here
    (up to a dozen elements) it is this insertion sort. *)
Module sort.

Fixpoint insert_loop (fuel : nat) (h : Heap) (a j : Z) : option Heap :=
  if bool_decide (j > a) then
    lt ← Interface.Less BestQueue h j (j - 1);
    if lt : bool then
      match fuel with
      | O => None
      | S fuel' => h' ← Interface.Swap BestQueue h j (j - 1); insert_loop fuel' h' a (j - 1)
      end
    else Some h
  else Some h.

Definition insertionSort (h : Heap) (a b : Z) : option Heap :=
  foldl (fun acc i => h ← acc; insert_loop (Z.to_nat i) h a i)
        (Some h) (Z.add (a + 1) <$> (Z.of_nat <$> seq 0 (Z.to_nat (b - a - 1)))).

Definition Sort (h : Heap) : option Heap := insertionSort h 0 (Interface.Len h.2).

End sort.

(** ** The sub-pools

    [PendingPool] and [SubPool] have the same fields; only the type of
    [best] differs ([bestSlice] against [BestQueue]), and both are a
    [Queue] here.  Their methods differ and live in two modules.  A
    method runs on the memory together with the pool. *)
Record SubPool : Set := mkSubPool {
  limit : Z;
  t : SubPoolType;
  best : Queue;
  worst : Queue;
  adding : bool;
  added : list Z
}.

Abbreviation PendingPool := SubPool (only parsing).
Abbreviation Pool := (list metaTx * SubPool)%type (only parsing).

Definition set_best (q : Queue) (p : SubPool) : SubPool :=
  mkSubPool (limit p) (t p) q (worst p) (adding p) (added p).
Definition set_worst (q : Queue) (p : SubPool) : SubPool :=
  mkSubPool (limit p) (t p) (best p) q (adding p) (added p).
Definition set_adding (b : bool) (p : SubPool) : SubPool :=
  mkSubPool (limit p) (t p) (best p) (worst p) b (added p).
Definition set_added (h : list Z) (p : SubPool) : SubPool :=
  mkSubPool (limit p) (t p) (best p) (worst p) (adding p) h.

Definition NewSubPool (t : SubPoolType) (limit : Z) : SubPool :=
  mkSubPool limit t (mkQueue [] 0) (mkQueue [] 0) false [].

Definition resetAddedHashes (p : SubPool) : SubPool :=
  set_adding true (set_added [] p).

Definition appendAddedHashes (p : SubPool) (h : list Z) : list Z * SubPool :=
  (h ++ added p, set_adding false p).

(** The part [Add] has in common in both pools: record the hash while
    [adding] is on and stamp the pool's type on the transaction. *)
Definition noteAdded (s : Pool) (i : nat) : option Pool :=
  let '(mem, p) := s in
  mt ← mem !! i;
  let p := if adding p then set_added (added p ++ [IdHash (Tx mt)]) p else p in
  Some (<[i := set_currentSubPool (t p) mt]> mem, p).

Module bestSlice.

Definition UnsafeRemove (h : Heap) (i : nat) : option Heap :=
  mt ← h.1 !! i;
  let n := Interface.Len h.2 in
  '(mem, q) ← Interface.Swap BestQueue h (bestIndex mt) (n - 1);
  last ← elemAt (ms q) (n - 1);
  a ← mem !! last;
  Some (<[last := set_bestIndex (-1) a]> mem,
        mkQueue (take (Z.to_nat (n - 1)) (ms q)) (pendingBaseFee q)).

Definition UnsafeAdd (h : Heap) (i : nat) : option Heap :=
  let '(mem, q) := h in
  mt ← mem !! i;
  Some (<[i := set_bestIndex (Interface.Len q) mt]> mem,
        mkQueue (ms q ++ [i]) (pendingBaseFee q)).

End bestSlice.

Module PendingPool.

Definition EnforceWorstInvariants (s : Pool) : option Pool :=
  '(mem, w) ← heap.Init WorstQueue (s.1, worst s.2);
  Some (mem, set_worst w s.2).

Definition EnforceBestInvariants (s : Pool) : option Pool :=
  '(mem, b) ← sort.Sort (s.1, best s.2);
  Some (mem, set_best b s.2).

(** [nil] on an empty pool. *)
Definition Best (p : SubPool) : option nat := head (ms (best p)).
Definition Worst (p : SubPool) : option nat := head (ms (worst p)).

Definition PopWorst (s : Pool) : option (nat * Pool) :=
  '(i, (mem, w)) ← heap.Pop WorstQueue (s.1, worst s.2);
  '(mem, b) ← bestSlice.UnsafeRemove (mem, best s.2) i;
  Some (i, (mem, set_best b (set_worst w s.2))).

Definition Updated (s : Pool) (mt : nat) : option Pool :=
  a ← s.1 !! mt;
  '(mem, w) ← heap.Fix WorstQueue (s.1, worst s.2) (worstIndex a);
  Some (mem, set_worst w s.2).

Definition Len (p : SubPool) : Z := Z.of_nat (length (ms (best p))).

Definition Remove (s : Pool) (i : nat) : option Pool :=
  a ← s.1 !! i;
  '(_, (mem, w)) ← heap.Remove WorstQueue (s.1, worst s.2) (worstIndex a);
  '(mem, b) ← bestSlice.UnsafeRemove (mem, best s.2) i;
  Some (mem, set_best b (set_worst w s.2)).

Definition Add (s : Pool) (i : nat) : option Pool :=
  '(mem, p) ← noteAdded s i;
  '(mem, w) ← heap.Push WorstQueue (mem, worst p) i;
  '(mem, b) ← bestSlice.UnsafeAdd (mem, best p) i;
  Some (mem, set_best b (set_worst w p)).

End PendingPool.

Module SubPool.

Definition EnforceInvariants (s : Pool) : option Pool :=
  '(mem, w) ← heap.Init WorstQueue (s.1, worst s.2);
  '(mem, b) ← heap.Init BestQueue (mem, best s.2);
  Some (mem, set_best b (set_worst w s.2)).

Definition Best (p : SubPool) : option nat := head (ms (best p)).
Definition Worst (p : SubPool) : option nat := head (ms (worst p)).

Definition PopBest (s : Pool) : option (nat * Pool) :=
  '(i, (mem, b)) ← heap.Pop BestQueue (s.1, best s.2);
  a ← mem !! i;
  '(_, (mem, w)) ← heap.Remove WorstQueue (mem, worst s.2) (worstIndex a);
  Some (i, (mem, set_best b (set_worst w s.2))).

Definition PopWorst (s : Pool) : option (nat * Pool) :=
  '(i, (mem, w)) ← heap.Pop WorstQueue (s.1, worst s.2);
  a ← mem !! i;
  '(_, (mem, b)) ← heap.Remove BestQueue (mem, best s.2) (bestIndex a);
  Some (i, (mem, set_best b (set_worst w s.2))).

Definition Len (p : SubPool) : Z := Interface.Len (best p).

Definition Add (s : Pool) (i : nat) : option Pool :=
  '(mem, p) ← noteAdded s i;
  '(mem, b) ← heap.Push BestQueue (mem, best p) i;
  '(mem, w) ← heap.Push WorstQueue (mem, worst p) i;
  Some (mem, set_best b (set_worst w p)).

Definition Remove (s : Pool) (i : nat) : option Pool :=
  a ← s.1 !! i;
  '(_, (mem, b)) ← heap.Remove BestQueue (s.1, best s.2) (bestIndex a);
  a ← mem !! i;
  '(_, (mem, w)) ← heap.Remove WorstQueue (mem, worst s.2) (worstIndex a);
  a ← mem !! i;
  Some (<[i := set_currentSubPool NoSubPool a]> mem,
        set_best b (set_worst w s.2)).

Definition Updated (s : Pool) (i : nat) : option Pool :=
  a ← s.1 !! i;
  '(mem, b) ← heap.Fix BestQueue (s.1, best s.2) (bestIndex a);
  a ← mem !! i;
  '(mem, w) ← heap.Fix WorstQueue (mem, worst s.2) (worstIndex a);
  Some (mem, set_best b (set_worst w s.2)).

End SubPool.

(** ** The index by sender and nonce

    [BySenderAndNonce] keeps one B-tree over all senders, ordered by
    [sortByNonce.Less], and a side map with each sender's number of
    entries.  The tree is its in-order sequence of items here.  The key
    of an item is read from its slot, which never changes while the
    transaction is pooled. *)
Abbreviation Key := (Z * Z)%type (only parsing).

Definition keyOf (mt : metaTx) : Key := (senderID (Tx mt), nonce (Tx mt)).

Definition sortByNonce_Less (i than : Key) : bool :=
  if bool_decide (i.1 <> than.1) then bool_decide (i.1 < than.1)
  else bool_decide (i.2 < than.2).

Record BySenderAndNonce : Type := mkBySenderAndNonce {
  tree : list nat;
  senderIDTxnCount : gmap Z Z
}.

(** The items of the tree with their keys; a dangling item panics. *)
Definition resolve (mem : Mem) (items : list nat) : option (list (Key * nat)) :=
  mapM (fun p => mt ← mem !! p; Some (keyOf mt, p)) items.

(** [for ... { if !f(item) { break } }] over the items an iterator visits. *)
Fixpoint iterate {S A : Type} (f : A -> S -> option (bool * S)) (items : list A) (s : S)
  : option S :=
  match items with
  | [] => Some s
  | x :: rest => '(continue, s') ← f x s; if continue : bool then iterate f rest s' else Some s'
  end.

(** Package [btree], on the in-order sequence. *)
Module btree.

Fixpoint ReplaceOrInsert (items : list (Key * nat)) (x : Key * nat)
  : option nat * list nat :=
  match items with
  | [] => (None, [x.2])
  | it :: rest =>
      if sortByNonce_Less it.1 x.1
      then let '(r, rest') := ReplaceOrInsert rest x in (r, it.2 :: rest')
      else if sortByNonce_Less x.1 it.1 then (None, x.2 :: it.2 :: rest.*2)
      else (Some it.2, x.2 :: rest.*2)
  end.

Fixpoint Delete (items : list (Key * nat)) (k : Key) : option nat * list nat :=
  match items with
  | [] => (None, [])
  | it :: rest =>
      if sortByNonce_Less it.1 k
      then let '(r, rest') := Delete rest k in (r, it.2 :: rest')
      else if sortByNonce_Less k it.1 then (None, it.2 :: rest.*2)
      else (Some it.2, rest.*2)
  end.

Definition Get (items : list (Key * nat)) (k : Key) : option nat :=
  snd <$> head (filter (fun it => sortByNonce_Less it.1 k = false
                                 /\ sortByNonce_Less k it.1 = false) items).

Definition AscendGreaterOrEqual (items : list (Key * nat)) (pivot : Key)
  : list (Key * nat) :=
  filter (fun it => sortByNonce_Less it.1 pivot = false) items.

Definition DescendLessOrEqual (items : list (Key * nat)) (pivot : Key)
  : list (Key * nat) :=
  rev (filter (fun it => sortByNonce_Less pivot it.1 = false) items).

End btree.

Module BySenderAndNonce.

Definition nonce (b : BySenderAndNonce) (mem : Mem) (senderID : Z)
  : option (Z * bool) :=
  items ← resolve mem (tree b);
  Some match btree.DescendLessOrEqual items (senderID, MaxUint64) with
       | it :: _ => if bool_decide (it.1.1 = senderID) then (it.1.2, true) else (0, false)
       | [] => (0, false)
       end.

Definition ascend {S : Type} (b : BySenderAndNonce) (mem : Mem) (senderID : Z)
  (f : nat -> S -> option (bool * S)) (s : S) : option S :=
  items ← resolve mem (tree b);
  iterate (fun it s => if bool_decide (it.1.1 <> senderID) then Some (false, s)
                       else f it.2 s)
          (btree.AscendGreaterOrEqual items (senderID, 0)) s.

Definition descend {S : Type} (b : BySenderAndNonce) (mem : Mem) (senderID : Z)
  (f : nat -> S -> option (bool * S)) (s : S) : option S :=
  items ← resolve mem (tree b);
  iterate (fun it s => if bool_decide (it.1.1 <> senderID) then Some (false, s)
                       else f it.2 s)
          (btree.DescendLessOrEqual items (senderID, MaxUint64)) s.

Definition count (b : BySenderAndNonce) (senderID : Z) : Z :=
  default 0 (senderIDTxnCount b !! senderID).

Definition hasTxs (b : BySenderAndNonce) (mem : Mem) (senderID : Z) : option bool :=
  ascend b mem senderID (fun _ _ => Some (false, true)) false.

(** [nil] is [Some None]. *)
Definition get (b : BySenderAndNonce) (mem : Mem) (senderID txNonce : Z)
  : option (option nat) :=
  items ← resolve mem (tree b);
  Some (btree.Get items (senderID, txNonce)).

Definition delete (b : BySenderAndNonce) (mem : Mem) (mt : nat)
  : option BySenderAndNonce :=
  items ← resolve mem (tree b);
  a ← mem !! mt;
  let '(removed, tree') := btree.Delete items (keyOf a) in
  Some match removed with
       | Some _ =>
           let senderID := senderID (Tx a) in
           let count := count b senderID in
           mkBySenderAndNonce tree'
             (if bool_decide (count > 1)
              then <[senderID := count - 1]> (senderIDTxnCount b)
              else base.delete senderID (senderIDTxnCount b))
       | None => mkBySenderAndNonce tree' (senderIDTxnCount b)
       end.

Definition replaceOrInsert (b : BySenderAndNonce) (mem : Mem) (mt : nat)
  : option (option nat * BySenderAndNonce) :=
  items ← resolve mem (tree b);
  a ← mem !! mt;
  let '(it, tree') := btree.ReplaceOrInsert items (keyOf a, mt) in
  Some match it with
       | Some old => (Some old, mkBySenderAndNonce tree' (senderIDTxnCount b))
       | None =>
           (None, mkBySenderAndNonce tree'
                    (<[senderID (Tx a) := count b (senderID (Tx a)) + 1]>
                       (senderIDTxnCount b)))
       end.

End BySenderAndNonce.

(** ** Package [simplelru]

    A bounded map with least-recently-used eviction; [lru_items] has the
    most recently used entry first. *)
Record LRU (V : Type) : Type := mkLRU {
  lru_size : Z;
  lru_items : list (Z * V)
}.
Arguments mkLRU {V}.
Arguments lru_size {V}.
Arguments lru_items {V}.

Module simplelru.

Definition NewLRU {V : Type} (size : Z) : LRU V := mkLRU size [].

Definition without {V : Type} (key : Z) (l : list (Z * V)) : list (Z * V) :=
  filter (fun e => e.1 <> key) l.

Definition Add {V : Type} (c : LRU V) (key : Z) (v : V) : LRU V :=
  match list_find (fun e => e.1 = key) (lru_items c) with
  | Some _ => mkLRU (lru_size c) ((key, v) :: without key (lru_items c))
  | None =>
      let l := (key, v) :: lru_items c in
      mkLRU (lru_size c)
            (if bool_decide (lru_size c < Z.of_nat (length l))
             then take (length l - 1)%nat l else l)
  end.

Definition Get {V : Type} (c : LRU V) (key : Z) : option V * LRU V :=
  match list_find (fun e => e.1 = key) (lru_items c) with
  | Some (_, e) => (Some e.2, mkLRU (lru_size c) (e :: without key (lru_items c)))
  | None => (None, c)
  end.

Definition Contains {V : Type} (c : LRU V) (key : Z) : bool :=
  bool_decide (is_Some (list_find (fun e => e.1 = key) (lru_items c))).

(** Oldest first. *)
Definition Keys {V : Type} (c : LRU V) : list Z := rev (lru_items c).*1.

End simplelru.

(** ** The pool *)

Record Config : Set := mkConfig {
  PendingSubPoolLimit : Z;
  BaseFeeSubPoolLimit : Z;
  QueuedSubPoolLimit : Z;
  MinFeeCap : Z;
  AccountSlots : Z;
  PriceBump : Z
}.

Definition DefaultConfig : Config := mkConfig 10000 10000 10000 1 16 10.

(** [TxPool], without the lock, the channels, the peers and the sender
    registry.  [mem] holds the [metaTx] objects the other fields point
    to.  [poolPendingBaseFee] is the field [pendingBaseFee].  [discards]
    is not a field of the source: it records the calls of
    [discardLocked], oldest first, and nothing reads it. *)
Record TxPool : Type := mkTxPool {
  mem : list metaTx;
  lastSeenBlock : Z;
  poolPendingBaseFee : Z;
  blockGasLimit : Z;
  byHash : gmap Z nat;
  discardReasonsLRU : LRU DiscardReason;
  pending : SubPool;
  baseFee : SubPool;
  queued : SubPool;
  isLocalLRU : LRU unit;
  deletedTxs : list (option nat);
  all : BySenderAndNonce;
  promoted : list Z;
  cfg : Config;
  discards : list (nat * DiscardReason)
}.

Definition set_mem (v : list metaTx) (p : TxPool) : TxPool :=
  mkTxPool v (lastSeenBlock p) (poolPendingBaseFee p) (blockGasLimit p) (byHash p) (discardReasonsLRU p) (pending p) (baseFee p) (queued p) (isLocalLRU p) (deletedTxs p) (all p) (promoted p) (cfg p) (discards p).
Definition set_lastSeenBlock (v : Z) (p : TxPool) : TxPool :=
  mkTxPool (mem p) v (poolPendingBaseFee p) (blockGasLimit p) (byHash p) (discardReasonsLRU p) (pending p) (baseFee p) (queued p) (isLocalLRU p) (deletedTxs p) (all p) (promoted p) (cfg p) (discards p).
Definition set_poolPendingBaseFee (v : Z) (p : TxPool) : TxPool :=
  mkTxPool (mem p) (lastSeenBlock p) v (blockGasLimit p) (byHash p) (discardReasonsLRU p) (pending p) (baseFee p) (queued p) (isLocalLRU p) (deletedTxs p) (all p) (promoted p) (cfg p) (discards p).
Definition set_blockGasLimit (v : Z) (p : TxPool) : TxPool :=
  mkTxPool (mem p) (lastSeenBlock p) (poolPendingBaseFee p) v (byHash p) (discardReasonsLRU p) (pending p) (baseFee p) (queued p) (isLocalLRU p) (deletedTxs p) (all p) (promoted p) (cfg p) (discards p).
Definition set_byHash (v : gmap Z nat) (p : TxPool) : TxPool :=
  mkTxPool (mem p) (lastSeenBlock p) (poolPendingBaseFee p) (blockGasLimit p) v (discardReasonsLRU p) (pending p) (baseFee p) (queued p) (isLocalLRU p) (deletedTxs p) (all p) (promoted p) (cfg p) (discards p).
Definition set_discardReasonsLRU (v : LRU DiscardReason) (p : TxPool) : TxPool :=
  mkTxPool (mem p) (lastSeenBlock p) (poolPendingBaseFee p) (blockGasLimit p) (byHash p) v (pending p) (baseFee p) (queued p) (isLocalLRU p) (deletedTxs p) (all p) (promoted p) (cfg p) (discards p).
Definition set_pending (v : SubPool) (p : TxPool) : TxPool :=
  mkTxPool (mem p) (lastSeenBlock p) (poolPendingBaseFee p) (blockGasLimit p) (byHash p) (discardReasonsLRU p) v (baseFee p) (queued p) (isLocalLRU p) (deletedTxs p) (all p) (promoted p) (cfg p) (discards p).
Definition set_baseFee (v : SubPool) (p : TxPool) : TxPool :=
  mkTxPool (mem p) (lastSeenBlock p) (poolPendingBaseFee p) (blockGasLimit p) (byHash p) (discardReasonsLRU p) (pending p) v (queued p) (isLocalLRU p) (deletedTxs p) (all p) (promoted p) (cfg p) (discards p).
Definition set_queued (v : SubPool) (p : TxPool) : TxPool :=
  mkTxPool (mem p) (lastSeenBlock p) (poolPendingBaseFee p) (blockGasLimit p) (byHash p) (discardReasonsLRU p) (pending p) (baseFee p) v (isLocalLRU p) (deletedTxs p) (all p) (promoted p) (cfg p) (discards p).
Definition set_isLocalLRU (v : LRU unit) (p : TxPool) : TxPool :=
  mkTxPool (mem p) (lastSeenBlock p) (poolPendingBaseFee p) (blockGasLimit p) (byHash p) (discardReasonsLRU p) (pending p) (baseFee p) (queued p) v (deletedTxs p) (all p) (promoted p) (cfg p) (discards p).
Definition set_deletedTxs (v : list (option nat)) (p : TxPool) : TxPool :=
  mkTxPool (mem p) (lastSeenBlock p) (poolPendingBaseFee p) (blockGasLimit p) (byHash p) (discardReasonsLRU p) (pending p) (baseFee p) (queued p) (isLocalLRU p) v (all p) (promoted p) (cfg p) (discards p).
Definition set_all (v : BySenderAndNonce) (p : TxPool) : TxPool :=
  mkTxPool (mem p) (lastSeenBlock p) (poolPendingBaseFee p) (blockGasLimit p) (byHash p) (discardReasonsLRU p) (pending p) (baseFee p) (queued p) (isLocalLRU p) (deletedTxs p) v (promoted p) (cfg p) (discards p).
Definition set_promoted (v : list Z) (p : TxPool) : TxPool :=
  mkTxPool (mem p) (lastSeenBlock p) (poolPendingBaseFee p) (blockGasLimit p) (byHash p) (discardReasonsLRU p) (pending p) (baseFee p) (queued p) (isLocalLRU p) (deletedTxs p) (all p) v (cfg p) (discards p).
Definition set_cfg (v : Config) (p : TxPool) : TxPool :=
  mkTxPool (mem p) (lastSeenBlock p) (poolPendingBaseFee p) (blockGasLimit p) (byHash p) (discardReasonsLRU p) (pending p) (baseFee p) (queued p) (isLocalLRU p) (deletedTxs p) (all p) (promoted p) v (discards p).
Definition set_discards (v : list (nat * DiscardReason)) (p : TxPool) : TxPool :=
  mkTxPool (mem p) (lastSeenBlock p) (poolPendingBaseFee p) (blockGasLimit p) (byHash p) (discardReasonsLRU p) (pending p) (baseFee p) (queued p) (isLocalLRU p) (deletedTxs p) (all p) (promoted p) (cfg p) v.

Definition New (cfg : Config) : TxPool :=
  {| mem := [];
     lastSeenBlock := 0;
     poolPendingBaseFee := 0;
     blockGasLimit := 0;
     byHash := ∅;
     discardReasonsLRU := simplelru.NewLRU 10000;
     pending := NewSubPool PendingSubPool (PendingSubPoolLimit cfg);
     baseFee := NewSubPool BaseFeeSubPool (BaseFeeSubPoolLimit cfg);
     queued := NewSubPool QueuedSubPool (QueuedSubPoolLimit cfg);
     isLocalLRU := simplelru.NewLRU 10000;
     deletedTxs := [];
     all := mkBySenderAndNonce [] ∅;
     promoted := [];
     cfg := cfg;
     discards := [] |}.

(** Running a method of one of the three sub-pools inside the pool. *)
Definition inPending (f : Pool -> option Pool) (p : TxPool) : option TxPool :=
  '(m, sp) ← f (mem p, pending p); Some (set_mem m (set_pending sp p)).
Definition inBaseFee (f : Pool -> option Pool) (p : TxPool) : option TxPool :=
  '(m, sp) ← f (mem p, baseFee p); Some (set_mem m (set_baseFee sp p)).
Definition inQueued (f : Pool -> option Pool) (p : TxPool) : option TxPool :=
  '(m, sp) ← f (mem p, queued p); Some (set_mem m (set_queued sp p)).

Definition popPending (f : Pool -> option (nat * Pool)) (p : TxPool)
  : option (nat * TxPool) :=
  '(i, (m, sp)) ← f (mem p, pending p); Some (i, set_mem m (set_pending sp p)).
Definition popBaseFee (f : Pool -> option (nat * Pool)) (p : TxPool)
  : option (nat * TxPool) :=
  '(i, (m, sp)) ← f (mem p, baseFee p); Some (i, set_mem m (set_baseFee sp p)).
Definition popQueued (f : Pool -> option (nat * Pool)) (p : TxPool)
  : option (nat * TxPool) :=
  '(i, (m, sp)) ← f (mem p, queued p); Some (i, set_mem m (set_queued sp p)).

(** The [switch mt.currentSubPool] that takes a transaction out of the
    sub-pool it is in; it is written out in [addLocked], [removeMined]
    and [onSenderStateChange]. *)
Definition removeFromSubPool (p : TxPool) (mt : nat) : option TxPool :=
  a ← mem p !! mt;
  match currentSubPool a with
  | PendingSubPool => inPending (fun s => PendingPool.Remove s mt) p
  | BaseFeeSubPool => inBaseFee (fun s => SubPool.Remove s mt) p
  | QueuedSubPool => inQueued (fun s => SubPool.Remove s mt) p
  | NoSubPool => Some p
  end.

Definition discardLocked (mt : nat) (reason : DiscardReason) (p : TxPool)
  : option TxPool :=
  a ← mem p !! mt;
  let hash := IdHash (Tx a) in
  all' ← BySenderAndNonce.delete (all p) (mem p) mt;
  Some (set_discards (discards p ++ [(mt, reason)])
       (set_discardReasonsLRU (simplelru.Add (discardReasonsLRU p) hash reason)
       (set_all all'
       (set_deletedTxs (deletedTxs p ++ [Some mt])
       (set_byHash (base.delete hash (byHash p)) p))))).

(** [found.Tx.tip * (100 + p.cfg.PriceBump) / 100] in [uint64]. *)
Definition priceThreshold (x priceBump : Z) : Z :=
  u64 (x * u64 (100 + priceBump)) / 100.

Definition addLocked (mt : nat) (p : TxPool) : option (DiscardReason * TxPool) :=
  a ← mem p !! mt;
  found ← BySenderAndNonce.get (all p) (mem p) (senderID (Tx a)) (nonce (Tx a));
  replaced ←
    match found with
    | Some found =>
        f ← mem p !! found;
        let tipThreshold := priceThreshold (tip (Tx f)) (PriceBump (cfg p)) in
        let feecapThreshold := priceThreshold (feeCap (Tx f)) (PriceBump (cfg p)) in
        if bool_decide (tip (Tx a) < tipThreshold)
           || bool_decide (feeCap (Tx a) < feecapThreshold)
        then Some None
        else
          p ← removeFromSubPool p found;
          p ← discardLocked found ReplacedByHigherTip p;
          Some (Some p)
    | None => Some (Some p)
    end;
  match replaced with
  | None => Some (NotReplaced, p)
  | Some p =>
      let p := set_byHash (<[IdHash (Tx a) := mt]> (byHash p)) p in
      '(_, all') ← BySenderAndNonce.replaceOrInsert (all p) (mem p) mt;
      let p := set_all all' p in
      let p := if bool_decide (Z.land (subPool a) IsLocal <> 0)
               then set_isLocalLRU (simplelru.Add (isLocalLRU p) (IdHash (Tx a)) ()) p
               else p in
      p ← inQueued (fun s => SubPool.Add s mt) p;
      Some (NotSet, p)
  end.

(** ** [removeMined] *)

Definition noncesToRemove (minedTxs : list TxSlot) : gmap Z Z :=
  foldl (fun m txn =>
           match m !! senderID txn with
           | Some n => if bool_decide (nonce txn > n) then <[senderID txn := nonce txn]> m else m
           | None => <[senderID txn := nonce txn]> m
           end) ∅ minedTxs.

(** One round of the loop over [noncesToRemove]. *)
Definition removeMinedOf (discard : nat -> DiscardReason -> TxPool -> option TxPool)
  (entry : Z * Z) (p : TxPool) : option TxPool :=
  let '(senderID, nonce_) := entry in
  '(p, toDel) ←
    BySenderAndNonce.ascend (all p) (mem p) senderID
      (fun mt '(p, toDel) =>
         a ← mem p !! mt;
         if bool_decide (nonce (Tx a) > nonce_) then Some (false, (p, toDel))
         else
           p ← removeFromSubPool p mt;
           Some (true, (p, toDel ++ [mt])))
      (p, []);
  foldl (fun acc mt => p ← acc; discard mt Mined p) (Some p) toDel.

(** Go ranges over the map in an order it does not fix; the entries are
    taken in the order [entries] has them. *)
Definition removeMinedIn (discard : nat -> DiscardReason -> TxPool -> option TxPool)
  (entries : list (Z * Z)) (p : TxPool) : option TxPool :=
  foldl (fun acc e => p ← acc; removeMinedOf discard e p) (Some p) entries.

Definition removeMined (minedTxs : list TxSlot)
  (discard : nat -> DiscardReason -> TxPool -> option TxPool) (p : TxPool)
  : option TxPool :=
  removeMinedIn discard (map_to_list (noncesToRemove minedTxs)) p.

(** ** [onSenderStateChange] *)

Definition calcProtocolBaseFee (baseFee : Z) : Z := 7.

(** The variables the walk carries from one transaction to the next. *)
Record Walk : Type := mkWalk {
  noGapsNonce : Z;
  cumulativeRequiredBalance : Z;
  walkMinFeeCap : Z;
  walkMinTip : Z;
  toDel : list nat;
  walkPool : TxPool
}.

Definition setMt (mt : nat) (a : metaTx) (p : TxPool) : TxPool :=
  set_mem (<[mt := a]> (mem p)) p.

(** The function the walk calls on each transaction of the sender.  It
    always answers [true]: the walk goes on. *)
Definition onSenderStateChangeStep (senderNonce senderBalance protocolBaseFee blockGasLimit : Z)
  (unsafe : bool) (mt : nat) (w : Walk) : option (bool * Walk) :=
  let p := walkPool w in
  a ← mem p !! mt;
  if bool_decide (senderNonce > nonce (Tx a)) then
    p ← removeFromSubPool p mt;
    Some (true, mkWalk (noGapsNonce w) (cumulativeRequiredBalance w) (walkMinFeeCap w)
                  (walkMinTip w) (toDel w ++ [mt]) p)
  else
    let minFeeCap_ := min (walkMinFeeCap w) (feeCap (Tx a)) in
    let a := set_minFeeCap minFeeCap_ a in
    let minTip_ := min (walkMinTip w) (tip (Tx a)) in
    let a := set_minTip minTip_ a in
    let a := set_nonceDistance 0 a in
    let a := if bool_decide (nonce (Tx a) > senderNonce)
             then set_nonceDistance (nonce (Tx a) - senderNonce) a else a in
    let needBalance := u256 (u256 (gas (Tx a) * feeCap (Tx a)) + value (Tx a)) in
    let a := set_subPool (clearBit (subPool a) EnoughFeeCapProtocol) a in
    if bool_decide (minFeeCap a >= protocolBaseFee) then
      let a := set_subPool (Z.lor (subPool a) EnoughFeeCapProtocol) a in
      let a := set_subPool (clearBit (subPool a) NoNonceGaps) a in
      let gap := bool_decide (noGapsNonce w = nonce (Tx a)) in
      let a := if gap then set_subPool (Z.lor (subPool a) NoNonceGaps) a else a in
      let noGapsNonce_ := if gap then u64 (noGapsNonce w + 1) else noGapsNonce w in
      let a := set_subPool (clearBit (subPool a) EnoughBalance) a in
      let a := set_cumulativeBalanceDistance MaxUint64 a in
      let '(cumulative, a) :=
        if bool_decide (nonce (Tx a) >= senderNonce) then
          let cumulative := u256 (cumulativeRequiredBalance w + needBalance) in
          if bool_decide (senderBalance > cumulative) || bool_decide (senderBalance = cumulative)
          then (cumulative, set_subPool (Z.lor (subPool a) EnoughBalance) a)
          else if bool_decide (cumulative <= MaxUint64) && bool_decide (senderBalance <= MaxUint64)
          then (cumulative, set_cumulativeBalanceDistance (cumulative - senderBalance) a)
          else (cumulative, a)
        else (cumulativeRequiredBalance w, a) in
      let a := set_subPool (clearBit (subPool a) NotTooMuchGas) a in
      let a := if bool_decide (gas (Tx a) < blockGasLimit)
               then set_subPool (Z.lor (subPool a) NotTooMuchGas) a else a in
      let p := setMt mt a p in
      p ← (if unsafe then Some p
           else match currentSubPool a with
                | PendingSubPool => inPending (fun s => PendingPool.Updated s mt) p
                | BaseFeeSubPool => inBaseFee (fun s => SubPool.Updated s mt) p
                | QueuedSubPool => inQueued (fun s => SubPool.Updated s mt) p
                | NoSubPool => Some p
                end);
      Some (true, mkWalk noGapsNonce_ cumulative minFeeCap_ minTip_ (toDel w) p)
    else
      let a := set_subPool 0 a in
      Some (true, mkWalk (noGapsNonce w) (cumulativeRequiredBalance w) minFeeCap_ minTip_
                    (toDel w) (setMt mt a p)).

Definition onSenderStateChange (senderID senderNonce senderBalance protocolBaseFee blockGasLimit : Z)
  (unsafe : bool) (discard : nat -> DiscardReason -> TxPool -> option TxPool)
  (p : TxPool) : option TxPool :=
  w ← BySenderAndNonce.ascend (all p) (mem p) senderID
        (onSenderStateChangeStep senderNonce senderBalance protocolBaseFee blockGasLimit unsafe)
        (mkWalk senderNonce 0 MaxUint64 MaxUint64 [] p);
  foldl (fun acc mt => p ← acc; discard mt NonceTooLow p) (Some (walkPool w)) (toDel w).

(** ** [promote]

    Each of the eight loops takes one transaction out of a sub-pool per
    round, so the size of that sub-pool bounds its rounds. *)
Section Promote.

Variable discard : nat -> DiscardReason -> TxPool -> option TxPool.
Variable pendingBaseFee : Z.

(** Demote the worst of pending while it does not qualify. *)
Fixpoint demotePending (fuel : nat) (p : TxPool) : option TxPool :=
  if bool_decide (PendingPool.Len (pending p) > 0) then
    w ← PendingPool.Worst (pending p);
    worst ← mem p !! w;
    if bool_decide (subPool worst < BaseFeePoolBits)
       || bool_decide (minFeeCap worst < pendingBaseFee)
    then match fuel with
         | O => None
         | S fuel' =>
             '(i, p) ← popPending PendingPool.PopWorst p;
             p ← (if bool_decide (subPool worst >= BaseFeePoolBits)
                  then inBaseFee (fun s => SubPool.Add s i) p
                  else if bool_decide (subPool worst >= QueuedPoolBits)
                  then inQueued (fun s => SubPool.Add s i) p
                  else discard i FeeTooLow p);
             demotePending fuel' p
         end
    else Some p
  else Some p.

(** Promote the best of baseFee while it qualifies for pending. *)
Fixpoint promoteBaseFee (fuel : nat) (p : TxPool) : option TxPool :=
  if bool_decide (SubPool.Len (baseFee p) > 0) then
    b ← SubPool.Best (baseFee p);
    best ← mem p !! b;
    if bool_decide (subPool best >= BaseFeePoolBits)
       && bool_decide (minFeeCap best >= pendingBaseFee)
    then match fuel with
         | O => None
         | S fuel' =>
             '(i, p) ← popBaseFee SubPool.PopBest p;
             p ← inPending (fun s => PendingPool.Add s i) p;
             promoteBaseFee fuel' p
         end
    else Some p
  else Some p.

(** Demote the worst of baseFee while it does not qualify. *)
Fixpoint demoteBaseFee (fuel : nat) (p : TxPool) : option TxPool :=
  if bool_decide (SubPool.Len (baseFee p) > 0) then
    w ← SubPool.Worst (baseFee p);
    worst ← mem p !! w;
    if bool_decide (subPool worst < BaseFeePoolBits)
    then match fuel with
         | O => None
         | S fuel' =>
             '(i, p) ← popBaseFee SubPool.PopWorst p;
             p ← (if bool_decide (subPool worst >= QueuedPoolBits)
                  then inQueued (fun s => SubPool.Add s i) p
                  else discard i FeeTooLow p);
             demoteBaseFee fuel' p
         end
    else Some p
  else Some p.

(** Promote the best of queued while it qualifies. *)
Fixpoint promoteQueued (fuel : nat) (p : TxPool) : option TxPool :=
  if bool_decide (SubPool.Len (queued p) > 0) then
    b ← SubPool.Best (queued p);
    best ← mem p !! b;
    if bool_decide (subPool best >= BaseFeePoolBits)
    then match fuel with
         | O => None
         | S fuel' =>
             '(i, p) ← popQueued SubPool.PopBest p;
             p ← (if bool_decide (minFeeCap best >= pendingBaseFee)
                  then inPending (fun s => PendingPool.Add s i) p
                  else inBaseFee (fun s => SubPool.Add s i) p);
             promoteQueued fuel' p
         end
    else Some p
  else Some p.

(** Discard the worst of queued while it does not qualify. *)
Fixpoint discardQueued (fuel : nat) (p : TxPool) : option TxPool :=
  if bool_decide (SubPool.Len (queued p) > 0) then
    w ← SubPool.Worst (queued p);
    worst ← mem p !! w;
    if bool_decide (subPool worst < QueuedPoolBits)
    then match fuel with
         | O => None
         | S fuel' =>
             '(i, p) ← popQueued SubPool.PopWorst p;
             p ← discard i FeeTooLow p;
             discardQueued fuel' p
         end
    else Some p
  else Some p.

(** The three capacity loops. *)
Fixpoint overflowPending (fuel : nat) (p : TxPool) : option TxPool :=
  if bool_decide (PendingPool.Len (pending p) > limit (pending p)) then
    match fuel with
    | O => None
    | S fuel' =>
        '(i, p) ← popPending PendingPool.PopWorst p;
        p ← discard i PendingPoolOverflow p;
        overflowPending fuel' p
    end
  else Some p.

Fixpoint overflowBaseFee (fuel : nat) (p : TxPool) : option TxPool :=
  if bool_decide (SubPool.Len (baseFee p) > limit (baseFee p)) then
    match fuel with
    | O => None
    | S fuel' =>
        '(i, p) ← popBaseFee SubPool.PopWorst p;
        p ← discard i BaseFeePoolOverflow p;
        overflowBaseFee fuel' p
    end
  else Some p.

Fixpoint overflowQueued (fuel : nat) (p : TxPool) : option TxPool :=
  if bool_decide (SubPool.Len (queued p) > limit (queued p)) then
    match fuel with
    | O => None
    | S fuel' =>
        '(i, p) ← popQueued SubPool.PopWorst p;
        p ← discard i QueuedPoolOverflow p;
        overflowQueued fuel' p
    end
  else Some p.

Definition sizeOf (sp : SubPool) : nat := length (ms (best sp)).

Definition promote (p : TxPool) : option TxPool :=
  p ← demotePending (sizeOf (pending p)) p;
  p ← promoteBaseFee (sizeOf (baseFee p)) p;
  p ← demoteBaseFee (sizeOf (baseFee p)) p;
  p ← promoteQueued (sizeOf (queued p)) p;
  p ← discardQueued (sizeOf (queued p)) p;
  p ← overflowPending (sizeOf (pending p)) p;
  p ← overflowBaseFee (sizeOf (baseFee p)) p;
  overflowQueued (sizeOf (queued p)) p.

End Promote.

(** ** Adding transactions *)

(** [TxSlots]: the slots of a batch and their local flags (the senders'
    addresses belong to the registry and are left out). *)
Record TxSlots : Set := mkTxSlots {
  txs : list TxSlot;
  isLocal : list bool
}.

(** [TxSlots.Valid] is declared outside this file: the parallel slices
    must have one length. *)
Definition Valid (s : TxSlots) : bool :=
  bool_decide (length (txs s) = length (isLocal s)).

(** What the state cache knows of a sender: nonce and balance, or an
    error ([None]). *)
Abbreviation CacheView := (Z -> option (Z * Z)) (only parsing).

(** [l[i] = v]: out of range panics. *)
Definition setAt {A : Type} (l : list A) (i : nat) (v : A) : option (list A) :=
  if bool_decide (i < length l)%nat then Some (<[i := v]> l) else None.

Definition indexed {A : Type} (l : list A) : list (nat * A) := zip (seq 0 (length l)) l.

Definition noteSender (id : Z) (l : list Z) : list Z :=
  if bool_decide (id ∈ l) then l else l ++ [id].

(** The result is the reasons and whether an error is returned with
    them.  [sendersWithChangedState] is ranged over in the order of
    first insertion. *)
Definition addTxs (blockNum : Z) (cacheView : CacheView) (newTxs : TxSlots)
  (pendingBaseFee blockGasLimit : Z)
  (add : nat -> TxPool -> option (DiscardReason * TxPool))
  (discard : nat -> DiscardReason -> TxPool -> option TxPool)
  (p : TxPool) : option ((list DiscardReason * bool) * TxPool) :=
  let protocolBaseFee := calcProtocolBaseFee pendingBaseFee in
  '(p, discardReasons, sendersWithChangedState) ←
    foldl (fun acc it =>
             '(p, discardReasons, senders) ← acc;
             let '(i, txn) := it in
             match byHash p !! IdHash txn with
             | Some _ =>
                 rs ← setAt discardReasons i DuplicateHash; Some (p, rs, senders)
             | None =>
                 local ← isLocal newTxs !! i;
                 let mt := length (mem p) in
                 let p := set_mem (mem p ++ [newMetaTx txn local blockNum]) p in
                 '(reason, p) ← add mt p;
                 rs ← setAt discardReasons i reason;
                 if bool_decide (reason <> NotSet) then Some (p, rs, senders)
                 else Some (p, rs, noteSender (senderID txn) senders)
             end)
          (Some (p, replicate (length (txs newTxs)) NotSet, []))
          (indexed (txs newTxs));
  r ← foldl (fun acc senderID =>
               r ← acc;
               match r with
               | inl p =>
                   match cacheView senderID with
                   | None => Some (inr p)
                   | Some (nonce, balance) =>
                       p ← onSenderStateChange senderID nonce balance protocolBaseFee
                             blockGasLimit false discard p;
                       Some (inl p)
                   end
               | inr p => Some (inr p)
               end)
            (Some (inl p)) sendersWithChangedState;
  match r with
  | inr p => Some ((discardReasons, true), p)
  | inl p =>
      p ← promote discard pendingBaseFee p;
      p ← inPending PendingPool.EnforceBestInvariants p;
      Some ((discardReasons, false), p)
  end.

(** ** Validation *)

(** Package [fixedgas] (declared outside this file). *)
Definition TxGas : Z := 21000.
Definition TxGasContractCreation : Z := 53000.
Definition TxDataZeroGas : Z := 4.
Definition TxDataNonZeroGasFrontier : Z := 68.
Definition TxDataNonZeroGasEIP2028 : Z := 16.

(** [CalcIntrinsicGas] as [validateTx] calls it: no access list. *)
Definition CalcIntrinsicGas (dataLen dataNonZeroLen : Z)
  (isContractCreation isHomestead isEIP2028 : bool) : Z * DiscardReason :=
  let gas := if isContractCreation && isHomestead then TxGasContractCreation else TxGas in
  if bool_decide (dataLen > 0) then
    let nz := dataNonZeroLen in
    let nonZeroGas := if isEIP2028 then TxDataNonZeroGasEIP2028 else TxDataNonZeroGasFrontier in
    if bool_decide ((MaxUint64 - gas) / nonZeroGas < nz) then (0, GasUintOverflow)
    else
      let gas := u64 (gas + u64 (nz * nonZeroGas)) in
      let z := u64 (dataLen - nz) in
      if bool_decide ((MaxUint64 - gas) / TxDataZeroGas < z) then (0, GasUintOverflow)
      else (u64 (gas + u64 (z * TxDataZeroGas)), Success)
  else (gas, Success).

Definition senderInfo (stateCache : CacheView) (id : Z) : Z * Z :=
  default (0, 0) (stateCache id).

Definition validateTx (p : TxPool) (txn : TxSlot) (isLocal : bool) (stateCache : CacheView)
  : DiscardReason :=
  if negb isLocal && bool_decide (feeCap txn < MinFeeCap (cfg p)) then UnderPriced
  else
    let '(gas_, reason) := CalcIntrinsicGas (dataLen txn) (dataNonZeroLen txn)
                             (creation txn) true true in
    if bool_decide (reason <> Success) then reason
    else if bool_decide (gas_ > gas txn) then IntrinsicGas
    else if bool_decide (BySenderAndNonce.count (all p) (senderID txn) > AccountSlots (cfg p))
    then Spammer
    else
      let '(senderNonce, senderBalance) := senderInfo stateCache (senderID txn) in
      if bool_decide (senderNonce > nonce txn) then NonceTooLow
      else
        let total := u256 (u256 (gas txn * tip txn) + value txn) in
        if bool_decide (senderBalance < total) then InsufficientFunds
        else Success.

Definition punishSpammer (spammer : Z) (p : TxPool) : option TxPool :=
  let count := BySenderAndNonce.count (all p) spammer / 2 in
  if bool_decide (count > 0) then
    '(txsToDelete, _) ←
      BySenderAndNonce.descend (all p) (mem p) spammer
        (fun mt '(txsToDelete, count) =>
           Some (bool_decide (count - 1 > 0), (txsToDelete ++ [mt], count - 1)))
        ([], count);
    foldl (fun acc mt => p ← acc; discardLocked mt Spammer p) (Some p) txsToDelete
  else Some p.

(** The result is [reasons], [goodTxs] and whether an error is
    returned. *)
Definition validateTxs (txs_ : TxSlots) (stateCache : CacheView) (p : TxPool)
  : option ((list DiscardReason * TxSlots * bool) * TxPool) :=
  let reasons := replicate (length (txs txs_)) NotSet in
  if negb (Valid txs_) then Some ((reasons, mkTxSlots [] [], true), p)
  else
    '(p, reasons) ←
      foldl (fun acc it =>
               '(p, reasons) ← acc;
               let '(i, txn) := it in
               local ← isLocal txs_ !! i;
               let reason := validateTx p txn local stateCache in
               if bool_decide (reason = Success) then Some (p, reasons)
               else
                 p ← (if bool_decide (reason = Spammer)
                      then punishSpammer (senderID txn) p else Some p);
                 rs ← setAt reasons i reason;
                 Some (p, rs))
            (Some (p, reasons)) (indexed (txs txs_));
    let good := filter (fun it => reasons !! it.1 = Some NotSet)
                       (indexed (zip (txs txs_) (isLocal txs_))) in
    Some ((reasons, mkTxSlots (good.*2.*1) (good.*2.*2), false), p).

Definition fillDiscardReasons (reasons : list DiscardReason) (newTxs : TxSlots)
  (discardReasonsLRU : LRU DiscardReason)
  : option (list DiscardReason * LRU DiscardReason) :=
  foldl (fun acc it =>
           '(reasons, lru) ← acc;
           let '(i, _) := it in
           r ← reasons !! i;
           if bool_decide (r <> NotSet) then Some (reasons, lru)
           else
             txn ← txs newTxs !! i;
             let '(reason, lru) := simplelru.Get lru (IdHash txn) in
             rs ← setAt reasons i (default Success reason);
             Some (rs, lru))
        (Some (reasons, discardReasonsLRU)) (indexed reasons).

(** [AddLocalTxs] on a started pool, up to the notification.  The
    result is the reasons, or [None] where the source returns an
    error. *)
Definition AddLocalTxs (cacheView : CacheView) (newTransactions : TxSlots) (p : TxPool)
  : option (option (list DiscardReason) * TxPool) :=
  '((reasons, newTxs, err), p) ← validateTxs newTransactions cacheView p;
  if err : bool then Some (None, p)
  else
    let p := set_pending (resetAddedHashes (pending p)) p in
    let p := set_baseFee (resetAddedHashes (baseFee p)) p in
    '((addReasons, err), p) ←
      addTxs (lastSeenBlock p) cacheView newTxs (poolPendingBaseFee p) (blockGasLimit p)
             addLocked discardLocked p;
    if err : bool then Some (None, p)
    else
      reasons ← foldl (fun acc it =>
                         reasons ← acc;
                         let '(i, reason) := it in
                         if bool_decide (reason <> NotSet) then setAt reasons i reason
                         else Some reasons)
                      (Some reasons) (indexed addReasons);
      let '(h, sp) := appendAddedHashes (pending p) [] in
      let p := set_pending sp p in
      let '(h, sp) := appendAddedHashes (baseFee p) h in
      let p := set_promoted h (set_baseFee sp p) in
      '(reasons, lru) ← fillDiscardReasons reasons newTxs (discardReasonsLRU p);
      let p := set_discardReasonsLRU lru p in
      promoted_ ← foldl (fun acc it =>
                           h ← acc;
                           let '(i, reason) := it in
                           if bool_decide (reason = Success)
                           then txn ← txs newTxs !! i; Some (h ++ [IdHash txn])
                           else Some h)
                        (Some (promoted p)) (indexed reasons);
      Some (Some reasons, set_promoted promoted_ p).

(** ** Flushing to the database

    The key-value store is outside this file.  A write transaction
    [RwTx] is its three buckets and, to let an operation fail, the
    number of operations that still succeed ([None]: all of them).  An
    operation that fails returns an error and changes nothing. *)
Record RwTx : Type := mkRwTx {
  PoolTransaction : gmap Z (list Z);
  RecentLocalTransaction : list (Z * Z);
  PoolInfo : gmap string Z;
  opsLeft : option nat
}.

Module kv.

(** [None]: the operation returns an error. *)
Definition op (tx : RwTx) : option RwTx :=
  match opsLeft tx with
  | None => Some tx
  | Some O => None
  | Some (S n) =>
      Some (mkRwTx (PoolTransaction tx) (RecentLocalTransaction tx) (PoolInfo tx) (Some n))
  end.

Definition HasPoolTransaction (tx : RwTx) (k : Z) : option (bool * RwTx) :=
  tx ← op tx; Some (bool_decide (is_Some (PoolTransaction tx !! k)), tx).

Definition DeletePoolTransaction (tx : RwTx) (k : Z) : option RwTx :=
  tx ← op tx;
  Some (mkRwTx (base.delete k (PoolTransaction tx)) (RecentLocalTransaction tx)
          (PoolInfo tx) (opsLeft tx)).

Definition PutPoolTransaction (tx : RwTx) (k : Z) (v : list Z) : option RwTx :=
  tx ← op tx;
  Some (mkRwTx (<[k := v]> (PoolTransaction tx)) (RecentLocalTransaction tx)
          (PoolInfo tx) (opsLeft tx)).

Definition ClearRecentLocalTransaction (tx : RwTx) : option RwTx :=
  tx ← op tx;
  Some (mkRwTx (PoolTransaction tx) [] (PoolInfo tx) (opsLeft tx)).

Definition AppendRecentLocalTransaction (tx : RwTx) (k v : Z) : option RwTx :=
  tx ← op tx;
  Some (mkRwTx (PoolTransaction tx) (RecentLocalTransaction tx ++ [(k, v)])
          (PoolInfo tx) (opsLeft tx)).

Definition PutPoolInfo (tx : RwTx) (k : string) (v : Z) : option RwTx :=
  tx ← op tx;
  Some (mkRwTx (PoolTransaction tx) (RecentLocalTransaction tx)
          (<[k := v]> (PoolInfo tx)) (opsLeft tx)).

Definition Commit (tx : RwTx) : option RwTx := op tx.

End kv.

(** An early [return err] inside a loop: once [inr] is reached the rest
    of the loop is skipped. *)
Definition try {S A : Type} (f : A -> S -> S + S) (l : list A) (s : S) : S + S :=
  foldl (fun acc x => match acc with inl s => f x s | inr s => inr s end) (inl s) l.

(** [flushLocked], without the clean-up of the sender registry.  [inr]
    is a returned error; the pool and the transaction are as the call
    left them. *)
Definition flushLocked (tx : RwTx) (p : TxPool) : option ((TxPool * RwTx) + (TxPool * RwTx)) :=
  (* for i, mt := range p.deletedTxs *)
  r ← foldl (fun acc it =>
               r ← acc;
               match r with
               | inr s => Some (inr s)
               | inl (p, tx) =>
                   let '(i, mt) := it in
                   mt ← mt;
                   a ← mem p !! mt;
                   let idHash := IdHash (Tx a) in
                   match kv.HasPoolTransaction tx idHash with
                   | None => Some (inr (p, tx))
                   | Some (has, tx) =>
                       let deleted := if has : bool then kv.DeletePoolTransaction tx idHash
                                      else Some tx in
                       match deleted with
                       | None => Some (inr (p, tx))
                       | Some tx =>
                           Some (inl (set_deletedTxs (<[i := None]> (deletedTxs p)) p, tx))
                       end
                   end
               end)
            (Some (inl (p, tx))) (indexed (deletedTxs p));
  match r with
  | inr s => Some (inr s)
  | inl (p, tx) =>
      let txHashes := simplelru.Keys (isLocalLRU p) in
      match kv.ClearRecentLocalTransaction tx with
      | None => Some (inr (p, tx))
      | Some tx =>
          let r := try (fun it tx =>
                          match kv.AppendRecentLocalTransaction tx (Z.of_nat it.1) it.2 with
                          | Some tx => inl tx
                          | None => inr tx
                          end) (indexed txHashes) tx in
          match r with
          | inr tx => Some (inr (p, tx))
          | inl tx =>
              (* for txHash, metaTx := range p.byHash *)
              r ← foldl (fun acc it =>
                           r ← acc;
                           match r with
                           | inr s => Some (inr s)
                           | inl (p, tx) =>
                               let '(txHash, mt) := it in
                               a ← mem p !! mt;
                               match rlp (Tx a) with
                               | None => Some (inl (p, tx))
                               | Some v =>
                                   match kv.HasPoolTransaction tx txHash with
                                   | None => Some (inr (p, tx))
                                   | Some (has, tx) =>
                                       let put := if has : bool then Some tx
                                                  else kv.PutPoolTransaction tx txHash v in
                                       match put with
                                       | None => Some (inr (p, tx))
                                       | Some tx =>
                                           let slot := Tx a in
                                           let slot :=
                                             mkTxSlot (IdHash slot) (senderID slot) (nonce slot)
                                               (feeCap slot) (tip slot) (gas slot) (value slot)
                                               (dataLen slot) (dataNonZeroLen slot)
                                               (creation slot) None in
                                           Some (inl (setMt mt (set_Tx slot a) p, tx))
                                       end
                                   end
                               end
                           end)
                        (Some (inl (p, tx))) (map_to_list (byHash p));
              match r with
              | inr s => Some (inr s)
              | inl (p, tx) =>
                  match kv.PutPoolInfo tx "pending_base_fee" (poolPendingBaseFee p) with
                  | None => Some (inr (p, tx))
                  | Some tx =>
                      match kv.PutPoolInfo tx "last_seen_block" (lastSeenBlock p) with
                      | None => Some (inr (p, tx))
                      | Some tx => Some (inl (set_deletedTxs [] p, tx))
                      end
                  end
              end
          end
      end
  end.

(** [flush]: [db.Update] runs [flushLocked] in a write transaction on
    [db] and commits it when no error is returned; on an error the
    database is as it was.  The result is the pool, the database and
    whether an error is returned. *)
Definition flush (db : RwTx) (p : TxPool) : option (TxPool * RwTx * bool) :=
  r ← flushLocked db p;
  match r with
  | inr (p, _) => Some (p, db, true)
  | inl (p, tx) =>
      match kv.Commit tx with
      | Some tx => Some (p, tx, false)
      | None => Some (p, db, true)
      end
  end.

(** ** The sender registry

    [sendersBatch] interns the senders' addresses: [senderIDs] maps an
    address to its id, [senderID2Addr] maps the id back, and [senderID]
    is the last id given out.  An address is the Go string made of its
    bytes. *)
Module sendersBatch.

Record t : Type := mk {
  senderID : Z;
  senderIDs : gmap string Z;
  senderID2Addr : gmap Z string;
  tracedSenders : gset string
}.

Definition newSendersCache (tracedSenders : gset string) : t :=
  mk 0 ∅ ∅ tracedSenders.

(** A missing key reads as the zero value. *)
Definition getID (sc : t) (addr : string) : Z * bool :=
  match senderIDs sc !! addr with
  | Some id => (id, true)
  | None => (0, false)
  end.

Definition getOrCreateID (sc : t) (addr : string) : (Z * bool) * t :=
  let traced := bool_decide (addr ∈ tracedSenders sc) in
  match senderIDs sc !! addr with
  | Some id => ((id, traced), sc)
  | None =>
      let id := u64 (senderID sc + 1) in
      ((id, traced),
       mk id (<[addr := id]> (senderIDs sc)) (<[id := addr]> (senderID2Addr sc))
          (tracedSenders sc))
  end.

(** [registerNewSenders] stamps on the transaction at index [i] the id
    of the address at index [i] ([senders.At(i)], which panics when there
    is none).  The result is the transactions as stamped, their [traced]
    flags and the registry. *)
Definition registerNewSenders (sc : t) (txs : list TxSlot) (senders : list string)
  : option (list TxSlot * list bool * t) :=
  foldl (fun acc it =>
           '(stamped, flags, sc) ← acc;
           let '(i, txn) := it in
           addr ← senders !! i;
           let '((id, traced), sc) := getOrCreateID sc addr in
           let txn := mkTxSlot (IdHash txn) id (nonce txn) (feeCap txn) (tip txn) (gas txn)
                        (value txn) (dataLen txn) (dataNonZeroLen txn) (creation txn)
                        (rlp txn) in
           Some (stamped ++ [txn], flags ++ [traced], sc))
        (Some ([], [], sc)) (indexed txs).

End sendersBatch.

(** ** The last seen block in the database

    [binary.BigEndian] on byte slices; a byte is a number below 256. *)
Module binary.

Definition byte (x : Z) : Z := x mod 256.

(** [PutUint64] panics on a slice shorter than eight bytes. *)
Definition PutUint64 (b : list Z) (v : Z) : option (list Z) :=
  if bool_decide (8 <= length b)%nat then
    Some ([byte (Z.shiftr v 56); byte (Z.shiftr v 48); byte (Z.shiftr v 40);
           byte (Z.shiftr v 32); byte (Z.shiftr v 24); byte (Z.shiftr v 16);
           byte (Z.shiftr v 8); byte v] ++ drop 8 b)
  else None.

(** [Uint64] panics on a slice shorter than eight bytes. *)
Definition Uint64 (b : list Z) : option Z :=
  match b with
  | b0 :: b1 :: b2 :: b3 :: b4 :: b5 :: b6 :: b7 :: _ =>
      Some (Z.lor (Z.lor (Z.lor (Z.lor (Z.lor (Z.lor (Z.lor
              b7 (Z.shiftl b6 8)) (Z.shiftl b5 16)) (Z.shiftl b4 24)) (Z.shiftl b3 32))
              (Z.shiftl b2 40)) (Z.shiftl b1 48)) (Z.shiftl b0 56))
  | _ => None
  end.

End binary.

(** The bucket [kv.PoolInfo] as a transaction sees it: the values by
    key, and whether the operations of the transaction return an
    error. *)
Record InfoTx : Type := mkInfoTx {
  values : gmap string (list Z);
  failing : bool
}.

(** [GetOne]: nothing stored reads as the empty slice.  [None] is a
    returned error. *)
Definition GetOne (tx : InfoTx) (k : string) : option (list Z) :=
  if failing tx then None else Some (default [] (values tx !! k)).

Definition Put (tx : InfoTx) (k : string) (v : list Z) : option InfoTx :=
  if failing tx then None else Some (mkInfoTx (<[k := v]> (values tx)) (failing tx)).

Definition PoolLastSeenBlockKey : string := "last_seen_block".

(** The outer [None] is a panic, the inner one a returned error. *)
Definition LastSeenBlock (tx : InfoTx) : option (option Z) :=
  match GetOne tx PoolLastSeenBlockKey with
  | None => Some None
  | Some v =>
      if bool_decide (length v = 0%nat) then Some (Some 0)
      else n ← binary.Uint64 v; Some (Some n)
  end.

(** [common.EnsureEnoughSize] is of another package and is taken as the
    parameter [EnsureEnoughSize]. *)
Definition PutLastSeenBlock (EnsureEnoughSize : list Z -> nat -> list Z)
  (tx : InfoTx) (n : Z) (buf : list Z) : option (option InfoTx) :=
  let buf := EnsureEnoughSize buf 8%nat in
  buf ← binary.PutUint64 buf n;
  Some (Put tx PoolLastSeenBlockKey buf).

(** * Specification

    The predicates the theorems are stated with, and the sample pools
    they are run on. *)

(** ** Well-formed queues and pools *)

(** Every slot of a queue points to an object that records the slot's
    position in its index field. *)
Definition qwf (k : QueueKind) (mem : list metaTx) (l : list nat) : Prop :=
  forall (i x : nat), l !! i = Some x ->
    exists a, mem !! x = Some a /\ index k a = Z.of_nat i.

(** [b] is [a] up to the index field of kind [k]. *)
Definition upToIndex (k : QueueKind) (a b : metaTx) : Prop :=
  b = setIndex k (index k b) a.

(** What a run of [Swap]s below position [n] does to a heap: the slots
    below [n] are permuted, the objects in the queue change in their
    index field only, everything else stays. *)
Record moved (k : QueueKind) (n : nat) (h h' : list metaTx * Queue) : Prop := mkMoved {
  moved_length : length h'.1 = length h.1;
  moved_fee : pendingBaseFee h'.2 = pendingBaseFee h.2;
  moved_size : length (ms h'.2) = length (ms h.2);
  moved_elem : forall x, x ∈ ms h'.2 <-> x ∈ ms h.2;
  moved_above : forall i, (n <= i)%nat -> ms h'.2 !! i = ms h.2 !! i;
  moved_qwf : qwf k h'.1 (ms h'.2);
  moved_frame : forall x a, h.1 !! x = Some a ->
    exists a', h'.1 !! x = Some a' /\ upToIndex k a a' /\ (x ∉ ms h.2 -> a' = a)
}.

(** What taking [x] out of a heap does: [x] leaves the queue with its
    index reset and its sub-pool cleared, the others change in their
    index field only. *)
Record taken (k : QueueKind) (x : nat) (h h' : list metaTx * Queue) : Prop := mkTaken {
  taken_length : length h'.1 = length h.1;
  taken_fee : pendingBaseFee h'.2 = pendingBaseFee h.2;
  taken_size : length (ms h.2) = S (length (ms h'.2));
  taken_elem : forall y, y ∈ ms h.2 <-> y = x \/ y ∈ ms h'.2;
  taken_notin : x ∉ ms h'.2;
  taken_qwf : qwf k h'.1 (ms h'.2);
  taken_self : exists a, h.1 !! x = Some a
                 /\ h'.1 !! x = Some (set_currentSubPool NoSubPool (setIndex k (-1) a));
  taken_frame : forall y a, y <> x -> h.1 !! y = Some a ->
    exists a', h'.1 !! y = Some a' /\ upToIndex k a a' /\ (y ∉ ms h.2 -> a' = a)
}.

(** What pushing [x] on a heap does. *)
Record put (k : QueueKind) (x : nat) (h h' : list metaTx * Queue) : Prop := mkPut {
  put_length : length h'.1 = length h.1;
  put_fee : pendingBaseFee h'.2 = pendingBaseFee h.2;
  put_size : length (ms h'.2) = S (length (ms h.2));
  put_elem : forall y, y ∈ ms h'.2 <-> y = x \/ y ∈ ms h.2;
  put_qwf : qwf k h'.1 (ms h'.2);
  put_frame : forall y a, h.1 !! y = Some a ->
    exists a', h'.1 !! y = Some a' /\ upToIndex k a a'
               /\ (y <> x -> y ∉ ms h.2 -> a' = a)
}.

(** [b] is [a] up to the three fields the containers maintain:
    [bestIndex], [worstIndex] and [currentSubPool]. *)
Definition sameData (a b : metaTx) : Prop :=
  Tx a = Tx b /\ subPool a = subPool b /\ nonceDistance a = nonceDistance b
  /\ cumulativeBalanceDistance a = cumulativeBalanceDistance b
  /\ minFeeCap a = minFeeCap b /\ minTip a = minTip b /\ timestamp a = timestamp b.

(** A sub-pool is well formed when both its queues are and they hold
    the same transactions. *)
Definition poolwf (mem : list metaTx) (sp : SubPool) : Prop :=
  qwf BestQueue mem (ms (best sp)) /\ qwf WorstQueue mem (ms (worst sp))
  /\ forall x, x ∈ ms (best sp) <-> x ∈ ms (worst sp).

Definition static (sp sp' : SubPool) : Prop :=
  limit sp' = limit sp /\ t sp' = t sp.

(** A sub-pool method took [x] out. *)
Record poolTaken (x : nat) (s s' : list metaTx * SubPool) : Prop := mkPoolTaken {
  pt_length : length s'.1 = length s.1;
  pt_static : static s.2 s'.2 /\ adding s'.2 = adding s.2 /\ added s'.2 = added s.2;
  pt_size : length (ms (best s.2)) = S (length (ms (best s'.2)));
  pt_elem : forall y, y ∈ ms (best s.2) <-> y = x \/ y ∈ ms (best s'.2);
  pt_notin : x ∉ ms (best s'.2);
  pt_wf : poolwf s'.1 s'.2;
  pt_self : exists a a', s.1 !! x = Some a /\ s'.1 !! x = Some a' /\ sameData a a'
                         /\ currentSubPool a' = NoSubPool;
  pt_frame : forall y a, y <> x -> s.1 !! y = Some a ->
    exists a', s'.1 !! y = Some a' /\ sameData a a'
               /\ currentSubPool a' = currentSubPool a
               /\ (y ∉ ms (best s.2) -> a' = a)
}.

(** A sub-pool method put [x] in. *)
Record poolPut (x : nat) (s s' : list metaTx * SubPool) : Prop := mkPoolPut {
  pp_length : length s'.1 = length s.1;
  pp_static : static s.2 s'.2;
  pp_size : length (ms (best s'.2)) = S (length (ms (best s.2)));
  pp_elem : forall y, y ∈ ms (best s'.2) <-> y = x \/ y ∈ ms (best s.2);
  pp_wf : poolwf s'.1 s'.2;
  pp_self : exists a a', s.1 !! x = Some a /\ s'.1 !! x = Some a' /\ sameData a a'
                         /\ currentSubPool a' = t s.2;
  pp_frame : forall y a, y <> x -> s.1 !! y = Some a ->
    exists a', s'.1 !! y = Some a' /\ sameData a a'
               /\ currentSubPool a' = currentSubPool a
               /\ (y ∉ ms (best s.2) -> a' = a)
}.

(** A sub-pool method re-ordered the queues. *)
Record poolMoved (s s' : list metaTx * SubPool) : Prop := mkPoolMoved {
  pm_length : length s'.1 = length s.1;
  pm_static : static s.2 s'.2 /\ adding s'.2 = adding s.2 /\ added s'.2 = added s.2;
  pm_size : length (ms (best s'.2)) = length (ms (best s.2));
  pm_elem : forall y, y ∈ ms (best s'.2) <-> y ∈ ms (best s.2);
  pm_wf : poolwf s'.1 s'.2;
  pm_frame : forall y a, s.1 !! y = Some a ->
    exists a', s'.1 !! y = Some a' /\ sameData a a'
               /\ currentSubPool a' = currentSubPool a
               /\ (y ∉ ms (best s.2) -> a' = a)
}.

Definition otherKind (k : QueueKind) : QueueKind :=
  match k with BestQueue => WorstQueue | WorstQueue => BestQueue end.

Definition queueOf (k : QueueKind) (sp : SubPool) : Queue :=
  match k with BestQueue => best sp | WorstQueue => worst sp end.

Definition setQueue (k : QueueKind) (q : Queue) (sp : SubPool) : SubPool :=
  match k with BestQueue => set_best q sp | WorstQueue => set_worst q sp end.

(** ** Well-formed pools *)

Definition members (sp : SubPool) : list nat := ms (best sp).

(** The sub-pool a [SubPoolType] names. *)
Definition poolOf (c : SubPoolType) (p : TxPool) : SubPool :=
  match c with
  | BaseFeeSubPool => baseFee p
  | QueuedSubPool => queued p
  | _ => pending p
  end.

Definition setPoolOf (c : SubPoolType) (sp : SubPool) (p : TxPool) : TxPool :=
  match c with
  | BaseFeeSubPool => set_baseFee sp p
  | QueuedSubPool => set_queued sp p
  | _ => set_pending sp p
  end.

(** The three sub-pools are well formed, every transaction is in the
    sub-pool its [currentSubPool] names and in no other, and the index
    by nonce holds no dangling pointer. *)
Record poolsOK (p : TxPool) : Prop := mkPoolsOK {
  ok_wf : forall c, poolwf (mem p) (poolOf c p);
  ok_type : forall c, c <> NoSubPool -> t (poolOf c p) = c;
  ok_placed : forall x a c, mem p !! x = Some a -> c <> NoSubPool ->
    (x ∈ members (poolOf c p) <-> currentSubPool a = c);
  ok_tree : forall x, x ∈ tree (all p) -> is_Some (mem p !! x)
}.

(** The fields a sub-pool method does not touch. *)
Definition sameRest (p p' : TxPool) : Prop :=
  all p' = all p /\ byHash p' = byHash p /\ discards p' = discards p
  /\ deletedTxs p' = deletedTxs p /\ discardReasonsLRU p' = discardReasonsLRU p
  /\ isLocalLRU p' = isLocalLRU p /\ cfg p' = cfg p.

(** The memory changed in the fields the containers maintain only. *)
Definition memFrame (p p' : TxPool) : Prop :=
  length (mem p') = length (mem p)
  /\ forall y a, mem p !! y = Some a -> exists a', mem p' !! y = Some a' /\ sameData a a'.

(** [x] left the sub-pool [c] and is in none. *)
Record detached (c : SubPoolType) (x : nat) (p p' : TxPool) : Prop := mkDetached {
  d_rest : sameRest p p';
  d_mem : memFrame p p';
  d_others : forall c', c' <> c -> c' <> NoSubPool -> poolOf c' p' = poolOf c' p;
  d_limit : limit (poolOf c p') = limit (poolOf c p);
  d_size : length (members (poolOf c p)) = S (length (members (poolOf c p')));
  d_elem : forall y, y ∈ members (poolOf c p) <-> y = x \/ y ∈ members (poolOf c p');
  d_ok : poolsOK p';
  d_self : exists a', mem p' !! x = Some a' /\ currentSubPool a' = NoSubPool;
  d_frame : forall y a, y <> x -> mem p !! y = Some a ->
    exists a', mem p' !! y = Some a' /\ currentSubPool a' = currentSubPool a
}.

(** [x], which was in no sub-pool, entered the sub-pool [c]. *)
Record attached (c : SubPoolType) (x : nat) (p p' : TxPool) : Prop := mkAttached {
  a_rest : sameRest p p';
  a_mem : memFrame p p';
  a_others : forall c', c' <> c -> c' <> NoSubPool -> poolOf c' p' = poolOf c' p;
  a_limit : limit (poolOf c p') = limit (poolOf c p);
  a_size : length (members (poolOf c p')) = S (length (members (poolOf c p)));
  a_elem : forall y, y ∈ members (poolOf c p') <-> y = x \/ y ∈ members (poolOf c p);
  a_ok : poolsOK p';
  a_frame : forall y a, y <> x -> mem p !! y = Some a ->
    exists a', mem p' !! y = Some a' /\ currentSubPool a' = currentSubPool a
}.

(** What a step of [promote] does to the pool as a whole: the pool stays
    well formed, the limits stay, and [l] is what was discarded. *)
Record advanced (l : list (nat * DiscardReason)) (p p' : TxPool) : Prop := mkAdvanced {
  adv_ok : poolsOK p';
  adv_limit : forall c, limit (poolOf c p') = limit (poolOf c p);
  adv_discards : discards p' = discards p ++ l
}.

Definition sizeIn (c : SubPoolType) (p : TxPool) : nat := length (members (poolOf c p)).

(** Every discard of [l] has the reason [r]. *)
Definition tagged (r : DiscardReason) (l : list (nat * DiscardReason)) : Prop :=
  Forall (fun e => e.2 = r) l.

(** ** Checking well-formedness by computation *)

Definition qwfb (k : QueueKind) (mem : list metaTx) (l : list nat) : bool :=
  forallb (fun it => match mem !! it.2 with
                     | Some a => bool_decide (index k a = Z.of_nat it.1)
                     | None => false
                     end) (indexed l).

Definition poolwfb (mem : list metaTx) (sp : SubPool) : bool :=
  qwfb BestQueue mem (ms (best sp)) && qwfb WorstQueue mem (ms (worst sp))
  && forallb (fun x => bool_decide (x ∈ ms (worst sp))) (ms (best sp))
  && forallb (fun x => bool_decide (x ∈ ms (best sp))) (ms (worst sp)).

Definition realPools : list SubPoolType := [PendingSubPool; BaseFeeSubPool; QueuedSubPool].

Definition poolsOKb (p : TxPool) : bool :=
  forallb (fun c => poolwfb (mem p) (poolOf c p) && bool_decide (t (poolOf c p) = c)) realPools
  && forallb (fun it =>
       forallb (fun c => bool_decide (bool_decide (it.1 ∈ members (poolOf c p))
                                      = bool_decide (currentSubPool it.2 = c))) realPools)
     (indexed (mem p))
  && forallb (fun x => bool_decide (is_Some (mem p !! x))) (tree (all p)).

(** The transactions of a sender in the index by nonce, in the order of
    the index. *)
Definition senderTxs (p : TxPool) (sender : Z) : list nat :=
  filter (fun x => senderID ∘ Tx <$> mem p !! x = Some sender) (tree (all p)).

(** The order of the index, on pointers. *)
Definition before (mem : list metaTx) (x y : nat) : Prop :=
  exists a b, mem !! x = Some a /\ mem !! y = Some b
              /\ sortByNonce_Less (keyOf a) (keyOf b) = true.

(** The index is in the order of its keys, and its nonces are [uint64]. *)
Definition indexSorted (p : TxPool) : Prop :=
  StronglySorted (before (mem p)) (tree (all p))
  /\ forall x a, x ∈ tree (all p) -> mem p !! x = Some a -> 0 <= nonce (Tx a) <= MaxUint64.

(** The items of the index, with their keys, are in order. *)
Definition keysSorted (items : list (Key * nat)) : Prop :=
  StronglySorted (fun i j => sortByNonce_Less i.1 j.1 = true) items.

(** The key of an item is the key of the transaction it points to. *)
Definition keyed (mem : list metaTx) (it : Key * nat) : Prop :=
  exists a, mem !! it.2 = Some a /\ it.1 = keyOf a.

(** The transactions of [V] left the sub-pools; nothing else changed
    but the places in the queues. *)
Definition cleared (V : list nat) (p p' : TxPool) : Prop :=
  sameRest p p' /\ memFrame p p' /\ poolsOK p'
  /\ (forall c y, y ∈ members (poolOf c p') <-> y ∈ members (poolOf c p) /\ y ∉ V)
  /\ (forall y a, y ∉ V -> mem p !! y = Some a ->
        exists a', mem p' !! y = Some a' /\ currentSubPool a' = currentSubPool a).

(** [P] holds of the transaction at [x]. *)
Definition holds (p : TxPool) (P : TxSlot -> Prop) (x : nat) : Prop :=
  exists a, mem p !! x = Some a /\ P (Tx a).

(** The pool's indexes agree: the sub-pools are well formed, the index
    by nonce is in order, every pooled transaction is in it, and
    [byHash] holds its transactions under their hashes.  [addLocked] puts
    a transaction in both indexes and in a sub-pool, and the callers of
    [discardLocked] in [addLocked], [removeMined], [onSenderStateChange]
    and [promote] take it out of its sub-pool first.  [punishSpammer]
    does not: the transactions it discarded stay in their sub-pool, out
    of the index, and [c_pooled] does not hold of such a pool. *)
Record consistent (p : TxPool) : Prop := mkConsistent {
  c_ok : poolsOK p;
  c_sorted : indexSorted p;
  c_pooled : forall c x, x ∈ members (poolOf c p) -> x ∈ tree (all p);
  c_hashed : forall x a, x ∈ tree (all p) -> mem p !! x = Some a ->
    byHash p !! IdHash (Tx a) = Some x;
  c_byHash : forall h x, byHash p !! h = Some x ->
    x ∈ tree (all p) /\ exists a, mem p !! x = Some a /\ IdHash (Tx a) = h
}.

(** The transactions of which [P] holds left the pool, discarded as
    [Mined]; the others are where they were. *)
Record swept (P : TxSlot -> Prop) (p p' : TxPool) : Prop := mkSwept {
  sw_consistent : consistent p';
  sw_mem : memFrame p p';
  sw_csp : forall y a, mem p !! y = Some a -> ~ P (Tx a) ->
    exists a', mem p' !! y = Some a' /\ currentSubPool a' = currentSubPool a;
  sw_tree : forall y, y ∈ tree (all p') <-> y ∈ tree (all p) /\ ~ holds p P y;
  sw_members : forall c y,
    y ∈ members (poolOf c p') <-> y ∈ members (poolOf c p) /\ ~ holds p P y;
  sw_byHash : forall h y, byHash p' !! h = Some y <-> byHash p !! h = Some y /\ ~ holds p P y;
  sw_discards : exists l,
    discards p' = discards p ++ ((fun x => (x, Mined)) <$> l)
    /\ forall y, y ∈ l <-> y ∈ tree (all p) /\ holds p P y
}.

(** The sender of [tx] is the sender of a mined transaction and the
    nonce of [tx] is at most the highest mined nonce of that sender. *)
Definition minedBelow (minedTxs : list TxSlot) (tx : TxSlot) : Prop :=
  exists top, top ∈ minedTxs /\ senderID top = senderID tx
              /\ (forall t, t ∈ minedTxs -> senderID t = senderID tx -> nonce t <= nonce top)
              /\ nonce tx <= nonce top.

(** ** The index by sender and nonce *)

(** The index points at pooled objects only. *)
Definition indexValid (p : TxPool) : Prop :=
  forall x, x ∈ tree (all p) -> is_Some (mem p !! x).

(** [senderIDTxnCount] counts the transactions of every sender in the
    index. *)
Definition counted (p : TxPool) : Prop :=
  forall sender,
    BySenderAndNonce.count (all p) sender = Z.of_nat (length (senderTxs p sender)).

(** [counted], by computation: the senders to check are those of the
    counts and those of the index. *)
Definition countedb (p : TxPool) : bool :=
  forallb (fun s => bool_decide (BySenderAndNonce.count (all p) s
                                 = Z.of_nat (length (senderTxs p s))))
          ((map_to_list (senderIDTxnCount (all p))).*1
           ++ omap (fun x => senderID ∘ Tx <$> mem p !! x) (tree (all p))).

(** ** Checking consistency by computation *)

Fixpoint sortedb (items : list (Key * nat)) : bool :=
  match items with
  | [] => true
  | it :: rest => forallb (fun j => sortByNonce_Less it.1 j.1) rest && sortedb rest
  end.

Definition indexSortedb (p : TxPool) : bool :=
  match resolve (mem p) (tree (all p)) with
  | Some items =>
      sortedb items && forallb (fun it => bool_decide (0 <= it.1.2 <= MaxUint64)) items
  | None => false
  end.

Definition consistentb (p : TxPool) : bool :=
  poolsOKb p && indexSortedb p
  && forallb (fun c => forallb (fun x => bool_decide (x ∈ tree (all p)))
                               (members (poolOf c p))) realPools
  && forallb (fun x => match mem p !! x with
                       | Some a => bool_decide (byHash p !! IdHash (Tx a) = Some x)
                       | None => false
                       end) (tree (all p))
  && forallb (fun hx => bool_decide (hx.2 ∈ tree (all p))
                        && match mem p !! hx.2 with
                           | Some a => bool_decide (IdHash (Tx a) = hx.1)
                           | None => false
                           end) (map_to_list (byHash p)).

(** The capacity limits of the three sub-pools stay. *)
Definition sameLimits (p p' : TxPool) : Prop :=
  forall c, limit (poolOf c p') = limit (poolOf c p).

(** ** The walk over the transactions of a sender *)

(** What the walk of [onSenderStateChange] over transactions of
    [sender] does to the pool before anything is discarded: the
    transactions of [V] left their sub-pools, the others are where they
    were; the objects keep their transaction, and those of other
    senders all their data. *)
Record walked (sender : Z) (V : list nat) (p p' : TxPool) : Prop := mkWalked {
  wk_rest : sameRest p p';
  wk_ok : poolsOK p';
  wk_limit : sameLimits p p';
  wk_length : length (mem p') = length (mem p);
  wk_tx : forall y b, mem p !! y = Some b ->
    exists b', mem p' !! y = Some b' /\ Tx b' = Tx b
               /\ (senderID (Tx b) <> sender -> sameData b b');
  wk_members : forall c y,
    y ∈ members (poolOf c p') <-> y ∈ members (poolOf c p) /\ y ∉ V;
  wk_csp : forall y b, y ∉ V -> mem p !! y = Some b ->
    exists b', mem p' !! y = Some b' /\ currentSubPool b' = currentSubPool b
}.

(** The nonce of [x] is below the nonce of the sender. *)
Definition lowNonce (p : TxPool) (senderNonce : Z) (x : nat) : bool :=
  match mem p !! x with
  | Some a => bool_decide (senderNonce > nonce (Tx a))
  | None => false
  end.

(** ** Moving transactions between the sub-pools *)

(** The transaction is in one of the sub-pools. *)
Definition pooled (p : TxPool) (y : nat) : Prop :=
  exists c, y ∈ members (poolOf c p).

(** What a run of [promote] does to the pool: the indexes still agree,
    the transactions of [l] left the sub-pools and both indexes, and
    every other pooled transaction is still pooled. *)
Record settled (l : list (nat * DiscardReason)) (p p' : TxPool) : Prop := mkSettled {
  st_consistent : consistent p';
  st_counted : counted p';
  st_frame : memFrame p p';
  st_discards : discards p' = discards p ++ l;
  st_tree : forall y, y ∈ tree (all p') <-> y ∈ tree (all p) /\ y ∉ l.*1;
  st_pooled : forall y, pooled p' y <-> pooled p y /\ y ∉ l.*1;
  st_byHash : forall h y, byHash p' !! h = Some y <-> byHash p !! h = Some y /\ y ∉ l.*1;
  st_limit : forall c, limit (poolOf c p') = limit (poolOf c p);
  st_from : forall y, y ∈ l.*1 -> pooled p y
}.

(** ** The two halves of [promote] *)

(** The first five loops of [promote], which move between the sub-pools
    and discard what does not qualify. *)
Definition requalify (discard : nat -> DiscardReason -> TxPool -> option TxPool)
  (pendingBaseFee : Z) (p : TxPool) : option TxPool :=
  p ← demotePending discard pendingBaseFee (sizeOf (pending p)) p;
  p ← promoteBaseFee pendingBaseFee (sizeOf (baseFee p)) p;
  p ← demoteBaseFee discard (sizeOf (baseFee p)) p;
  p ← promoteQueued pendingBaseFee (sizeOf (queued p)) p;
  discardQueued discard (sizeOf (queued p)) p.

(** The last three loops of [promote], which bring each sub-pool within
    its limit. *)
Definition enforceLimits (discard : nat -> DiscardReason -> TxPool -> option TxPool)
  (p : TxPool) : option TxPool :=
  p ← overflowPending discard (sizeOf (pending p)) p;
  p ← overflowBaseFee discard (sizeOf (baseFee p)) p;
  overflowQueued discard (sizeOf (queued p)) p.

(** The markers of the transaction at [x] do not let it stay in any
    sub-pool. *)
Definition unqualified (p : TxPool) (x : nat) : Prop :=
  exists a, mem p !! x = Some a /\ subPool a < QueuedPoolBits.

(** Every discard of [l] has the reason [FeeTooLow] and is of a
    transaction whose markers do not let it stay. *)
Definition lowFee (p : TxPool) (l : list (nat * DiscardReason)) : Prop :=
  Forall (fun e => e.2 = FeeTooLow /\ unqualified p e.1) l.

(** What loops of [promote] do to the pool: besides [advanced], no
    transaction object changes its data, the transactions of [l] were in
    a sub-pool and are in none, and every other transaction of a
    sub-pool is still in one. *)
Record shifted (l : list (nat * DiscardReason)) (p p' : TxPool) : Prop := mkShifted {
  sh_advanced : advanced l p p';
  sh_frame : memFrame p p';
  sh_pooled : forall y, pooled p' y <-> pooled p y /\ y ∉ l.*1;
  sh_from : forall y, y ∈ l.*1 -> pooled p y
}.

(** What a capacity loop does to the sub-pool [c] it works on: [l] is
    what it took out of [c], as many as [c] held above its limit, and
    the other sub-pools are as they were. *)
Record evicted (c : SubPoolType) (l : list (nat * DiscardReason)) (p p' : TxPool)
  : Prop := mkEvicted {
  ev_members : members (poolOf c p) ≡ₚ l.*1 ++ members (poolOf c p');
  ev_excess : length l = Z.to_nat (Z.of_nat (sizeIn c p) - limit (poolOf c p));
  ev_others : forall c', c' <> c -> c' <> NoSubPool -> poolOf c' p' = poolOf c' p
}.

(** The registry is in order: an address with an id is the address of
    that id, the ids given out are between 1 and the counter, and the
    counter is a [uint64]. *)
Record registered (sc : sendersBatch.t) : Prop := mkRegistered {
  reg_back : forall addr id,
    sendersBatch.senderIDs sc !! addr = Some id ->
    sendersBatch.senderID2Addr sc !! id = Some addr;
  reg_range : forall addr id,
    sendersBatch.senderIDs sc !! addr = Some id -> 1 <= id <= sendersBatch.senderID sc;
  reg_counter : 0 <= sendersBatch.senderID sc <= MaxUint64
}.

(** The transaction [txn] with the sender id [id]. *)
Definition stamped (id : Z) (txn : TxSlot) : TxSlot :=
  mkTxSlot (IdHash txn) id (nonce txn) (feeCap txn) (tip txn) (gas txn) (value txn)
    (dataLen txn) (dataNonZeroLen txn) (creation txn) (rlp txn).

(** * Steps of [addTxs] *)


(** * The loops of [addTxs] *)




(** ** Sample pools *)

Definition sampleSlot (hash sender nonce_ feeCap_ tip_ : Z) : TxSlot :=
  mkTxSlot hash sender nonce_ feeCap_ tip_ 21000 0 0 0 false (Some []).

(** Every sender has nonce 0 and a balance of one ether. *)
Definition sampleView : Z -> option (Z * Z) := fun _ => Some (0, 10 ^ 18).

Definition sampleConfig (pendingLimit : Z) : Config := mkConfig pendingLimit 100 100 1 16 10.

(** A started pool: pending base fee 10, block gas limit thirty
    million. *)
Definition samplePool (pendingLimit : Z) : TxPool :=
  set_poolPendingBaseFee 10 (set_blockGasLimit 30000000 (New (sampleConfig pendingLimit))).

(** [addTxs] as [processRemoteTxs] and [AddLocalTxs] call it, on slots
    paired with their local flag. *)
Definition addBatch (batch : list (TxSlot * bool)) (p : TxPool) : option TxPool :=
  '(_, p) ← addTxs (lastSeenBlock p) sampleView (mkTxSlots batch.*1 batch.*2)
             (poolPendingBaseFee p) (blockGasLimit p) addLocked discardLocked p;
  Some p.

Definition withPendingLimit (n : Z) (p : TxPool) : TxPool :=
  set_pending (mkSubPool n (t (pending p)) (best (pending p)) (worst (pending p))
                 (adding (pending p)) (added (pending p))) p.

(** Three senders with one pending transaction each, in a pending
    sub-pool whose limit is two. *)
Definition threePending : TxPool :=
  withPendingLimit 2
    (default (samplePool 100)
       (addBatch [(sampleSlot 1 1 0 100 10, false); (sampleSlot 2 2 0 100 5, false);
                  (sampleSlot 3 3 0 100 1, false)] (samplePool 100))).

(** *** The run behind C1

    Pending holds two transactions at most.  Sender 1 submits [txA]
    (nonce 0, remote) and [txB] (nonce 1, local); sender 2 submits the
    local [txD] with a lower fee cap, which overflows pending; sender 1
    then submits the local [txC] for nonce 0 with a fee cap below the
    protocol base fee. *)
Definition txA : TxSlot := sampleSlot 1 1 0 100 1.
Definition txB : TxSlot := sampleSlot 2 1 1 100 1.
Definition txC : TxSlot := sampleSlot 4 1 0 5 1.
Definition txD : TxSlot := sampleSlot 3 2 0 50 1.

Definition staleRun1 : option TxPool := addBatch [(txA, false); (txB, true)] (samplePool 2).
Definition staleRun2 : option TxPool := staleRun1 ≫= addBatch [(txD, true)].
Definition staleRun3 : option TxPool := staleRun2 ≫= addBatch [(txC, true)].

(** *** The batches behind C6 and C9

    [txLowGas] offers less gas than a plain transfer needs, so it fails
    validation with [IntrinsicGas]; [txA] passes. *)
Definition txLowGas : TxSlot := mkTxSlot 9 3 0 100 1 20000 0 0 0 false (Some []).

Definition badThenGood : TxSlots := mkTxSlots [txLowGas; txA] [true; true].
Definition goodThenBad : TxSlots := mkTxSlots [txA; txLowGas] [true; true].

(** *** The database behind C8: empty, and its [n]-th operation from now
    fails. *)
Definition failingAfter (n : nat) : RwTx := mkRwTx ∅ [] ∅ (Some n).


Definition samplePending : metaTx :=
  mkMetaTx (sampleSlot 1 1 0 100 1) 60 0 0 100 1 0 0 PendingSubPool 1.
Definition samplePending' : metaTx :=
  mkMetaTx (sampleSlot 2 2 0 50 1) 61 0 0 50 1 1 1 PendingSubPool 2.

(** The walk over sender 1 of [threePending] when an earlier
    transaction brought the running minimum of the fee caps to 5. *)
Definition sampleWalk : Walk := mkWalk 0 0 5 MaxUint64 [] threePending.

Definition sampleWalked : metaTx :=
  mkMetaTx (sampleSlot 1 1 0 100 10) 60 0 MaxUint64 100 10 0 0 PendingSubPool 0.


Definition txE : TxSlot := sampleSlot 5 1 2 100 1.

(** [txA] and [txB] of sender 1 are pending. *)
Definition twoPending : TxPool := default (samplePool 2) staleRun1.

(** *** The run behind C3

    One slot per account.  Sender 1 has [txA] (nonce 0) and [txB]
    (nonce 1) pending and submits the local [txE] (nonce 2), which
    [AddLocalTxs] rejects as [Spammer]; a block then mines [txA] and
    [txB]. *)
Definition oneSlotStart : TxPool := set_cfg (mkConfig 100 100 100 1 1 10) (samplePool 100).

Definition spammerRun1 : option TxPool :=
  addBatch [(txA, false); (txB, false)] oneSlotStart.

Definition spammerRun2 : option TxPool :=
  p ← spammerRun1;
  '(_, p) ← AddLocalTxs sampleView (mkTxSlots [txE] [true]) p;
  Some p.

Definition spammerRun3 : option TxPool :=
  spammerRun2 ≫= removeMined [txA; txB] discardLocked.

(** *** The run behind C2

    Sender 1 has [txBig] pooled, whose tip and fee cap are [2^63], and
    submits [txSmall] for the same nonce with tip and fee cap 1.  The
    sender can pay for both. *)
Definition txBig : TxSlot := sampleSlot 1 1 0 (2 ^ 63) (2 ^ 63).
Definition txSmall : TxSlot := sampleSlot 2 1 0 1 1.
Definition richView : Z -> option (Z * Z) := fun _ => Some (0, 2 ^ 100).

Definition bigPooled : option TxPool :=
  '(_, p) ← addTxs 0 richView (mkTxSlots [txBig] [false]) 10 30000000
             addLocked discardLocked (samplePool 100);
  Some p.

(** [samplePending] again, seen four ticks later. *)
Definition sampleLater : metaTx :=
  mkMetaTx (sampleSlot 3 3 0 100 1) 60 0 0 100 1 2 2 PendingSubPool 5.

(** [txA] as [twoPending] holds it. *)
Definition sampleIndexed : metaTx :=
  mkMetaTx txA 60 0 MaxUint64 100 1 1 0 PendingSubPool 0.

(** [twoPending] as [addTxs] hands it to [addLocked] for the remote
    transaction [tx]: the new object is the last of the memory. *)
Definition twoPendingWith (tx : TxSlot) : TxPool :=
  set_mem (mem twoPending ++ [newMetaTx tx false 0]) twoPending.

(** The registry [newSendersCache] makes, after [addrs] were
    registered in turn. *)
Definition sampleRegistry (addrs : list string) : sendersBatch.t :=
  foldl (fun sc addr => (sendersBatch.getOrCreateID sc addr).2)
        (sendersBatch.newSendersCache ∅) addrs.

(** An empty bucket whose operations succeed. *)
Definition sampleInfo : InfoTx := mkInfoTx ∅ false.

(** A buffer of [size] bytes that starts with the content of [buf]. *)
Definition sampleEnsure (buf : list Z) (size : nat) : list Z :=
  take size buf ++ replicate (size - length buf) 0.


(** * Proofs *)

Section HeapFacts.

(** * Facts about the queues and package heap *)

#[local] Arguments Interface.Swap : simpl never.
#[local] Arguments Interface.Less : simpl never.
#[local] Arguments Interface.Pop : simpl never.
#[local] Arguments Interface.Push : simpl never.

Lemma setIndex_index (k : QueueKind) (a : metaTx) : setIndex k (index k a) a = a.
Proof. destruct k, a; reflexivity. Qed.

Lemma index_setIndex (k : QueueKind) (i : Z) (a : metaTx) : index k (setIndex k i a) = i.
Proof. destruct k, a; reflexivity. Qed.

Lemma setIndex_setIndex (k : QueueKind) (i j : Z) (a : metaTx) :
  setIndex k i (setIndex k j a) = setIndex k i a.
Proof. destruct k, a; reflexivity. Qed.

Lemma upToIndex_refl (k : QueueKind) (a : metaTx) : upToIndex k a a.
Proof. unfold upToIndex. by rewrite setIndex_index. Qed.

Lemma upToIndex_trans (k : QueueKind) (a b c : metaTx) :
  upToIndex k a b -> upToIndex k b c -> upToIndex k a c.
Proof.
  unfold upToIndex. intros Hab Hbc. rewrite Hbc at 1. rewrite Hab.
  by rewrite setIndex_setIndex.
Qed.

Lemma upToIndex_set (k : QueueKind) (i : Z) (a : metaTx) : upToIndex k a (setIndex k i a).
Proof. unfold upToIndex. by rewrite index_setIndex. Qed.

Lemma elemAt_of_nat {A : Type} (l : list A) (i : nat) : elemAt l (Z.of_nat i) = l !! i.
Proof.
  unfold elemAt. rewrite bool_decide_eq_true_2 by lia. by rewrite Nat2Z.id.
Qed.

Lemma qwf_inj (k : QueueKind) (mem : list metaTx) (l : list nat) (i j x : nat) :
  qwf k mem l -> l !! i = Some x -> l !! j = Some x -> i = j.
Proof.
  intros Hwf Hi Hj.
  destruct (Hwf _ _ Hi) as (a & Ha & Hia).
  destruct (Hwf _ _ Hj) as (b & Hb & Hjb).
  rewrite Ha in Hb. injection Hb as <-. lia.
Qed.

Lemma qwf_NoDup (k : QueueKind) (mem : list metaTx) (l : list nat) :
  qwf k mem l -> NoDup l.
Proof.
  intros Hwf. apply NoDup_alt. intros i j x Hi Hj. by eapply qwf_inj.
Qed.

Lemma moved_refl (k : QueueKind) (n : nat) (h : list metaTx * Queue) :
  qwf k h.1 (ms h.2) -> moved k n h h.
Proof.
  intros Hwf. split; try done.
  intros x a Ha. exists a. split; [done |]. split; [apply upToIndex_refl | done].
Qed.

Lemma moved_trans (k : QueueKind) (n : nat) (h1 h2 h3 : list metaTx * Queue) :
  moved k n h1 h2 -> moved k n h2 h3 -> moved k n h1 h3.
Proof.
  intros H12 H23. split.
  - rewrite (moved_length _ _ _ _ H23). apply H12.
  - rewrite (moved_fee _ _ _ _ H23). apply H12.
  - rewrite (moved_size _ _ _ _ H23). apply H12.
  - intros x. rewrite (moved_elem _ _ _ _ H23). apply H12.
  - intros i Hi. rewrite (moved_above _ _ _ _ H23) by done. by apply H12.
  - apply H23.
  - intros x a Ha.
    destruct (moved_frame _ _ _ _ H12 _ _ Ha) as (b & Hb & Hab & Hout).
    destruct (moved_frame _ _ _ _ H23 _ _ Hb) as (c & Hc & Hbc & Hout').
    exists c. split; [done |]. split; [by eapply upToIndex_trans |].
    intros Hx. rewrite Hout' by (by rewrite (moved_elem _ _ _ _ H12)). by apply Hout.
Qed.

Lemma moved_mono (k : QueueKind) (n n' : nat) (h h' : list metaTx * Queue) :
  (n <= n')%nat -> moved k n h h' -> moved k n' h h'.
Proof.
  intros Hn H. destruct H. split; try done.
  intros i Hi. apply moved_above0. lia.
Qed.

Lemma Less_total (k : QueueKind) (mem : list metaTx) (q : Queue) (i j : nat) :
  qwf k mem (ms q) -> (i < length (ms q))%nat -> (j < length (ms q))%nat ->
  exists b, Interface.Less k (mem, q) (Z.of_nat i) (Z.of_nat j) = Some b.
Proof.
  intros Hwf Hi Hj. unfold Interface.Less. rewrite !elemAt_of_nat.
  destruct (lookup_lt_is_Some_2 _ _ Hi) as [x Hx].
  destruct (lookup_lt_is_Some_2 _ _ Hj) as [y Hy].
  destruct (Hwf _ _ Hx) as (a & Ha & _).
  destruct (Hwf _ _ Hy) as (b & Hb & _).
  rewrite Hx, Hy. simpl. rewrite Ha, Hb. simpl. eauto.
Qed.

Lemma Swap_moved (k : QueueKind) (n : nat) (mem : list metaTx) (q : Queue) (i j : nat) :
  qwf k mem (ms q) -> (i < n)%nat -> (j < n)%nat -> (n <= length (ms q))%nat ->
  exists h', Interface.Swap k (mem, q) (Z.of_nat i) (Z.of_nat j) = Some h'
             /\ moved k n (mem, q) h'
             /\ ms h'.2 !! i = ms q !! j /\ ms h'.2 !! j = ms q !! i.
Proof.
  intros Hwf Hi Hj Hn. unfold Interface.Swap. rewrite !elemAt_of_nat, !Nat2Z.id.
  destruct (lookup_lt_is_Some_2 (ms q) i) as [x Hx]; [lia |].
  destruct (lookup_lt_is_Some_2 (ms q) j) as [y Hy]; [lia |].
  destruct (Hwf _ _ Hx) as (a & Ha & Hia).
  destruct (Hwf _ _ Hy) as (b & Hb & Hjb).
  rewrite Hx, Hy. simpl. rewrite Hb. simpl.
  destruct (decide (i = j)) as [-> | Hij].
  - assert (x = y) as -> by congruence.
    assert (a = b) as -> by congruence.
    rewrite <- Hjb, setIndex_index.
    rewrite (list_insert_id mem y b) by done. rewrite Hb. simpl.
    rewrite setIndex_index, (list_insert_id mem y b) by done.
    rewrite !(list_insert_id (ms q) j y) by done.
    eexists. split; [done |]. split; [| done].
    destruct q; by apply moved_refl.
  - assert (x <> y) as Hxy.
    { intros ->. apply Hij. by eapply qwf_inj. }
    rewrite list_lookup_insert_ne by done. rewrite Ha. simpl.
    eexists. split; [done |].
    assert (Hlen : length (<[i:=y]> (<[j:=x]> (ms q))) = length (ms q))
      by (by rewrite !length_insert).
    split; [| split].
    + split; simpl.
      * by rewrite !length_insert.
      * done.
      * done.
      * intros z. rewrite !list_elem_of_lookup. split.
        -- intros [r Hr].
           destruct (decide (r = i)) as [-> | Hri].
           { rewrite list_lookup_insert_eq in Hr by (rewrite length_insert; lia).
             injection Hr as <-. eauto. }
           rewrite list_lookup_insert_ne in Hr by done.
           destruct (decide (r = j)) as [-> | Hrj].
           { rewrite list_lookup_insert_eq in Hr by lia. injection Hr as <-. eauto. }
           rewrite list_lookup_insert_ne in Hr by done. eauto.
        -- intros [r Hr].
           destruct (decide (r = i)) as [-> | Hri].
           { exists j. rewrite list_lookup_insert_ne by done.
             rewrite list_lookup_insert_eq by lia. congruence. }
           destruct (decide (r = j)) as [-> | Hrj].
           { exists i. rewrite list_lookup_insert_eq by (rewrite length_insert; lia).
             congruence. }
           exists r. by rewrite !list_lookup_insert_ne.
      * intros r Hr. rewrite !list_lookup_insert_ne by lia. done.
      * intros r z Hr.
        destruct (decide (r = i)) as [-> | Hri].
        { rewrite list_lookup_insert_eq in Hr by (rewrite length_insert; lia).
          injection Hr as <-. exists (setIndex k (Z.of_nat i) b).
          rewrite list_lookup_insert_ne by done.
          rewrite list_lookup_insert_eq by (by eapply lookup_lt_Some).
          by rewrite index_setIndex. }
        rewrite list_lookup_insert_ne in Hr by done.
        destruct (decide (r = j)) as [-> | Hrj].
        { rewrite list_lookup_insert_eq in Hr by lia. injection Hr as <-.
          exists (setIndex k (Z.of_nat j) a).
          rewrite list_lookup_insert_eq
            by (rewrite length_insert; by eapply lookup_lt_Some).
          by rewrite index_setIndex. }
        rewrite list_lookup_insert_ne in Hr by done.
        destruct (Hwf _ _ Hr) as (c & Hc & Hrc).
        exists c. split; [| done].
        rewrite !list_lookup_insert_ne; [done | |].
        -- intros ->. apply Hrj. by eapply qwf_inj.
        -- intros ->. apply Hri. by eapply qwf_inj.
      * intros z c Hc.
        destruct (decide (z = x)) as [-> | Hzx].
        { exists (setIndex k (Z.of_nat j) a).
          rewrite list_lookup_insert_eq
            by (rewrite length_insert; by eapply lookup_lt_Some).
          assert (c = a) as -> by congruence.
          split; [done |]. split; [apply upToIndex_set |].
          intros Hnot. exfalso. apply Hnot. by eapply list_elem_of_lookup_2. }
        rewrite list_lookup_insert_ne by done.
        destruct (decide (z = y)) as [-> | Hzy].
        { exists (setIndex k (Z.of_nat i) b).
          rewrite list_lookup_insert_eq by (by eapply lookup_lt_Some).
          assert (c = b) as -> by congruence.
          split; [done |]. split; [apply upToIndex_set |].
          intros Hnot. exfalso. apply Hnot. by eapply list_elem_of_lookup_2. }
        rewrite list_lookup_insert_ne by done.
        exists c. split; [done |]. split; [apply upToIndex_refl | done].
    + simpl. rewrite list_lookup_insert_eq by (rewrite length_insert; lia). done.
    + simpl. rewrite list_lookup_insert_ne by done.
      rewrite list_lookup_insert_eq by lia. done.
Qed.

Lemma up_loop_moved (k : QueueKind) (fuel : nat) :
  forall (mem : list metaTx) (q : Queue) (j : nat),
    qwf k mem (ms q) -> (j < length (ms q))%nat -> (j <= fuel)%nat ->
    exists h', heap.up_loop fuel k (mem, q) (Z.of_nat j) = Some h'
               /\ moved k (S j) (mem, q) h'.
Proof.
  induction fuel as [| fuel IH]; intros mem q j Hwf Hj Hfuel.
  - assert (j = 0%nat) as -> by lia. simpl.
    eexists. split; [done |]. by apply moved_refl.
  - destruct (decide (j = 0%nat)) as [-> | Hj0].
    { simpl. eexists. split; [done |]. by apply moved_refl. }
    set (i := ((j - 1) / 2)%nat).
    assert (Hquot : Z.quot (Z.of_nat j - 1) 2 = Z.of_nat i).
    { rewrite Z.quot_div_nonneg by lia. unfold i.
      rewrite Nat2Z.inj_div, Nat2Z.inj_sub by lia. done. }
    assert (Hij : (i < j)%nat).
    { unfold i. apply Nat.Div0.div_lt_upper_bound. lia. }
    cbn [heap.up_loop]. rewrite Hquot.
    rewrite bool_decide_eq_false_2 by lia.
    destruct (Less_total k mem q j i Hwf) as [lt Hlt]; [lia | lia |].
    rewrite Hlt. simpl. destruct lt; simpl.
    + destruct (Swap_moved k (S j) mem q i j Hwf) as ([mem' q'] & Hswap & Hmoved & _);
        [lia | lia | lia |].
      rewrite Hswap. simpl.
      destruct (IH mem' q' i) as (h'' & Hup & Hmoved').
      * apply Hmoved.
      * pose proof (moved_size _ _ _ _ Hmoved) as Hsz. simpl in Hsz. lia.
      * lia.
      * exists h''. split; [done |].
        eapply moved_trans; [done |]. eapply moved_mono; [| done]. lia.
    + eexists. split; [done |]. by apply moved_refl.
Qed.

Lemma up_moved (k : QueueKind) (mem : list metaTx) (q : Queue) (j : nat) :
  qwf k mem (ms q) -> (j < length (ms q))%nat ->
  exists h', heap.up k (mem, q) (Z.of_nat j) = Some h' /\ moved k (S j) (mem, q) h'.
Proof.
  intros Hwf Hj. unfold heap.up. rewrite Nat2Z.id. by apply up_loop_moved.
Qed.

Lemma down_loop_moved (k : QueueKind) (n fuel : nat) :
  forall (mem : list metaTx) (q : Queue) (i : nat),
    qwf k mem (ms q) -> (n <= length (ms q))%nat -> (n <= i + fuel)%nat ->
    exists i' h', heap.down_loop fuel k (mem, q) (Z.of_nat i) (Z.of_nat n) = Some (i', h')
                  /\ moved k n (mem, q) h'.
Proof.
  induction fuel as [| fuel IH]; intros mem q i Hwf Hn Hfuel.
  - cbn [heap.down_loop]. rewrite bool_decide_eq_true_2 by lia. simpl.
    eexists _, _. split; [done |]. by apply moved_refl.
  - cbn [heap.down_loop].
    destruct (bool_decide (2 * Z.of_nat i + 1 >= Z.of_nat n)) eqn:Hbreak; simpl.
    { eexists _, _. split; [done |]. by apply moved_refl. }
    apply bool_decide_eq_false in Hbreak.
    rewrite bool_decide_eq_false_2 by lia. simpl.
    set (j1 := (2 * i + 1)%nat).
    assert (Hj1 : 2 * Z.of_nat i + 1 = Z.of_nat j1) by (unfold j1; lia).
    assert (Hj2 : 2 * Z.of_nat i + 1 + 1 = Z.of_nat (S j1)) by (unfold j1; lia).
    rewrite Hj1 in *. replace (Z.of_nat j1 + 1) with (Z.of_nat (S j1)) by lia.
    assert (exists r, (if bool_decide (Z.of_nat (S j1) < Z.of_nat n)
                       then Interface.Less k (mem, q) (Z.of_nat (S j1)) (Z.of_nat j1)
                       else Some false) = Some r) as [r Hr].
    { case_bool_decide; [| eauto].
      apply Less_total; [done | lia | lia]. }
    rewrite Hr. simpl.
    set (j := if r then S j1 else j1).
    assert (Hj : (j1 <= j)%nat /\ (j < n)%nat).
    { unfold j. destruct r; [| lia].
      case_bool_decide; [lia | congruence]. }
    replace (if r then Z.of_nat (S j1) else Z.of_nat j1) with (Z.of_nat j)
      by (unfold j; by destruct r).
    destruct (Less_total k mem q j i Hwf) as [lt Hlt]; [lia | lia |].
    rewrite Hlt. simpl. destruct lt; simpl.
    + destruct (Swap_moved k n mem q i j Hwf) as ([mem' q'] & Hswap & Hmoved & _);
        [lia | lia | lia |].
      rewrite Hswap. simpl.
      destruct (IH mem' q' j) as (i' & h'' & Hdown & Hmoved').
      * apply Hmoved.
      * pose proof (moved_size _ _ _ _ Hmoved) as Hsz. simpl in Hsz. lia.
      * lia.
      * exists i', h''. split; [done |]. by eapply moved_trans.
    + eexists _, _. split; [done |]. by apply moved_refl.
Qed.

Lemma down_moved (k : QueueKind) (mem : list metaTx) (q : Queue) (i n : nat) :
  qwf k mem (ms q) -> (n <= length (ms q))%nat ->
  exists b h', heap.down k (mem, q) (Z.of_nat i) (Z.of_nat n) = Some (b, h')
               /\ moved k n (mem, q) h'.
Proof.
  intros Hwf Hn. unfold heap.down. rewrite Nat2Z.id.
  destruct (down_loop_moved k n n mem q i Hwf Hn) as (i' & h' & Hdown & Hmoved); [lia |].
  rewrite Hdown. simpl. eauto.
Qed.

Lemma upToIndex_set_l (k : QueueKind) (i : Z) (a b : metaTx) :
  upToIndex k a b -> setIndex k i b = setIndex k i a.
Proof. unfold upToIndex. intros ->. by rewrite setIndex_setIndex. Qed.

Lemma Pop_taken (k : QueueKind) (mem : list metaTx) (q : Queue) (x : nat) :
  qwf k mem (ms q) -> last (ms q) = Some x ->
  exists h', Interface.Pop k (mem, q) = Some (x, h') /\ taken k x (mem, q) h'.
Proof.
  intros Hwf Hlast. unfold Interface.Pop, Interface.Len.
  rewrite last_lookup in Hlast.
  pose proof (lookup_lt_Some _ _ _ Hlast) as Hlen.
  set (n := Nat.pred (length (ms q))) in *.
  replace (Z.of_nat (length (ms q)) - 1) with (Z.of_nat n) by lia.
  rewrite elemAt_of_nat, Hlast, Nat2Z.id. simpl.
  destruct (Hwf _ _ Hlast) as (a & Ha & Hia). rewrite Ha. simpl.
  eexists. split; [done |].
  assert (Hsplit : ms q = take n (ms q) ++ [x]).
  { rewrite <- (take_drop n (ms q)) at 1. f_equal.
    rewrite (drop_S _ x n) by done. rewrite drop_ge by lia. done. }
  assert (Hnotin : x ∉ take n (ms q)).
  { intros Hin. apply list_elem_of_lookup in Hin as [r Hr].
    pose proof (lookup_lt_Some _ _ _ Hr) as Hrlen. rewrite length_take in Hrlen.
    rewrite lookup_take_lt in Hr by lia.
    assert (r = n) by (by eapply qwf_inj). lia. }
  split; simpl.
  - by rewrite length_insert.
  - done.
  - rewrite length_take. lia.
  - intros y. rewrite Hsplit at 1. rewrite elem_of_app, list_elem_of_singleton. tauto.
  - done.
  - intros r y Hr.
    pose proof (lookup_lt_Some _ _ _ Hr) as Hrlen. rewrite length_take in Hrlen.
    rewrite lookup_take_lt in Hr by lia.
    destruct (Hwf _ _ Hr) as (b & Hb & Hrb). exists b. split; [| done].
    rewrite list_lookup_insert_ne; [done |].
    intros ->. assert (r = n) by (by eapply qwf_inj). lia.
  - exists a. split; [done |].
    rewrite list_lookup_insert_eq by (by eapply lookup_lt_Some). done.
  - intros y b Hyx Hb. exists b. rewrite list_lookup_insert_ne by done.
    split; [done |]. split; [apply upToIndex_refl | done].
Qed.

Lemma moved_taken (k : QueueKind) (n x : nat) (h h1 h2 : list metaTx * Queue) :
  moved k n h h1 -> taken k x h1 h2 -> taken k x h h2.
Proof.
  intros Hm Ht. split.
  - rewrite (taken_length _ _ _ _ Ht). apply Hm.
  - rewrite (taken_fee _ _ _ _ Ht). apply Hm.
  - rewrite <- (taken_size _ _ _ _ Ht). symmetry. apply Hm.
  - intros y. rewrite <- (taken_elem _ _ _ _ Ht). symmetry. apply Hm.
  - apply Ht.
  - apply Ht.
  - destruct (taken_self _ _ _ _ Ht) as (a1 & Ha1 & Ha2).
    assert (is_Some (h.1 !! x)) as [a Ha].
    { apply lookup_lt_is_Some. rewrite <- (moved_length _ _ _ _ Hm).
      by eapply lookup_lt_Some. }
    destruct (moved_frame _ _ _ _ Hm _ _ Ha) as (a1' & Ha1' & Hup & _).
    assert (a1' = a1) as -> by congruence.
    exists a. split; [done |]. rewrite Ha2. by rewrite (upToIndex_set_l _ _ _ _ Hup).
  - intros y a Hyx Ha.
    destruct (moved_frame _ _ _ _ Hm _ _ Ha) as (a1 & Ha1 & Hup & Hout).
    destruct (taken_frame _ _ _ _ Ht _ _ Hyx Ha1) as (a2 & Ha2 & Hup' & Hout').
    exists a2. split; [done |]. split; [by eapply upToIndex_trans |].
    intros Hy. rewrite Hout' by (by rewrite (moved_elem _ _ _ _ Hm)). by apply Hout.
Qed.

Lemma last_of_lookup {A : Type} (l : list A) (n : nat) (x : A) :
  l !! n = Some x -> length l = S n -> last l = Some x.
Proof. intros Hx Hlen. rewrite last_lookup, Hlen. done. Qed.

(** [heap.Pop] takes the root out. *)
Lemma heap_Pop_taken (k : QueueKind) (mem : list metaTx) (q : Queue) (x : nat) :
  qwf k mem (ms q) -> ms q !! 0%nat = Some x ->
  exists h', heap.Pop k (mem, q) = Some (x, h') /\ taken k x (mem, q) h'.
Proof.
  intros Hwf Hx. unfold heap.Pop. simpl. unfold Interface.Len.
  pose proof (lookup_lt_Some _ _ _ Hx) as Hlen.
  set (n := Nat.pred (length (ms q))).
  replace (Z.of_nat (length (ms q)) - 1) with (Z.of_nat n) by lia.
  destruct (Swap_moved k (S n) mem q 0 n Hwf) as ([mem1 q1] & Hswap & Hm1 & _ & Hn);
    [lia | lia | lia |].
  change 0 with (Z.of_nat 0). rewrite Hswap. simpl.
  pose proof (moved_size _ _ _ _ Hm1) as Hsz1. simpl in Hsz1.
  destruct (down_moved k mem1 q1 0 n) as (b & [mem2 q2] & Hdown & Hm2);
    [apply Hm1 | lia |].
  rewrite Hdown. simpl.
  pose proof (moved_size _ _ _ _ Hm2) as Hsz2. simpl in Hsz2.
  simpl in Hn. rewrite Hx in Hn.
  assert (Hlast : last (ms q2) = Some x).
  { apply (last_of_lookup _ n); [| lia].
    rewrite (moved_above _ _ _ _ Hm2) by done. done. }
  destruct (Pop_taken k mem2 q2 x) as (h' & Hpop & Htaken); [apply Hm2 | done |].
  exists h'. split; [done |].
  eapply moved_taken; [exact Hm1 |].
  eapply moved_taken; [exact Hm2 | exact Htaken].
Qed.

(** [heap.Remove] takes out the element at the index it is given. *)
Lemma heap_Remove_taken (k : QueueKind) (mem : list metaTx) (q : Queue) (i x : nat) :
  qwf k mem (ms q) -> ms q !! i = Some x ->
  exists h', heap.Remove k (mem, q) (Z.of_nat i) = Some (x, h') /\ taken k x (mem, q) h'.
Proof.
  intros Hwf Hx. unfold heap.Remove. simpl. unfold Interface.Len.
  pose proof (lookup_lt_Some _ _ _ Hx) as Hlen.
  set (n := Nat.pred (length (ms q))).
  replace (Z.of_nat (length (ms q)) - 1) with (Z.of_nat n) by lia.
  case_bool_decide as Hni.
  - assert (i < n)%nat as Hin by lia.
    destruct (Swap_moved k (S n) mem q i n Hwf) as ([mem1 q1] & Hswap & Hm1 & _ & Hn);
      [lia | lia | lia |].
    rewrite Hswap. simpl.
    pose proof (moved_size _ _ _ _ Hm1) as Hsz1. simpl in Hsz1.
    destruct (down_moved k mem1 q1 i n) as (b & [mem2 q2] & Hdown & Hm2);
      [apply Hm1 | lia |].
    rewrite Hdown. simpl.
    pose proof (moved_size _ _ _ _ Hm2) as Hsz2. simpl in Hsz2.
    simpl in Hn. rewrite Hx in Hn.
    assert (exists h3, (if negb b then heap.up k (mem2, q2) (Z.of_nat i) else Some (mem2, q2))
                       = Some h3 /\ moved k n (mem2, q2) h3) as ([mem3 q3] & Hup & Hm3).
    { destruct b; simpl.
      - eexists. split; [done |]. apply moved_refl, Hm2.
      - destruct (up_moved k mem2 q2 i) as (h3 & Hup & Hm3); [apply Hm2 | lia |].
        exists h3. split; [done |]. eapply moved_mono; [| exact Hm3]. lia. }
    rewrite Hup. simpl.
    pose proof (moved_size _ _ _ _ Hm3) as Hsz3. simpl in Hsz3.
    assert (Hlast : last (ms q3) = Some x).
    { apply (last_of_lookup _ n); [| lia].
      rewrite (moved_above _ _ _ _ Hm3) by done. simpl.
      rewrite (moved_above _ _ _ _ Hm2) by done. done. }
    destruct (Pop_taken k mem3 q3 x) as (h' & Hpop & Htaken); [apply Hm3 | done |].
    exists h'. split; [done |].
    eapply moved_taken; [exact Hm1 |].
    eapply moved_taken; [exact Hm2 |].
    eapply moved_taken; [exact Hm3 | exact Htaken].
  - assert (i = n) as -> by lia. simpl.
    apply Pop_taken; [done |]. apply (last_of_lookup _ n); [done | lia].
Qed.

Lemma Push_put (k : QueueKind) (mem : list metaTx) (q : Queue) (x : nat) :
  qwf k mem (ms q) -> is_Some (mem !! x) -> x ∉ ms q ->
  exists h', Interface.Push k (mem, q) x = Some h' /\ put k x (mem, q) h'
             /\ ms h'.2 = ms q ++ [x].
Proof.
  intros Hwf [a Ha] Hnotin. unfold Interface.Push, Interface.Len. rewrite Ha. simpl.
  eexists. split; [done |]. split; [| done]. split; simpl.
  - by rewrite length_insert.
  - done.
  - rewrite length_app. simpl. lia.
  - intros y. rewrite elem_of_app, list_elem_of_singleton. tauto.
  - intros r y Hr. apply lookup_app_Some in Hr as [Hr | [Hlen Hr]].
    + destruct (Hwf _ _ Hr) as (b & Hb & Hrb). exists b. split; [| done].
      rewrite list_lookup_insert_ne; [done |].
      intros ->. apply Hnotin. by eapply list_elem_of_lookup_2.
    + apply list_lookup_singleton_Some in Hr as [Hr <-].
      exists (setIndex k (Z.of_nat (length (ms q))) a).
      rewrite list_lookup_insert_eq by (by eapply lookup_lt_Some).
      rewrite index_setIndex. split; [done | lia].
  - intros y b Hb. destruct (decide (y = x)) as [-> | Hyx].
    + assert (b = a) as -> by congruence.
      exists (setIndex k (Z.of_nat (length (ms q))) a).
      rewrite list_lookup_insert_eq by (by eapply lookup_lt_Some).
      split; [done |]. split; [apply upToIndex_set | done].
    + exists b. rewrite list_lookup_insert_ne by done.
      split; [done |]. split; [apply upToIndex_refl | done].
Qed.

Lemma put_moved (k : QueueKind) (n x : nat) (h h1 h2 : list metaTx * Queue) :
  put k x h h1 -> moved k n h1 h2 -> put k x h h2.
Proof.
  intros Hp Hm. split.
  - rewrite (moved_length _ _ _ _ Hm). apply Hp.
  - rewrite (moved_fee _ _ _ _ Hm). apply Hp.
  - rewrite (moved_size _ _ _ _ Hm). apply Hp.
  - intros y. rewrite (moved_elem _ _ _ _ Hm). apply Hp.
  - apply Hm.
  - intros y a Ha.
    destruct (put_frame _ _ _ _ Hp _ _ Ha) as (a1 & Ha1 & Hup & Hout).
    destruct (moved_frame _ _ _ _ Hm _ _ Ha1) as (a2 & Ha2 & Hup' & Hout').
    exists a2. split; [done |]. split; [by eapply upToIndex_trans |].
    intros Hyx Hy. rewrite Hout'.
    + by apply Hout.
    + rewrite (put_elem _ _ _ _ Hp). tauto.
Qed.

Lemma heap_Push_put (k : QueueKind) (mem : list metaTx) (q : Queue) (x : nat) :
  qwf k mem (ms q) -> is_Some (mem !! x) -> x ∉ ms q ->
  exists h', heap.Push k (mem, q) x = Some h' /\ put k x (mem, q) h'.
Proof.
  intros Hwf Hx Hnotin. unfold heap.Push.
  destruct (Push_put k mem q x Hwf Hx Hnotin) as ([mem1 q1] & Hpush & Hput & Hms).
  rewrite Hpush. simpl. simpl in Hms. unfold Interface.Len. rewrite Hms, length_app. simpl.
  replace (Z.of_nat (length (ms q) + 1) - 1) with (Z.of_nat (length (ms q))) by lia.
  destruct (up_moved k mem1 q1 (length (ms q))) as (h' & Hup & Hm).
  - apply Hput.
  - rewrite Hms, length_app. simpl. lia.
  - exists h'. split; [done |]. by eapply put_moved.
Qed.

Lemma heap_Fix_moved (k : QueueKind) (mem : list metaTx) (q : Queue) (i : nat) :
  qwf k mem (ms q) -> (i < length (ms q))%nat ->
  exists h', heap.Fix k (mem, q) (Z.of_nat i) = Some h'
             /\ moved k (length (ms q)) (mem, q) h'.
Proof.
  intros Hwf Hi. unfold heap.Fix. simpl. unfold Interface.Len.
  destruct (down_moved k mem q i (length (ms q))) as (b & [mem1 q1] & Hdown & Hm1);
    [done | lia |].
  rewrite Hdown. simpl.
  pose proof (moved_size _ _ _ _ Hm1) as Hsz1. simpl in Hsz1.
  destruct b; simpl.
  - eexists. split; [done | done].
  - destruct (up_moved k mem1 q1 i) as (h' & Hup & Hm2); [apply Hm1 | lia |].
    exists h'. split; [done |]. eapply moved_trans; [exact Hm1 |].
    eapply moved_mono; [| exact Hm2]. lia.
Qed.

(** [bestSlice.UnsafeRemove] after the transaction has left the worst
    queue. *)
Lemma UnsafeRemove_taken (mem : list metaTx) (q : Queue) (x : nat) (a : metaTx) :
  qwf BestQueue mem (ms q) -> x ∈ ms q -> mem !! x = Some a ->
  currentSubPool a = NoSubPool ->
  exists h', bestSlice.UnsafeRemove (mem, q) x = Some h' /\ taken BestQueue x (mem, q) h'.
Proof.
  intros Hwf Hin Ha Hcsp. unfold bestSlice.UnsafeRemove. simpl. rewrite Ha. simpl.
  apply list_elem_of_lookup in Hin as [i Hi].
  destruct (Hwf _ _ Hi) as (a' & Ha' & Hia).
  assert (a' = a) as -> by congruence. simpl in Hia. rewrite Hia.
  pose proof (lookup_lt_Some _ _ _ Hi) as Hlen. unfold Interface.Len.
  set (n := Nat.pred (length (ms q))).
  replace (Z.of_nat (length (ms q)) - 1) with (Z.of_nat n) by lia.
  destruct (Swap_moved BestQueue (S n) mem q i n Hwf) as ([mem1 q1] & Hswap & Hm1 & _ & Hn);
    [lia | lia | lia |].
  rewrite Hswap. simpl.
  pose proof (moved_size _ _ _ _ Hm1) as Hsz1. simpl in Hsz1.
  simpl in Hn. rewrite Hi in Hn.
  assert (Hlast : last (ms q1) = Some x) by (apply (last_of_lookup _ n); [done | lia]).
  destruct (Pop_taken BestQueue mem1 q1 x) as (h' & Hpop & Htaken);
    [apply Hm1 | done |].
  unfold Interface.Pop, Interface.Len in Hpop.
  replace (Z.of_nat (length (ms q1)) - 1) with (Z.of_nat n) in Hpop by lia.
  rewrite elemAt_of_nat, Hn in *. simpl in *.
  destruct (moved_frame _ _ _ _ Hm1 _ _ Ha) as (a1 & Ha1 & Hup & _). simpl in Ha1.
  rewrite Ha1 in *. simpl in *.
  assert (Hcsp1 : currentSubPool a1 = NoSubPool).
  { rewrite Hup. destruct a; simpl in Hcsp; subst; reflexivity. }
  assert (Heq : set_currentSubPool NoSubPool (set_bestIndex (-1) a1) = set_bestIndex (-1) a1).
  { destruct a1; simpl in Hcsp1; subst; reflexivity. }
  injection Hpop as <-.
  eexists. split; [done |]. rewrite <- Heq.
  eapply moved_taken; [exact Hm1 | exact Htaken].
Qed.

Lemma UnsafeAdd_put (mem : list metaTx) (q : Queue) (x : nat) :
  qwf BestQueue mem (ms q) -> is_Some (mem !! x) -> x ∉ ms q ->
  exists h', bestSlice.UnsafeAdd (mem, q) x = Some h' /\ put BestQueue x (mem, q) h'.
Proof.
  intros Hwf Hx Hnotin.
  destruct (Push_put BestQueue mem q x Hwf Hx Hnotin) as (h' & Hpush & Hput & _).
  exists h'. split; [| done]. exact Hpush.
Qed.

End HeapFacts.

Section SubPoolFacts.

(** * Facts about the sub-pools *)

#[local] Arguments Interface.Swap : simpl never.
#[local] Arguments Interface.Less : simpl never.
#[local] Arguments Interface.Pop : simpl never.
#[local] Arguments Interface.Push : simpl never.
#[local] Arguments bestSlice.UnsafeAdd : simpl never.
#[local] Arguments bestSlice.UnsafeRemove : simpl never.
#[local] Arguments heap.Push : simpl never.
#[local] Arguments heap.Pop : simpl never.
#[local] Arguments heap.Remove : simpl never.
#[local] Arguments heap.Fix : simpl never.

Lemma sameData_refl (a : metaTx) : sameData a a.
Proof. by repeat split. Qed.

Lemma sameData_trans (a b c : metaTx) : sameData a b -> sameData b c -> sameData a c.
Proof. unfold sameData. intuition congruence. Qed.

Lemma upToIndex_sameData (k : QueueKind) (a b : metaTx) : upToIndex k a b -> sameData a b.
Proof. unfold upToIndex. intros ->. by destruct k, a. Qed.

Lemma upToIndex_currentSubPool (k : QueueKind) (a b : metaTx) :
  upToIndex k a b -> currentSubPool b = currentSubPool a.
Proof. unfold upToIndex. intros ->. by destruct k, a. Qed.

Lemma upToIndex_other (k : QueueKind) (a b : metaTx) :
  upToIndex k a b -> index (otherKind k) b = index (otherKind k) a.
Proof. unfold upToIndex. intros ->. by destruct k, a. Qed.

Lemma popped_sameData (k : QueueKind) (i : Z) (a : metaTx) :
  sameData a (set_currentSubPool NoSubPool (setIndex k i a)).
Proof. by destruct k, a. Qed.

Lemma popped_other (k : QueueKind) (i : Z) (a : metaTx) :
  index (otherKind k) (set_currentSubPool NoSubPool (setIndex k i a)) = index (otherKind k) a.
Proof. by destruct k, a. Qed.

Lemma qwf_valid (k : QueueKind) (mem : list metaTx) (l : list nat) (x : nat) :
  qwf k mem l -> x ∈ l -> is_Some (mem !! x).
Proof.
  intros Hwf Hin. apply list_elem_of_lookup in Hin as [i Hi].
  destruct (Hwf _ _ Hi) as (a & Ha & _). eauto.
Qed.

(** A queue stays well formed when the memory changes but the index
    fields of its transactions do not. *)
Lemma qwf_transport (k : QueueKind) (mem mem' : list metaTx) (l : list nat) :
  qwf k mem l ->
  (forall y a, y ∈ l -> mem !! y = Some a ->
     exists a', mem' !! y = Some a' /\ index k a' = index k a) ->
  qwf k mem' l.
Proof.
  intros Hwf Hframe i x Hi.
  destruct (Hwf _ _ Hi) as (a & Ha & Hia).
  destruct (Hframe x a) as (a' & Ha' & Hidx); [by eapply list_elem_of_lookup_2 | done |].
  exists a'. split; [done | congruence].
Qed.

Lemma taken_other_qwf (k : QueueKind) (x : nat) (h h' : list metaTx * Queue) (l : list nat) :
  taken k x h h' -> qwf (otherKind k) h.1 l -> qwf (otherKind k) h'.1 l.
Proof.
  intros Ht Hwf. eapply qwf_transport; [done |].
  intros y a Hy Ha. destruct (decide (y = x)) as [-> | Hyx].
  - destruct (taken_self _ _ _ _ Ht) as (a0 & Ha0 & Ha0').
    assert (a0 = a) as -> by congruence.
    eexists. split; [done |]. apply popped_other.
  - destruct (taken_frame _ _ _ _ Ht _ _ Hyx Ha) as (a' & Ha' & Hup & _).
    exists a'. split; [done |]. by apply upToIndex_other.
Qed.

Lemma put_other_qwf (k : QueueKind) (x : nat) (h h' : list metaTx * Queue) (l : list nat) :
  put k x h h' -> qwf (otherKind k) h.1 l -> qwf (otherKind k) h'.1 l.
Proof.
  intros Hp Hwf. eapply qwf_transport; [done |].
  intros y a Hy Ha.
  destruct (put_frame _ _ _ _ Hp _ _ Ha) as (a' & Ha' & Hup & _).
  exists a'. split; [done |]. by apply upToIndex_other.
Qed.

Lemma moved_other_qwf (k : QueueKind) (n : nat) (h h' : list metaTx * Queue) (l : list nat) :
  moved k n h h' -> qwf (otherKind k) h.1 l -> qwf (otherKind k) h'.1 l.
Proof.
  intros Hm Hwf. eapply qwf_transport; [done |].
  intros y a Hy Ha.
  destruct (moved_frame _ _ _ _ Hm _ _ Ha) as (a' & Ha' & Hup & _).
  exists a'. split; [done |]. by apply upToIndex_other.
Qed.

Lemma poolwf_queue (k : QueueKind) (mem : list metaTx) (sp : SubPool) :
  poolwf mem sp -> qwf k mem (ms (queueOf k sp)).
Proof. intros (Hb & Hw & _). by destruct k. Qed.

Lemma poolwf_elem (k : QueueKind) (mem : list metaTx) (sp : SubPool) (x : nat) :
  poolwf mem sp -> x ∈ ms (queueOf k sp) <-> x ∈ ms (best sp).
Proof. intros (_ & _ & He). destruct k; simpl; [done | by rewrite He]. Qed.

Lemma poolwf_length (mem : list metaTx) (sp : SubPool) :
  poolwf mem sp -> length (ms (worst sp)) = length (ms (best sp)).
Proof.
  intros (Hb & Hw & He). apply Permutation_length, NoDup_Permutation.
  - by eapply qwf_NoDup.
  - by eapply qwf_NoDup.
  - intros x. by rewrite He.
Qed.

Lemma poolwf_queue_length (k : QueueKind) (mem : list metaTx) (sp : SubPool) :
  poolwf mem sp -> length (ms (queueOf k sp)) = length (ms (best sp)).
Proof. intros Hwf. destruct k; [done | by eapply poolwf_length]. Qed.

Lemma otherKind_involutive (k : QueueKind) : otherKind (otherKind k) = k.
Proof. by destruct k. Qed.

Lemma poolwf_intro (k : QueueKind) (mem : list metaTx) (sp : SubPool) :
  qwf k mem (ms (queueOf k sp)) ->
  qwf (otherKind k) mem (ms (queueOf (otherKind k) sp)) ->
  (forall x, x ∈ ms (queueOf k sp) <-> x ∈ ms (queueOf (otherKind k) sp)) ->
  poolwf mem sp.
Proof.
  intros H1 H2 He. destruct k; simpl in *; repeat split; try done.
  - by apply He.
  - by apply He.
  - by apply He.
  - by apply He.
Qed.

(** Taking [x] out of one queue and then out of the other takes it out
    of the sub-pool. *)
Lemma two_taken (k : QueueKind) (mem : list metaTx) (sp : SubPool) (x : nat)
  (h1 h2 : list metaTx * Queue) :
  poolwf mem sp ->
  taken k x (mem, queueOf k sp) h1 ->
  taken (otherKind k) x (h1.1, queueOf (otherKind k) sp) h2 ->
  poolTaken x (mem, sp) (h2.1, setQueue (otherKind k) h2.2 (setQueue k h1.2 sp)).
Proof.
  intros Hwf Ht1 Ht2.
  assert (Hq1 : queueOf k (setQueue (otherKind k) h2.2 (setQueue k h1.2 sp)) = h1.2)
    by (by destruct k).
  assert (Hq2 : queueOf (otherKind k) (setQueue (otherKind k) h2.2 (setQueue k h1.2 sp)) = h2.2)
    by (by destruct k).
  assert (He1 : forall y, y ∈ ms h1.2 <-> y ∈ ms h2.2).
  { intros y.
    pose proof (taken_elem _ _ _ _ Ht1 y) as E1.
    pose proof (taken_elem _ _ _ _ Ht2 y) as E2. simpl in E1, E2.
    rewrite (poolwf_elem k) in E1 by done.
    rewrite (poolwf_elem (otherKind k)) in E2 by done.
    pose proof (taken_notin _ _ _ _ Ht1). pose proof (taken_notin _ _ _ _ Ht2).
    split; intros Hy.
    - assert (y <> x) by (by intros ->). tauto.
    - assert (y <> x) by (by intros ->). tauto. }
  assert (Hwf' : poolwf h2.1 (setQueue (otherKind k) h2.2 (setQueue k h1.2 sp))).
  { apply (poolwf_intro k); rewrite ?Hq1, ?Hq2.
    - rewrite <- (otherKind_involutive k). eapply taken_other_qwf; [exact Ht2 |].
      rewrite otherKind_involutive. apply Ht1.
    - apply Ht2.
    - done. }
  assert (Hbest : forall y, y ∈ ms (best (setQueue (otherKind k) h2.2 (setQueue k h1.2 sp)))
                            <-> y ∈ ms h1.2).
  { intros y. rewrite <- (poolwf_elem k _ _ _ Hwf'). by rewrite Hq1. }
  split; simpl.
  - rewrite (taken_length _ _ _ _ Ht2). apply Ht1.
  - by destruct k.
  - rewrite <- (poolwf_queue_length k _ _ Hwf), <- (poolwf_queue_length k _ _ Hwf').
    rewrite Hq1. apply Ht1.
  - intros y. rewrite Hbest, <- (poolwf_elem k _ _ _ Hwf). apply Ht1.
  - rewrite Hbest. apply Ht1.
  - done.
  - destruct (taken_self _ _ _ _ Ht1) as (a & Ha & Ha1).
    destruct (taken_self _ _ _ _ Ht2) as (a1 & Ha1' & Ha2). simpl in *.
    assert (a1 = set_currentSubPool NoSubPool (setIndex k (-1) a)) as -> by congruence.
    eexists _, _. split; [done |]. split; [done |]. split.
    + eapply sameData_trans; apply popped_sameData.
    + by destruct k, a.
  - intros y a Hyx Ha.
    destruct (taken_frame _ _ _ _ Ht1 _ _ Hyx Ha) as (a1 & Ha1 & Hup1 & Hout1).
    destruct (taken_frame _ _ _ _ Ht2 _ _ Hyx Ha1) as (a2 & Ha2 & Hup2 & Hout2).
    exists a2. split; [done |]. split; [| split].
    + eapply sameData_trans; by eapply upToIndex_sameData.
    + rewrite (upToIndex_currentSubPool _ _ _ Hup2). by eapply upToIndex_currentSubPool.
    + simpl in *. intros Hy. rewrite Hout2, Hout1; [done | |].
      * by rewrite (poolwf_elem k).
      * by rewrite (poolwf_elem (otherKind k)).
Qed.

Lemma PendingPool_PopWorst_taken (mem : list metaTx) (sp : SubPool) (x : nat) :
  poolwf mem sp -> ms (worst sp) !! 0%nat = Some x ->
  exists s', PendingPool.PopWorst (mem, sp) = Some (x, s') /\ poolTaken x (mem, sp) s'.
Proof.
  intros Hwf Hx. unfold PendingPool.PopWorst. simpl.
  destruct (heap_Pop_taken WorstQueue mem (worst sp) x) as ([mem1 w1] & Hpop & Ht1);
    [apply Hwf | done |].
  rewrite Hpop. simpl.
  destruct (taken_self _ _ _ _ Ht1) as (a & Ha & Ha1). simpl in Ha, Ha1.
  destruct (UnsafeRemove_taken mem1 (best sp) x
              (set_currentSubPool NoSubPool (set_worstIndex (-1) a)))
    as ([mem2 b2] & Hrem & Ht2).
  - apply (taken_other_qwf WorstQueue x (mem, worst sp) (mem1, w1)); [done | apply Hwf].
  - apply (poolwf_elem WorstQueue mem sp x Hwf). by eapply list_elem_of_lookup_2.
  - done.
  - by destruct a.
  - rewrite Hrem. simpl. eexists. split; [done |].
    apply (two_taken WorstQueue mem sp x (mem1, w1) (mem2, b2)); done.
Qed.

Lemma PendingPool_Remove_taken (mem : list metaTx) (sp : SubPool) (x : nat) :
  poolwf mem sp -> x ∈ ms (best sp) ->
  exists s', PendingPool.Remove (mem, sp) x = Some s' /\ poolTaken x (mem, sp) s'.
Proof.
  intros Hwf Hx. unfold PendingPool.Remove. simpl.
  apply (poolwf_elem WorstQueue mem sp x Hwf) in Hx as Hxw. simpl in Hxw.
  apply list_elem_of_lookup in Hxw as [i Hi].
  destruct (proj1 (proj2 Hwf) _ _ Hi) as (a & Ha & Hia). simpl in Hia.
  rewrite Ha. simpl. rewrite Hia.
  destruct (heap_Remove_taken WorstQueue mem (worst sp) i x) as ([mem1 w1] & Hpop & Ht1);
    [apply Hwf | done |].
  rewrite Hpop. simpl.
  destruct (taken_self _ _ _ _ Ht1) as (a0 & Ha0 & Ha1). simpl in Ha0, Ha1.
  destruct (UnsafeRemove_taken mem1 (best sp) x
              (set_currentSubPool NoSubPool (set_worstIndex (-1) a0)))
    as ([mem2 b2] & Hrem & Ht2).
  - apply (taken_other_qwf WorstQueue x (mem, worst sp) (mem1, w1)); [done | apply Hwf].
  - done.
  - done.
  - by destruct a0.
  - rewrite Hrem. simpl. eexists. split; [done |].
    apply (two_taken WorstQueue mem sp x (mem1, w1) (mem2, b2)); done.
Qed.

(** The second half of [PopBest], [PopWorst] and [Remove] of [SubPool]:
    [heap.Remove] on the other queue at the index the transaction
    records. *)
Lemma heap_Remove_other (k : QueueKind) (mem : list metaTx) (sp : SubPool) (x : nat)
  (h1 : list metaTx * Queue) :
  poolwf mem sp -> x ∈ ms (best sp) -> taken k x (mem, queueOf k sp) h1 ->
  exists a1 h2, h1.1 !! x = Some a1
    /\ heap.Remove (otherKind k) (h1.1, queueOf (otherKind k) sp) (index (otherKind k) a1)
       = Some (x, h2)
    /\ taken (otherKind k) x (h1.1, queueOf (otherKind k) sp) h2.
Proof.
  intros Hwf Hx Ht1.
  apply (poolwf_elem (otherKind k) mem sp x Hwf) in Hx as Hxo.
  apply list_elem_of_lookup in Hxo as [i Hi].
  pose proof (taken_other_qwf k x _ _ _ Ht1 (poolwf_queue (otherKind k) mem sp Hwf)) as Hwf1.
  destruct (Hwf1 _ _ Hi) as (a1 & Ha1 & Hia).
  destruct (heap_Remove_taken (otherKind k) h1.1 (queueOf (otherKind k) sp) i x)
    as (h2 & Hrem & Ht2); [done | done |].
  exists a1, h2. rewrite Hia. done.
Qed.

Lemma SubPool_PopBest_taken (mem : list metaTx) (sp : SubPool) (x : nat) :
  poolwf mem sp -> ms (best sp) !! 0%nat = Some x ->
  exists s', SubPool.PopBest (mem, sp) = Some (x, s') /\ poolTaken x (mem, sp) s'.
Proof.
  intros Hwf Hx. unfold SubPool.PopBest. simpl.
  destruct (heap_Pop_taken BestQueue mem (best sp) x) as ([mem1 b1] & Hpop & Ht1);
    [apply Hwf | done |].
  rewrite Hpop. simpl.
  destruct (heap_Remove_other BestQueue mem sp x (mem1, b1))
    as (a1 & [mem2 w2] & Ha1 & Hrem & Ht2);
    [done | by eapply list_elem_of_lookup_2 | done |].
  simpl in *. rewrite Ha1. simpl. rewrite Hrem. simpl.
  eexists. split; [done |].
  apply (two_taken BestQueue mem sp x (mem1, b1) (mem2, w2)); done.
Qed.

Lemma set_best_set_worst (b w : Queue) (sp : SubPool) :
  set_best b (set_worst w sp) = set_worst w (set_best b sp).
Proof. done. Qed.

Lemma SubPool_PopWorst_taken (mem : list metaTx) (sp : SubPool) (x : nat) :
  poolwf mem sp -> ms (worst sp) !! 0%nat = Some x ->
  exists s', SubPool.PopWorst (mem, sp) = Some (x, s') /\ poolTaken x (mem, sp) s'.
Proof.
  intros Hwf Hx. unfold SubPool.PopWorst. simpl.
  destruct (heap_Pop_taken WorstQueue mem (worst sp) x) as ([mem1 w1] & Hpop & Ht1);
    [apply Hwf | done |].
  rewrite Hpop. simpl.
  destruct (heap_Remove_other WorstQueue mem sp x (mem1, w1))
    as (a1 & [mem2 b2] & Ha1 & Hrem & Ht2); [done | | done |].
  { apply (poolwf_elem WorstQueue mem sp x Hwf). by eapply list_elem_of_lookup_2. }
  simpl in *. rewrite Ha1. simpl. rewrite Hrem. simpl.
  eexists. split; [done |].
  apply (two_taken WorstQueue mem sp x (mem1, w1) (mem2, b2)); done.
Qed.

Lemma SubPool_Remove_taken (mem : list metaTx) (sp : SubPool) (x : nat) :
  poolwf mem sp -> x ∈ ms (best sp) ->
  exists s', SubPool.Remove (mem, sp) x = Some s' /\ poolTaken x (mem, sp) s'.
Proof.
  intros Hwf Hx. unfold SubPool.Remove. simpl.
  apply list_elem_of_lookup in Hx as Hxi. destruct Hxi as [i Hi].
  destruct (proj1 Hwf _ _ Hi) as (a & Ha & Hia). simpl in Hia.
  rewrite Ha. simpl. rewrite Hia.
  destruct (heap_Remove_taken BestQueue mem (best sp) i x) as ([mem1 b1] & Hpop & Ht1);
    [apply Hwf | done |].
  rewrite Hpop. simpl.
  destruct (heap_Remove_other BestQueue mem sp x (mem1, b1))
    as (a1 & [mem2 w2] & Ha1 & Hrem & Ht2); [done | done | done |].
  simpl in *. rewrite Ha1. simpl. rewrite Hrem. simpl.
  pose proof (two_taken BestQueue mem sp x (mem1, b1) (mem2, w2) Hwf Ht1 Ht2) as Hpt.
  destruct (pt_self _ _ _ Hpt) as (a0 & a2 & Ha0 & Ha2 & Hsame & Hcsp). simpl in Ha2.
  rewrite Ha2. simpl.
  assert (set_currentSubPool NoSubPool a2 = a2) as ->
    by (destruct a2; simpl in Hcsp; subst; reflexivity).
  rewrite list_insert_id by done.
  eexists. split; [done |]. exact Hpt.
Qed.

Lemma qwf_set_currentSubPool (k : QueueKind) (mem : list metaTx) (l : list nat)
  (x : nat) (a : metaTx) (c : SubPoolType) :
  qwf k mem l -> mem !! x = Some a -> qwf k (<[x := set_currentSubPool c a]> mem) l.
Proof.
  intros Hwf Ha. eapply qwf_transport; [done |].
  intros y b _ Hb. destruct (decide (y = x)) as [-> | Hyx].
  - exists (set_currentSubPool c a).
    rewrite list_lookup_insert_eq by (by eapply lookup_lt_Some).
    split; [done |]. assert (b = a) as -> by congruence. by destruct k, a.
  - exists b. by rewrite list_lookup_insert_ne.
Qed.

(** Putting [x] in one queue and then in the other, after its sub-pool
    has been stamped, puts it in the sub-pool. *)
Lemma two_put (k : QueueKind) (mem : list metaTx) (sp sp0 : SubPool) (x : nat) (a : metaTx)
  (h1 h2 : list metaTx * Queue) :
  poolwf mem sp -> mem !! x = Some a -> x ∉ ms (best sp) ->
  best sp0 = best sp -> worst sp0 = worst sp -> static sp sp0 ->
  put k x (<[x := set_currentSubPool (t sp) a]> mem, queueOf k sp0) h1 ->
  put (otherKind k) x (h1.1, queueOf (otherKind k) sp0) h2 ->
  poolPut x (mem, sp) (h2.1, setQueue (otherKind k) h2.2 (setQueue k h1.2 sp0)).
Proof.
  intros Hwf Ha Hnotin Hb0 Hw0 Hst Hp1 Hp2.
  set (sp' := setQueue (otherKind k) h2.2 (setQueue k h1.2 sp0)).
  assert (Hq1 : queueOf k sp' = h1.2) by (by destruct k).
  assert (Hq2 : queueOf (otherKind k) sp' = h2.2) by (by destruct k).
  assert (Hq0 : forall k', queueOf k' sp0 = queueOf k' sp) by (by intros []).
  rewrite !Hq0 in *.
  assert (He1 : forall y, y ∈ ms h1.2 <-> y ∈ ms h2.2).
  { intros y.
    pose proof (put_elem _ _ _ _ Hp1 y) as E1.
    pose proof (put_elem _ _ _ _ Hp2 y) as E2. simpl in E1, E2.
    rewrite (poolwf_elem k) in E1 by done.
    rewrite (poolwf_elem (otherKind k)) in E2 by done. tauto. }
  assert (Hwf' : poolwf h2.1 sp').
  { apply (poolwf_intro k); rewrite ?Hq1, ?Hq2.
    - rewrite <- (otherKind_involutive k). eapply put_other_qwf; [exact Hp2 |].
      rewrite otherKind_involutive. apply Hp1.
    - apply Hp2.
    - done. }
  assert (Hbest : forall y, y ∈ ms (best sp') <-> y ∈ ms h1.2).
  { intros y. rewrite <- (poolwf_elem k _ _ _ Hwf'). by rewrite Hq1. }
  assert (Hx0 : (<[x := set_currentSubPool (t sp) a]> mem) !! x
                = Some (set_currentSubPool (t sp) a))
    by (apply list_lookup_insert_eq; by eapply lookup_lt_Some).
  split; simpl.
  - pose proof (put_length _ _ _ _ Hp2) as L2. pose proof (put_length _ _ _ _ Hp1) as L1.
    simpl in L1, L2. rewrite length_insert in L1. congruence.
  - destruct Hst. by destruct k.
  - rewrite <- (poolwf_queue_length k _ _ Hwf), <- (poolwf_queue_length k _ _ Hwf').
    rewrite Hq1. apply Hp1.
  - intros y. rewrite Hbest, <- (poolwf_elem k _ _ _ Hwf). apply Hp1.
  - done.
  - destruct (put_frame _ _ _ _ Hp1 _ _ Hx0) as (a1 & Ha1 & Hup1 & _).
    destruct (put_frame _ _ _ _ Hp2 _ _ Ha1) as (a2 & Ha2 & Hup2 & _).
    exists a, a2. split; [done |]. split; [done |]. split.
    + eapply sameData_trans; [| by eapply upToIndex_sameData].
      eapply sameData_trans; [| by eapply upToIndex_sameData]. by destruct a.
    + rewrite (upToIndex_currentSubPool _ _ _ Hup2), (upToIndex_currentSubPool _ _ _ Hup1).
      by destruct a.
  - intros y b Hyx Hb.
    assert (Hb0' : (<[x := set_currentSubPool (t sp) a]> mem) !! y = Some b)
      by (by rewrite list_lookup_insert_ne).
    destruct (put_frame _ _ _ _ Hp1 _ _ Hb0') as (b1 & Hb1 & Hup1 & Hout1).
    destruct (put_frame _ _ _ _ Hp2 _ _ Hb1) as (b2 & Hb2 & Hup2 & Hout2).
    exists b2. split; [done |]. split; [| split].
    + eapply sameData_trans; by eapply upToIndex_sameData.
    + rewrite (upToIndex_currentSubPool _ _ _ Hup2). by eapply upToIndex_currentSubPool.
    + simpl in *. intros Hy. rewrite Hout2, Hout1; [done | done | | done |].
      * by rewrite (poolwf_elem k).
      * by rewrite (poolwf_elem (otherKind k)).
Qed.

Lemma noteAdded_ok (mem : list metaTx) (sp : SubPool) (x : nat) (a : metaTx) :
  mem !! x = Some a ->
  exists sp0, noteAdded (mem, sp) x = Some (<[x := set_currentSubPool (t sp) a]> mem, sp0)
              /\ best sp0 = best sp /\ worst sp0 = worst sp /\ static sp sp0.
Proof.
  intros Ha. unfold noteAdded. rewrite Ha. simpl.
  destruct (adding sp); eexists; (split; [done |]); done.
Qed.

Lemma PendingPool_Add_put (mem : list metaTx) (sp : SubPool) (x : nat) :
  poolwf mem sp -> is_Some (mem !! x) -> x ∉ ms (best sp) ->
  exists s', PendingPool.Add (mem, sp) x = Some s' /\ poolPut x (mem, sp) s'.
Proof.
  intros Hwf [a Ha] Hnotin. unfold PendingPool.Add.
  destruct (noteAdded_ok mem sp x a Ha) as (sp0 & Hnote & Hb0 & Hw0 & Hst).
  rewrite Hnote. simpl.
  set (mem0 := <[x := set_currentSubPool (t sp) a]> mem).
  assert (Hx0 : is_Some (mem0 !! x)).
  { apply lookup_lt_is_Some. unfold mem0. rewrite length_insert. by eapply lookup_lt_Some. }
  destruct (heap_Push_put WorstQueue mem0 (worst sp0) x) as ([mem1 w1] & Hpush & Hp1).
  { rewrite Hw0. apply qwf_set_currentSubPool; [apply Hwf | done]. }
  { done. }
  { rewrite Hw0. by rewrite <- (poolwf_elem WorstQueue mem sp x Hwf) in Hnotin. }
  rewrite Hpush. simpl.
  destruct (UnsafeAdd_put mem1 (best sp0) x) as ([mem2 b2] & Hadd & Hp2).
  { rewrite Hb0. apply (put_other_qwf WorstQueue x (mem0, worst sp0) (mem1, w1)); [done |].
    apply qwf_set_currentSubPool; [apply Hwf | done]. }
  { apply lookup_lt_is_Some. pose proof (put_length _ _ _ _ Hp1) as L1. simpl in L1.
    rewrite L1. by apply lookup_lt_is_Some. }
  { by rewrite Hb0. }
  rewrite Hadd. simpl. eexists. split; [done |].
  apply (two_put WorstQueue mem sp sp0 x a (mem1, w1) (mem2, b2)); done.
Qed.

Lemma SubPool_Add_put (mem : list metaTx) (sp : SubPool) (x : nat) :
  poolwf mem sp -> is_Some (mem !! x) -> x ∉ ms (best sp) ->
  exists s', SubPool.Add (mem, sp) x = Some s' /\ poolPut x (mem, sp) s'.
Proof.
  intros Hwf [a Ha] Hnotin. unfold SubPool.Add.
  destruct (noteAdded_ok mem sp x a Ha) as (sp0 & Hnote & Hb0 & Hw0 & Hst).
  rewrite Hnote. simpl.
  set (mem0 := <[x := set_currentSubPool (t sp) a]> mem).
  assert (Hx0 : is_Some (mem0 !! x)).
  { apply lookup_lt_is_Some. unfold mem0. rewrite length_insert. by eapply lookup_lt_Some. }
  destruct (heap_Push_put BestQueue mem0 (best sp0) x) as ([mem1 b1] & Hpush & Hp1).
  { rewrite Hb0. apply qwf_set_currentSubPool; [apply Hwf | done]. }
  { done. }
  { by rewrite Hb0. }
  rewrite Hpush. simpl.
  destruct (heap_Push_put WorstQueue mem1 (worst sp0) x) as ([mem2 w2] & Hadd & Hp2).
  { rewrite Hw0. apply (put_other_qwf BestQueue x (mem0, best sp0) (mem1, b1)); [done |].
    apply qwf_set_currentSubPool; [apply Hwf | done]. }
  { apply lookup_lt_is_Some. pose proof (put_length _ _ _ _ Hp1) as L1. simpl in L1.
    rewrite L1. by apply lookup_lt_is_Some. }
  { rewrite Hw0. by rewrite <- (poolwf_elem WorstQueue mem sp x Hwf) in Hnotin. }
  rewrite Hadd. simpl. eexists. split; [done |].
  rewrite set_best_set_worst.
  apply (two_put BestQueue mem sp sp0 x a (mem1, b1) (mem2, w2)); done.
Qed.

Lemma PendingPool_Updated_moved (mem : list metaTx) (sp : SubPool) (x : nat) :
  poolwf mem sp -> x ∈ ms (best sp) ->
  exists s', PendingPool.Updated (mem, sp) x = Some s' /\ poolMoved (mem, sp) s'.
Proof.
  intros Hwf Hx. unfold PendingPool.Updated. simpl.
  apply (poolwf_elem WorstQueue mem sp x Hwf) in Hx as Hxw. simpl in Hxw.
  apply list_elem_of_lookup in Hxw as [i Hi].
  destruct (proj1 (proj2 Hwf) _ _ Hi) as (a & Ha & Hia). simpl in Hia.
  rewrite Ha. simpl. rewrite Hia.
  destruct (heap_Fix_moved WorstQueue mem (worst sp) i) as ([mem1 w1] & Hfix & Hm);
    [apply Hwf | by eapply lookup_lt_Some |].
  rewrite Hfix. simpl. eexists. split; [done |].
  split; simpl.
  - apply Hm.
  - done.
  - done.
  - done.
  - repeat split.
    + apply (moved_other_qwf WorstQueue _ _ _ _ Hm), Hwf.
    + apply Hm.
    + intros Hy. apply (moved_elem _ _ _ _ Hm). by apply Hwf.
    + intros Hy. apply Hwf. by apply (moved_elem _ _ _ _ Hm).
  - intros y b Hb. destruct (moved_frame _ _ _ _ Hm _ _ Hb) as (b' & Hb' & Hup & Hout).
    exists b'. split; [done |]. split; [by eapply upToIndex_sameData |].
    split; [by eapply upToIndex_currentSubPool |].
    intros Hy. apply Hout. simpl. by rewrite <- (proj2 (proj2 Hwf) y).
Qed.

Lemma SubPool_Updated_moved (mem : list metaTx) (sp : SubPool) (x : nat) :
  poolwf mem sp -> x ∈ ms (best sp) ->
  exists s', SubPool.Updated (mem, sp) x = Some s' /\ poolMoved (mem, sp) s'.
Proof.
  intros Hwf Hx. unfold SubPool.Updated. simpl.
  apply list_elem_of_lookup in Hx as Hxi. destruct Hxi as [i Hi].
  destruct (proj1 Hwf _ _ Hi) as (a & Ha & Hia). simpl in Hia.
  rewrite Ha. simpl. rewrite Hia.
  destruct (heap_Fix_moved BestQueue mem (best sp) i) as ([mem1 b1] & Hfix & Hm1);
    [apply Hwf | by eapply lookup_lt_Some |].
  rewrite Hfix. simpl.
  pose proof (moved_other_qwf BestQueue _ _ _ _ Hm1 (proj1 (proj2 Hwf))) as Hwf1.
  simpl in Hwf1.
  apply (poolwf_elem WorstQueue mem sp x Hwf) in Hx as Hxw. simpl in Hxw.
  apply list_elem_of_lookup in Hxw as [j Hj].
  destruct (Hwf1 _ _ Hj) as (a1 & Ha1 & Hja). simpl in Hja.
  rewrite Ha1. simpl. rewrite Hja.
  destruct (heap_Fix_moved WorstQueue mem1 (worst sp) j) as ([mem2 w2] & Hfix2 & Hm2);
    [done | by eapply lookup_lt_Some |].
  rewrite Hfix2. simpl. eexists. split; [done |].
  split; simpl.
  - pose proof (moved_length _ _ _ _ Hm1). pose proof (moved_length _ _ _ _ Hm2).
    simpl in *. congruence.
  - done.
  - apply Hm1.
  - apply Hm1.
  - repeat split.
    + apply (moved_other_qwf WorstQueue _ _ _ _ Hm2), Hm1.
    + apply Hm2.
    + intros Hy. apply (moved_elem _ _ _ _ Hm2). apply Hwf.
      by apply (moved_elem _ _ _ _ Hm1).
    + intros Hy. apply (moved_elem _ _ _ _ Hm1). apply Hwf.
      by apply (moved_elem _ _ _ _ Hm2).
  - intros y b Hb.
    destruct (moved_frame _ _ _ _ Hm1 _ _ Hb) as (b1' & Hb1 & Hup1 & Hout1).
    destruct (moved_frame _ _ _ _ Hm2 _ _ Hb1) as (b2 & Hb2 & Hup2 & Hout2).
    exists b2. split; [done |]. split; [| split].
    + eapply sameData_trans; by eapply upToIndex_sameData.
    + rewrite (upToIndex_currentSubPool _ _ _ Hup2). by eapply upToIndex_currentSubPool.
    + intros Hy. simpl in *. rewrite Hout2, Hout1; [done | done |].
      by rewrite <- (proj2 (proj2 Hwf) y).
Qed.

End SubPoolFacts.

(** * Facts about the pool *)

Lemma poolOf_setPoolOf (c : SubPoolType) (sp : SubPool) (p : TxPool) (m : list metaTx) :
  c <> NoSubPool -> poolOf c (set_mem m (setPoolOf c sp p)) = sp.
Proof. by destruct c. Qed.

Lemma poolOf_setPoolOf_ne (c c' : SubPoolType) (sp : SubPool) (p : TxPool) (m : list metaTx) :
  c <> NoSubPool -> c' <> NoSubPool -> c' <> c ->
  poolOf c' (set_mem m (setPoolOf c sp p)) = poolOf c' p.
Proof. by destruct c, c'. Qed.

Lemma mem_setPoolOf (c : SubPoolType) (sp : SubPool) (p : TxPool) (m : list metaTx) :
  mem (set_mem m (setPoolOf c sp p)) = m.
Proof. by destruct c. Qed.

Lemma sameRest_setPoolOf (c : SubPoolType) (sp : SubPool) (p : TxPool) (m : list metaTx) :
  sameRest p (set_mem m (setPoolOf c sp p)).
Proof. by destruct c. Qed.

Lemma poolOf_NoSubPool (p : TxPool) : poolOf NoSubPool p = poolOf PendingSubPool p.
Proof. done. Qed.

(** A sub-pool stays well formed when the memory changes outside it. *)
Lemma poolwf_outside (mem mem' : list metaTx) (sp : SubPool) :
  poolwf mem sp ->
  (forall y a, y ∈ ms (best sp) -> mem !! y = Some a -> mem' !! y = Some a) ->
  poolwf mem' sp.
Proof.
  intros (Hb & Hw & He) Hsame. repeat split; try apply He.
  - eapply qwf_transport; [exact Hb |]. intros y a Hy Ha. exists a. split; [| done].
    by apply Hsame.
  - eapply qwf_transport; [exact Hw |]. intros y a Hy Ha. exists a. split; [| done].
    apply Hsame; [| done]. by apply He.
Qed.

Lemma poolsOK_disjoint (p : TxPool) (x : nat) (c c' : SubPoolType) :
  poolsOK p -> c <> NoSubPool -> c' <> NoSubPool -> c' <> c ->
  x ∈ members (poolOf c p) -> x ∉ members (poolOf c' p).
Proof.
  intros Hok Hc Hc' Hne Hx Hx'.
  destruct (qwf_valid BestQueue (mem p) _ x (proj1 (ok_wf p Hok c)) Hx) as [a Ha].
  apply (ok_placed p Hok x a c Ha Hc) in Hx.
  apply (ok_placed p Hok x a c' Ha Hc') in Hx'. congruence.
Qed.

(** Taking [x] out of the sub-pool [c] with a sub-pool method. *)
Lemma poolTaken_detached (c : SubPoolType) (x : nat) (p : TxPool)
  (s' : list metaTx * SubPool) :
  poolsOK p -> c <> NoSubPool -> poolTaken x (mem p, poolOf c p) s' ->
  detached c x p (set_mem s'.1 (setPoolOf c s'.2 p)).
Proof.
  intros Hok Hc Hpt. set (p' := set_mem s'.1 (setPoolOf c s'.2 p)).
  assert (Hmem : mem p' = s'.1) by apply mem_setPoolOf.
  assert (Hpool : poolOf c p' = s'.2) by (by apply poolOf_setPoolOf).
  assert (Hothers : forall c', c' <> c -> c' <> NoSubPool -> poolOf c' p' = poolOf c' p)
    by (intros c' ? ?; by apply poolOf_setPoolOf_ne).
  assert (Hframe : forall y a, mem p !! y = Some a ->
            exists a', mem p' !! y = Some a' /\ sameData a a'
                       /\ (y <> x -> currentSubPool a' = currentSubPool a
                                     /\ (y ∉ members (poolOf c p) -> a' = a))).
  { intros y a Ha. rewrite Hmem. destruct (decide (y = x)) as [-> | Hyx].
    - destruct (pt_self _ _ _ Hpt) as (a0 & a' & Ha0 & Ha' & Hsame & _). simpl in Ha0.
      assert (a0 = a) as -> by congruence. exists a'. done.
    - destruct (pt_frame _ _ _ Hpt _ _ Hyx Ha) as (a' & Ha' & Hsame & Hcsp & Hout).
      exists a'. done. }
  assert (Hx : x ∈ members (poolOf c p)) by (apply (pt_elem _ _ _ Hpt); by left).
  split.
  - apply sameRest_setPoolOf.
  - split; [rewrite Hmem; apply Hpt |].
    intros y a Ha. destruct (Hframe y a Ha) as (a' & Ha' & Hsame & _). eauto.
  - done.
  - rewrite Hpool. apply Hpt.
  - rewrite Hpool. apply Hpt.
  - rewrite Hpool. apply Hpt.
  - split.
    + intros c0. destruct (decide (c0 = c)) as [-> | Hc0].
      { rewrite Hpool, Hmem. apply Hpt. }
      destruct (decide (c0 = NoSubPool)) as [-> | Hc0'].
      { rewrite poolOf_NoSubPool. destruct (decide (c = PendingSubPool)) as [-> | Hcp].
        - rewrite Hpool, Hmem. apply Hpt.
        - rewrite Hothers by done. eapply poolwf_outside; [apply (ok_wf p Hok) |].
          intros y a Hy Ha. destruct (Hframe y a Ha) as (a' & Ha' & _ & Hne).
          assert (y ∉ members (poolOf c p))
            by (eapply (poolsOK_disjoint p y PendingSubPool c); done).
          assert (Hyx : y <> x) by (by intros ->).
          destruct (Hne Hyx) as [_ Heq]. by rewrite <- (Heq H). }
      rewrite Hothers by done. eapply poolwf_outside; [apply (ok_wf p Hok) |].
      intros y a Hy Ha. destruct (Hframe y a Ha) as (a' & Ha' & _ & Hne).
      assert (y ∉ members (poolOf c p))
        by (eapply (poolsOK_disjoint p y c0 c); done).
      assert (Hyx : y <> x) by (by intros ->).
          destruct (Hne Hyx) as [_ Heq]. by rewrite <- (Heq H).
    + intros c0 Hc0. destruct (decide (c0 = c)) as [-> | Hne].
      * rewrite Hpool. destruct (pt_static _ _ _ Hpt) as [[_ ->] _]. by apply (ok_type p Hok).
      * rewrite Hothers by done. by apply (ok_type p Hok).
    + intros y a' c0 Ha' Hc0.
      assert (is_Some (mem p !! y)) as [a Ha].
      { apply lookup_lt_is_Some. pose proof (pt_length _ _ _ Hpt) as L. simpl in L.
        rewrite <- L, <- Hmem. by eapply lookup_lt_Some. }
      destruct (Hframe y a Ha) as (a'' & Ha'' & _ & Hne).
      assert (a'' = a') as -> by congruence.
      destruct (decide (y = x)) as [-> | Hyx].
      * destruct (pt_self _ _ _ Hpt) as (_ & a1 & _ & Ha1 & _ & Hcsp).
        rewrite Hmem in Ha'. assert (a1 = a') as -> by congruence.
        rewrite Hcsp. split; [| congruence].
        intros Hin. exfalso. destruct (decide (c0 = c)) as [-> | Hc0c].
        -- rewrite Hpool in Hin. by apply (pt_notin _ _ _ Hpt).
        -- rewrite Hothers in Hin by done.
           by eapply (poolsOK_disjoint p x c c0).
      * destruct (Hne Hyx) as [-> _]. rewrite <- (ok_placed p Hok y a c0 Ha Hc0).
        destruct (decide (c0 = c)) as [-> | Hc0c].
        -- rewrite Hpool. rewrite (pt_elem _ _ _ Hpt y). simpl. tauto.
        -- by rewrite Hothers.
    + intros y Hy. apply lookup_lt_is_Some. pose proof (pt_length _ _ _ Hpt) as L.
      simpl in L. rewrite Hmem, L. apply lookup_lt_is_Some. apply (ok_tree p Hok).
      destruct (sameRest_setPoolOf c s'.2 p s'.1) as [<- _]. done.
  - rewrite Hmem. destruct (pt_self _ _ _ Hpt) as (_ & a1 & _ & Ha1 & _ & Hcsp). eauto.
  - intros y a Hyx Ha. destruct (Hframe y a Ha) as (a' & Ha' & _ & Hne).
    exists a'. split; [done |]. by apply Hne.
Qed.

(** Putting [x], which is in no sub-pool, into the sub-pool [c] with a
    sub-pool method. *)
Lemma poolPut_attached (c : SubPoolType) (x : nat) (p : TxPool) (a : metaTx)
  (s' : list metaTx * SubPool) :
  poolsOK p -> c <> NoSubPool -> mem p !! x = Some a -> currentSubPool a = NoSubPool ->
  poolPut x (mem p, poolOf c p) s' ->
  attached c x p (set_mem s'.1 (setPoolOf c s'.2 p)).
Proof.
  intros Hok Hc Ha Hcsp Hpp. set (p' := set_mem s'.1 (setPoolOf c s'.2 p)).
  assert (Hmem : mem p' = s'.1) by apply mem_setPoolOf.
  assert (Hpool : poolOf c p' = s'.2) by (by apply poolOf_setPoolOf).
  assert (Hothers : forall c', c' <> c -> c' <> NoSubPool -> poolOf c' p' = poolOf c' p)
    by (intros c' ? ?; by apply poolOf_setPoolOf_ne).
  assert (Hnowhere : forall c0, c0 <> NoSubPool -> x ∉ members (poolOf c0 p)).
  { intros c0 Hc0 Hin. apply (ok_placed p Hok x a c0 Ha Hc0) in Hin. congruence. }
  assert (Hframe : forall y b, mem p !! y = Some b ->
            exists b', mem p' !! y = Some b' /\ sameData b b'
                       /\ (y <> x -> currentSubPool b' = currentSubPool b
                                     /\ (y ∉ members (poolOf c p) -> b' = b))).
  { intros y b Hb. rewrite Hmem. destruct (decide (y = x)) as [-> | Hyx].
    - destruct (pp_self _ _ _ Hpp) as (a0 & a' & Ha0 & Ha' & Hsame & _). simpl in Ha0.
      assert (a0 = b) as -> by congruence. exists a'. done.
    - destruct (pp_frame _ _ _ Hpp _ _ Hyx Hb) as (b' & Hb' & Hsame & Hcsp' & Hout).
      exists b'. done. }
  pose proof (pp_length _ _ _ Hpp) as L. simpl in L.
  split.
  - apply sameRest_setPoolOf.
  - split; [by rewrite Hmem |].
    intros y b Hb. destruct (Hframe y b Hb) as (b' & Hb' & Hsame & _). eauto.
  - done.
  - rewrite Hpool. apply Hpp.
  - rewrite Hpool. apply Hpp.
  - rewrite Hpool. apply Hpp.
  - split.
    + assert (Hout : forall c0, c0 <> c -> c0 <> NoSubPool ->
                poolwf (mem p') (poolOf c0 p)).
      { intros c0 Hc0 Hc0'. eapply poolwf_outside; [apply (ok_wf p Hok) |].
        intros y b Hy Hb. destruct (Hframe y b Hb) as (b' & Hb' & _ & Hne).
        assert (Hyx : y <> x) by (intros ->; by eapply Hnowhere).
        assert (y ∉ members (poolOf c p))
          by (eapply (poolsOK_disjoint p y c0 c); done).
        destruct (Hne Hyx) as [_ Heq]. by rewrite <- (Heq H). }
      intros c0. destruct (decide (c0 = c)) as [-> | Hc0].
      { rewrite Hpool, Hmem. apply Hpp. }
      destruct (decide (c0 = NoSubPool)) as [-> | Hc0'].
      { rewrite poolOf_NoSubPool. destruct (decide (c = PendingSubPool)) as [-> | Hcp].
        - rewrite Hpool, Hmem. apply Hpp.
        - rewrite Hothers by done. by apply Hout. }
      rewrite Hothers by done. by apply Hout.
    + intros c0 Hc0. destruct (decide (c0 = c)) as [-> | Hne].
      * rewrite Hpool. destruct (pp_static _ _ _ Hpp) as [_ ->]. by apply (ok_type p Hok).
      * rewrite Hothers by done. by apply (ok_type p Hok).
    + intros y b' c0 Hb' Hc0.
      assert (is_Some (mem p !! y)) as [b Hb].
      { apply lookup_lt_is_Some. rewrite <- L, <- Hmem. by eapply lookup_lt_Some. }
      destruct (Hframe y b Hb) as (b'' & Hb'' & _ & Hne).
      assert (b'' = b') as -> by congruence.
      destruct (decide (y = x)) as [-> | Hyx].
      * destruct (pp_self _ _ _ Hpp) as (_ & a1 & _ & Ha1 & _ & Hcsp1).
        rewrite Hmem in Hb'. assert (a1 = b') as -> by congruence.
        rewrite Hcsp1. simpl. rewrite (ok_type p Hok c Hc).
        destruct (decide (c0 = c)) as [-> | Hc0c].
        -- rewrite Hpool. split; [done |]. intros _. apply (pp_elem _ _ _ Hpp). by left.
        -- rewrite Hothers by done. split; [| congruence].
           intros Hin. exfalso. by eapply Hnowhere.
      * destruct (Hne Hyx) as [-> _]. rewrite <- (ok_placed p Hok y b c0 Hb Hc0).
        destruct (decide (c0 = c)) as [-> | Hc0c].
        -- rewrite Hpool. rewrite (pp_elem _ _ _ Hpp y). simpl. unfold members. tauto.
        -- by rewrite Hothers.
    + intros y Hy. apply lookup_lt_is_Some. rewrite Hmem, L. apply lookup_lt_is_Some.
      apply (ok_tree p Hok).
      destruct (sameRest_setPoolOf c s'.2 p s'.1) as [<- _]. done.
  - intros y b Hyx Hb. destruct (Hframe y b Hb) as (b' & Hb' & _ & Hne).
    exists b'. split; [done |]. by apply Hne.
Qed.

(** ** The index by sender and nonce *)

Lemma resolve_total (mem : list metaTx) (l : list nat) :
  (forall x, x ∈ l -> is_Some (mem !! x)) ->
  exists items, resolve mem l = Some items /\ items.*2 = l
                /\ Forall (fun it => exists a, mem !! it.2 = Some a /\ it.1 = keyOf a) items.
Proof.
  induction l as [| x l IH]; intros Hvalid.
  - exists []. by repeat split.
  - destruct IH as (items & Hres & Hsnd & Hall).
    { intros y Hy. apply Hvalid. by right. }
    destruct (Hvalid x) as [a Ha]; [by left |].
    exists ((keyOf a, x) :: items). unfold resolve in *. simpl.
    rewrite Ha. simpl. rewrite Hres. simpl. split; [done |]. split; [simpl; by f_equal |].
    constructor; [| done]. eauto.
Qed.

Lemma Delete_subset (items : list (Z * Z * nat)) (k : Z * Z) (x : nat) :
  x ∈ (btree.Delete items k).2 -> x ∈ items.*2.
Proof.
  induction items as [| it items IH]; simpl; [done |].
  destruct (sortByNonce_Less it.1 k).
  - destruct (btree.Delete items k) as [r rest] eqn:Hd. simpl in *.
    rewrite !elem_of_cons. intros [-> | Hx]; [by left | right; by apply IH].
  - destruct (sortByNonce_Less k it.1); simpl.
    + done.
    + intros Hx. by right.
Qed.

Lemma discardLocked_ok (x : nat) (reason : DiscardReason) (p : TxPool) :
  poolsOK p -> is_Some (mem p !! x) ->
  exists p', discardLocked x reason p = Some p'
    /\ mem p' = mem p /\ (forall c, poolOf c p' = poolOf c p)
    /\ discards p' = discards p ++ [(x, reason)]
    /\ deletedTxs p' = deletedTxs p ++ [Some x]
    /\ cfg p' = cfg p
    /\ (forall y, y ∈ tree (all p') -> y ∈ tree (all p))
    /\ poolsOK p'.
Proof.
  intros Hok [a Ha]. unfold discardLocked. rewrite Ha. simpl.
  destruct (resolve_total (mem p) (tree (all p)) (ok_tree p Hok)) as (items & Hres & Hsnd & _).
  unfold BySenderAndNonce.delete. rewrite Hres. simpl. rewrite Ha. simpl.
  destruct (btree.Delete items (keyOf a)) as [removed tree'] eqn:Hdel. simpl.
  assert (Hsub : forall y, y ∈ tree' -> y ∈ tree (all p)).
  { intros y Hy. rewrite <- Hsnd. apply (Delete_subset items (keyOf a)). by rewrite Hdel. }
  eexists. split; [done |]. split; [done |]. split; [by intros [] |].
  split; [done |]. split; [done |]. split; [done |].
  assert (Htree : forall y, y ∈ tree (match removed with
      | Some _ => {| tree := tree';
                     senderIDTxnCount :=
                       if bool_decide (BySenderAndNonce.count (all p) (senderID (Tx a)) > 1)
                       then <[senderID (Tx a) := BySenderAndNonce.count (all p) (senderID (Tx a)) - 1]>
                              (senderIDTxnCount (all p))
                       else base.delete (senderID (Tx a)) (senderIDTxnCount (all p)) |}
      | None => {| tree := tree'; senderIDTxnCount := senderIDTxnCount (all p) |}
      end) -> y ∈ tree (all p)).
  { intros y. destruct removed; simpl; apply Hsub. }
  split; [exact Htree |].
  destruct Hok as [Hwf Hty Hpl Htr]. split; simpl.
  - intros c. specialize (Hwf c). by destruct c.
  - intros c Hc. specialize (Hty c Hc). by destruct c.
  - intros y b c Hb Hc. specialize (Hpl y b c Hb Hc). by destruct c.
  - intros y Hy. apply Htr. by apply Htree.
Qed.

(** ** Moving a transaction between sub-pools *)

Lemma root_exists (k : QueueKind) (p : TxPool) (c : SubPoolType) :
  poolsOK p -> (0 < length (members (poolOf c p)))%nat ->
  exists x a, ms (queueOf k (poolOf c p)) !! 0%nat = Some x
              /\ head (ms (queueOf k (poolOf c p))) = Some x
              /\ x ∈ members (poolOf c p) /\ mem p !! x = Some a.
Proof.
  intros Hok Hlen.
  pose proof (poolwf_queue_length k _ _ (ok_wf p Hok c)) as Hql.
  destruct (lookup_lt_is_Some_2 (ms (queueOf k (poolOf c p))) 0) as [x Hx];
    [unfold members in Hlen; lia |].
  assert (Hin : x ∈ members (poolOf c p)).
  { apply (poolwf_elem k _ _ _ (ok_wf p Hok c)). by eapply list_elem_of_lookup_2. }
  destruct (qwf_valid BestQueue (mem p) _ x (proj1 (ok_wf p Hok c)) Hin) as [a Ha].
  exists x, a. split; [done |]. split; [| done].
  by rewrite head_lookup.
Qed.

Lemma popPending_PopWorst (p : TxPool) (x : nat) :
  poolsOK p -> ms (worst (pending p)) !! 0%nat = Some x ->
  exists p', popPending PendingPool.PopWorst p = Some (x, p')
             /\ detached PendingSubPool x p p'.
Proof.
  intros Hok Hx. unfold popPending.
  destruct (PendingPool_PopWorst_taken (mem p) (pending p) x (ok_wf p Hok PendingSubPool) Hx)
    as ([m sp] & Hpop & Hpt).
  rewrite Hpop. simpl. eexists. split; [done |].
  by apply (poolTaken_detached PendingSubPool x p (m, sp)).
Qed.

Lemma popBaseFee_PopBest (p : TxPool) (x : nat) :
  poolsOK p -> ms (best (baseFee p)) !! 0%nat = Some x ->
  exists p', popBaseFee SubPool.PopBest p = Some (x, p')
             /\ detached BaseFeeSubPool x p p'.
Proof.
  intros Hok Hx. unfold popBaseFee.
  destruct (SubPool_PopBest_taken (mem p) (baseFee p) x (ok_wf p Hok BaseFeeSubPool) Hx)
    as ([m sp] & Hpop & Hpt).
  rewrite Hpop. simpl. eexists. split; [done |].
  by apply (poolTaken_detached BaseFeeSubPool x p (m, sp)).
Qed.

Lemma popBaseFee_PopWorst (p : TxPool) (x : nat) :
  poolsOK p -> ms (worst (baseFee p)) !! 0%nat = Some x ->
  exists p', popBaseFee SubPool.PopWorst p = Some (x, p')
             /\ detached BaseFeeSubPool x p p'.
Proof.
  intros Hok Hx. unfold popBaseFee.
  destruct (SubPool_PopWorst_taken (mem p) (baseFee p) x (ok_wf p Hok BaseFeeSubPool) Hx)
    as ([m sp] & Hpop & Hpt).
  rewrite Hpop. simpl. eexists. split; [done |].
  by apply (poolTaken_detached BaseFeeSubPool x p (m, sp)).
Qed.

Lemma popQueued_PopBest (p : TxPool) (x : nat) :
  poolsOK p -> ms (best (queued p)) !! 0%nat = Some x ->
  exists p', popQueued SubPool.PopBest p = Some (x, p')
             /\ detached QueuedSubPool x p p'.
Proof.
  intros Hok Hx. unfold popQueued.
  destruct (SubPool_PopBest_taken (mem p) (queued p) x (ok_wf p Hok QueuedSubPool) Hx)
    as ([m sp] & Hpop & Hpt).
  rewrite Hpop. simpl. eexists. split; [done |].
  by apply (poolTaken_detached QueuedSubPool x p (m, sp)).
Qed.

Lemma popQueued_PopWorst (p : TxPool) (x : nat) :
  poolsOK p -> ms (worst (queued p)) !! 0%nat = Some x ->
  exists p', popQueued SubPool.PopWorst p = Some (x, p')
             /\ detached QueuedSubPool x p p'.
Proof.
  intros Hok Hx. unfold popQueued.
  destruct (SubPool_PopWorst_taken (mem p) (queued p) x (ok_wf p Hok QueuedSubPool) Hx)
    as ([m sp] & Hpop & Hpt).
  rewrite Hpop. simpl. eexists. split; [done |].
  by apply (poolTaken_detached QueuedSubPool x p (m, sp)).
Qed.

Lemma not_member_of_NoSubPool (p : TxPool) (x : nat) (a : metaTx) (c : SubPoolType) :
  poolsOK p -> mem p !! x = Some a -> currentSubPool a = NoSubPool ->
  x ∉ members (poolOf c p).
Proof.
  intros Hok Ha Hcsp Hin.
  destruct (decide (c = NoSubPool)) as [-> | Hc].
  - rewrite poolOf_NoSubPool in Hin.
    apply (ok_placed p Hok x a PendingSubPool Ha) in Hin; congruence.
  - apply (ok_placed p Hok x a c Ha Hc) in Hin. congruence.
Qed.

Lemma inPending_Add (p : TxPool) (x : nat) (a : metaTx) :
  poolsOK p -> mem p !! x = Some a -> currentSubPool a = NoSubPool ->
  exists p', inPending (fun s => PendingPool.Add s x) p = Some p'
             /\ attached PendingSubPool x p p'.
Proof.
  intros Hok Ha Hcsp. unfold inPending.
  destruct (PendingPool_Add_put (mem p) (pending p) x (ok_wf p Hok PendingSubPool))
    as ([m sp] & Hadd & Hpp); [eauto | by eapply (not_member_of_NoSubPool p x a PendingSubPool) |].
  rewrite Hadd. simpl. eexists. split; [done |].
  by apply (poolPut_attached PendingSubPool x p a (m, sp)).
Qed.

Lemma inBaseFee_Add (p : TxPool) (x : nat) (a : metaTx) :
  poolsOK p -> mem p !! x = Some a -> currentSubPool a = NoSubPool ->
  exists p', inBaseFee (fun s => SubPool.Add s x) p = Some p'
             /\ attached BaseFeeSubPool x p p'.
Proof.
  intros Hok Ha Hcsp. unfold inBaseFee.
  destruct (SubPool_Add_put (mem p) (baseFee p) x (ok_wf p Hok BaseFeeSubPool))
    as ([m sp] & Hadd & Hpp); [eauto | by eapply (not_member_of_NoSubPool p x a BaseFeeSubPool) |].
  rewrite Hadd. simpl. eexists. split; [done |].
  by apply (poolPut_attached BaseFeeSubPool x p a (m, sp)).
Qed.

Lemma inQueued_Add (p : TxPool) (x : nat) (a : metaTx) :
  poolsOK p -> mem p !! x = Some a -> currentSubPool a = NoSubPool ->
  exists p', inQueued (fun s => SubPool.Add s x) p = Some p'
             /\ attached QueuedSubPool x p p'.
Proof.
  intros Hok Ha Hcsp. unfold inQueued.
  destruct (SubPool_Add_put (mem p) (queued p) x (ok_wf p Hok QueuedSubPool))
    as ([m sp] & Hadd & Hpp); [eauto | by eapply (not_member_of_NoSubPool p x a QueuedSubPool) |].
  rewrite Hadd. simpl. eexists. split; [done |].
  by apply (poolPut_attached QueuedSubPool x p a (m, sp)).
Qed.

(** ** The loops of [promote] *)

Lemma advanced_refl (p : TxPool) : poolsOK p -> advanced [] p p.
Proof. intros Hok. split; [done | done | by rewrite app_nil_r]. Qed.

Lemma advanced_trans (l1 l2 : list (nat * DiscardReason)) (p p1 p2 : TxPool) :
  advanced l1 p p1 -> advanced l2 p1 p2 -> advanced (l1 ++ l2) p p2.
Proof.
  intros H1 H2. split.
  - apply H2.
  - intros c. rewrite (adv_limit _ _ _ H2). apply H1.
  - rewrite (adv_discards _ _ _ H2), (adv_discards _ _ _ H1). by rewrite app_assoc.
Qed.

Lemma detached_advanced (c : SubPoolType) (x : nat) (p p' : TxPool) :
  c <> NoSubPool -> detached c x p p' -> advanced [] p p'.
Proof.
  intros Hc Hd. split.
  - apply Hd.
  - intros c0. destruct (decide (c0 = c)) as [-> | Hne]; [apply Hd |].
    destruct (decide (c0 = NoSubPool)) as [-> | Hne'].
    + rewrite !poolOf_NoSubPool. destruct (decide (c = PendingSubPool)) as [-> | Hcp].
      * apply Hd.
      * by rewrite (d_others _ _ _ _ Hd PendingSubPool).
    + by rewrite (d_others _ _ _ _ Hd c0).
  - destruct (d_rest _ _ _ _ Hd) as (_ & _ & -> & _). by rewrite app_nil_r.
Qed.

Lemma attached_advanced (c : SubPoolType) (x : nat) (p p' : TxPool) :
  c <> NoSubPool -> attached c x p p' -> advanced [] p p'.
Proof.
  intros Hc Hd. split.
  - apply Hd.
  - intros c0. destruct (decide (c0 = c)) as [-> | Hne]; [apply Hd |].
    destruct (decide (c0 = NoSubPool)) as [-> | Hne'].
    + rewrite !poolOf_NoSubPool. destruct (decide (c = PendingSubPool)) as [-> | Hcp].
      * apply Hd.
      * by rewrite (a_others _ _ _ _ Hd PendingSubPool).
    + by rewrite (a_others _ _ _ _ Hd c0).
  - destruct (a_rest _ _ _ _ Hd) as (_ & _ & -> & _). by rewrite app_nil_r.
Qed.

Lemma discardLocked_advanced (x : nat) (reason : DiscardReason) (p : TxPool) :
  poolsOK p -> is_Some (mem p !! x) ->
  exists p', discardLocked x reason p = Some p' /\ advanced [(x, reason)] p p'
             /\ forall c, sizeIn c p' = sizeIn c p.
Proof.
  intros Hok Hx.
  destruct (discardLocked_ok x reason p Hok Hx)
    as (p' & Hd & Hmem & Hpools & Hdis & _ & _ & _ & Hok').
  exists p'. split; [done |]. split.
  - split; [done | | done]. intros c. by rewrite Hpools.
  - intros c. unfold sizeIn. by rewrite Hpools.
Qed.

Lemma detached_sizes (c : SubPoolType) (x : nat) (p p' : TxPool) :
  c <> NoSubPool -> detached c x p p' ->
  sizeIn c p = S (sizeIn c p')
  /\ forall c', c' <> c -> c' <> NoSubPool -> sizeIn c' p' = sizeIn c' p.
Proof.
  intros Hc Hd. split; [apply Hd |].
  intros c' Hne Hne'. unfold sizeIn. by rewrite (d_others _ _ _ _ Hd c').
Qed.

Lemma attached_sizes (c : SubPoolType) (x : nat) (p p' : TxPool) :
  c <> NoSubPool -> attached c x p p' ->
  sizeIn c p' = S (sizeIn c p)
  /\ forall c', c' <> c -> c' <> NoSubPool -> sizeIn c' p' = sizeIn c' p.
Proof.
  intros Hc Hd. split; [apply Hd |].
  intros c' Hne Hne'. unfold sizeIn. by rewrite (a_others _ _ _ _ Hd c').
Qed.

Lemma tagged_app (r : DiscardReason) (l1 l2 : list (nat * DiscardReason)) :
  tagged r l1 -> tagged r l2 -> tagged r (l1 ++ l2).
Proof. apply Forall_app_2. Qed.

(** * The checkers are sound *)

Lemma indexed_lookup {A : Type} (l : list A) (i : nat) (x : A) :
  l !! i = Some x -> (i, x) ∈ indexed l.
Proof.
  intros Hx. apply (list_elem_of_lookup_2 _ i). unfold indexed.
  rewrite lookup_zip_with, lookup_seq_lt by (by eapply lookup_lt_Some).
  simpl. by rewrite Hx.
Qed.

Lemma forallb_elem {A : Type} (f : A -> bool) (l : list A) (x : A) :
  forallb f l = true -> x ∈ l -> f x = true.
Proof.
  intros Hall Hx. rewrite forallb_forall in Hall. apply Hall. by apply list_elem_of_In.
Qed.

Lemma qwfb_sound (k : QueueKind) (mem : list metaTx) (l : list nat) :
  qwfb k mem l = true -> qwf k mem l.
Proof.
  intros Hb i x Hx. apply indexed_lookup in Hx.
  pose proof (forallb_elem _ _ _ Hb Hx) as H. simpl in H.
  destruct (mem !! x) as [a |]; [| done]. exists a. split; [done |].
  by apply bool_decide_eq_true in H.
Qed.

Lemma poolwfb_sound (mem : list metaTx) (sp : SubPool) :
  poolwfb mem sp = true -> poolwf mem sp.
Proof.
  unfold poolwfb. rewrite !andb_true_iff. intros [[[Hb Hw] Hbw] Hwb].
  split; [by apply qwfb_sound |]. split; [by apply qwfb_sound |].
  intros x. split; intros Hx.
  - pose proof (forallb_elem _ _ _ Hbw Hx) as H. by apply bool_decide_eq_true in H.
  - pose proof (forallb_elem _ _ _ Hwb Hx) as H. by apply bool_decide_eq_true in H.
Qed.

Lemma realPools_all (c : SubPoolType) : c <> NoSubPool -> c ∈ realPools.
Proof. destruct c; [done | | |]; intros _; unfold realPools; set_solver. Qed.

Lemma poolsOKb_sound (p : TxPool) : poolsOKb p = true -> poolsOK p.
Proof.
  unfold poolsOKb. rewrite !andb_true_iff. intros [[Hpools Hplaced] Htree].
  assert (Hwf : forall c, c <> NoSubPool ->
            poolwf (mem p) (poolOf c p) /\ t (poolOf c p) = c).
  { intros c Hc. pose proof (forallb_elem _ _ _ Hpools (realPools_all c Hc)) as H.
    simpl in H. apply andb_true_iff in H as [H1 H2].
    split; [by apply poolwfb_sound | by apply bool_decide_eq_true in H2]. }
  split.
  - intros c. destruct (decide (c = NoSubPool)) as [-> | Hc].
    + rewrite poolOf_NoSubPool. by apply Hwf.
    + by apply Hwf.
  - intros c Hc. by apply Hwf.
  - intros x a c Ha Hc. apply indexed_lookup in Ha.
    pose proof (forallb_elem _ _ _ Hplaced Ha) as H. cbv beta in H. cbn [fst snd] in H.
    pose proof (forallb_elem _ _ _ H (realPools_all c Hc)) as H'. cbv beta in H'.
    apply bool_decide_eq_true in H'.
    split; intros HH.
    + apply (bool_decide_eq_true_1 (currentSubPool a = c)). rewrite <- H'.
      by apply bool_decide_eq_true_2.
    + apply (bool_decide_eq_true_1 (x ∈ members (poolOf c p))). rewrite H'.
      by apply bool_decide_eq_true_2.
  - intros x Hx. pose proof (forallb_elem _ _ _ Htree Hx) as H.
    by apply bool_decide_eq_true in H.
Qed.

Ltac comparator_cases :=
  repeat (case_bool_decide; simpl in *; try lia; try done).

Lemma better_irreflexive (a : metaTx) (f : Z) : better a a f = false.
Proof.
  unfold better. destruct (currentSubPool a); comparator_cases.
Qed.

Lemma worse_irreflexive (a : metaTx) (f : Z) : worse a a f = false.
Proof.
  unfold worse. destruct (currentSubPool a); comparator_cases.
Qed.

Lemma better_asymmetric (a b : metaTx) (f : Z) :
  currentSubPool a = currentSubPool b -> better a b f = true -> better b a f = false.
Proof.
  unfold better. intros <-.
  generalize (effectiveSubPool a f) (effectiveSubPool b f)
             (effectiveTip a f) (effectiveTip b f).
  intros sa sb ta tb.
  destruct (currentSubPool a); comparator_cases.
Qed.

Lemma worse_asymmetric (a b : metaTx) (f : Z) :
  currentSubPool a = currentSubPool b -> worse a b f = true -> worse b a f = false.
Proof.
  unfold worse. intros <-.
  generalize (effectiveSubPool a f) (effectiveSubPool b f).
  intros sa sb.
  destruct (currentSubPool a); comparator_cases.
Qed.

(** C10.  For every pending base fee, [better] and [worse] are
    irreflexive, and on two transactions of the same current sub-pool
    they are asymmetric: they never hold in both directions. *)
Theorem comparators_strict (a b : metaTx) (pendingBaseFee : Z) :
  currentSubPool a = currentSubPool b ->
  better a a pendingBaseFee = false /\ worse a a pendingBaseFee = false /\
  ~ (better a b pendingBaseFee = true /\ better b a pendingBaseFee = true) /\
  ~ (worse a b pendingBaseFee = true /\ worse b a pendingBaseFee = true).
Proof.
  intros Hsame. split; [apply better_irreflexive |].
  split; [apply worse_irreflexive |]. split.
  - intros [Hab Hba]. rewrite (better_asymmetric a b _ Hsame Hab) in Hba. done.
  - intros [Hab Hba]. rewrite (worse_asymmetric a b _ Hsame Hab) in Hba. done.
Qed.

Lemma comparators_strict_witness :
  currentSubPool samplePending = currentSubPool samplePending' /\
  better samplePending' samplePending 10 = true /\
  (better samplePending samplePending 10 = false /\
   worse samplePending samplePending 10 = false /\
   ~ (better samplePending samplePending' 10 = true /\
      better samplePending' samplePending 10 = true) /\
   ~ (worse samplePending samplePending' 10 = true /\
      worse samplePending' samplePending 10 = true)).
Proof.
  split; [reflexivity |]. split; [reflexivity |].
  apply (comparators_strict samplePending samplePending' 10). reflexivity.
Defined.

(** * Runs of the pool *)

(** C1.  A run of [addTxs] after which a transaction with an empty
    marker and a fee cap below the pending base fee sits in pending:
    [promote] looked at the root of the worst queue only, and
    [onSenderStateChange] had changed the marker of [txB] without
    re-ordering the queue.  Every transaction of the run passes
    [validateTx] when it is submitted. *)
Theorem promote_leaves_stale_pending :
  validateTx (samplePool 2) txA false sampleView = Success
  /\ validateTx (samplePool 2) txB true sampleView = Success
  /\ (exists p1, staleRun1 = Some p1 /\ validateTx p1 txD true sampleView = Success)
  /\ (exists p2, staleRun2 = Some p2 /\ validateTx p2 txC true sampleView = Success
                 /\ discards p2 = [(0%nat, PendingPoolOverflow)])
  /\ exists p b,
       staleRun3 = Some p
       /\ ms (worst (pending p)) = [2%nat; 1%nat]
       /\ mem p !! 1%nat = Some b
       /\ Tx b = txB
       /\ currentSubPool b = PendingSubPool
       /\ subPool b = 0 /\ subPool b < BaseFeePoolBits
       /\ minFeeCap b = 5 /\ minFeeCap b < poolPendingBaseFee p.
Proof.
  split; [by vm_compute |]. split; [by vm_compute |].
  split; [eexists; split; [by vm_compute | by vm_compute] |].
  split; [eexists; split; [by vm_compute | split; by vm_compute] |].
  eexists _, _. split; [by vm_compute |].
  repeat split; by vm_compute.
Qed.

Lemma foldl_None {A B : Type} (f : option B -> A -> option B) (l : list A) :
  (forall x, f None x = None) -> foldl f None l = None.
Proof. intros Hf. induction l as [| x l IH]; simpl; [done | by rewrite Hf]. Qed.

Lemma setAt_lookup_ne {A : Type} (l l' : list A) (i j : nat) (v : A) :
  setAt l j v = Some l' -> i <> j -> l' !! i = l !! i.
Proof.
  unfold setAt. case_bool_decide; [| done]. intros [= <-] Hij.
  by rewrite list_lookup_insert_ne.
Qed.

(** An entry left [NotSet] at an index the compacted batch does not
    have makes [fillDiscardReasons] index out of range. *)
Lemma fillDiscardReasons_out_of_range (reasons : list DiscardReason) (newTxs : TxSlots)
  (lru : LRU DiscardReason) (i : nat) :
  reasons !! i = Some NotSet -> (length (txs newTxs) <= i)%nat ->
  fillDiscardReasons reasons newTxs lru = None.
Proof.
  intros Hi Hlen. unfold fillDiscardReasons.
  assert (Hin : i ∈ (indexed reasons).*1).
  { apply list_elem_of_fmap. exists (i, NotSet). split; [done |]. by apply indexed_lookup. }
  revert Hin. generalize (indexed reasons). intros l. revert reasons lru Hi.
  induction l as [| [j r] l IH]; intros reasons lru Hi Hin; [by apply elem_of_nil in Hin |].
  simpl. destruct (decide (j = i)) as [-> | Hji].
  - rewrite Hi. simpl. rewrite (lookup_ge_None_2 (txs newTxs) i) by done. simpl.
    by apply foldl_None.
  - assert (Hin' : i ∈ l.*1).
    { simpl in Hin. apply elem_of_cons in Hin as [Heq | Hin]; [congruence | done]. }
    destruct (reasons !! j) as [rj |] eqn:Hrj; simpl; [| by apply foldl_None].
    case_bool_decide; [apply IH; [done | done] |].
    destruct (txs newTxs !! j) as [txn |]; simpl; [| by apply foldl_None].
    destruct (simplelru.Get lru (IdHash txn)) as [reason lru'].
    destruct (setAt reasons j (default Success reason)) as [rs |] eqn:Hset; simpl;
      [| by apply foldl_None].
    apply IH; [| done].
    rewrite (setAt_lookup_ne _ _ i j _ Hset) by done. done.
Qed.

(** C9.  On the batch [badThenGood], [validateTxs] hands
    [fillDiscardReasons] two reasons, the second one [NotSet], and a
    compacted batch of one slot; [fillDiscardReasons] then indexes slot 1
    of it and panics, whatever the cache of reasons holds. *)
Theorem fillDiscardReasons_indexes_out_of_range :
  validateTxs badThenGood sampleView (samplePool 2)
  = Some (([IntrinsicGas; NotSet], mkTxSlots [txA] [true], false), samplePool 2)
  /\ forall lru, fillDiscardReasons [IntrinsicGas; NotSet] (mkTxSlots [txA] [true]) lru = None.
Proof.
  split; [by vm_compute |].
  intros lru. apply (fillDiscardReasons_out_of_range _ _ _ 1); [done | simpl; lia].
Qed.

(** C6.  [AddLocalTxs] panics on the batch [badThenGood] and so returns
    no reason at all; with the two inputs in the other order it returns
    one reason per input. *)
Theorem AddLocalTxs_panics_after_a_rejection :
  AddLocalTxs sampleView badThenGood (samplePool 2) = None
  /\ fst <$> AddLocalTxs sampleView goodThenBad (samplePool 2)
     = Some (Some [Success; IntrinsicGas]).
Proof. split; by vm_compute. Qed.

(** C8.  After the run [staleRun2] the list [deletedTxs] holds the
    evicted transaction.  When the second database operation of
    [flushLocked] fails, [flush] returns an error and the list holds
    [nil] in its place; when all of [flushLocked] succeeds and the
    commit fails, [flush] returns an error and the list is empty. *)
Theorem flush_loses_deletedTxs :
  exists p, staleRun2 = Some p
    /\ deletedTxs p = [Some 0%nat]
    /\ (exists p' db, flush (failingAfter 1) p = Some (p', db, true)
                      /\ deletedTxs p' = [None] /\ db = failingAfter 1)
    /\ (exists p' db, flush (failingAfter 10) p = Some (p', db, true)
                      /\ deletedTxs p' = [] /\ db = failingAfter 10).
Proof.
  eexists. split; [by vm_compute |]. split; [by vm_compute |]. split.
  - eexists _, _. split; [by vm_compute |]. split; by vm_compute.
  - eexists _, _. split; [by vm_compute |]. split; by vm_compute.
Qed.

(** * The walk of [onSenderStateChange] *)

Lemma testbit_protocol_lor (x : Z) : Z.testbit (Z.lor x EnoughFeeCapProtocol) 5 = true.
Proof. rewrite Z.lor_spec. replace (Z.testbit EnoughFeeCapProtocol 5) with true by done.
       apply orb_true_r. Qed.

Lemma testbit_clearBit_other (x bit : Z) :
  Z.testbit bit 5 = false -> Z.testbit (clearBit x bit) 5 = Z.testbit x 5.
Proof.
  intros Hbit. unfold clearBit. rewrite Z.land_spec, Z.lnot_spec by lia.
  rewrite Hbit. apply andb_true_r.
Qed.

Lemma testbit_lor_other (x bit : Z) :
  Z.testbit bit 5 = false -> Z.testbit (Z.lor x bit) 5 = Z.testbit x 5.
Proof. intros Hbit. rewrite Z.lor_spec, Hbit. apply orb_false_r. Qed.

Lemma land_protocol (x : Z) :
  Z.testbit x 5 = true -> Z.land x EnoughFeeCapProtocol = EnoughFeeCapProtocol.
Proof.
  intros Hx. apply Z.bits_inj'. intros n Hn. rewrite Z.land_spec.
  change EnoughFeeCapProtocol with (2 ^ 5). rewrite Z.pow2_bits_eqb by lia.
  destruct (Z.eqb_spec 5 n) as [<- | Hne]; [by rewrite Hx | apply andb_false_r].
Qed.

(** Changing a transaction outside the fields the containers maintain
    keeps the pool well formed. *)
Lemma poolsOK_setMt (p : TxPool) (mt : nat) (a a2 : metaTx) :
  poolsOK p -> mem p !! mt = Some a ->
  bestIndex a2 = bestIndex a -> worstIndex a2 = worstIndex a ->
  currentSubPool a2 = currentSubPool a ->
  poolsOK (setMt mt a2 p).
Proof.
  intros Hok Ha Hb Hw Hc.
  assert (Hlook : forall y b, mem p !! y = Some b ->
            exists b', <[mt := a2]> (mem p) !! y = Some b'
                       /\ bestIndex b' = bestIndex b /\ worstIndex b' = worstIndex b
                       /\ currentSubPool b' = currentSubPool b).
  { intros y b Hy. destruct (decide (y = mt)) as [-> | Hne].
    - exists a2. rewrite list_lookup_insert_eq by (by eapply lookup_lt_Some).
      assert (b = a) as -> by congruence. done.
    - exists b. by rewrite list_lookup_insert_ne. }
  split; simpl.
  - intros c. destruct (ok_wf p Hok c) as (Hqb & Hqw & He).
    assert (forall k l, qwf k (mem p) l -> qwf k (<[mt := a2]> (mem p)) l) as Htr.
    { intros k l Hq. eapply qwf_transport; [done |]. intros y b _ Hy.
      destruct (Hlook y b Hy) as (b' & Hb' & Hib & Hiw & _). exists b'.
      split; [done |]. by destruct k. }
    replace (poolOf c (setMt mt a2 p)) with (poolOf c p) by (by destruct c).
    repeat split; [by apply Htr | by apply Htr | apply He | apply He].
  - intros c Hc0. replace (poolOf c (setMt mt a2 p)) with (poolOf c p) by (by destruct c).
    by apply (ok_type p Hok).
  - intros y b' c Hy Hc0.
    replace (poolOf c (setMt mt a2 p)) with (poolOf c p) by (by destruct c).
    assert (is_Some (mem p !! y)) as [b Hb0].
    { apply lookup_lt_is_Some. apply lookup_lt_Some in Hy. by rewrite length_insert in Hy. }
    destruct (Hlook y b Hb0) as (b'' & Hb'' & _ & _ & Hcsp).
    assert (b'' = b') as -> by congruence. rewrite Hcsp.
    by apply (ok_placed p Hok).
  - intros y Hy. apply lookup_lt_is_Some. rewrite length_insert.
    apply lookup_lt_is_Some. by apply (ok_tree p Hok).
Qed.

(** [Updated] of the sub-pool a transaction is in returns and leaves
    the transaction's data, the lists of discards and the index by
    nonce as they are. *)
Lemma updated_ok (p : TxPool) (mt : nat) (a : metaTx) :
  poolsOK p -> mem p !! mt = Some a ->
  exists p' a',
    match currentSubPool a with
    | PendingSubPool => inPending (fun s => PendingPool.Updated s mt) p
    | BaseFeeSubPool => inBaseFee (fun s => SubPool.Updated s mt) p
    | QueuedSubPool => inQueued (fun s => SubPool.Updated s mt) p
    | NoSubPool => Some p
    end = Some p'
    /\ mem p' !! mt = Some a' /\ sameData a a' /\ sameRest p p'.
Proof.
  intros Hok Ha. destruct (currentSubPool a) eqn:Hcsp.
  - exists p, a. repeat split; done.
  - assert (Hin : mt ∈ members (pending p))
      by (by apply (ok_placed p Hok mt a PendingSubPool Ha)).
    destruct (PendingPool_Updated_moved (mem p) (pending p) mt (ok_wf p Hok PendingSubPool) Hin)
      as ([m sp] & Hupd & Hpm).
    destruct (pm_frame _ _ Hpm _ _ Ha) as (a' & Ha' & Hsame & _).
    unfold inPending. rewrite Hupd. simpl. exists (set_mem m (set_pending sp p)), a'.
    repeat split; try done; apply Hsame.
  - assert (Hin : mt ∈ members (baseFee p))
      by (by apply (ok_placed p Hok mt a BaseFeeSubPool Ha)).
    destruct (SubPool_Updated_moved (mem p) (baseFee p) mt (ok_wf p Hok BaseFeeSubPool) Hin)
      as ([m sp] & Hupd & Hpm).
    destruct (pm_frame _ _ Hpm _ _ Ha) as (a' & Ha' & Hsame & _).
    unfold inBaseFee. rewrite Hupd. simpl. exists (set_mem m (set_baseFee sp p)), a'.
    repeat split; try done; apply Hsame.
  - assert (Hin : mt ∈ members (queued p))
      by (by apply (ok_placed p Hok mt a QueuedSubPool Ha)).
    destruct (SubPool_Updated_moved (mem p) (queued p) mt (ok_wf p Hok QueuedSubPool) Hin)
      as ([m sp] & Hupd & Hpm).
    destruct (pm_frame _ _ Hpm _ _ Ha) as (a' & Ha' & Hsame & _).
    unfold inQueued. rewrite Hupd. simpl. exists (set_mem m (set_queued sp p)), a'.
    repeat split; try done; apply Hsame.
Qed.

(** The end of a step that found the fee cap high enough. *)
Lemma step_finish (p : TxPool) (mt : nat) (a a2 : metaTx) (csp : SubPoolType) (unsafe : bool)
  (n c r t_ : Z) (d : list nat) :
  poolsOK p -> mem p !! mt = Some a ->
  bestIndex a2 = bestIndex a -> worstIndex a2 = worstIndex a ->
  currentSubPool a2 = currentSubPool a -> currentSubPool a2 = csp ->
  Z.testbit (subPool a2) 5 = true -> minFeeCap a2 = r ->
  exists w' a',
    (p' ← (if unsafe then Some (setMt mt a2 p)
           else match csp with
                | PendingSubPool => inPending (fun s => PendingPool.Updated s mt) (setMt mt a2 p)
                | BaseFeeSubPool => inBaseFee (fun s => SubPool.Updated s mt) (setMt mt a2 p)
                | QueuedSubPool => inQueued (fun s => SubPool.Updated s mt) (setMt mt a2 p)
                | NoSubPool => Some (setMt mt a2 p)
                end);
     Some (true, mkWalk n c r t_ d p')) = Some (true, w')
    /\ mem (walkPool w') !! mt = Some a'
    /\ Z.land (subPool a') EnoughFeeCapProtocol = EnoughFeeCapProtocol
    /\ minFeeCap a' = r
    /\ toDel w' = d
    /\ discards (walkPool w') = discards p.
Proof.
  intros Hok Ha Hb Hw Hc Hcsp Hbit Hmin.
  pose proof (poolsOK_setMt p mt a a2 Hok Ha Hb Hw Hc) as Hok2.
  assert (Ha2 : mem (setMt mt a2 p) !! mt = Some a2).
  { simpl. apply list_lookup_insert_eq. by eapply lookup_lt_Some. }
  destruct unsafe.
  - simpl. eexists _, a2. split; [done |]. split; [done |].
    split; [by apply land_protocol |]. done.
  - destruct (updated_ok (setMt mt a2 p) mt a2 Hok2 Ha2)
      as (p' & a' & Hupd & Ha' & Hsame & Hrest).
    rewrite Hcsp in Hupd. rewrite Hupd. simpl. eexists _, a'. split; [done |].
    split; [done |].
    destruct Hsame as (_ & Hsub & _ & _ & Hmf & _).
    split; [apply land_protocol; by rewrite <- Hsub |].
    split; [congruence |]. split; [done |].
    destruct Hrest as (_ & _ & Hd & _). exact Hd.
Qed.

Lemma bind_Some {A B : Type} (f : A -> option B) (x : A) : Some x ≫= f = f x.
Proof. reflexivity. Qed.

(** The walk's step is a chain of [let]s each of which changes one
    field of the transaction.  [step_let] replaces the first of them by
    its value, with the field updates carried out. *)
Ltac step_let :=
  match goal with
  | |- context C [let x := ?v in @?f x] =>
      let v' := eval cbv beta iota delta
                  [set_Tx set_subPool set_nonceDistance set_cumulativeBalanceDistance
                   set_minFeeCap set_minTip set_bestIndex set_worstIndex
                   set_currentSubPool Tx subPool nonceDistance cumulativeBalanceDistance
                   minFeeCap minTip bestIndex worstIndex currentSubPool timestamp] in v in
      let g := context C [f v'] in
      change g; cbv beta
  end.

Ltac step_if :=
  case_bool_decide;
  cbv beta iota delta
    [orb andb Tx subPool nonceDistance cumulativeBalanceDistance minFeeCap minTip
     bestIndex worstIndex currentSubPool timestamp] in *.

Ltac walk_step := repeat first [step_let | step_if].

(** C4.  The protocol base fee is 7 whatever the pending base fee.  On
    a transaction the walk does not drop for its nonce: when the running
    minimum of the fee caps is below 7, the step stores the minima and
    the nonce distance, sets the whole marker to 0 and goes on, and
    nothing else changes (the accumulators for nonce gaps and balance,
    the balance distance, the sub-pools, the list to delete and the
    discards are as before); when it is 7 or more, the step goes on
    with [EnoughFeeCapProtocol] set in the marker. *)
Theorem feeCapProtocol_step (pendingBaseFee senderNonce senderBalance blockGasLimit : Z)
  (unsafe : bool) (mt : nat) (w : Walk) (a : metaTx) :
  poolsOK (walkPool w) ->
  mem (walkPool w) !! mt = Some a ->
  senderNonce <= nonce (Tx a) ->
  let protocolBaseFee := calcProtocolBaseFee pendingBaseFee in
  let running := min (walkMinFeeCap w) (feeCap (Tx a)) in
  let step := onSenderStateChangeStep senderNonce senderBalance protocolBaseFee
                blockGasLimit unsafe mt w in
  protocolBaseFee = 7
  /\ (running < 7 ->
      exists a',
        step = Some (true, mkWalk (noGapsNonce w) (cumulativeRequiredBalance w) running
                             (min (walkMinTip w) (tip (Tx a))) (toDel w)
                             (setMt mt a' (walkPool w)))
        /\ subPool a' = 0
        /\ minFeeCap a' = running
        /\ cumulativeBalanceDistance a' = cumulativeBalanceDistance a
        /\ currentSubPool a' = currentSubPool a
        /\ bestIndex a' = bestIndex a /\ worstIndex a' = worstIndex a
        /\ (forall c, poolOf c (setMt mt a' (walkPool w)) = poolOf c (walkPool w))
        /\ discards (setMt mt a' (walkPool w)) = discards (walkPool w)
        /\ all (setMt mt a' (walkPool w)) = all (walkPool w))
  /\ (running >= 7 ->
      exists w' a',
        step = Some (true, w')
        /\ mem (walkPool w') !! mt = Some a'
        /\ Z.land (subPool a') EnoughFeeCapProtocol = EnoughFeeCapProtocol
        /\ minFeeCap a' = running
        /\ toDel w' = toDel w
        /\ discards (walkPool w') = discards (walkPool w)).
Proof.
  intros Hok Ha Hnonce protocolBaseFee running step.
  split; [done |].
  assert (Hpbf : protocolBaseFee = 7) by done.
  clearbody protocolBaseFee. subst protocolBaseFee.
  destruct a as [tx sp nd cbd mf mtip bi wi csp ts]. simpl in Hnonce, running.
  split; intros Hrun; subst step; cbv delta [onSenderStateChangeStep]; cbv beta;
    step_let; rewrite Ha, bind_Some; cbv beta.
  - walk_step; try (exfalso; unfold running in *; lia);
      (eexists; split; [reflexivity |]; repeat split; by intros []).
  - walk_step; try (exfalso; unfold running in *; lia);
      (eapply step_finish; [exact Hok | exact Ha | done | done | done | done | | done]);
      cbv beta iota delta [subPool];
      repeat (first [ progress (rewrite testbit_clearBit_other by reflexivity)
                    | progress (rewrite testbit_lor_other by reflexivity) ]);
      apply testbit_protocol_lor.
Qed.

Lemma feeCapProtocol_step_witness :
  poolsOK (walkPool sampleWalk)
  /\ mem (walkPool sampleWalk) !! 0%nat = Some sampleWalked
  /\ 0 <= nonce (Tx sampleWalked)
  /\ exists a',
      onSenderStateChangeStep 0 (10 ^ 18) (calcProtocolBaseFee 10) 30000000 false 0 sampleWalk
      = Some (true, mkWalk 0 0 5 10 [] (setMt 0 a' threePending))
      /\ subPool a' = 0.
Proof.
  assert (Hok : poolsOK (walkPool sampleWalk)) by (apply poolsOKb_sound; vm_compute; reflexivity).
  assert (Ha : mem (walkPool sampleWalk) !! 0%nat = Some sampleWalked)
    by (vm_compute; reflexivity).
  assert (Hn : 0 <= nonce (Tx sampleWalked)) by (vm_compute; discriminate).
  split; [exact Hok |]. split; [exact Ha |]. split; [exact Hn |].
  destruct (feeCapProtocol_step 10 0 (10 ^ 18) 30000000 false 0 sampleWalk sampleWalked
              Hok Ha Hn) as (_ & Hlow & _).
  destruct Hlow as (a' & Hstep & Hsub & _); [vm_compute; reflexivity |].
  exists a'. split; [exact Hstep | exact Hsub].
Defined.

(** * Validation *)



(** * The index by nonce, in order *)

Lemma keyed_sorted (mem : list metaTx) (items : list (Key * nat)) :
  Forall (keyed mem) items -> StronglySorted (before mem) items.*2 -> keysSorted items.
Proof.
  induction items as [| it items IH]; intros Hk Hs; [constructor |].
  apply Forall_cons in Hk as [Hit Hk]. simpl in Hs.
  apply StronglySorted_inv in Hs as [Hs Hall].
  constructor; [by apply IH |].
  rewrite Forall_forall. intros j Hj.
  rewrite Forall_forall in Hall. destruct (Hall j.2) as (a & b & Ha & Hb & Hless).
  { apply list_elem_of_fmap. by exists j. }
  rewrite Forall_forall in Hk. destruct (Hk j Hj) as (b' & Hb' & ->).
  destruct Hit as (a' & Ha' & ->). congruence.
Qed.

Lemma filter_none {A : Type} (P : A -> Prop) `{!forall x, Decision (P x)} (l : list A) :
  Forall (fun x => ~ P x) l -> filter P l = [].
Proof.
  induction 1 as [| x l Hx _ IH]; [done |]. by rewrite filter_cons_False.
Qed.

(** Going down from the last key of a sender visits the sender's
    transactions first, highest nonce first. *)
Lemma descend_split (items : list (Key * nat)) (sender : Z) :
  keysSorted items -> Forall (fun it => it.1.2 <= MaxUint64) items ->
  btree.DescendLessOrEqual items (sender, MaxUint64)
  = rev (filter (fun it => it.1.1 = sender) items)
    ++ rev (filter (fun it => it.1.1 < sender) items).
Proof.
  intros Hs Hn. unfold btree.DescendLessOrEqual. rewrite <- rev_app_distr. f_equal.
  induction items as [| it items IH]; [done |].
  apply StronglySorted_inv in Hs as [Hs Hall].
  apply Forall_cons in Hn as [Hit Hn].
  specialize (IH Hs Hn). rewrite !filter_cons.
  destruct it as [[s n] x]. simpl in *.
  destruct (decide (s < sender)) as [Hlt | Hge].
  - rewrite decide_True; [| unfold sortByNonce_Less; simpl; repeat case_bool_decide; lia].
    rewrite decide_False by lia. simpl. by rewrite IH.
  - destruct (decide (s = sender)) as [-> | Hne].
    + rewrite decide_True; [| unfold sortByNonce_Less; simpl; repeat case_bool_decide; lia].
      rewrite IH.
      assert (filter (fun it => it.1.1 < sender) items = []) as ->; [| done].
      apply filter_none. rewrite Forall_forall in Hall |- *. intros j Hj Hlt.
      specialize (Hall j Hj). unfold sortByNonce_Less in Hall. simpl in Hall.
      repeat case_bool_decide; try done; lia.
    + rewrite decide_False; [| unfold sortByNonce_Less; simpl; repeat case_bool_decide;
                                 try done; lia].
      exact IH.
Qed.



Lemma elem_of_rev {A : Type} (x : A) (l : list A) : x ∈ rev l <-> x ∈ l.
Proof. rewrite !list_elem_of_In. symmetry. apply in_rev. Qed.

Lemma fmap_rev {A B : Type} (f : A -> B) (l : list A) : f <$> rev l = rev (f <$> l).
Proof. induction l as [| x l IH]; [done |]. simpl. by rewrite fmap_app, IH. Qed.

Lemma StronglySorted_filter {A : Type} (R : relation A) (P : A -> Prop)
  `{!forall x, Decision (P x)} (l : list A) :
  StronglySorted R l -> StronglySorted R (filter P l).
Proof.
  induction 1 as [| x l Hs IH Hall]; [constructor |].
  rewrite filter_cons. destruct (decide (P x)); [| done].
  constructor; [done |]. rewrite Forall_forall in Hall |- *.
  intros y Hy. apply Hall. by apply list_elem_of_filter in Hy as [_ Hy].
Qed.

(** The pointers of the sender's items are [senderTxs]. *)
Lemma senderTxs_items (p : TxPool) (sender : Z) (items : list (Key * nat)) :
  Forall (keyed (mem p)) items -> items.*2 = tree (all p) ->
  (filter (fun it => it.1.1 = sender) items).*2 = senderTxs p sender.
Proof.
  intros Hk Hsnd. unfold senderTxs. rewrite <- Hsnd. clear Hsnd.
  induction items as [| it items IH]; [done |].
  apply Forall_cons in Hk as [(a & Ha & Hkey) Hk]. simpl.
  rewrite !filter_cons, Ha. simpl. rewrite Hkey. simpl.
  destruct (decide (senderID (Tx a) = sender)) as [Heq | Hne].
  - rewrite decide_True by (by rewrite Heq). rewrite fmap_cons. f_equal. by apply IH.
  - rewrite decide_False by (intros [=]; done). by apply IH.
Qed.


Lemma resolve_Some (mem : list metaTx) (l : list nat) (items : list (Key * nat)) :
  resolve mem l = Some items -> items.*2 = l /\ Forall (keyed mem) items.
Proof.
  revert items. induction l as [| x l IH]; intros items Hres.
  - injection Hres as <-. by split.
  - unfold resolve in *. simpl in Hres.
    destruct (mem !! x) as [a |] eqn:Ha; [| discriminate]. simpl in Hres.
    destruct (mapM _ l) as [rest |]; [| discriminate]. injection Hres as <-.
    destruct (IH rest eq_refl) as [Hsnd Hk]. split; [simpl; by f_equal |].
    constructor; [by exists a | done].
Qed.

Lemma sorted_keyed (mem : list metaTx) (items : list (Key * nat)) :
  Forall (keyed mem) items -> keysSorted items -> StronglySorted (before mem) items.*2.
Proof.
  induction items as [| it items IH]; intros Hk Hs; [constructor |].
  apply Forall_cons in Hk as [(a & Ha & Hkey) Hk].
  apply StronglySorted_inv in Hs as [Hs Hall]. simpl.
  constructor; [by apply IH |].
  rewrite Forall_forall. intros y Hy. apply list_elem_of_fmap in Hy as (j & -> & Hj).
  rewrite Forall_forall in Hk. destruct (Hk j Hj) as (b & Hb & Hkeyb).
  rewrite Forall_forall in Hall. specialize (Hall j Hj).
  exists a, b. by rewrite <- Hkey, <- Hkeyb.
Qed.

(** The index is sorted when its items, with their keys, are. *)
Lemma indexSorted_intro (p : TxPool) (items : list (Key * nat)) :
  resolve (mem p) (tree (all p)) = Some items ->
  keysSorted items -> Forall (fun it => 0 <= it.1.2 <= MaxUint64) items ->
  indexSorted p.
Proof.
  intros Hres Hs Hn. destruct (resolve_Some _ _ _ Hres) as [Hsnd Hk]. split.
  - rewrite <- Hsnd. by apply sorted_keyed.
  - intros x a Hx Ha. rewrite <- Hsnd in Hx. apply list_elem_of_fmap in Hx as (it & -> & Hit).
    rewrite Forall_forall in Hk, Hn. destruct (Hk it Hit) as (a' & Ha' & Hkey).
    specialize (Hn it Hit). rewrite Hkey in Hn. simpl in Hn. congruence.
Qed.




(** * Taking transactions out of their sub-pools *)

Lemma sameRest_refl (p : TxPool) : sameRest p p.
Proof. by repeat split. Qed.

Lemma sameRest_trans (p p1 p2 : TxPool) : sameRest p p1 -> sameRest p1 p2 -> sameRest p p2.
Proof.
  intros (? & ? & ? & ? & ? & ? & ?) (? & ? & ? & ? & ? & ? & ?).
  repeat split; congruence.
Qed.

Lemma memFrame_refl (p : TxPool) : memFrame p p.
Proof. split; [done |]. intros y a Ha. exists a. split; [done | apply sameData_refl]. Qed.

Lemma memFrame_trans (p p1 p2 : TxPool) : memFrame p p1 -> memFrame p1 p2 -> memFrame p p2.
Proof.
  intros [Hl1 Hf1] [Hl2 Hf2]. split; [congruence |].
  intros y a Ha. destruct (Hf1 y a Ha) as (a1 & Ha1 & Hs1).
  destruct (Hf2 y a1 Ha1) as (a2 & Ha2 & Hs2). exists a2. split; [done |].
  by eapply sameData_trans.
Qed.

Lemma cleared_nil (p : TxPool) : poolsOK p -> cleared [] p p.
Proof.
  intros Hok. split; [apply sameRest_refl |]. split; [apply memFrame_refl |].
  split; [done |]. split.
  - intros c y. split; [intros Hy; split; [done | apply not_elem_of_nil] | by intros [Hy _]].
  - intros y a _ Ha. by exists a.
Qed.

Lemma cleared_app (V W : list nat) (p p1 p2 : TxPool) :
  cleared V p p1 -> cleared W p1 p2 -> cleared (V ++ W) p p2.
Proof.
  intros (Hr1 & Hm1 & _ & He1 & Hf1) (Hr2 & Hm2 & Hok & He2 & Hf2).
  split; [by eapply sameRest_trans |]. split; [by eapply memFrame_trans |].
  split; [done |]. split.
  - intros c y. rewrite He2, He1, not_elem_of_app. tauto.
  - intros y a Hy Ha. apply not_elem_of_app in Hy as [HyV HyW].
    destruct (Hf1 y a HyV Ha) as (a1 & Ha1 & Hc1).
    destruct (Hf2 y a1 HyW Ha1) as (a2 & Ha2 & Hc2). exists a2. split; [done | congruence].
Qed.

Lemma detached_cleared (c : SubPoolType) (x : nat) (p p' : TxPool) :
  c <> NoSubPool -> poolsOK p -> detached c x p p' -> cleared [x] p p'.
Proof.
  intros Hc Hok Hd.
  destruct (d_self _ _ _ _ Hd) as (a' & Ha' & Hno).
  assert (Hout : forall c', x ∉ members (poolOf c' p'))
    by (intros c'; by eapply not_member_of_NoSubPool; [apply Hd | |]).
  assert (Hin : x ∈ members (poolOf c p)) by (apply (d_elem _ _ _ _ Hd); by left).
  assert (Hreal : forall c' y, c' <> NoSubPool ->
            (y ∈ members (poolOf c' p') <-> y ∈ members (poolOf c' p) /\ y ∉ [x])).
  { intros c' y Hc'. rewrite list_elem_of_singleton.
    destruct (decide (c' = c)) as [-> | Hne].
    - rewrite (d_elem _ _ _ _ Hd y). split.
      + intros Hy. split; [by right |]. intros ->. by apply (Hout c).
      + intros [[-> | Hy] Hne]; done.
    - rewrite (d_others _ _ _ _ Hd c' Hne Hc'). split; [| by intros [Hy _]].
      intros Hy. split; [done |]. intros ->.
      by apply (poolsOK_disjoint p x c c' Hok Hc Hc' Hne Hin). }
  split; [apply Hd |]. split; [apply Hd |]. split; [apply Hd |]. split.
  - intros c' y. destruct (decide (c' = NoSubPool)) as [-> | Hc'].
    + rewrite !poolOf_NoSubPool. by apply Hreal.
    + by apply Hreal.
  - intros y a Hy Ha. apply (d_frame _ _ _ _ Hd); [| done].
    intros ->. apply Hy. by left.
Qed.

Lemma removeFromSubPool_ok (p : TxPool) (x : nat) :
  poolsOK p -> is_Some (mem p !! x) ->
  exists p', removeFromSubPool p x = Some p' /\ cleared [x] p p'.
Proof.
  intros Hok [a Ha]. unfold removeFromSubPool. rewrite Ha. simpl.
  destruct (currentSubPool a) eqn:Hcsp.
  - exists p. split; [done |].
    destruct (cleared_nil p Hok) as (Hr & Hm & _ & _ & Hf).
    split; [done |]. split; [done |]. split; [done |]. split.
    + intros c y. split; [| by intros [Hy _]]. intros Hy. split; [done |].
      rewrite list_elem_of_singleton. intros ->.
      by apply (not_member_of_NoSubPool p x a c Hok Ha Hcsp).
    + intros y b _ Hb. by exists b.
  - assert (Hin : x ∈ members (poolOf PendingSubPool p))
      by (by apply (ok_placed p Hok x a PendingSubPool Ha)).
    destruct (PendingPool_Remove_taken (mem p) (pending p) x (ok_wf p Hok PendingSubPool) Hin)
      as ([m sp] & Hrem & Hpt).
    unfold inPending. rewrite Hrem. simpl. eexists. split; [done |].
    apply (detached_cleared PendingSubPool); [done | done |].
    by apply (poolTaken_detached PendingSubPool x p (m, sp)).
  - assert (Hin : x ∈ members (poolOf BaseFeeSubPool p))
      by (by apply (ok_placed p Hok x a BaseFeeSubPool Ha)).
    destruct (SubPool_Remove_taken (mem p) (baseFee p) x (ok_wf p Hok BaseFeeSubPool) Hin)
      as ([m sp] & Hrem & Hpt).
    unfold inBaseFee. rewrite Hrem. simpl. eexists. split; [done |].
    apply (detached_cleared BaseFeeSubPool); [done | done |].
    by apply (poolTaken_detached BaseFeeSubPool x p (m, sp)).
  - assert (Hin : x ∈ members (poolOf QueuedSubPool p))
      by (by apply (ok_placed p Hok x a QueuedSubPool Ha)).
    destruct (SubPool_Remove_taken (mem p) (queued p) x (ok_wf p Hok QueuedSubPool) Hin)
      as ([m sp] & Hrem & Hpt).
    unfold inQueued. rewrite Hrem. simpl. eexists. split; [done |].
    apply (detached_cleared QueuedSubPool); [done | done |].
    by apply (poolTaken_detached QueuedSubPool x p (m, sp)).
Qed.

(** * The order of the keys *)

Lemma sortByNonce_Less_irreflexive (k : Key) : sortByNonce_Less k k = false.
Proof. unfold sortByNonce_Less. repeat case_bool_decide; try done; lia. Qed.

Lemma sortByNonce_Less_total (j k : Key) :
  sortByNonce_Less j k = false -> sortByNonce_Less k j = false -> j = k.
Proof.
  destruct j as [s n], k as [s' n']. unfold sortByNonce_Less. simpl.
  repeat case_bool_decide; intros; try done; f_equal; lia.
Qed.

Lemma filter_all {A : Type} (P : A -> Prop) `{!forall x, Decision (P x)} (l : list A) :
  Forall P l -> filter P l = l.
Proof.
  induction 1 as [| x l Hx _ IH]; [done |]. by rewrite filter_cons_True, IH.
Qed.

Lemma keyed_frame (p p' : TxPool) (items : list (Key * nat)) :
  memFrame p p' -> Forall (keyed (mem p)) items -> Forall (keyed (mem p')) items.
Proof.
  intros [_ Hf] Hk. eapply Forall_impl; [exact Hk |]. intros it (a & Ha & Hkey).
  destruct (Hf _ _ Ha) as (a' & Ha' & Hsame). exists a'. split; [done |].
  destruct Hsame as (HTx & _). unfold keyOf. by rewrite <- HTx.
Qed.

(** Deleting the key of an indexed transaction takes out that
    transaction and no other. *)
Lemma Delete_ptr (mem : list metaTx) (items : list (Key * nat)) (x : nat) (a : metaTx) :
  keysSorted items -> Forall (keyed mem) items -> mem !! x = Some a -> x ∈ items.*2 ->
  btree.Delete items (keyOf a) = (Some x, filter (fun y => y <> x) items.*2).
Proof.
  intros Hs Hk Ha. induction items as [| it items IH]; intros Hx.
  - by apply not_elem_of_nil in Hx.
  - apply StronglySorted_inv in Hs as [Hs Hall].
    apply Forall_cons in Hk as [(b & Hb & Hkey) Hk].
    assert (Hrest : forall j, j ∈ items -> j.2 = x -> sortByNonce_Less it.1 (keyOf a) = true).
    { intros j Hj Hjx. rewrite Forall_forall in Hk, Hall.
      destruct (Hk j Hj) as (c & Hc & Hkeyc). rewrite Hjx in Hc.
      assert (c = a) as -> by congruence. rewrite <- Hkeyc. by apply Hall. }
    simpl. destruct (sortByNonce_Less it.1 (keyOf a)) eqn:Hlt.
    + assert (Hne : it.2 <> x).
      { intros Heq. rewrite Heq in Hb. assert (b = a) as -> by congruence.
        rewrite Hkey, sortByNonce_Less_irreflexive in Hlt. done. }
      rewrite IH; [| done | done |].
      * by rewrite filter_cons_True.
      * simpl in Hx. apply elem_of_cons in Hx as [-> | Hx]; done.
    + assert (Hhead : it.2 = x).
      { simpl in Hx. apply elem_of_cons in Hx as [-> | Hx]; [done |].
        apply list_elem_of_fmap in Hx as (j & Hjx & Hj). symmetry in Hjx.
        specialize (Hrest j Hj Hjx). congruence. }
      rewrite Hhead in Hb. assert (b = a) as -> by congruence.
      rewrite Hkey, sortByNonce_Less_irreflexive. rewrite Hhead.
      rewrite filter_cons_False by (intros Hne; by apply Hne).
      rewrite filter_all; [done |].
      rewrite Forall_forall. intros y Hy ->.
      apply list_elem_of_fmap in Hy as (j & Hjx & Hj). symmetry in Hjx.
      specialize (Hrest j Hj Hjx). congruence.
Qed.

(** What [discardLocked] does to the two indexes. *)
Lemma discardLocked_index (x : nat) (reason : DiscardReason) (p p' : TxPool) (a : metaTx) :
  poolsOK p -> indexSorted p -> mem p !! x = Some a -> x ∈ tree (all p) ->
  discardLocked x reason p = Some p' ->
  tree (all p') = filter (fun y => y <> x) (tree (all p))
  /\ byHash p' = base.delete (IdHash (Tx a)) (byHash p).
Proof.
  intros Hok [Hsorted _] Ha Hx. unfold discardLocked. rewrite Ha. simpl.
  destruct (resolve_total (mem p) (tree (all p)) (ok_tree p Hok)) as (items & Hres & Hsnd & Hk).
  unfold BySenderAndNonce.delete. rewrite Hres. simpl. rewrite Ha. simpl.
  rewrite (Delete_ptr (mem p) items x a); [| | done | done | by rewrite Hsnd].
  - rewrite Hsnd. intros [= <-]. done.
  - apply (keyed_sorted (mem p)); [done | by rewrite Hsnd].
Qed.

(** * The walk of [removeMined] over one sender *)

(** The walk takes out of their sub-pools the transactions of the sender
    with a nonce up to [nonce_], and lists them. *)
Lemma sweep_iterate (sender nonce_ : Z) (items : list (Key * nat)) :
  keysSorted items -> Forall (fun it => 0 <= it.1.2) items ->
  forall (p : TxPool) (acc : list nat),
    Forall (keyed (mem p)) items -> poolsOK p ->
    exists p',
      iterate (fun (it : Key * nat) s =>
                 if bool_decide (it.1.1 <> sender) then Some (false, s)
                 else (fun mt '(p, toDel) =>
                         a ← mem p !! mt;
                         if bool_decide (nonce (Tx a) > nonce_) then Some (false, (p, toDel))
                         else
                           p ← removeFromSubPool p mt;
                           Some (true, (p, toDel ++ [mt])))
                        it.2 s)
              (btree.AscendGreaterOrEqual items (sender, 0)) (p, acc)
      = Some (p', acc ++ (filter (fun it => it.1.1 = sender /\ it.1.2 <= nonce_) items).*2)
      /\ cleared (filter (fun it => it.1.1 = sender /\ it.1.2 <= nonce_) items).*2 p p'.
Proof.
  intros Hs Hn. induction items as [| it items IH]; intros p acc Hk Hok.
  - exists p. simpl. rewrite app_nil_r. split; [done | by apply cleared_nil].
  - apply StronglySorted_inv in Hs as [Hs Hall].
    apply Forall_cons in Hn as [Hit Hn].
    apply Forall_cons in Hk as [(a & Ha & Hkey) Hk].
    specialize (IH Hs Hn).
    destruct it as [[s n] x]. simpl in *.
    assert (Hstop : (s = sender -> n > nonce_) -> sender <= s ->
              filter (fun it => it.1.1 = sender /\ it.1.2 <= nonce_) items = []).
    { intros Hgt Hle. apply filter_none. rewrite Forall_forall in Hall |- *.
      intros [[s' n'] y] Hj [Hs' Hn']. simpl in *. specialize (Hall _ Hj).
      unfold sortByNonce_Less in Hall. simpl in Hall.
      repeat case_bool_decide; try done; lia. }
    unfold btree.AscendGreaterOrEqual in *. rewrite !filter_cons. simpl.
    destruct (decide (sortByNonce_Less (s, n) (sender, 0) = false)) as [Hge | Hlt].
    + assert (Hle : sender <= s).
      { unfold sortByNonce_Less in Hge. simpl in Hge. repeat case_bool_decide; try done; lia. }
      simpl. case_bool_decide as Hsender.
      * exists p. rewrite decide_False by tauto. rewrite Hstop; [| lia | done].
        simpl. rewrite app_nil_r. split; [done | by apply cleared_nil].
      * assert (s = sender) as -> by (destruct (decide (s = sender)); [done | by destruct Hsender]).
        simpl. rewrite Ha. simpl.
        assert (Hnonce : nonce (Tx a) = n) by (by injection Hkey).
        rewrite Hnonce. case_bool_decide as Hbig.
        -- exists p. rewrite decide_False by lia. rewrite Hstop; [| lia | done].
           simpl. rewrite app_nil_r. split; [done | by apply cleared_nil].
        -- destruct (removeFromSubPool_ok p x Hok) as (p1 & -> & Hc1); [by eexists |].
           simpl.
           destruct (IH p1 (acc ++ [x])) as (p' & Hrun & Hc').
           { apply (keyed_frame p); [apply Hc1 | done]. }
           { apply Hc1. }
           exists p'. rewrite decide_True by lia. rewrite fmap_cons. simpl.
           split; [by rewrite Hrun, <- app_assoc |].
           by apply (cleared_app [x] _ p p1 p').
    + assert (Hne : s <> sender).
      { unfold sortByNonce_Less in Hlt. simpl in Hlt. repeat case_bool_decide; try done; lia. }
      rewrite decide_False by tauto. by apply IH.
Qed.

(** * Discarding what the walk listed *)

Lemma indexSorted_NoDup (p : TxPool) : poolsOK p -> indexSorted p -> NoDup (tree (all p)).
Proof.
  intros Hok [Hs _]. pose proof (ok_tree p Hok) as Hvalid.
  induction Hs as [| x l Hs IH Hall]; [constructor |].
  constructor.
  - intros Hx. rewrite Forall_forall in Hall. destruct (Hall x Hx) as (a & b & Ha & Hb & Hlt).
    assert (b = a) as -> by congruence. by rewrite sortByNonce_Less_irreflexive in Hlt.
  - apply IH. intros y Hy. apply Hvalid. by right.
Qed.

Lemma discard_all_index (reason : DiscardReason) (V : list nat) (p : TxPool) :
  poolsOK p -> indexSorted p -> NoDup V -> (forall x, x ∈ V -> x ∈ tree (all p)) ->
  exists p',
    foldl (fun acc mt => p ← acc; discardLocked mt reason p) (Some p) V = Some p'
    /\ discards p' = discards p ++ ((fun x => (x, reason)) <$> V)
    /\ mem p' = mem p /\ (forall c, poolOf c p' = poolOf c p) /\ poolsOK p'
    /\ indexSorted p'
    /\ (forall y, y ∈ tree (all p') <-> y ∈ tree (all p) /\ y ∉ V)
    /\ (forall h y, byHash p' !! h = Some y
                    <-> byHash p !! h = Some y
                        /\ forall v a, v ∈ V -> mem p !! v = Some a -> IdHash (Tx a) <> h).
Proof.
  revert p. induction V as [| v V IH]; intros p Hok Hsorted Hnodup Hin.
  - exists p. simpl. rewrite app_nil_r.
    split; [done |]. split; [done |]. split; [done |]. split; [done |].
    split; [done |]. split; [done |]. split.
    + intros y. split; [| by intros [Hy _]]. intros Hy. split; [done | apply not_elem_of_nil].
    + intros h y. split; [| by intros [Hy _]]. intros Hy. split; [done |].
      intros v a Hv. by apply not_elem_of_nil in Hv.
  - apply NoDup_cons in Hnodup as [Hv Hnodup].
    assert (Hvt : v ∈ tree (all p)) by (apply Hin; by left).
    destruct (ok_tree p Hok v Hvt) as [a Ha].
    destruct (discardLocked_ok v reason p Hok) as (p1 & Hd & Hmem & Hpools & Hdis & _ & _ & _ & Hok1);
      [by eexists |].
    destruct (discardLocked_index v reason p p1 a Hok Hsorted Ha Hvt Hd) as [Htree Hhash].
    assert (Hsorted1 : indexSorted p1).
    { destruct Hsorted as [Hs Hn]. split.
      - rewrite Htree, Hmem. by apply StronglySorted_filter.
      - intros x b Hx Hb. rewrite Htree in Hx. apply list_elem_of_filter in Hx as [_ Hx].
        rewrite Hmem in Hb. by apply (Hn x). }
    destruct (IH p1 Hok1 Hsorted1 Hnodup) as (p' & Hfold & Hdis' & Hmem' & Hpools' & Hok' & Hsorted'
                                               & Htree' & Hhash').
    { intros x Hx. rewrite Htree. apply list_elem_of_filter. split.
      - intros ->. done.
      - apply Hin. by right. }
    exists p'. simpl. rewrite Hd. split; [exact Hfold |].
    split; [by rewrite Hdis', Hdis, <- app_assoc |].
    split; [congruence |]. split; [intros c; by rewrite Hpools', Hpools |].
    split; [done |]. split; [done |]. split.
    + intros y. rewrite Htree', Htree, list_elem_of_filter, not_elem_of_cons. tauto.
    + intros h y. rewrite Hhash', Hhash, lookup_delete_Some. split.
      * intros [[Hne Hy] Hrest]. split; [done |]. intros w b Hw Hb.
        apply elem_of_cons in Hw as [-> | Hw].
        -- assert (b = a) as -> by congruence. done.
        -- apply (Hrest w b Hw). by rewrite Hmem.
      * intros [Hy Hrest]. split; [split; [| done] |].
        -- apply (Hrest v a); [by left | done].
        -- intros w b Hw Hb. apply (Hrest w b); [by right | by rewrite <- Hmem].
Qed.

Lemma NoDup_filter_snd {A B : Type} (P : A * B -> Prop) `{!forall x, Decision (P x)}
  (l : list (A * B)) :
  NoDup l.*2 -> NoDup (filter P l).*2.
Proof.
  induction l as [| x l IH]; [done |]. simpl. intros [Hx Hl]%NoDup_cons.
  rewrite filter_cons. destruct (decide (P x)); [| by apply IH].
  simpl. apply NoDup_cons. split; [| by apply IH].
  intros Hin. apply Hx. apply list_elem_of_fmap in Hin as (y & -> & Hy).
  apply list_elem_of_filter in Hy as [_ Hy]. apply list_elem_of_fmap. by exists y.
Qed.

Lemma memFrame_back (p p' : TxPool) (y : nat) (a' : metaTx) :
  memFrame p p' -> mem p' !! y = Some a' ->
  exists a, mem p !! y = Some a /\ sameData a a'.
Proof.
  intros [Hlen Hf] Ha'.
  assert (is_Some (mem p !! y)) as [a Ha].
  { apply lookup_lt_is_Some. rewrite <- Hlen. by eapply lookup_lt_Some. }
  destruct (Hf y a Ha) as (a'' & Ha'' & Hsame). exists a. split; [done |]. congruence.
Qed.

Lemma holds_frame (p p' : TxPool) (P : TxSlot -> Prop) (y : nat) :
  memFrame p p' -> (holds p' P y <-> holds p P y).
Proof.
  intros Hm. split.
  - intros (a' & Ha' & HP). destruct (memFrame_back p p' y a' Hm Ha') as (a & Ha & Hsame).
    exists a. split; [done |]. destruct Hsame as (-> & _). done.
  - intros (a & Ha & HP). destruct (proj2 Hm y a Ha) as (a' & Ha' & Hsame).
    exists a'. split; [done |]. destruct Hsame as (<- & _). done.
Qed.

Lemma indexSorted_frame (p p' : TxPool) :
  memFrame p p' -> all p' = all p -> indexSorted p -> indexSorted p'.
Proof.
  intros Hm Hall [Hs Hn]. unfold indexSorted. rewrite Hall. split.
  - clear Hn. induction Hs as [| x l Hs IH Hhead]; [constructor |].
    constructor; [done |].
    eapply Forall_impl; [exact Hhead |]. intros y (a & b & Ha & Hb & Hlt).
    destruct (proj2 Hm x a Ha) as (a' & Ha' & (Hta & _)).
    destruct (proj2 Hm y b Hb) as (b' & Hb' & (Htb & _)).
    exists a', b'. split; [done |]. split; [done |]. unfold keyOf. by rewrite <- Hta, <- Htb.
  - intros x a' Hx Ha'. destruct (memFrame_back p p' x a' Hm Ha') as (a & Ha & (HTx & _)).
    rewrite <- HTx. by apply (Hn x).
Qed.

(** One round of [removeMined]: the transactions of [sender] with a
    nonce up to [nonce_] leave the pool. *)
Lemma removeMinedOf_swept (sender nonce_ : Z) (p : TxPool) :
  consistent p ->
  exists p',
    removeMinedOf discardLocked (sender, nonce_) p = Some p'
    /\ swept (fun tx => senderID tx = sender /\ nonce tx <= nonce_) p p'.
Proof.
  intros [Hok Hsorted Hpooled Hhashed HbyHash].
  set (P := fun tx => senderID tx = sender /\ nonce tx <= nonce_).
  destruct (resolve_total (mem p) (tree (all p)) (ok_tree p Hok)) as (items & Hres & Hsnd & Hk).
  assert (Hks : keysSorted items)
    by (apply (keyed_sorted (mem p)); [done | rewrite Hsnd; apply Hsorted]).
  assert (Hn : Forall (fun it => 0 <= it.1.2) items).
  { rewrite Forall_forall in Hk |- *. intros it Hit. destruct (Hk it Hit) as (a & Ha & ->).
    simpl. apply (proj2 Hsorted it.2); [| done]. rewrite <- Hsnd. apply list_elem_of_fmap.
    by exists it. }
  set (V := (filter (fun it => it.1.1 = sender /\ it.1.2 <= nonce_) items).*2).
  assert (HV : forall y, y ∈ V <-> y ∈ tree (all p) /\ holds p P y).
  { intros y. unfold V. rewrite <- Hsnd, !list_elem_of_fmap. split.
    - intros (it & -> & Hit). apply list_elem_of_filter in Hit as [HP Hit].
      split; [by exists it |]. rewrite Forall_forall in Hk.
      destruct (Hk it Hit) as (a & Ha & Hkey). exists a. split; [done |].
      rewrite Hkey in HP. exact HP.
    - intros [(it & -> & Hit) (a & Ha & HP)]. exists it. split; [done |].
      apply list_elem_of_filter. split; [| done]. rewrite Forall_forall in Hk.
      destruct (Hk it Hit) as (a' & Ha' & ->). assert (a' = a) as -> by congruence.
      exact HP. }
  assert (HVnodup : NoDup V).
  { apply NoDup_filter_snd. rewrite Hsnd. by apply indexSorted_NoDup. }
  unfold removeMinedOf, BySenderAndNonce.ascend. rewrite Hres. simpl.
  destruct (sweep_iterate sender nonce_ items Hks Hn p [] Hk Hok) as (p1 & Hrun & Hc).
  rewrite Hrun. simpl. fold V in Hc |- *.
  destruct Hc as (Hrest & Hframe & Hok1 & Hmem1 & Hcsp1).
  destruct Hrest as (Hall1 & Hhash1 & Hdis1 & _).
  assert (Hsorted1 : indexSorted p1) by (by apply (indexSorted_frame p)).
  destruct (discard_all_index Mined V p1 Hok1 Hsorted1 HVnodup)
    as (p' & Hfold & Hdis & Hmem & Hpools & Hok' & Hsorted' & Htree & Hhash).
  { intros x Hx. rewrite Hall1. by apply HV. }
  exists p'. split; [exact Hfold |].
  assert (Hframe' : memFrame p p') by (unfold memFrame; rewrite Hmem; exact Hframe).
  assert (Htree' : forall y, y ∈ tree (all p') <-> y ∈ tree (all p) /\ ~ holds p P y).
  { intros y. rewrite Htree, Hall1, HV. tauto. }
  assert (Hmembers : forall c y,
            y ∈ members (poolOf c p') <-> y ∈ members (poolOf c p) /\ ~ holds p P y).
  { intros c y. rewrite Hpools, Hmem1, HV. split.
    - intros [Hy Hno]. split; [done |]. intros Hh. apply Hno. split; [| done].
      by apply (Hpooled c).
    - intros [Hy Hno]. split; [done |]. tauto. }
  assert (HbyHash' : forall h y,
            byHash p' !! h = Some y <-> byHash p !! h = Some y /\ ~ holds p P y).
  { intros h y. rewrite Hhash, Hhash1. split.
    - intros [Hy Hnot]. split; [done |]. intros Hholds.
      destruct (HbyHash h y Hy) as (Hyt & a & Ha & Hah).
      destruct (proj2 Hframe y a Ha) as (a1 & Ha1 & (HTx & _)).
      apply (Hnot y a1); [by apply HV | done | by rewrite <- HTx].
    - intros [Hy Hno]. split; [done |]. intros v a1 Hv Ha1 Heq.
      destruct (memFrame_back p p1 v a1 Hframe Ha1) as (a & Ha & (HTx & _)).
      apply HV in Hv as Hvt. destruct Hvt as [Hvt Hvh].
      pose proof (Hhashed v a Hvt Ha) as Hvhash. rewrite HTx, Heq in Hvhash.
      assert (v = y) as -> by congruence. done. }
  split.
  - split; [done | done | | |].
    + intros c x Hx. apply Hmembers in Hx as [Hx Hno]. apply Htree'. split; [| done].
      by apply (Hpooled c).
    + intros x a' Hx Ha'. apply Htree' in Hx as [Hx Hno].
      destruct (memFrame_back p p' x a' Hframe' Ha') as (a & Ha & (HTx & _)).
      apply HbyHash'. split; [| done]. rewrite <- HTx. by apply Hhashed.
    + intros h x Hx. apply HbyHash' in Hx as [Hx Hno].
      destruct (HbyHash h x Hx) as (Hxt & a & Ha & Hah).
      split; [by apply Htree' |].
      destruct (proj2 Hframe' x a Ha) as (a' & Ha' & (HTx & _)).
      exists a'. split; [done |]. by rewrite <- HTx.
  - exact Hframe'.
  - intros y a Ha HnP. rewrite Hmem. apply Hcsp1; [| done].
    intros Hy. apply HV in Hy as [_ (a0 & Ha0 & HP)]. assert (a0 = a) as -> by congruence.
    done.
  - exact Htree'.
  - exact Hmembers.
  - exact HbyHash'.
  - exists V. split; [by rewrite Hdis, Hdis1 | exact HV].
Qed.

(** * All the rounds *)

Lemma holds_iff (p : TxPool) (P Q : TxSlot -> Prop) (y : nat) :
  (forall tx, P tx <-> Q tx) -> (holds p P y <-> holds p Q y).
Proof.
  intros HPQ. split; intros (a & Ha & H); exists a; (split; [done |]); by apply HPQ.
Qed.

Lemma swept_iff (P Q : TxSlot -> Prop) (p p' : TxPool) :
  (forall tx, P tx <-> Q tx) -> swept P p p' -> swept Q p p'.
Proof.
  intros HPQ [Hc Hm Hcsp Ht Hmem Hh (l & Hd & Hl)]. split; [done | done | | | | |].
  - intros y a Ha HQ. apply (Hcsp y a Ha). by rewrite HPQ.
  - intros y. by rewrite Ht, (holds_iff p P Q y HPQ).
  - intros c y. by rewrite Hmem, (holds_iff p P Q y HPQ).
  - intros h y. by rewrite Hh, (holds_iff p P Q y HPQ).
  - exists l. split; [done |]. intros y. by rewrite Hl, (holds_iff p P Q y HPQ).
Qed.

Lemma swept_none (p : TxPool) : consistent p -> swept (fun _ => False) p p.
Proof.
  intros Hc.
  assert (Hno : forall y, ~ holds p (fun _ => False) y) by (by intros y (a & _ & H)).
  split; [done | apply memFrame_refl | | | | |].
  - intros y a Ha _. by exists a.
  - intros y. split; [by intros Hy | by intros [Hy _]].
  - intros c y. split; [by intros Hy | by intros [Hy _]].
  - intros h y. split; [by intros Hy | by intros [Hy _]].
  - exists []. simpl. rewrite app_nil_r. split; [done |]. intros y. split.
    + intros Hy. by apply not_elem_of_nil in Hy.
    + intros [_ Hy]. by apply Hno in Hy.
Qed.

Lemma swept_trans (P Q : TxSlot -> Prop) (p p1 p2 : TxPool) :
  (forall tx, P tx \/ ~ P tx) ->
  swept P p p1 -> swept Q p1 p2 -> swept (fun tx => P tx \/ Q tx) p p2.
Proof.
  intros Hdec [Hc1 Hm1 Hcsp1 Ht1 Hmem1 Hh1 (l1 & Hd1 & Hl1)]
         [Hc2 Hm2 Hcsp2 Ht2 Hmem2 Hh2 (l2 & Hd2 & Hl2)].
  assert (HQ : forall y, holds p1 Q y <-> holds p Q y) by (intros y; by apply holds_frame).
  assert (Hor : forall y, holds p (fun tx => P tx \/ Q tx) y <-> holds p P y \/ holds p Q y).
  { intros y. split.
    - intros (a & Ha & [HP | HQ']); [left | right]; by exists a.
    - intros [(a & Ha & HP) | (a & Ha & HQ')]; exists a; (split; [done |]); tauto. }
  assert (HdecP : forall y, holds p P y \/ ~ holds p P y).
  { intros y. destruct (mem p !! y) as [a |] eqn:Ha.
    - destruct (Hdec (Tx a)) as [HP | HnP]; [left; by exists a |].
      right. intros (a' & Ha' & HP). assert (a' = a) as -> by congruence. done.
    - right. intros (a' & Ha' & _). congruence. }
  split; [done | by eapply memFrame_trans | | | | |].
  - intros y a Ha Hno.
    destruct (Hcsp1 y a Ha) as (a1 & Ha1 & Hcs1); [tauto |].
    destruct (proj2 Hm1 y a Ha) as (a1' & Ha1' & (HTx & _)).
    assert (a1' = a1) as -> by congruence.
    destruct (Hcsp2 y a1 Ha1) as (a2 & Ha2 & Hcs2); [rewrite <- HTx; tauto |].
    exists a2. split; [done | congruence].
  - intros y. rewrite Ht2, Ht1, HQ, Hor. tauto.
  - intros c y. rewrite Hmem2, Hmem1, HQ, Hor. tauto.
  - intros h y. rewrite Hh2, Hh1, HQ, Hor. tauto.
  - exists (l1 ++ l2). split.
    + by rewrite Hd2, Hd1, fmap_app, <- app_assoc.
    + intros y. rewrite elem_of_app, Hl1, Hl2, Ht1, HQ, Hor.
      destruct (HdecP y); tauto.
Qed.

Lemma removeMinedIn_swept (entries : list (Z * Z)) (p : TxPool) :
  consistent p ->
  exists p',
    removeMinedIn discardLocked entries p = Some p'
    /\ swept (fun tx => exists e, e ∈ entries /\ senderID tx = e.1 /\ nonce tx <= e.2) p p'.
Proof.
  revert p. induction entries as [| [s n] entries IH]; intros p Hc.
  - exists p. split; [done |]. apply (swept_iff (fun _ => False)); [| by apply swept_none].
    intros tx. split; [done |]. intros (e & He & _). by apply not_elem_of_nil in He.
  - destruct (removeMinedOf_swept s n p Hc) as (p1 & Hone & Hs1).
    destruct (IH p1 (sw_consistent _ _ _ Hs1)) as (p' & Hrest & Hs').
    exists p'. split.
    { change (removeMinedIn discardLocked ((s, n) :: entries) p)
        with (foldl (fun acc e => p ← acc; removeMinedOf discardLocked e p)
                (removeMinedOf discardLocked (s, n) p) entries).
      rewrite Hone. exact Hrest. }
    eapply swept_iff; [| eapply swept_trans; [| exact Hs1 | exact Hs']].
    + intros tx. simpl. split.
      * intros [[Hs Hn] | (e & He & Hes & Hen)].
        -- exists (s, n). split; [by left | done].
        -- exists e. split; [by right | done].
      * intros (e & He & Hes & Hen). apply elem_of_cons in He as [-> | He].
        -- by left.
        -- right. by exists e.
    + intros tx. simpl. destruct (decide (senderID tx = s /\ nonce tx <= n)); tauto.
Qed.

(** * The nonces to remove *)

Lemma noncesToRemove_lookup (minedTxs : list TxSlot) (sender : Z) :
  match noncesToRemove minedTxs !! sender with
  | Some n => (exists tx, tx ∈ minedTxs /\ senderID tx = sender /\ nonce tx = n)
              /\ forall tx, tx ∈ minedTxs -> senderID tx = sender -> nonce tx <= n
  | None => forall tx, tx ∈ minedTxs -> senderID tx <> sender
  end.
Proof.
  unfold noncesToRemove. induction minedTxs as [| x l IH] using rev_ind.
  - simpl. rewrite lookup_empty. intros tx Htx. by apply not_elem_of_nil in Htx.
  - rewrite foldl_app. simpl.
    set (m := foldl _ ∅ l) in *.
    assert (Hnew : forall n, (forall tx, tx ∈ l -> senderID tx = senderID x -> nonce tx <= n) ->
              nonce x <= n -> forall tx, tx ∈ l ++ [x] -> senderID tx = senderID x ->
              nonce tx <= n).
    { intros n Hl Hx tx Htx Hs. apply elem_of_app in Htx as [Htx | Htx]; [by apply Hl |].
      apply list_elem_of_singleton in Htx as ->. done. }
    destruct (decide (sender = senderID x)) as [-> | Hne].
    + destruct (m !! senderID x) as [n0 |] eqn:Hm.
      * destruct IH as [(tx0 & Htx0 & Hs0 & Hn0) Hmax]. case_bool_decide as Hgt.
        -- rewrite lookup_insert_eq. split.
           ++ exists x. split; [apply elem_of_app; right; by left | done].
           ++ apply Hnew; [| lia]. intros tx Htx Hs. specialize (Hmax tx Htx Hs). lia.
        -- rewrite Hm. split.
           ++ exists tx0. split; [apply elem_of_app; by left | done].
           ++ apply Hnew; [done | lia].
      * rewrite lookup_insert_eq. split.
        -- exists x. split; [apply elem_of_app; right; by left | done].
        -- apply Hnew; [| lia]. intros tx Htx Hs. by destruct (IH tx Htx).
    + assert (Hsame : (match m !! senderID x with
                       | Some n => if bool_decide (nonce x > n)
                                   then <[senderID x := nonce x]> m else m
                       | None => <[senderID x := nonce x]> m
                       end) !! sender = m !! sender).
      { destruct (m !! senderID x); [case_bool_decide |]; by rewrite ?lookup_insert_ne. }
      rewrite Hsame. destruct (m !! sender) as [n |].
      * destruct IH as [(tx0 & Htx0 & Hs0 & Hn0) Hmax]. split.
        -- exists tx0. split; [apply elem_of_app; by left | done].
        -- intros tx Htx Hs. apply elem_of_app in Htx as [Htx | Htx]; [by apply Hmax |].
           apply list_elem_of_singleton in Htx as ->. done.
      * intros tx Htx. apply elem_of_app in Htx as [Htx | Htx]; [by apply IH |].
        apply list_elem_of_singleton in Htx as ->. done.
Qed.

Lemma noncesToRemove_minedBelow (minedTxs : list TxSlot) (tx : TxSlot) :
  (exists n, noncesToRemove minedTxs !! senderID tx = Some n /\ nonce tx <= n)
  <-> minedBelow minedTxs tx.
Proof.
  pose proof (noncesToRemove_lookup minedTxs (senderID tx)) as Hspec. split.
  - intros (n & Hn & Hle). rewrite Hn in Hspec.
    destruct Hspec as [(top & Htop & Hs & Hnonce) Hmax].
    exists top. rewrite Hnonce. done.
  - intros (top & Htop & Hs & Hmax & Hle).
    destruct (noncesToRemove minedTxs !! senderID tx) as [n |].
    + exists n. split; [done |]. destruct Hspec as [_ Hmax']. specialize (Hmax' top Htop Hs). lia.
    + by destruct (Hspec top Htop).
Qed.

(** [removeMined] on a pool whose indexes agree.  There it returns, in
    whatever order it takes the senders.  Every transaction whose sender
    is the sender of a mined transaction and whose nonce is at most the
    highest mined nonce of that sender is then in none of the
    sub-pools, not in the index by nonce and not in [byHash], and, when
    it was in the index, it is discarded as [Mined].  Every other
    transaction is where it was: in the same sub-pool, in the index and
    in [byHash] as before, with the same data, and not discarded. *)
Theorem removeMined_sweeps (minedTxs : list TxSlot) (entries : list (Z * Z)) (p : TxPool) :
  consistent p ->
  entries ≡ₚ map_to_list (noncesToRemove minedTxs) ->
  exists p' l,
    removeMinedIn discardLocked entries p = Some p'
    /\ discards p' = discards p ++ ((fun x => (x, Mined)) <$> l)
    /\ (forall x a, mem p !! x = Some a -> minedBelow minedTxs (Tx a) ->
          (forall c, x ∉ members (poolOf c p'))
          /\ (x ∉ tree (all p'))
          /\ (forall h, byHash p' !! h <> Some x)
          /\ (x ∈ tree (all p) -> x ∈ l))
    /\ (forall x a, mem p !! x = Some a -> ~ minedBelow minedTxs (Tx a) ->
          (x ∉ l)
          /\ (x ∈ tree (all p') <-> x ∈ tree (all p))
          /\ (forall c, x ∈ members (poolOf c p') <-> x ∈ members (poolOf c p))
          /\ (forall h, byHash p' !! h = Some x <-> byHash p !! h = Some x)
          /\ exists a', mem p' !! x = Some a' /\ sameData a a'
                        /\ currentSubPool a' = currentSubPool a)
    /\ consistent p'.
Proof.
  intros Hc Hperm.
  destruct (removeMinedIn_swept entries p Hc) as (p' & Hrun & Hs).
  apply (swept_iff _ (minedBelow minedTxs)) in Hs.
  2: { intros tx. rewrite <- noncesToRemove_minedBelow. split.
       - intros ([s n] & He & Hes & Hen). simpl in *. exists n. split; [| done].
         rewrite Hperm in He. apply elem_of_map_to_list in He. by rewrite Hes.
       - intros (n & Hn & Hle). exists (senderID tx, n). split; [| done].
         rewrite Hperm. by apply elem_of_map_to_list. }
  destruct Hs as [Hc' Hm Hcsp Ht Hmem Hh (l & Hd & Hl)].
  exists p', l. split; [done |]. split; [done |]. split; [| split; [| done]].
  - intros x a Ha Hmined.
    assert (Hx : holds p (minedBelow minedTxs) x) by (by exists a).
    split; [intros c Hin; apply Hmem in Hin; tauto |].
    split; [intros Hin; apply Ht in Hin; tauto |].
    split; [intros h Hin; apply Hh in Hin; tauto |].
    intros Hin. by apply Hl.
  - intros x a Ha Hnot.
    assert (Hx : ~ holds p (minedBelow minedTxs) x).
    { intros (a0 & Ha0 & H0). assert (a0 = a) as -> by congruence. done. }
    split; [intros Hin; apply Hl in Hin; tauto |].
    split; [rewrite Ht; tauto |].
    split; [intros c; rewrite Hmem; tauto |].
    split; [intros h; rewrite Hh; tauto |].
    destruct (Hcsp x a Ha Hnot) as (a' & Ha' & Hcs).
    destruct (proj2 Hm x a Ha) as (a'' & Ha'' & Hsame).
    assert (a'' = a') as -> by congruence. by exists a'.
Qed.

Lemma twoPending_consistent : consistent twoPending.
Proof.
  split.
  - apply poolsOKb_sound. vm_compute. reflexivity.
  - eapply indexSorted_intro; [vm_compute; reflexivity | repeat constructor |].
    repeat (constructor; [split; vm_compute; discriminate |]). constructor.
  - intros c x Hx.
    assert (Hin : x ∈ match c with
                      | BaseFeeSubPool | QueuedSubPool => []
                      | _ => [1%nat; 0%nat]
                      end) by (destruct c; exact Hx).
    change (x ∈ [0%nat; 1%nat]).
    destruct c; try (by apply not_elem_of_nil in Hin);
      (apply elem_of_cons in Hin as [-> | Hin]; [right; by left |]);
      apply list_elem_of_singleton in Hin as ->; by left.
  - intros x a Hx Ha.
    assert (Hin : x ∈ [0%nat; 1%nat]) by exact Hx.
    apply elem_of_cons in Hin as [-> | Hin]; [| apply list_elem_of_singleton in Hin as ->];
      vm_compute in Ha; injection Ha as <-; vm_compute; reflexivity.
  - intros h x Hx. apply elem_of_map_to_list in Hx.
    assert (Hin : (h, x) ∈ [(2, 1%nat); (1, 0%nat)]) by exact Hx.
    apply elem_of_cons in Hin as [[= -> ->] | Hin];
      [| apply list_elem_of_singleton in Hin as [= -> ->]].
    + split; [right; by left |]. eexists. split; vm_compute; reflexivity.
    + split; [by left |]. eexists. split; vm_compute; reflexivity.
Qed.

Lemma removeMined_sweeps_witness :
  consistent twoPending
  /\ map_to_list (noncesToRemove [txA]) ≡ₚ map_to_list (noncesToRemove [txA])
  /\ exists p', removeMined [txA] discardLocked twoPending = Some p'
                /\ discards p' = [(0%nat, Mined)]
                /\ members (pending p') = [1%nat]
                /\ tree (all p') = [1%nat].
Proof.
  split; [exact twoPending_consistent |]. split; [reflexivity |].
  destruct (removeMined_sweeps [txA] (map_to_list (noncesToRemove [txA])) twoPending
              twoPending_consistent (reflexivity _)) as (p' & l & Hrun & _).
  exists p'. split; [exact Hrun |].
  assert (Hp' : removeMined [txA] discardLocked twoPending = Some p') by exact Hrun.
  vm_compute in Hp'. injection Hp' as <-. repeat split.
Defined.

(** C3.  A mined transaction stays in pending when [punishSpammer] has
    discarded it before.  [txA] and [txB] of sender 1 pass [validateTxs]
    together and are pending; [AddLocalTxs] answers [Spammer] to [txE],
    and [punishSpammer] discards [txB] without taking it out of its
    sub-pool, so that it is in pending and in neither index.  The block
    mines [txA] and [txB]: [removeMined] walks the index, where it finds
    [txA] only, and [txB], of the mined sender and with the highest
    mined nonce, is still in pending, with [currentSubPool] saying so,
    and not discarded as [Mined]. *)
Theorem removeMined_leaves_punished_spammer :
  exists p1 p2 p3 b,
    validateTxs (mkTxSlots [txA; txB] [false; false]) sampleView oneSlotStart
    = Some (([NotSet; NotSet], mkTxSlots [txA; txB] [false; false], false), oneSlotStart)
    /\ spammerRun1 = Some p1
    /\ members (pending p1) = [0%nat; 1%nat] /\ tree (all p1) = [0%nat; 1%nat]
    /\ AddLocalTxs sampleView (mkTxSlots [txE] [true]) p1 = Some (Some [Spammer], p2)
    /\ discards p2 = [(1%nat, Spammer)]
    /\ members (pending p2) = [0%nat; 1%nat] /\ tree (all p2) = [0%nat]
    /\ removeMined [txA; txB] discardLocked p2 = Some p3
    /\ spammerRun3 = Some p3
    /\ mem p3 !! 1%nat = Some b /\ Tx b = txB
    /\ senderID (Tx b) = senderID txB /\ nonce (Tx b) <= nonce txB
    /\ members (pending p3) = [1%nat] /\ currentSubPool b = PendingSubPool
    /\ tree (all p3) = [] /\ byHash p3 = ∅
    /\ discards p3 = [(1%nat, Spammer); (0%nat, Mined)].
Proof.
  do 4 eexists.
  split; [vm_compute; reflexivity |]. split; [vm_compute; reflexivity |].
  split; [vm_compute; reflexivity |]. split; [vm_compute; reflexivity |].
  split; [vm_compute; reflexivity |]. split; [vm_compute; reflexivity |].
  split; [vm_compute; reflexivity |]. split; [vm_compute; reflexivity |].
  split; [vm_compute; reflexivity |]. split; [vm_compute; reflexivity |].
  split; [vm_compute; reflexivity |]. split; [vm_compute; reflexivity |].
  split; [vm_compute; reflexivity |]. split; [vm_compute; discriminate |].
  split; [vm_compute; reflexivity |]. split; [vm_compute; reflexivity |].
  split; [vm_compute; reflexivity |]. split; [vm_compute; reflexivity |].
  vm_compute. reflexivity.
Qed.

(** * Replacement in [addLocked] *)

(** Without overflow the threshold is the price raised by the bump. *)
Lemma priceThreshold_exact (x priceBump : Z) :
  0 <= x -> 0 <= priceBump -> x * (100 + priceBump) <= MaxUint64 ->
  100 + priceBump <= MaxUint64 ->
  priceThreshold x priceBump = x * (100 + priceBump) / 100.
Proof.
  intros Hx Hb Hfit Hbump. unfold priceThreshold, u64.
  assert (HM : MaxUint64 = 2 ^ 64 - 1) by reflexivity.
  rewrite (Z.mod_small (100 + priceBump)) by lia.
  rewrite Z.mod_small by nia. reflexivity.
Qed.

(** Below either threshold [addLocked] answers [NotReplaced] and leaves
    the pool as it is. *)
Lemma addLocked_NotReplaced (mt found : nat) (a f : metaTx) (p : TxPool) :
  mem p !! mt = Some a ->
  BySenderAndNonce.get (all p) (mem p) (senderID (Tx a)) (nonce (Tx a)) = Some (Some found) ->
  mem p !! found = Some f ->
  tip (Tx a) < priceThreshold (tip (Tx f)) (PriceBump (cfg p))
  \/ feeCap (Tx a) < priceThreshold (feeCap (Tx f)) (PriceBump (cfg p)) ->
  addLocked mt p = Some (NotReplaced, p).
Proof.
  intros Ha Hget Hf Hlow. unfold addLocked. rewrite Ha. simpl. rewrite Hget. simpl.
  rewrite Hf. simpl.
  assert (bool_decide (tip (Tx a) < priceThreshold (tip (Tx f)) (PriceBump (cfg p)))
          || bool_decide (feeCap (Tx a) < priceThreshold (feeCap (Tx f)) (PriceBump (cfg p)))
          = true) as ->; [| done].
  apply orb_true_iff. destruct Hlow; [left | right]; by apply bool_decide_eq_true_2.
Qed.

Lemma ReplaceOrInsert_subset (items : list (Key * nat)) (k : Key) (x y : nat) :
  y ∈ (btree.ReplaceOrInsert items (k, x)).2 -> y = x \/ y ∈ items.*2.
Proof.
  induction items as [| it items IH]; simpl.
  - intros Hy. left. by apply list_elem_of_singleton in Hy.
  - destruct (sortByNonce_Less it.1 k).
    + destruct (btree.ReplaceOrInsert items (k, x)) as [r rest]. simpl in *.
      rewrite !elem_of_cons. intros [-> | Hy]; [right; by left |].
      destruct (IH Hy); [by left | right; by right].
    + destruct (sortByNonce_Less k it.1); simpl; rewrite !elem_of_cons; tauto.
Qed.

(** At or above both thresholds [addLocked] takes the pooled
    transaction out of its sub-pool, discards it with
    [ReplacedByHigherTip] and puts the new one in the queued sub-pool. *)
Lemma addLocked_replaces (mt found : nat) (a f : metaTx) (p : TxPool) :
  poolsOK p ->
  mem p !! mt = Some a -> currentSubPool a = NoSubPool ->
  BySenderAndNonce.get (all p) (mem p) (senderID (Tx a)) (nonce (Tx a)) = Some (Some found) ->
  mem p !! found = Some f -> found <> mt ->
  priceThreshold (tip (Tx f)) (PriceBump (cfg p)) <= tip (Tx a) ->
  priceThreshold (feeCap (Tx f)) (PriceBump (cfg p)) <= feeCap (Tx a) ->
  exists p',
    addLocked mt p = Some (NotSet, p')
    /\ discards p' = discards p ++ [(found, ReplacedByHigherTip)]
    /\ (forall c, found ∉ members (poolOf c p'))
    /\ mt ∈ members (queued p')
    /\ poolsOK p'.
Proof.
  intros Hok Ha Hcsp Hget Hf Hne Htip Hcap. unfold addLocked. rewrite Ha. simpl.
  rewrite Hget. simpl. rewrite Hf. simpl.
  rewrite (bool_decide_eq_false_2 (tip (Tx a) < _)) by lia.
  rewrite (bool_decide_eq_false_2 (feeCap (Tx a) < _)) by lia. simpl.
  destruct (removeFromSubPool_ok p found Hok) as (p1 & -> & Hc1); [by eexists |]. simpl.
  destruct Hc1 as (Hrest1 & Hframe1 & Hok1 & Hmem1 & Hcsp1).
  destruct (proj2 Hframe1 found f Hf) as (f1 & Hf1 & _).
  destruct (discardLocked_ok found ReplacedByHigherTip p1 Hok1)
    as (p2 & -> & Hmem2 & Hpools2 & Hdis2 & _ & _ & Htree2 & Hok2); [by eexists |]. simpl.
  destruct (Hcsp1 mt a) as (a1 & Ha1 & Hcsp_a1); [| done |].
  { intros Hin. apply list_elem_of_singleton in Hin. congruence. }
  destruct (resolve_total (mem p2) (tree (all p2)) (ok_tree p2 Hok2)) as (items & Hres & Hsnd & _).
  unfold BySenderAndNonce.replaceOrInsert. rewrite Hres. simpl.
  rewrite Hmem2, Ha1. simpl.
  destruct (btree.ReplaceOrInsert items (keyOf a1, mt)) as [old tree'] eqn:Hins.
  assert (Htree' : forall y, y ∈ tree' -> is_Some (mem p2 !! y)).
  { intros y Hy. destruct (ReplaceOrInsert_subset items (keyOf a1) mt y) as [-> | Hin].
    - by rewrite Hins.
    - rewrite Hmem2. by eexists.
    - apply (ok_tree p2 Hok2). by rewrite <- Hsnd. }
  set (all' := match old with
               | Some _ => _
               | None => _
               end).
  assert (Hall' : tree (snd all') = tree') by (unfold all'; by destruct old).
  destruct all' as [o all'']. simpl in *.
  match goal with
  | |- context [inQueued _ ?q] => set (p3 := q)
  end.
  assert (Hmem3 : mem p3 = mem p2) by (unfold p3; by case_bool_decide).
  assert (Hpools3 : forall c, poolOf c p3 = poolOf c p2)
    by (intros c; unfold p3; case_bool_decide; by destruct c).
  assert (Hdis3 : discards p3 = discards p2) by (unfold p3; by case_bool_decide).
  assert (Hall3 : all p3 = all'') by (unfold p3; by case_bool_decide).
  assert (Hok3 : poolsOK p3).
  { destruct Hok2 as [Hwf Hty Hpl Htr]. split.
    - intros c. rewrite Hpools3, Hmem3. apply Hwf.
    - intros c Hc. rewrite Hpools3. by apply Hty.
    - intros y b c Hb Hc. rewrite Hpools3. rewrite Hmem3 in Hb. by apply Hpl.
    - intros y Hy. rewrite Hmem3. apply Htree'. by rewrite <- Hall', <- Hall3. }
  destruct (inQueued_Add p3 mt a1 Hok3) as (p4 & -> & Hatt); [by rewrite Hmem3, Hmem2 | congruence |].
  simpl. exists p4. split; [done |].
  split.
  { destruct (a_rest _ _ _ _ Hatt) as (_ & _ & -> & _). rewrite Hdis3, Hdis2.
    destruct Hrest1 as (_ & _ & -> & _). done. }
  assert (Hq : forall y, y ∈ members (poolOf QueuedSubPool p4)
                         <-> y = mt \/ y ∈ members (poolOf QueuedSubPool p3))
    by apply Hatt.
  split; [| split; [apply Hq; by left | apply Hatt]].
  intros c Hin.
  assert (Hnot : forall c', found ∉ members (poolOf c' p3)).
  { intros c' Hin'. rewrite Hpools3, Hpools2 in Hin'. apply Hmem1 in Hin' as [_ Hout].
    apply Hout. by left. }
  destruct (decide (c = QueuedSubPool)) as [-> | Hcq].
  - apply Hq in Hin as [Heq | Hin]; [done | by apply (Hnot QueuedSubPool)].
  - destruct (decide (c = NoSubPool)) as [-> | Hcn].
    + rewrite poolOf_NoSubPool in Hin.
      rewrite (a_others _ _ _ _ Hatt PendingSubPool) in Hin; [| done | done].
      by apply (Hnot PendingSubPool).
    + rewrite (a_others _ _ _ _ Hatt c) in Hin; [| done | done]. by apply (Hnot c).
Qed.

(** C2 at an overflow.  [txBig] is pooled with tip and fee cap [2^63];
    the products with [100 + PriceBump] wrap around in [uint64], both
    thresholds are 0, and [addLocked] lets [txSmall], whose tip and fee
    cap are 1, replace it: [txBig] is discarded with
    [ReplacedByHigherTip] although [txSmall] offers less than the
    raised price.  Both transactions pass [validateTx]. *)
Theorem addLocked_threshold_wraps :
  validateTx (samplePool 100) txBig false richView = Success
  /\ exists p,
      bigPooled = Some p
      /\ tree (all p) = [0%nat]
      /\ Tx <$> mem p !! 0%nat = Some txBig
      /\ validateTx p txSmall false richView = Success
      /\ priceThreshold (tip txBig) (PriceBump (cfg p)) = 0
      /\ priceThreshold (feeCap txBig) (PriceBump (cfg p)) = 0
      /\ tip txSmall < tip txBig * (100 + PriceBump (cfg p)) / 100
      /\ feeCap txSmall < feeCap txBig * (100 + PriceBump (cfg p)) / 100
      /\ exists p1,
          addLocked 1 (set_mem (mem p ++ [newMetaTx txSmall false 0]) p) = Some (NotSet, p1)
          /\ discards p1 = [(0%nat, ReplacedByHigherTip)]
          /\ tree (all p1) = [1%nat]
          /\ members (queued p1) = [1%nat].
Proof.
  split; [vm_compute; reflexivity |].
  eexists. split; [vm_compute; reflexivity |].
  split; [reflexivity |]. split; [vm_compute; reflexivity |].
  split; [vm_compute; reflexivity |]. split; [vm_compute; reflexivity |].
  split; [vm_compute; reflexivity |]. split; [vm_compute; reflexivity |].
  split; [vm_compute; reflexivity |].
  eexists. split; [vm_compute; reflexivity |].
  split; [vm_compute; reflexivity |]. split; vm_compute; reflexivity.
Qed.

(** * The comparators as orders *)

Ltac comparator_chain :=
  repeat (case_bool_decide; simpl in *; try lia; try done; try congruence).

Lemma better_transitive (a b c : metaTx) (f : Z) :
  currentSubPool a = currentSubPool b ->
  better a b f = true -> better b c f = true -> better a c f = true.
Proof.
  unfold better. intros <-.
  generalize (effectiveSubPool a f) (effectiveSubPool b f) (effectiveSubPool c f).
  generalize (effectiveTip a f) (effectiveTip b f) (effectiveTip c f).
  intros ta tb tc sa sb sc.
  destruct (currentSubPool a); comparator_chain.
Qed.

Lemma worse_transitive (a b c : metaTx) (f : Z) :
  currentSubPool a = currentSubPool b ->
  worse a b f = true -> worse b c f = true -> worse a c f = true.
Proof.
  unfold worse. intros <-.
  generalize (effectiveSubPool a f) (effectiveSubPool b f) (effectiveSubPool c f).
  intros sa sb sc.
  destruct (currentSubPool a); comparator_chain.
Qed.

(** [better] and [worse] are transitive on transactions of one
    sub-pool: with irreflexivity and asymmetry they order the queues. *)
Theorem comparators_transitive (a b c : metaTx) (pendingBaseFee : Z) :
  currentSubPool a = currentSubPool b ->
  (better a b pendingBaseFee = true -> better b c pendingBaseFee = true ->
   better a c pendingBaseFee = true)
  /\ (worse a b pendingBaseFee = true -> worse b c pendingBaseFee = true ->
      worse a c pendingBaseFee = true).
Proof.
  intros Hab. split.
  - by apply better_transitive.
  - by apply worse_transitive.
Qed.

Lemma comparators_transitive_witness :
  currentSubPool samplePending' = currentSubPool samplePending
  /\ better samplePending' samplePending 10 = true
  /\ better samplePending sampleLater 10 = true
  /\ better samplePending' sampleLater 10 = true.
Proof.
  split; [reflexivity |]. split; [reflexivity |]. split; [reflexivity |].
  apply (comparators_transitive samplePending' samplePending sampleLater 10);
    reflexivity.
Defined.

(** * Intrinsic gas *)

Lemma div_lt_iff (a b q : Z) : 0 < b -> (a / b < q <-> a < b * q).
Proof.
  intros Hb. split; [| by apply Z.div_lt_upper_bound].
  intros Hq. pose proof (Z.mul_succ_div_gt a b Hb). nia.
Qed.

Lemma CalcIntrinsicGas_guards (dataLen dataNonZeroLen : Z) (creation : bool) :
  0 <= dataLen <= MaxUint64 -> 0 <= dataNonZeroLen <= MaxUint64 ->
  let base := if creation then TxGasContractCreation else TxGas in
  let fits := dataLen = 0
              \/ (dataNonZeroLen <= dataLen
                  /\ base + dataNonZeroLen * TxDataNonZeroGasEIP2028
                     + (dataLen - dataNonZeroLen) * TxDataZeroGas <= MaxUint64) in
  ((CalcIntrinsicGas dataLen dataNonZeroLen creation true true).2 = Success <-> fits)
  /\ (fits ->
      (CalcIntrinsicGas dataLen dataNonZeroLen creation true true).1
      = if bool_decide (dataLen = 0) then base
        else base + dataNonZeroLen * TxDataNonZeroGasEIP2028
             + (dataLen - dataNonZeroLen) * TxDataZeroGas)
  /\ ((CalcIntrinsicGas dataLen dataNonZeroLen creation true true).2 <> Success ->
      CalcIntrinsicGas dataLen dataNonZeroLen creation true true = (0, GasUintOverflow)).
Proof.
  intros Hd Hn base fits. subst fits.
  unfold CalcIntrinsicGas, TxGasContractCreation, TxGas, TxDataNonZeroGasEIP2028,
    TxDataZeroGas, u64, MaxUint64 in *.
  rewrite andb_true_r. fold base.
  assert (Hbase : base = 53000 \/ base = 21000) by (subst base; destruct creation; auto).
  clearbody base.
  case_bool_decide as Hlen; simpl.
  2: { assert (dataLen = 0) as -> by lia. rewrite bool_decide_eq_true_2 by done.
       split; [split; auto |]. split; [done |]. done. }
  rewrite (bool_decide_eq_false_2 (dataLen = 0)) by lia.
  case_bool_decide as Hg1; simpl.
  { split; [| split; [| done]].
    - split; [done |]. intros [? | [Hle Hfit]]; [lia |]. exfalso.
      apply div_lt_iff in Hg1; lia.
    - intros [? | [Hle Hfit]]; [lia |]. exfalso.
      apply div_lt_iff in Hg1; lia. }
  assert (H1 : dataNonZeroLen * 16 <= 18446744073709551615 - base).
  { rewrite div_lt_iff in Hg1 by lia. lia. }
  rewrite (Z.mod_small (dataNonZeroLen * 16)) by lia.
  rewrite (Z.mod_small (base + dataNonZeroLen * 16)) by lia.
  destruct (decide (dataNonZeroLen <= dataLen)) as [Hle | Hgt].
  - rewrite (Z.mod_small (dataLen - dataNonZeroLen)) by lia.
    case_bool_decide as Hg2; simpl.
    + split; [| split; [| done]].
      * split; [done |]. intros [? | [_ Hfit]]; [lia |]. exfalso.
        apply div_lt_iff in Hg2; lia.
      * intros [? | [_ Hfit]]; [lia |]. exfalso.
        apply div_lt_iff in Hg2; lia.
    + assert (H2 : (dataLen - dataNonZeroLen) * 4
                   <= 18446744073709551615 - (base + dataNonZeroLen * 16)).
      { rewrite div_lt_iff in Hg2 by lia. lia. }
      rewrite (Z.mod_small ((dataLen - dataNonZeroLen) * 4)) by lia.
      rewrite Z.mod_small by lia.
      split; [split; [intros _; right; lia | done] |]. split; [done | done].
  - assert (Hz : (dataLen - dataNonZeroLen) mod 2 ^ 64 = dataLen - dataNonZeroLen + 2 ^ 64).
    { symmetry. apply Z.mod_unique_pos with (q := -1); lia. }
    rewrite Hz. rewrite bool_decide_eq_true_2.
    + simpl. split; [| split; [| done]].
      * split; [done |]. intros [? | [Hle _]]; lia.
      * intros [? | [Hle _]]; lia.
    + apply div_lt_iff; lia.
Qed.

(** The two guards of [CalcIntrinsicGas] keep the sums inside [uint64]:
    it answers [Success] exactly when the gas of the data fits, the
    gas is then the exact sum, and a slot that claims more non-zero
    bytes than bytes is refused; every other answer is
    [(0, GasUintOverflow)]. *)
Theorem CalcIntrinsicGas_exact (dataLen dataNonZeroLen : Z) (creation : bool) :
  0 <= dataLen <= MaxUint64 -> 0 <= dataNonZeroLen <= MaxUint64 ->
  let base := if creation then TxGasContractCreation else TxGas in
  let fits := dataLen = 0
              \/ (dataNonZeroLen <= dataLen
                  /\ base + dataNonZeroLen * TxDataNonZeroGasEIP2028
                     + (dataLen - dataNonZeroLen) * TxDataZeroGas <= MaxUint64) in
  ((CalcIntrinsicGas dataLen dataNonZeroLen creation true true).2 = Success <-> fits)
  /\ (fits ->
      (CalcIntrinsicGas dataLen dataNonZeroLen creation true true).1
      = if bool_decide (dataLen = 0) then base
        else base + dataNonZeroLen * TxDataNonZeroGasEIP2028
             + (dataLen - dataNonZeroLen) * TxDataZeroGas)
  /\ ((CalcIntrinsicGas dataLen dataNonZeroLen creation true true).2 <> Success ->
      CalcIntrinsicGas dataLen dataNonZeroLen creation true true = (0, GasUintOverflow)).
Proof. apply CalcIntrinsicGas_guards. Qed.

Lemma CalcIntrinsicGas_exact_witness :
  0 <= 100 <= MaxUint64 /\ 0 <= 40 <= MaxUint64
  /\ CalcIntrinsicGas 100 40 false true true = (21000 + 40 * 16 + 60 * 4, Success).
Proof.
  assert (H1 : 0 <= 100 <= MaxUint64) by (split; vm_compute; discriminate).
  assert (H2 : 0 <= 40 <= MaxUint64) by (split; vm_compute; discriminate).
  split; [exact H1 |]. split; [exact H2 |].
  destruct (CalcIntrinsicGas_exact 100 40 false H1 H2) as (Hok & Hgas & _).
  assert (Hfits : 100 = 0 \/ (40 <= 100 /\ TxGas + 40 * TxDataNonZeroGasEIP2028
                                 + (100 - 40) * TxDataZeroGas <= MaxUint64)).
  { right. split; vm_compute; discriminate. }
  destruct (CalcIntrinsicGas 100 40 false true true) as [g r] eqn:Hcalc.
  simpl in Hok, Hgas. rewrite (Hgas Hfits), (proj2 Hok Hfits). reflexivity.
Defined.

(** * Validation *)

(** [validateTx] in closed form: it answers [Success] exactly when a
    remote transaction offers the pool's minimal fee cap, the intrinsic
    gas fits [uint64] and is covered by the gas of the transaction, the
    sender has at most [AccountSlots] transactions pooled, the nonce is
    not below the sender's and the balance covers gas times tip plus
    value. *)
Theorem validateTx_Success (p : TxPool) (txn : TxSlot) (isLocal : bool)
  (stateCache : CacheView) :
  0 <= dataLen txn <= MaxUint64 -> 0 <= dataNonZeroLen txn <= MaxUint64 ->
  let base := if creation txn then TxGasContractCreation else TxGas in
  let data := dataNonZeroLen txn * TxDataNonZeroGasEIP2028
              + (dataLen txn - dataNonZeroLen txn) * TxDataZeroGas in
  validateTx p txn isLocal stateCache = Success
  <-> (isLocal = true \/ MinFeeCap (cfg p) <= feeCap txn)
      /\ (dataLen txn = 0
          \/ (dataNonZeroLen txn <= dataLen txn /\ base + data <= MaxUint64))
      /\ (if bool_decide (dataLen txn = 0) then base else base + data) <= gas txn
      /\ BySenderAndNonce.count (all p) (senderID txn) <= AccountSlots (cfg p)
      /\ (senderInfo stateCache (senderID txn)).1 <= nonce txn
      /\ u256 (u256 (gas txn * tip txn) + value txn)
         <= (senderInfo stateCache (senderID txn)).2.
Proof.
  intros Hd Hn base data.
  destruct (CalcIntrinsicGas_guards (dataLen txn) (dataNonZeroLen txn) (creation txn) Hd Hn)
    as (Hok & Hgas & Hbad).
  fold base in Hok, Hgas. unfold validateTx.
  destruct (CalcIntrinsicGas _ _ _ _ _) as [g r]. simpl in Hok, Hgas, Hbad.
  destruct (senderInfo stateCache (senderID txn)) as [sn sb]. simpl.
  assert (Hdata : base + dataNonZeroLen txn * TxDataNonZeroGasEIP2028
                  + (dataLen txn - dataNonZeroLen txn) * TxDataZeroGas = base + data)
    by (unfold data; lia).
  rewrite Hdata in Hok, Hgas.
  set (base' := if bool_decide (dataLen txn = 0) then base else base + data) in *.
  assert (Hlocal : (negb isLocal && bool_decide (feeCap txn < MinFeeCap (cfg p)) = false)
                   <-> (isLocal = true \/ MinFeeCap (cfg p) <= feeCap txn)).
  { destruct isLocal; simpl; [by split; [left |] |].
    case_bool_decide; split; try done; [intros [? | ?]; [done | lia] | right; lia]. }
  destruct (negb isLocal && bool_decide (feeCap txn < MinFeeCap (cfg p))).
  { split; [done |]. intros (Hl & _). by apply Hlocal in Hl. }
  assert (Hl : isLocal = true \/ MinFeeCap (cfg p) <= feeCap txn) by by apply Hlocal.
  destruct (decide (r = Success)) as [-> | Hr].
  - rewrite (bool_decide_eq_false_2 (Success <> Success)) by (intros H; by apply H).
    pose proof (proj1 Hok eq_refl) as Hfits. rewrite (Hgas Hfits).
    destruct (bool_decide_reflect (base' > gas txn)) as [? | ?];
      [split; [done | intros (_ & _ & ? & _); subst base'; lia] |].
    destruct (bool_decide_reflect
                (BySenderAndNonce.count (all p) (senderID txn) > AccountSlots (cfg p)))
      as [? | ?]; [split; [done | intros (_ & _ & _ & ? & _); lia] |].
    destruct (bool_decide_reflect (sn > nonce txn)) as [? | ?];
      [split; [done | intros (_ & _ & _ & _ & ? & _); lia] |].
    destruct (bool_decide_reflect (sb < u256 (u256 (gas txn * tip txn) + value txn)))
      as [? | ?]; [split; [done | intros (_ & _ & _ & _ & _ & ?); lia] |].
    split; [intros _ | done]. subst base'. repeat split; auto; lia.
  - rewrite (bool_decide_eq_true_2 (r <> Success)) by done.
    split; [done |]. intros (_ & Hfits & _). by apply Hok in Hfits.
Qed.

Lemma validateTx_Success_witness :
  0 <= dataLen txA <= MaxUint64 /\ 0 <= dataNonZeroLen txA <= MaxUint64
  /\ validateTx (samplePool 100) txA false sampleView = Success.
Proof.
  assert (H1 : 0 <= dataLen txA <= MaxUint64) by (split; vm_compute; discriminate).
  assert (H2 : 0 <= dataNonZeroLen txA <= MaxUint64) by (split; vm_compute; discriminate).
  split; [exact H1 |]. split; [exact H2 |].
  apply (validateTx_Success (samplePool 100) txA false sampleView H1 H2).
  split; [right; vm_compute; discriminate |].
  split; [left; reflexivity |].
  repeat split; vm_compute; discriminate.
Defined.

(** * Filling in the reasons *)

Lemma find_without {V : Type} (k k' : Z) (l : list (Z * V)) :
  k' <> k ->
  snd <$> list_find (fun e => e.1 = k') (simplelru.without k l)
  = snd <$> list_find (fun e => e.1 = k') l.
Proof.
  intros Hk. unfold simplelru.without. induction l as [| e l IH]; [done |].
  destruct (decide (e.1 = k)) as [He | He].
  - rewrite filter_cons_False by (intros H; by apply H).
    rewrite IH. simpl. rewrite decide_False by congruence.
    destruct (list_find _ l) as [[? ?] |]; done.
  - rewrite filter_cons_True by done. simpl.
    destruct (decide (e.1 = k')); [done |].
    destruct (list_find _ (filter _ l)) as [[? ?] |], (list_find _ l) as [[? ?] |];
      simpl in *; congruence.
Qed.

Lemma Get_value {V : Type} (c : LRU V) (k : Z) :
  (simplelru.Get c k).1 = snd <$> (snd <$> list_find (fun e => e.1 = k) (lru_items c)).
Proof.
  unfold simplelru.Get. destruct (list_find _ _) as [[? ?] |]; done.
Qed.

(** A [Get] moves an entry to the front and changes no binding. *)
Lemma Get_Get {V : Type} (c : LRU V) (k k' : Z) :
  (simplelru.Get (simplelru.Get c k).2 k').1 = (simplelru.Get c k').1.
Proof.
  rewrite !Get_value. unfold simplelru.Get.
  destruct (list_find (fun e => e.1 = k) (lru_items c)) as [[i e] |] eqn:Hfind; [| done].
  simpl. pose proof Hfind as (_ & He & _)%list_find_Some.
  destruct (decide (e.1 = k')) as [Hk | Hk].
  - rewrite <- Hk, He, Hfind. done.
  - f_equal. rewrite <- (find_without k k' (lru_items c)) by congruence.
    destruct (list_find _ (simplelru.without k (lru_items c))) as [[? ?] |]; done.
Qed.

(** The loop of [fillDiscardReasons] from index [n] on. *)
Lemma fillDiscardReasons_loop (newTxs : TxSlots) (m : nat) :
  forall (n : nat) (its : list (nat * DiscardReason)) (rs : list DiscardReason)
         (lru : LRU DiscardReason),
    its.*1 = seq n m -> (n + m <= length rs)%nat -> (length rs <= length (txs newTxs))%nat ->
    exists rs' lru',
      foldl (fun acc it =>
               '(reasons, lru) ← acc;
               let '(i, _) := it in
               r ← reasons !! i;
               if bool_decide (r <> NotSet) then Some (reasons, lru)
               else
                 txn ← txs newTxs !! i;
                 let '(reason, lru) := simplelru.Get lru (IdHash txn) in
                 rs ← setAt reasons i (default Success reason);
                 Some (rs, lru))
            (Some (rs, lru)) its = Some (rs', lru')
      /\ length rs' = length rs
      /\ (forall k, (simplelru.Get lru' k).1 = (simplelru.Get lru k).1)
      /\ (forall i r, rs !! i = Some r ->
            rs' !! i = Some (if bool_decide (n <= i < n + m)%nat && bool_decide (r = NotSet)
                             then default Success
                                    (txn ← txs newTxs !! i; (simplelru.Get lru (IdHash txn)).1)
                             else r)).
Proof.
  induction m as [| m IH]; intros n its rs lru Hits Hn Hlen.
  - destruct its; [| done]. exists rs, lru. simpl. split; [done |]. split; [done |]. split; [done |].
    intros i r Hi. rewrite Hi. f_equal.
    rewrite (bool_decide_eq_false_2 (n <= i < n + 0)%nat) by lia. done.
  - destruct its as [| [i0 r0] its]; [done |]. simpl in Hits.
    injection Hits as -> Hits. simpl.
    destruct (lookup_lt_is_Some_2 rs n ltac:(lia)) as [r Hr]. rewrite Hr. simpl.
    destruct (lookup_lt_is_Some_2 (txs newTxs) n ltac:(lia)) as [txn Htxn].
    destruct (decide (r = NotSet)) as [-> | Hset].
    + rewrite (bool_decide_eq_false_2 (NotSet <> NotSet)) by (intros H; by apply H).
      rewrite Htxn. simpl.
      destruct (simplelru.Get lru (IdHash txn)) as [reason lru1] eqn:Hget.
      unfold setAt. rewrite bool_decide_eq_true_2 by lia. simpl.
      destruct (IH (S n) its (<[n := default Success reason]> rs) lru1)
        as (rs' & lru' & Hfold & Hlen' & Hlru & Hrs);
        [done | rewrite length_insert; lia | rewrite length_insert; lia |].
      exists rs', lru'. rewrite length_insert in Hlen'.
      split; [exact Hfold |]. split; [done |]. split.
      * intros k. rewrite Hlru. pose proof (Get_Get lru (IdHash txn) k) as HG.
        rewrite Hget in HG. exact HG.
      * intros i r Hi. destruct (decide (i = n)) as [-> | Hne].
        -- rewrite Hr in Hi. injection Hi as <-.
           rewrite (Hrs n (default Success reason)) by (apply list_lookup_insert_eq; lia).
           rewrite (bool_decide_eq_false_2 (S n <= n < S n + m)%nat) by lia.
           rewrite (bool_decide_eq_true_2 (n <= n < n + S m)%nat) by lia.
           simpl. rewrite Htxn. simpl. by rewrite Hget.
        -- rewrite (Hrs i r) by (rewrite list_lookup_insert_ne; done).
           f_equal.
           destruct (bool_decide_reflect (S n <= i < S n + m)%nat) as [Hin | Hout].
           ++ rewrite (bool_decide_eq_true_2 (n <= i < n + S m)%nat) by lia. simpl.
              destruct (bool_decide (r = NotSet)); [| done].
              destruct (txs newTxs !! i) as [txi |]; [| done]. simpl. f_equal.
              pose proof (Get_Get lru (IdHash txn) (IdHash txi)) as HG.
              rewrite Hget in HG. exact HG.
           ++ rewrite (bool_decide_eq_false_2 (n <= i < n + S m)%nat) by lia. done.
    + rewrite (bool_decide_eq_true_2 (r <> NotSet)) by done.
      destruct (IH (S n) its rs lru) as (rs' & lru' & Hfold & Hlen' & Hlru & Hrs);
        [done | lia | lia |].
      exists rs', lru'. split; [exact Hfold |]. split; [done |]. split; [done |].
      intros i r' Hi. rewrite (Hrs i r' Hi). f_equal.
      destruct (decide (i = n)) as [-> | Hne].
      * rewrite Hr in Hi. injection Hi as <-.
        rewrite (bool_decide_eq_false_2 (r = NotSet)) by done.
        by rewrite !andb_false_r.
      * destruct (bool_decide_reflect (S n <= i < S n + m)%nat) as [Hin | Hout].
        -- rewrite (bool_decide_eq_true_2 (n <= i < n + S m)%nat) by lia. done.
        -- rewrite (bool_decide_eq_false_2 (n <= i < n + S m)%nat) by lia. done.
Qed.

Lemma indexed_fst {A : Type} (l : list A) : (indexed l).*1 = seq 0 (length l).
Proof. unfold indexed. apply fst_zip. by rewrite length_seq. Qed.

(** When the batch has a transaction for every reason,
    [fillDiscardReasons] returns: a reason that was set stays, a reason
    that was [NotSet] becomes what [discardReasonsLRU] records for the
    hash of the transaction at that index, or [Success] when it records
    nothing; the cache keeps its bindings. *)
Theorem fillDiscardReasons_fills (reasons : list DiscardReason) (newTxs : TxSlots)
  (discardReasonsLRU : LRU DiscardReason) :
  (length reasons <= length (txs newTxs))%nat ->
  exists reasons' lru',
    fillDiscardReasons reasons newTxs discardReasonsLRU = Some (reasons', lru')
    /\ length reasons' = length reasons
    /\ (forall k, (simplelru.Get lru' k).1 = (simplelru.Get discardReasonsLRU k).1)
    /\ (forall i r txn, reasons !! i = Some r -> txs newTxs !! i = Some txn ->
          reasons' !! i
          = Some (if bool_decide (r = NotSet)
                  then default Success (simplelru.Get discardReasonsLRU (IdHash txn)).1
                  else r)).
Proof.
  intros Hlen.
  destruct (fillDiscardReasons_loop newTxs (length reasons) 0 (indexed reasons) reasons
              discardReasonsLRU (indexed_fst reasons) ltac:(lia) Hlen)
    as (rs' & lru' & Hfold & Hlen' & Hlru & Hrs).
  exists rs', lru'. split; [exact Hfold |]. split; [done |]. split; [done |].
  intros i r txn Hi Htxn. rewrite (Hrs i r Hi). f_equal.
  apply lookup_lt_Some in Hi as Hlt.
  rewrite (bool_decide_eq_true_2 (0 <= i < 0 + length reasons)%nat) by lia.
  rewrite Htxn. done.
Qed.

Lemma fillDiscardReasons_fills_witness :
  (length [NotSet; IntrinsicGas] <= length (txs goodThenBad))%nat
  /\ exists reasons' lru',
      fillDiscardReasons [NotSet; IntrinsicGas] goodThenBad (simplelru.NewLRU 8)
      = Some (reasons', lru')
      /\ reasons' !! 0%nat = Some Success /\ reasons' !! 1%nat = Some IntrinsicGas.
Proof.
  assert (H : (length [NotSet; IntrinsicGas] <= length (txs goodThenBad))%nat)
    by (simpl; lia).
  split; [exact H |].
  destruct (fillDiscardReasons_fills [NotSet; IntrinsicGas] goodThenBad (simplelru.NewLRU 8) H)
    as (rs & lru & Hfill & _ & _ & Hrs).
  exists rs, lru. split; [exact Hfill |]. split.
  - exact (Hrs 0%nat NotSet txA eq_refl eq_refl).
  - exact (Hrs 1%nat IntrinsicGas txLowGas eq_refl eq_refl).
Defined.

Lemma indexed_snoc {A : Type} (l : list A) (x : A) :
  indexed (l ++ [x]) = indexed l ++ [(length l, x)].
Proof.
  unfold indexed. rewrite length_app. simpl.
  rewrite Nat.add_1_r, seq_S. simpl.
  rewrite zip_with_app by (by rewrite length_seq). done.
Qed.

(** * The order of the keys *)

Ltac less_cases :=
  unfold sortByNonce_Less in *; simpl in *;
  repeat (case_bool_decide; simpl in *; try lia; try done; try congruence).

Lemma sortByNonce_Less_trans (i j k : Key) :
  sortByNonce_Less i j = true -> sortByNonce_Less j k = true -> sortByNonce_Less i k = true.
Proof. destruct i, j, k. less_cases. Qed.

Lemma sortByNonce_Less_asym (i j : Key) :
  sortByNonce_Less i j = true -> sortByNonce_Less j i = false.
Proof. destruct i, j. less_cases. Qed.

Lemma sortByNonce_Less_eq (i j : Key) :
  sortByNonce_Less i j = false /\ sortByNonce_Less j i = false <-> i = j.
Proof.
  split.
  - intros [H1 H2]. destruct i, j. f_equal; less_cases.
  - intros ->. destruct j. split; less_cases.
Qed.

Lemma sortByNonce_Less_ne (i j : Key) : sortByNonce_Less i j = true -> i <> j.
Proof. intros H ->. by rewrite sortByNonce_Less_irreflexive in H. Qed.

Lemma keysSorted_unique (items : list (Key * nat)) (i j : Key * nat) :
  keysSorted items -> i ∈ items -> j ∈ items -> i.1 = j.1 -> i = j.
Proof.
  induction 1 as [| it items Hs IH Hall]; intros Hi Hj Hkey.
  - by apply not_elem_of_nil in Hi.
  - rewrite Forall_forall in Hall.
    apply elem_of_cons in Hi as [-> | Hi]; apply elem_of_cons in Hj as [-> | Hj];
      try done; try by apply IH.
    + specialize (Hall j Hj). rewrite Hkey in Hall.
      destruct (proj2 (sortByNonce_Less_eq j.1 j.1) eq_refl). congruence.
    + specialize (Hall i Hi). rewrite Hkey in Hall.
      destruct (proj2 (sortByNonce_Less_eq i.1 i.1) eq_refl). congruence.
Qed.

Lemma Get_filter (items : list (Key * nat)) (k : Key) :
  btree.Get items k = snd <$> head (filter (fun it => it.1 = k) items).
Proof.
  unfold btree.Get. f_equal. f_equal. apply list_filter_iff. intros it.
  apply sortByNonce_Less_eq.
Qed.

Lemma Get_sorted (items : list (Key * nat)) (k : Key) (x : nat) :
  keysSorted items -> btree.Get items k = Some x <-> (k, x) ∈ items.
Proof.
  intros Hs. rewrite Get_filter. split.
  - destruct (head _) as [it |] eqn:Hhead; [| done]. simpl. intros [= <-].
    apply head_Some_elem_of in Hhead. apply list_elem_of_filter in Hhead as [<- Hit].
    by destruct it.
  - intros Hin.
    assert (Hf : (k, x) ∈ filter (fun it => it.1 = k) items)
      by (apply list_elem_of_filter; done).
    destruct (filter _ items) as [| it rest] eqn:Hfilter.
    { by apply not_elem_of_nil in Hf. }
    simpl. f_equal.
    assert (Hit : it ∈ filter (fun it => it.1 = k) items) by (rewrite Hfilter; by left).
    apply list_elem_of_filter in Hit as [Hkey Hit].
    by rewrite (keysSorted_unique items it (k, x) Hs Hit Hin Hkey).
Qed.

Lemma Get_None (items : list (Key * nat)) (k : Key) :
  btree.Get items k = None <-> forall x, (k, x) ∉ items.
Proof.
  rewrite Get_filter. split.
  - intros Hnone x Hin. destruct (head _) eqn:Hhead; [done |].
    apply head_None in Hhead.
    assert (Hf : (k, x) ∈ filter (fun it => it.1 = k) items)
      by (apply list_elem_of_filter; done).
    rewrite Hhead in Hf. by apply not_elem_of_nil in Hf.
  - intros Hno. destruct (head _) as [it |] eqn:Hhead; [| done].
    apply head_Some_elem_of in Hhead. apply list_elem_of_filter in Hhead as [<- Hit].
    destruct it as [k x]. by destruct (Hno x).
Qed.

(** On a sorted sequence [ReplaceOrInsert] puts the item between the
    smaller and the greater keys and returns the item of its key. *)
Lemma ReplaceOrInsert_sorted (items : list (Key * nat)) (k : Key) (x : nat) :
  keysSorted items ->
  btree.ReplaceOrInsert items (k, x)
  = (btree.Get items k,
     (filter (fun it => sortByNonce_Less it.1 k = true) items).*2
     ++ x :: (filter (fun it => sortByNonce_Less k it.1 = true) items).*2).
Proof.
  induction 1 as [| it items Hs IH Hall]; [done |].
  rewrite Forall_forall in Hall. rewrite Get_filter in *. simpl.
  rewrite !filter_cons.
  destruct (sortByNonce_Less it.1 k) eqn:Hlt.
  - rewrite IH. rewrite (decide_True (P := true = true)) by done.
    rewrite (decide_False (P := sortByNonce_Less k it.1 = true))
      by (rewrite (sortByNonce_Less_asym _ _ Hlt); done).
    rewrite (decide_False (P := it.1 = k)).
    + done.
    + by apply sortByNonce_Less_ne.
  - rewrite (decide_False (P := false = true)) by done.
    assert (Hrest : forall j, j ∈ items -> sortByNonce_Less k j.1 = true ->
                              sortByNonce_Less j.1 k = false).
    { intros j _ Hj. by apply sortByNonce_Less_asym. }
    destruct (sortByNonce_Less k it.1) eqn:Hgt.
    + assert (Hgreater : forall j, j ∈ items -> sortByNonce_Less k j.1 = true).
      { intros j Hj. eapply sortByNonce_Less_trans; [exact Hgt | by apply Hall]. }
      rewrite (decide_True (P := true = true)) by done.
      rewrite (decide_False (P := it.1 = k)).
      2:{ intros Heq. symmetry in Heq. by apply sortByNonce_Less_ne in Hgt. }
      rewrite (filter_none (fun it => it.1 = k)).
      2:{ rewrite Forall_forall. intros j Hj Heq. symmetry in Heq.
          by apply (sortByNonce_Less_ne _ _ (Hgreater j Hj)). }
      rewrite (filter_none (fun it => sortByNonce_Less it.1 k = true)).
      2:{ rewrite Forall_forall. intros j Hj. rewrite (Hrest j Hj (Hgreater j Hj)). done. }
      rewrite filter_all by (rewrite Forall_forall; done). done.
    + assert (Hkey : it.1 = k) by (by apply sortByNonce_Less_eq).
      assert (Hgreater : forall j, j ∈ items -> sortByNonce_Less k j.1 = true).
      { intros j Hj. rewrite <- Hkey. by apply Hall. }
      rewrite (decide_True (P := it.1 = k)) by done. simpl.
      rewrite (filter_none (fun it => sortByNonce_Less it.1 k = true)).
      2:{ rewrite Forall_forall. intros j Hj. rewrite (Hrest j Hj (Hgreater j Hj)). done. }
      rewrite filter_all by (rewrite Forall_forall; done). done.
Qed.

(** On a sorted sequence [Delete] takes out the item of the key and
    returns it. *)
Lemma Delete_sorted (items : list (Key * nat)) (k : Key) :
  keysSorted items ->
  btree.Delete items k
  = (btree.Get items k, (filter (fun it => it.1 <> k) items).*2).
Proof.
  induction 1 as [| it items Hs IH Hall]; [done |].
  rewrite Forall_forall in Hall. rewrite Get_filter in *. simpl.
  rewrite !filter_cons.
  destruct (sortByNonce_Less it.1 k) eqn:Hlt.
  - rewrite IH.
    assert (Hne : it.1 <> k) by (by apply sortByNonce_Less_ne).
    rewrite (decide_True (P := it.1 <> k)) by done. rewrite (decide_False (P := it.1 = k)) by done. done.
  - assert (Hrest : forall j, j ∈ items -> sortByNonce_Less k it.1 = true \/ it.1 = k ->
                              j.1 <> k).
    { intros j Hj Hor Hjk. specialize (Hall j Hj). rewrite Hjk in Hall.
      destruct Hor as [Hgt | Heq].
      - rewrite (sortByNonce_Less_asym _ _ Hgt) in Hall. done.
      - by apply sortByNonce_Less_ne in Hall. }
    destruct (sortByNonce_Less k it.1) eqn:Hgt.
    + assert (Hne : it.1 <> k).
      { intros Heq. symmetry in Heq. by apply sortByNonce_Less_ne in Hgt. }
      rewrite (decide_True (P := it.1 <> k)) by done. rewrite (decide_False (P := it.1 = k)) by done.
      rewrite (filter_none (fun it => it.1 = k)).
      2:{ rewrite Forall_forall. intros j Hj. apply Hrest; auto. }
      rewrite filter_all; [done |]. rewrite Forall_forall. intros j Hj. apply Hrest; auto.
    + assert (Hkey : it.1 = k) by (by apply sortByNonce_Less_eq).
      rewrite (decide_False (P := it.1 <> k)) by (intros Hne; by apply Hne).
      rewrite (decide_True (P := it.1 = k)) by done. simpl.
      rewrite filter_all; [done |]. rewrite Forall_forall. intros j Hj. apply Hrest; auto.
Qed.

(** * The items of a sorted index *)

Lemma resolve_keyed (mem : list metaTx) (items : list (Key * nat)) :
  Forall (keyed mem) items -> resolve mem items.*2 = Some items.
Proof.
  unfold resolve. induction 1 as [| [k x] items (a & Ha & Hk) _ IH]; [done |].
  simpl in Ha, Hk. simpl. rewrite Ha. simpl.
  change (list_fmap (Z * Z * nat)%type nat snd items) with (items.*2).
  rewrite IH. simpl. by rewrite Hk.
Qed.

Lemma index_items (p : TxPool) :
  indexValid p -> indexSorted p ->
  exists items,
    resolve (mem p) (tree (all p)) = Some items
    /\ items.*2 = tree (all p)
    /\ Forall (keyed (mem p)) items
    /\ keysSorted items
    /\ Forall (fun it => 0 <= it.1.2 <= MaxUint64) items.
Proof.
  intros Hvalid [Hsorted Hnonce].
  destruct (resolve_total (mem p) (tree (all p)) Hvalid) as (items & Hres & Hsnd & Hk).
  exists items. split; [done |]. split; [done |]. split; [exact Hk |]. split.
  - apply (keyed_sorted (mem p)); [exact Hk | by rewrite Hsnd].
  - rewrite Forall_forall in Hk |- *. intros it Hit.
    destruct (Hk it Hit) as (a & Ha & ->). apply (Hnonce it.2); [| done].
    rewrite <- Hsnd. apply list_elem_of_fmap. by exists it.
Qed.

Lemma keyed_elem (mem : list metaTx) (items : list (Key * nat)) (k : Key) (x : nat) :
  Forall (keyed mem) items ->
  (k, x) ∈ items <-> x ∈ items.*2 /\ keyOf <$> mem !! x = Some k.
Proof.
  intros Hk. rewrite Forall_forall in Hk. split.
  - intros Hin. destruct (Hk _ Hin) as (a & Ha & Hkey). simpl in *. split.
    + apply list_elem_of_fmap. by exists (k, x).
    + rewrite Ha. simpl. by rewrite Hkey.
  - intros [Hx Hkey]. apply list_elem_of_fmap in Hx as (it & -> & Hit).
    destruct (Hk _ Hit) as (a & Ha & Hka). rewrite Ha in Hkey. simpl in Hkey.
    destruct it as [k' x']. simpl in *. congruence.
Qed.

Lemma get_spec (p : TxPool) (sender txNonce : Z) :
  indexValid p -> indexSorted p ->
  exists r,
    BySenderAndNonce.get (all p) (mem p) sender txNonce = Some r
    /\ forall x, r = Some x
                 <-> x ∈ tree (all p) /\ keyOf <$> mem p !! x = Some (sender, txNonce).
Proof.
  intros Hvalid Hsorted.
  destruct (index_items p Hvalid Hsorted) as (items & Hres & Hsnd & Hk & Hs & _).
  exists (btree.Get items (sender, txNonce)). unfold BySenderAndNonce.get.
  rewrite Hres. split; [done |]. intros x.
  rewrite (Get_sorted items _ x Hs), (keyed_elem (mem p) items _ x Hk), Hsnd. done.
Qed.

(** [get] returns, and what it returns is the transaction of that
    sender and nonce in the index, [nil] when there is none. *)
Theorem get_finds (p : TxPool) (sender txNonce : Z) :
  indexValid p -> indexSorted p ->
  exists r,
    BySenderAndNonce.get (all p) (mem p) sender txNonce = Some r
    /\ forall x, r = Some x
                 <-> x ∈ tree (all p) /\ keyOf <$> mem p !! x = Some (sender, txNonce).
Proof. apply get_spec. Qed.

Lemma indexValid_of_poolsOK (p : TxPool) : poolsOK p -> indexValid p.
Proof. intros Hok. exact (ok_tree p Hok). Qed.

Lemma twoPending_index : indexValid twoPending /\ indexSorted twoPending.
Proof.
  pose proof twoPending_consistent as Hc. split.
  - apply indexValid_of_poolsOK, Hc.
  - apply Hc.
Qed.

Lemma get_finds_witness :
  indexValid twoPending /\ indexSorted twoPending
  /\ exists r, BySenderAndNonce.get (all twoPending) (mem twoPending) 1 1 = Some r
               /\ (r = Some 1%nat
                   <-> 1%nat ∈ tree (all twoPending)
                       /\ keyOf <$> mem twoPending !! 1%nat = Some (1, 1)).
Proof.
  destruct twoPending_index as [Hv Hs]. split; [exact Hv |]. split; [exact Hs |].
  destruct (get_finds twoPending 1 1 Hv Hs) as (r & Hget & Hr).
  exists r. split; [exact Hget |]. apply Hr.
Defined.

(** * Walking the transactions of a sender *)

Lemma ascend_split (items : list (Key * nat)) (sender : Z) :
  keysSorted items -> Forall (fun it => 0 <= it.1.2) items ->
  btree.AscendGreaterOrEqual items (sender, 0)
  = filter (fun it => it.1.1 = sender) items ++ filter (fun it => sender < it.1.1) items.
Proof.
  intros Hs Hn. unfold btree.AscendGreaterOrEqual.
  induction items as [| it items IH]; [done |].
  apply StronglySorted_inv in Hs as [Hs Hall].
  apply Forall_cons in Hn as [Hit Hn].
  specialize (IH Hs Hn). rewrite !filter_cons.
  destruct it as [[s n] x]. simpl in *.
  destruct (decide (s < sender)) as [Hlt | Hge].
  - rewrite decide_False; [| unfold sortByNonce_Less; simpl; repeat case_bool_decide; lia].
    rewrite decide_False by lia. rewrite decide_False by lia. exact IH.
  - destruct (decide (s = sender)) as [-> | Hne].
    + rewrite decide_True; [| unfold sortByNonce_Less; simpl; repeat case_bool_decide; lia].
      rewrite decide_False by lia. rewrite IH. done.
    + rewrite decide_True; [| unfold sortByNonce_Less; simpl; repeat case_bool_decide;
                              try done; lia].
      rewrite decide_True by lia.
      assert (filter (fun it => it.1.1 = sender) items = []) as Hnone.
      { apply filter_none. rewrite Forall_forall in Hall |- *. intros j Hj Heq.
        specialize (Hall j Hj). unfold sortByNonce_Less in Hall. simpl in Hall.
        repeat case_bool_decide; try done; lia. }
      rewrite IH, Hnone. done.
Qed.

(** An iterator that leaves at the first item of another sender calls
    [f] on the items of the sender only. *)
Lemma iterate_sender {S : Type} (sender : Z) (f : nat -> S -> option (bool * S))
  (A B : list (Key * nat)) (s : S) :
  Forall (fun it => it.1.1 = sender) A ->
  (forall it, head B = Some it -> it.1.1 <> sender) ->
  iterate (fun (it : Key * nat) s =>
             if bool_decide (it.1.1 <> sender) then Some (false, s) else f it.2 s)
          (A ++ B) s
  = iterate f A.*2 s.
Proof.
  intros HA HB. revert s. induction HA as [| it A Hit _ IH]; intros s.
  - simpl. destruct B as [| it B]; [done |]. simpl.
    rewrite bool_decide_eq_true_2 by (by apply HB). done.
  - simpl. rewrite bool_decide_eq_false_2 by (intros Hne; by apply Hne).
    destruct (f it.2 s) as [[[] s'] |]; simpl; [apply IH | done | done].
Qed.

Lemma head_filter_elem {A : Type} (P : A -> Prop) `{!forall x, Decision (P x)}
  (l : list A) (x : A) :
  head (filter P l) = Some x -> P x.
Proof.
  intros Hhead. apply head_Some_elem_of in Hhead.
  by apply list_elem_of_filter in Hhead as [? _].
Qed.

Lemma rev_filter_head (items : list (Key * nat)) (sender : Z) (it : Key * nat) :
  head (rev (filter (fun it => it.1.1 < sender) items)) = Some it -> it.1.1 < sender.
Proof.
  intros Hhead. apply head_Some_elem_of in Hhead. rewrite elem_of_rev in Hhead.
  by apply list_elem_of_filter in Hhead as [? _].
Qed.

Lemma walk_sender {S : Type} (p : TxPool) (sender : Z)
  (f : nat -> S -> option (bool * S)) (s : S) :
  indexValid p -> indexSorted p ->
  BySenderAndNonce.ascend (all p) (mem p) sender f s = iterate f (senderTxs p sender) s
  /\ BySenderAndNonce.descend (all p) (mem p) sender f s
     = iterate f (rev (senderTxs p sender)) s
  /\ StronglySorted (before (mem p)) (senderTxs p sender).
Proof.
  intros Hvalid Hsorted.
  destruct (index_items p Hvalid Hsorted) as (items & Hres & Hsnd & Hk & Hs & Hn).
  pose proof (senderTxs_items p sender items Hk Hsnd) as Htxs.
  split; [| split].
  - unfold BySenderAndNonce.ascend. rewrite Hres. simpl.
    rewrite ascend_split; [| done | eapply Forall_impl; [exact Hn | simpl; lia]].
    rewrite iterate_sender, Htxs; [done | |].
    + rewrite Forall_forall. intros it Hit. by apply list_elem_of_filter in Hit as [? _].
    + intros it Hit%head_filter_elem. lia.
  - unfold BySenderAndNonce.descend. rewrite Hres. simpl.
    rewrite descend_split; [| done | eapply Forall_impl; [exact Hn | simpl; lia]].
    rewrite iterate_sender, fmap_rev, Htxs; [done | |].
    + rewrite Forall_forall. intros it Hit. rewrite elem_of_rev in Hit.
      by apply list_elem_of_filter in Hit as [? _].
    + intros it Hit%rev_filter_head. lia.
  - unfold senderTxs. apply StronglySorted_filter, Hsorted.
Qed.

(** [ascend] calls [f] on the transactions of the sender in the index
    and on no other, by increasing nonce, until [f] asks to stop;
    [descend] does so by decreasing nonce. *)
Theorem ascend_visits {S : Type} (p : TxPool) (sender : Z)
  (f : nat -> S -> option (bool * S)) (s : S) :
  indexValid p -> indexSorted p ->
  BySenderAndNonce.ascend (all p) (mem p) sender f s = iterate f (senderTxs p sender) s
  /\ BySenderAndNonce.descend (all p) (mem p) sender f s
     = iterate f (rev (senderTxs p sender)) s
  /\ StronglySorted (before (mem p)) (senderTxs p sender).
Proof. apply walk_sender. Qed.

Lemma ascend_visits_witness :
  indexValid twoPending /\ indexSorted twoPending
  /\ BySenderAndNonce.ascend (all twoPending) (mem twoPending) 1
       (fun x l => Some (true, l ++ [x])) []
     = iterate (fun x l => Some (true, l ++ [x])) (senderTxs twoPending 1) []
  /\ senderTxs twoPending 1 = [0%nat; 1%nat].
Proof.
  destruct twoPending_index as [Hv Hs]. split; [exact Hv |]. split; [exact Hs |].
  split; [| vm_compute; reflexivity].
  apply (ascend_visits twoPending 1 (fun x l => Some (true, l ++ [x])) [] Hv Hs).
Defined.

(** * The highest nonce of a sender *)

(** [nonce] returns the highest nonce the sender has in the index, and
    [(0, false)] when the sender has no transaction there. *)
Theorem nonce_highest (p : TxPool) (sender : Z) :
  indexValid p -> indexSorted p ->
  exists r,
    BySenderAndNonce.nonce (all p) (mem p) sender = Some r
    /\ ((senderTxs p sender = [] /\ r = (0, false))
        \/ (exists x a,
              x ∈ senderTxs p sender /\ mem p !! x = Some a /\ r = (nonce (Tx a), true)
              /\ forall y b, y ∈ senderTxs p sender -> mem p !! y = Some b ->
                             nonce (Tx b) <= nonce (Tx a))).
Proof.
  intros Hvalid Hsorted.
  destruct (index_items p Hvalid Hsorted) as (items & Hres & Hsnd & Hk & Hs & Hn).
  pose proof (senderTxs_items p sender items Hk Hsnd) as Htxs.
  unfold BySenderAndNonce.nonce. rewrite Hres. simpl. eexists. split; [reflexivity |].
  rewrite descend_split; [| done | eapply Forall_impl; [exact Hn | simpl; lia]].
  set (A := filter (fun it => it.1.1 = sender) items) in *.
  destruct (rev A) as [| it rest] eqn:Hrev.
  - left. assert (HA : A = []).
    { rewrite <- (rev_involutive A), Hrev. done. }
    rewrite <- Htxs, HA. split; [done |]. simpl.
    destruct (rev (filter _ items)) as [| it rest] eqn:Hlow; [done |].
    assert (Hit : it.1.1 < sender).
    { apply (rev_filter_head items sender). by rewrite Hlow. }
    rewrite bool_decide_eq_false_2 by lia. done.
  - right. assert (HA : A = rev rest ++ [it]).
    { rewrite <- (rev_involutive A), Hrev. done. }
    assert (Hin : it ∈ A) by (rewrite HA, elem_of_app; right; by left).
    pose proof Hin as [Hsender Hitems]%list_elem_of_filter.
    rewrite Forall_forall in Hk. destruct (Hk it Hitems) as (a & Ha & Hkey).
    exists it.2, a. simpl. rewrite bool_decide_eq_true_2 by done.
    split; [rewrite <- Htxs; apply list_elem_of_fmap; by exists it |].
    split; [done |]. split; [by rewrite Hkey |].
    intros y b Hy Hb. rewrite <- Htxs in Hy.
    apply list_elem_of_fmap in Hy as (j & -> & Hj).
    assert (HsA : keysSorted A) by (by apply StronglySorted_filter).
    rewrite HA in Hj, HsA. apply elem_of_app in Hj as [Hj | Hj].
    + assert (Hless : sortByNonce_Less j.1 it.1 = true).
      { apply (StronglySorted_app_1_elem_of _ _ _ _ _ HsA Hj). by left. }
      assert (Hjmem : j ∈ A) by (rewrite HA, elem_of_app; by left).
      apply list_elem_of_filter in Hjmem as [Hjs Hjitems].
      destruct (Hk j Hjitems) as (b' & Hb' & Hkeyj).
      assert (b' = b) as -> by congruence.
      rewrite Hkeyj, Hkey in Hless. rewrite Hkeyj in Hjs. rewrite Hkey in Hsender.
      unfold sortByNonce_Less, keyOf in *. simpl in *.
      repeat case_bool_decide; try done; lia.
    + apply list_elem_of_singleton in Hj as ->. assert (b = a) as -> by congruence. lia.
Qed.

Lemma nonce_highest_witness :
  indexValid twoPending /\ indexSorted twoPending
  /\ exists r, BySenderAndNonce.nonce (all twoPending) (mem twoPending) 1 = Some r
               /\ r.2 = true.
Proof.
  destruct twoPending_index as [Hv Hs]. split; [exact Hv |]. split; [exact Hs |].
  destruct (nonce_highest twoPending 1 Hv Hs) as (r & Hnonce & [[Hnil _] | Hsome]).
  - vm_compute in Hnil. discriminate Hnil.
  - exists r. split; [exact Hnonce |]. destruct Hsome as (x & a & _ & _ & -> & _). reflexivity.
Defined.

(** * Inserting and deleting *)

Lemma Less_trichotomy (i k : Key) :
  (sortByNonce_Less i k = true /\ i <> k /\ sortByNonce_Less k i = false)
  \/ (sortByNonce_Less i k = false /\ i = k /\ sortByNonce_Less k i = false)
  \/ (sortByNonce_Less i k = false /\ i <> k /\ sortByNonce_Less k i = true).
Proof.
  destruct (sortByNonce_Less i k) eqn:Hlt.
  - left. split; [done |]. split; [by apply sortByNonce_Less_ne |].
    by apply sortByNonce_Less_asym.
  - destruct (sortByNonce_Less k i) eqn:Hgt.
    + right. right. split; [done |]. split; [| done].
      intros Heq. symmetry in Heq. by apply sortByNonce_Less_ne in Hgt.
    + right. left. split; [done |]. split; [| done]. by apply sortByNonce_Less_eq.
Qed.

(** The items of a key split the others in the smaller and the
    greater. *)
Lemma filter_three_way (P : Key * nat -> Prop) `{!forall x, Decision (P x)}
  (items : list (Key * nat)) (k : Key) :
  length (filter P items)
  = (length (filter P (filter (fun it => sortByNonce_Less it.1 k = true) items))
     + length (filter P (filter (fun it => it.1 = k) items))
     + length (filter P (filter (fun it => sortByNonce_Less k it.1 = true) items)))%nat.
Proof.
  induction items as [| it items IH]; [done |].
  rewrite !(filter_cons _ it).
  destruct (Less_trichotomy it.1 k) as [(H1 & H2 & H3) | [(H1 & H2 & H3) | (H1 & H2 & H3)]].
  - rewrite (decide_True (P := sortByNonce_Less it.1 k = true)) by done.
    rewrite (decide_False (P := it.1 = k)) by done.
    rewrite (decide_False (P := sortByNonce_Less k it.1 = true)) by congruence.
    rewrite !(filter_cons _ it). destruct (decide (P it)); simpl; lia.
  - rewrite (decide_False (P := sortByNonce_Less it.1 k = true)) by congruence.
    rewrite (decide_True (P := it.1 = k)) by done.
    rewrite (decide_False (P := sortByNonce_Less k it.1 = true)) by congruence.
    rewrite !(filter_cons _ it). destruct (decide (P it)); simpl; lia.
  - rewrite (decide_False (P := sortByNonce_Less it.1 k = true)) by congruence.
    rewrite (decide_False (P := it.1 = k)) by done.
    rewrite (decide_True (P := sortByNonce_Less k it.1 = true)) by done.
    rewrite !(filter_cons _ it). destruct (decide (P it)); simpl; lia.
Qed.

Lemma filter_two_way (P : Key * nat -> Prop) `{!forall x, Decision (P x)}
  (items : list (Key * nat)) (k : Key) :
  length (filter P items)
  = (length (filter P (filter (fun it => it.1 <> k) items))
     + length (filter P (filter (fun it => it.1 = k) items)))%nat.
Proof.
  induction items as [| it items IH]; [done |].
  rewrite !(filter_cons _ it). destruct (decide (it.1 = k)) as [Heq | Hne].
  - rewrite (decide_False (P := it.1 <> k)) by (intros Hn; by apply Hn).
    rewrite !(filter_cons _ it). destruct (decide (P it)); simpl; lia.
  - rewrite (decide_True (P := it.1 <> k)) by done.
    rewrite !(filter_cons _ it). destruct (decide (P it)); simpl; lia.
Qed.

(** A sorted sequence has at most one item of a key, the one [Get]
    returns. *)
Lemma key_items (items : list (Key * nat)) (k : Key) :
  keysSorted items ->
  filter (fun it => it.1 = k) items
  = match btree.Get items k with Some x => [(k, x)] | None => [] end.
Proof.
  intros Hs. rewrite Get_filter.
  assert (HsG : keysSorted (filter (fun it => it.1 = k) items))
    by (by apply StronglySorted_filter).
  assert (HG : Forall (fun it => it.1 = k) (filter (fun it => it.1 = k) items)).
  { rewrite Forall_forall. intros it Hit. by apply list_elem_of_filter in Hit as [? _]. }
  destruct (filter _ items) as [| [k1 x1] [| [k2 x2] rest]]; [done | |].
  - apply Forall_cons in HG as [Hk _]. simpl in *. by rewrite Hk.
  - apply Forall_cons in HG as [Hk1 HG]. apply Forall_cons in HG as [Hk2 _].
    apply StronglySorted_inv in HsG as [_ Hall]. apply Forall_cons in Hall as [Hless _].
    simpl in *. rewrite Hk1, Hk2 in Hless. by apply sortByNonce_Less_ne in Hless.
Qed.

Lemma senderTxs_length (q : TxPool) (items : list (Key * nat)) (sender : Z) :
  Forall (keyed (mem q)) items -> items.*2 = tree (all q) ->
  length (senderTxs q sender) = length (filter (fun it => it.1.1 = sender) items).
Proof.
  intros Hk Hsnd. rewrite <- (senderTxs_items q sender items Hk Hsnd).
  by rewrite length_fmap.
Qed.

Lemma inserted_sorted (items : list (Key * nat)) (k : Key) (x : nat) :
  keysSorted items ->
  keysSorted (filter (fun it => sortByNonce_Less it.1 k = true) items
              ++ (k, x) :: filter (fun it => sortByNonce_Less k it.1 = true) items).
Proof.
  intros Hs. apply StronglySorted_app_2.
  - intros i j Hi Hj. apply list_elem_of_filter in Hi as [Hi _].
    apply elem_of_cons in Hj as [-> | Hj]; [done |].
    apply list_elem_of_filter in Hj as [Hj _].
    by apply (sortByNonce_Less_trans _ k).
  - by apply StronglySorted_filter.
  - constructor; [by apply StronglySorted_filter |].
    rewrite Forall_forall. intros j Hj. by apply list_elem_of_filter in Hj as [? _].
Qed.

Lemma Forall_filter_sub {A : Type} (P Q : A -> Prop) `{!forall x, Decision (Q x)}
  (l : list A) :
  Forall P l -> Forall P (filter Q l).
Proof.
  rewrite !Forall_forall. intros Hall x Hx. apply list_elem_of_filter in Hx as [_ Hx]. auto.
Qed.

Lemma indexSorted_items (q : TxPool) (items : list (Key * nat)) :
  Forall (keyed (mem q)) items -> items.*2 = tree (all q) ->
  keysSorted items -> Forall (fun it => 0 <= it.1.2 <= MaxUint64) items ->
  indexValid q /\ indexSorted q.
Proof.
  intros Hk Hsnd Hs Hn. split.
  - intros x Hx. rewrite <- Hsnd in Hx. apply list_elem_of_fmap in Hx as (it & -> & Hit).
    rewrite Forall_forall in Hk. destruct (Hk it Hit) as (a & Ha & _). by exists a.
  - apply (indexSorted_intro q items); [| done | done].
    rewrite <- Hsnd. by apply resolve_keyed.
Qed.

Lemma replaceOrInsert_spec (p : TxPool) (mt : nat) (a : metaTx) :
  indexValid p -> indexSorted p -> counted p ->
  mem p !! mt = Some a -> 0 <= nonce (Tx a) <= MaxUint64 ->
  exists old b',
    BySenderAndNonce.replaceOrInsert (all p) (mem p) mt = Some (old, b')
    /\ BySenderAndNonce.get (all p) (mem p) (senderID (Tx a)) (nonce (Tx a)) = Some old
    /\ BySenderAndNonce.get b' (mem p) (senderID (Tx a)) (nonce (Tx a)) = Some (Some mt)
    /\ (forall y, y ∈ tree b'
                  <-> y = mt \/ (y ∈ tree (all p) /\ keyOf <$> mem p !! y <> Some (keyOf a)))
    /\ indexValid (set_all b' p) /\ indexSorted (set_all b' p) /\ counted (set_all b' p).
Proof.
  intros Hvalid Hsorted Hcount Ha Hnonce.
  destruct (index_items p Hvalid Hsorted) as (items & Hres & Hsnd & Hk & Hs & Hn).
  set (k := keyOf a).
  set (F1 := filter (fun it => sortByNonce_Less it.1 k = true) items).
  set (F2 := filter (fun it => sortByNonce_Less k it.1 = true) items).
  set (items' := F1 ++ (k, mt) :: F2).
  set (old := btree.Get items k).
  set (b' := mkBySenderAndNonce items'.*2
               (match old with
                | Some _ => senderIDTxnCount (all p)
                | None => <[senderID (Tx a) := BySenderAndNonce.count (all p) (senderID (Tx a)) + 1]>
                            (senderIDTxnCount (all p))
                end)).
  assert (Hk' : Forall (keyed (mem p)) items').
  { apply Forall_app. split; [by apply Forall_filter_sub |].
    constructor; [by exists a | by apply Forall_filter_sub]. }
  assert (Hs' : keysSorted items') by (by apply inserted_sorted).
  assert (Hn' : Forall (fun it => 0 <= it.1.2 <= MaxUint64) items').
  { apply Forall_app. split; [by apply Forall_filter_sub |].
    constructor; [done | by apply Forall_filter_sub]. }
  exists old, b'. split; [| split; [| split; [| split]]].
  - unfold BySenderAndNonce.replaceOrInsert. rewrite Hres. simpl. rewrite Ha. simpl.
    fold k. rewrite (ReplaceOrInsert_sorted items k mt Hs). fold F1 F2 old.
    unfold b', items'. rewrite fmap_app, fmap_cons. by destruct old.
  - unfold BySenderAndNonce.get. rewrite Hres. done.
  - unfold BySenderAndNonce.get.
    change (tree b') with (items'.*2). rewrite (resolve_keyed _ _ Hk'). simpl.
    f_equal. apply (Get_sorted items' _ mt Hs'). unfold items'.
    rewrite elem_of_app. right. by left.
  - intros y. change (tree b') with (items'.*2). unfold items'.
    rewrite fmap_app, fmap_cons, elem_of_app, elem_of_cons. simpl. rewrite <- Hsnd.
    rewrite Forall_forall in Hk. split.
    + intros [Hy | [-> | Hy]]; [| by left |].
      * right. apply list_elem_of_fmap in Hy as (it & -> & Hit).
        apply list_elem_of_filter in Hit as [Hless Hit].
        split; [apply list_elem_of_fmap; by exists it |].
        destruct (Hk it Hit) as (c & Hc & Hkey). rewrite Hc. simpl. rewrite <- Hkey.
        intros [= Heq]. by apply sortByNonce_Less_ne in Hless.
      * right. apply list_elem_of_fmap in Hy as (it & -> & Hit).
        apply list_elem_of_filter in Hit as [Hless Hit].
        split; [apply list_elem_of_fmap; by exists it |].
        destruct (Hk it Hit) as (c & Hc & Hkey). rewrite Hc. simpl. rewrite <- Hkey.
        intros [= Heq]. symmetry in Heq. by apply sortByNonce_Less_ne in Hless.
    + intros [-> | [Hy Hne]]; [right; by left |].
      apply list_elem_of_fmap in Hy as (it & -> & Hit).
      destruct (Hk it Hit) as (c & Hc & Hkey). rewrite Hc in Hne. simpl in Hne.
      rewrite <- Hkey in Hne.
      destruct (Less_trichotomy it.1 k) as [(H1 & _) | [(_ & H2 & _) | (_ & _ & H3)]].
      * left. apply list_elem_of_fmap. exists it. split; [done |].
        by apply list_elem_of_filter.
      * by rewrite H2 in Hne.
      * right. right. apply list_elem_of_fmap. exists it. split; [done |].
        by apply list_elem_of_filter.
  - destruct (indexSorted_items (set_all b' p) items' Hk' eq_refl Hs' Hn') as [Hv' Hso'].
    split; [exact Hv' |]. split; [exact Hso' |].
    intros s.
    rewrite (senderTxs_length (set_all b' p) items' s Hk' eq_refl).
    pose proof (Hcount s) as Hc. rewrite (senderTxs_length p items s Hk Hsnd) in Hc.
    rewrite (filter_three_way _ items k) in Hc. fold F1 F2 in Hc.
    rewrite (key_items items k Hs) in Hc. fold old in Hc.
    unfold items'. rewrite filter_app, filter_cons, length_app.
    change (all (set_all b' p)) with b'. unfold b'.
    destruct old as [o |].
    + change (BySenderAndNonce.count _ s) with (BySenderAndNonce.count (all p) s).
      rewrite Hc. rewrite (filter_cons _ (k, o)), filter_nil.
      destruct (decide ((k, mt).1.1 = s)) as [Hks | Hks]; simpl in Hks.
      * rewrite (decide_True (P := (k, o).1.1 = s)) by done. simpl. lia.
      * rewrite (decide_False (P := (k, o).1.1 = s)) by done. simpl. lia.
    + unfold BySenderAndNonce.count at 1. cbn [senderIDTxnCount].
      rewrite filter_nil in Hc. simpl in Hc.
      destruct (decide ((k, mt).1.1 = s)) as [Hks | Hks]; simpl in Hks.
      * unfold k, keyOf in Hks. simpl in Hks. rewrite Hks, lookup_insert_eq. simpl.
        rewrite Hc. lia.
      * unfold k, keyOf in Hks. simpl in Hks. rewrite lookup_insert_ne by done.
        change (default 0 (senderIDTxnCount (all p) !! s))
          with (BySenderAndNonce.count (all p) s).
        rewrite Hc. lia.
Qed.

(** [replaceOrInsert] returns the transaction [get] finds under the
    sender and nonce of the new one, puts the new one in its place, so
    that [get] finds it, and keeps the index sorted and its counts
    right. *)
Theorem replaceOrInsert_keeps (p : TxPool) (mt : nat) (a : metaTx) :
  indexValid p -> indexSorted p -> counted p ->
  mem p !! mt = Some a -> 0 <= nonce (Tx a) <= MaxUint64 ->
  exists old b',
    BySenderAndNonce.replaceOrInsert (all p) (mem p) mt = Some (old, b')
    /\ BySenderAndNonce.get (all p) (mem p) (senderID (Tx a)) (nonce (Tx a)) = Some old
    /\ BySenderAndNonce.get b' (mem p) (senderID (Tx a)) (nonce (Tx a)) = Some (Some mt)
    /\ (forall y, y ∈ tree b'
                  <-> y = mt \/ (y ∈ tree (all p) /\ keyOf <$> mem p !! y <> Some (keyOf a)))
    /\ indexValid (set_all b' p) /\ indexSorted (set_all b' p) /\ counted (set_all b' p).
Proof. apply replaceOrInsert_spec. Qed.

Lemma delete_spec (p : TxPool) (mt : nat) (a : metaTx) :
  indexValid p -> indexSorted p -> counted p -> mem p !! mt = Some a ->
  exists b',
    BySenderAndNonce.delete (all p) (mem p) mt = Some b'
    /\ BySenderAndNonce.get b' (mem p) (senderID (Tx a)) (nonce (Tx a)) = Some None
    /\ (forall y, y ∈ tree b'
                  <-> y ∈ tree (all p) /\ keyOf <$> mem p !! y <> Some (keyOf a))
    /\ indexValid (set_all b' p) /\ indexSorted (set_all b' p) /\ counted (set_all b' p).
Proof.
  intros Hvalid Hsorted Hcount Ha.
  destruct (index_items p Hvalid Hsorted) as (items & Hres & Hsnd & Hk & Hs & Hn).
  set (k := keyOf a).
  set (items' := filter (fun it => it.1 <> k) items).
  set (old := btree.Get items k).
  set (b' := mkBySenderAndNonce items'.*2
               (match old with
                | Some _ =>
                    if bool_decide (BySenderAndNonce.count (all p) (senderID (Tx a)) > 1)
                    then <[senderID (Tx a) := BySenderAndNonce.count (all p) (senderID (Tx a)) - 1]>
                           (senderIDTxnCount (all p))
                    else base.delete (senderID (Tx a)) (senderIDTxnCount (all p))
                | None => senderIDTxnCount (all p)
                end)).
  assert (Hk' : Forall (keyed (mem p)) items') by (by apply Forall_filter_sub).
  assert (Hs' : keysSorted items') by (by apply StronglySorted_filter).
  assert (Hn' : Forall (fun it => 0 <= it.1.2 <= MaxUint64) items')
    by (by apply Forall_filter_sub).
  exists b'. split; [| split; [| split]].
  - unfold BySenderAndNonce.delete. rewrite Hres. simpl. rewrite Ha. simpl.
    fold k. rewrite (Delete_sorted items k Hs). fold items' old.
    unfold b'. by destruct old.
  - unfold BySenderAndNonce.get.
    change (tree b') with (items'.*2). rewrite (resolve_keyed _ _ Hk'). simpl.
    f_equal. apply Get_None. intros x Hx. unfold items' in Hx.
    apply list_elem_of_filter in Hx as [Hne _]. by apply Hne.
  - intros y. change (tree b') with (items'.*2). unfold items'. rewrite <- Hsnd.
    rewrite Forall_forall in Hk. split.
    + intros Hy. apply list_elem_of_fmap in Hy as (it & -> & Hit).
      apply list_elem_of_filter in Hit as [Hne Hit].
      split; [apply list_elem_of_fmap; by exists it |].
      destruct (Hk it Hit) as (c & Hc & Hkey). rewrite Hc. simpl. rewrite <- Hkey.
      intros [= Heq]. done.
    + intros [Hy Hne]. apply list_elem_of_fmap in Hy as (it & -> & Hit).
      destruct (Hk it Hit) as (c & Hc & Hkey). rewrite Hc in Hne. simpl in Hne.
      rewrite <- Hkey in Hne.
      apply list_elem_of_fmap. exists it. split; [done |].
      apply list_elem_of_filter. split; [| done]. intros Heq. apply Hne. by rewrite Heq.
  - destruct (indexSorted_items (set_all b' p) items' Hk' eq_refl Hs' Hn') as [Hv' Hso'].
    split; [exact Hv' |]. split; [exact Hso' |].
    intros s.
    rewrite (senderTxs_length (set_all b' p) items' s Hk' eq_refl).
    pose proof (Hcount s) as Hc. rewrite (senderTxs_length p items s Hk Hsnd) in Hc.
    rewrite (filter_two_way _ items k) in Hc. fold items' in Hc.
    rewrite (key_items items k Hs) in Hc. fold old in Hc.
    change (all (set_all b' p)) with b'. unfold b'.
    unfold BySenderAndNonce.count at 1. cbn [senderIDTxnCount].
    destruct old as [o |].
    + rewrite (filter_cons _ (k, o)), filter_nil in Hc.
      destruct (decide ((k, o).1.1 = s)) as [Hks | Hks]; simpl in Hks.
      * unfold k, keyOf in Hks. simpl in Hks. rewrite Hks. simpl in Hc.
        case_bool_decide as Hgt.
        -- rewrite lookup_insert_eq. simpl. lia.
        -- rewrite lookup_delete_eq. simpl. lia.
      * unfold k, keyOf in Hks. simpl in Hks. simpl in Hc.
        case_bool_decide as Hgt.
        -- rewrite lookup_insert_ne by done.
           change (default 0 (senderIDTxnCount (all p) !! s))
             with (BySenderAndNonce.count (all p) s). lia.
        -- rewrite lookup_delete_ne by done.
           change (default 0 (senderIDTxnCount (all p) !! s))
             with (BySenderAndNonce.count (all p) s). lia.
    + rewrite filter_nil in Hc. simpl in Hc.
      change (default 0 (senderIDTxnCount (all p) !! s))
        with (BySenderAndNonce.count (all p) s). lia.
Qed.

(** [delete] takes out of the index the transaction that has the
    sender and nonce of the one it is given, whichever object that is,
    so that [get] finds none, and keeps the index sorted and its counts
    right. *)
Theorem delete_keeps (p : TxPool) (mt : nat) (a : metaTx) :
  indexValid p -> indexSorted p -> counted p -> mem p !! mt = Some a ->
  exists b',
    BySenderAndNonce.delete (all p) (mem p) mt = Some b'
    /\ BySenderAndNonce.get b' (mem p) (senderID (Tx a)) (nonce (Tx a)) = Some None
    /\ (forall y, y ∈ tree b'
                  <-> y ∈ tree (all p) /\ keyOf <$> mem p !! y <> Some (keyOf a))
    /\ indexValid (set_all b' p) /\ indexSorted (set_all b' p) /\ counted (set_all b' p).
Proof. apply delete_spec. Qed.

(** * Counting *)

Lemma iterate_first {S : Type} (l : list nat) (s s' : S) :
  iterate (fun _ _ => Some (false, s')) l s = Some (match l with [] => s | _ => s' end).
Proof. by destruct l. Qed.

(** [hasTxs] and [count] agree: the sender has a transaction in the
    index exactly when its count is positive. *)
Theorem hasTxs_counts (p : TxPool) (sender : Z) :
  indexValid p -> indexSorted p -> counted p ->
  BySenderAndNonce.hasTxs (all p) (mem p) sender
  = Some (bool_decide (0 < BySenderAndNonce.count (all p) sender))
  /\ (0 < BySenderAndNonce.count (all p) sender <-> senderTxs p sender <> []).
Proof.
  intros Hvalid Hsorted Hcount. unfold BySenderAndNonce.hasTxs.
  destruct (walk_sender p sender (fun _ (_ : bool) => Some (false, true)) false Hvalid Hsorted)
    as (-> & _ & _).
  rewrite iterate_first, (Hcount sender).
  destruct (senderTxs p sender) as [| x l]; simpl.
  - split; [done |]. split; [lia | done].
  - split; [done |]. split; [done | lia].
Qed.

(** * Checking the counts by computation *)

Lemma countedb_sound (p : TxPool) : countedb p = true -> counted p.
Proof.
  unfold countedb. intros Hb s.
  set (l := (map_to_list (senderIDTxnCount (all p))).*1
            ++ omap (fun x => senderID ∘ Tx <$> mem p !! x) (tree (all p))) in *.
  destruct (decide (s ∈ l)) as [Hin | Hout].
  - pose proof (forallb_elem _ l s Hb Hin) as Hs. simpl in Hs.
    by apply bool_decide_eq_true in Hs.
  - unfold l in Hout. rewrite elem_of_app in Hout.
    assert (Hnone : senderIDTxnCount (all p) !! s = None).
    { destruct (senderIDTxnCount (all p) !! s) as [n |] eqn:Hn; [| done].
      exfalso. apply Hout. left. apply list_elem_of_fmap. exists (s, n).
      split; [done |]. by apply elem_of_map_to_list. }
    unfold BySenderAndNonce.count. rewrite Hnone. simpl. unfold senderTxs.
    rewrite filter_none; [done |]. rewrite Forall_forall. intros x Hx Hsender.
    apply Hout. right. apply list_elem_of_omap. by exists x.
Qed.

Lemma twoPending_counted : counted twoPending.
Proof. apply countedb_sound. vm_compute. reflexivity. Qed.

Lemma replaceOrInsert_keeps_witness :
  indexValid twoPending /\ indexSorted twoPending /\ counted twoPending
  /\ mem twoPending !! 0%nat = Some sampleIndexed
  /\ 0 <= nonce (Tx sampleIndexed) <= MaxUint64
  /\ exists old b',
      BySenderAndNonce.replaceOrInsert (all twoPending) (mem twoPending) 0 = Some (old, b')
      /\ BySenderAndNonce.get b' (mem twoPending) 1 0 = Some (Some 0%nat)
      /\ counted (set_all b' twoPending).
Proof.
  destruct twoPending_index as [Hv Hs]. pose proof twoPending_counted as Hc.
  assert (Ha : mem twoPending !! 0%nat = Some sampleIndexed) by (vm_compute; reflexivity).
  assert (Hn : 0 <= nonce (Tx sampleIndexed) <= MaxUint64)
    by (split; vm_compute; discriminate).
  split; [exact Hv |]. split; [exact Hs |]. split; [exact Hc |].
  split; [exact Ha |]. split; [exact Hn |].
  destruct (replaceOrInsert_keeps twoPending 0 sampleIndexed Hv Hs Hc Ha Hn)
    as (old & b' & Hins & _ & Hget & _ & _ & _ & Hc').
  exists old, b'. split; [exact Hins |]. split; [exact Hget | exact Hc'].
Defined.

Lemma delete_keeps_witness :
  indexValid twoPending /\ indexSorted twoPending /\ counted twoPending
  /\ mem twoPending !! 0%nat = Some sampleIndexed
  /\ exists b',
      BySenderAndNonce.delete (all twoPending) (mem twoPending) 0 = Some b'
      /\ BySenderAndNonce.get b' (mem twoPending) 1 0 = Some None
      /\ counted (set_all b' twoPending).
Proof.
  destruct twoPending_index as [Hv Hs]. pose proof twoPending_counted as Hc.
  assert (Ha : mem twoPending !! 0%nat = Some sampleIndexed) by (vm_compute; reflexivity).
  split; [exact Hv |]. split; [exact Hs |]. split; [exact Hc |]. split; [exact Ha |].
  destruct (delete_keeps twoPending 0 sampleIndexed Hv Hs Hc Ha)
    as (b' & Hdel & Hget & _ & _ & _ & Hc').
  exists b'. split; [exact Hdel |]. split; [exact Hget | exact Hc'].
Defined.

Lemma hasTxs_counts_witness :
  indexValid twoPending /\ indexSorted twoPending /\ counted twoPending
  /\ BySenderAndNonce.hasTxs (all twoPending) (mem twoPending) 1
     = Some (bool_decide (0 < BySenderAndNonce.count (all twoPending) 1)).
Proof.
  destruct twoPending_index as [Hv Hs]. pose proof twoPending_counted as Hc.
  split; [exact Hv |]. split; [exact Hs |]. split; [exact Hc |].
  apply (hasTxs_counts twoPending 1 Hv Hs Hc).
Defined.

(** * Soundness of the checks *)

Lemma forallb_Forall {A : Type} (f : A -> bool) (l : list A) :
  forallb f l = true -> Forall (fun x => f x = true) l.
Proof.
  induction l as [| x l IH]; simpl; [constructor |].
  intros [Hx Hl]%andb_true_iff. constructor; auto.
Qed.

Lemma sortedb_sound (items : list (Key * nat)) : sortedb items = true -> keysSorted items.
Proof.
  induction items as [| it items IH]; simpl; [constructor |].
  intros [Hall Hs]%andb_true_iff. constructor; [by apply IH |].
  by apply forallb_Forall in Hall.
Qed.

Lemma indexSortedb_sound (p : TxPool) : indexSortedb p = true -> indexSorted p.
Proof.
  unfold indexSortedb. destruct (resolve (mem p) (tree (all p))) as [items |] eqn:Hres; [| done].
  intros [Hs Hn]%andb_true_iff. apply (indexSorted_intro p items Hres).
  - by apply sortedb_sound.
  - apply forallb_Forall in Hn. eapply Forall_impl; [exact Hn |].
    intros it Hit. by apply bool_decide_eq_true in Hit.
Qed.

Lemma consistentb_sound (p : TxPool) : consistentb p = true -> consistent p.
Proof.
  unfold consistentb.
  intros [[[[Hok Hs]%andb_true_iff Hpooled]%andb_true_iff Hhashed]%andb_true_iff
            HbyHash]%andb_true_iff.
  apply poolsOKb_sound in Hok. split.
  - exact Hok.
  - by apply indexSortedb_sound.
  - intros c x Hx.
    assert (Hreal : exists c', c' ∈ realPools /\ poolOf c' p = poolOf c p).
    { destruct c; [exists PendingSubPool | exists PendingSubPool | exists BaseFeeSubPool
                   | exists QueuedSubPool]; (split; [| done]); unfold realPools;
        repeat (first [by left | right]). }
    destruct Hreal as (c' & Hc' & Heq).
    pose proof (forallb_elem _ _ c' Hpooled Hc') as Hall. simpl in Hall. rewrite Heq in Hall.
    pose proof (forallb_elem _ _ x Hall Hx) as Hin. simpl in Hin.
    by apply bool_decide_eq_true in Hin.
  - intros x a Hx Ha.
    pose proof (forallb_elem _ _ x Hhashed Hx) as Hh. simpl in Hh. rewrite Ha in Hh.
    by apply bool_decide_eq_true in Hh.
  - intros h x Hx. apply elem_of_map_to_list in Hx.
    pose proof (forallb_elem _ _ (h, x) HbyHash Hx) as Hh. simpl in Hh.
    apply andb_true_iff in Hh as [Hin Hmem]. apply bool_decide_eq_true in Hin.
    split; [exact Hin |]. destruct (mem p !! x) as [a |]; [| done].
    exists a. split; [done |]. by apply bool_decide_eq_true in Hmem.
Qed.

(** * Frames *)

Lemma StronglySorted_impl_elem {A : Type} (R R' : relation A) (l : list A) :
  (forall x y, x ∈ l -> y ∈ l -> R x y -> R' x y) ->
  StronglySorted R l -> StronglySorted R' l.
Proof.
  intros Himpl Hs. induction Hs as [| x l Hs IH Hall]; constructor.
  - apply IH. intros y z Hy Hz. apply Himpl; by right.
  - rewrite Forall_forall in Hall |- *. intros y Hy.
    apply Himpl; [by left | by right | by apply Hall].
Qed.

Lemma sameData_Tx (a b : metaTx) : sameData a b -> Tx b = Tx a.
Proof. by intros [-> _]. Qed.

Lemma filter_ext_in {A : Type} (P Q : A -> Prop) `{!forall x, Decision (P x)}
  `{!forall x, Decision (Q x)} (l : list A) :
  (forall x, x ∈ l -> (P x <-> Q x)) -> filter P l = filter Q l.
Proof.
  induction l as [| x l IH]; intros Hext; [done |].
  rewrite !filter_cons.
  assert (Hl : filter P l = filter Q l).
  { apply IH. intros y Hy. apply Hext. by right. }
  destruct (decide (P x)) as [HP | HP], (decide (Q x)) as [HQ | HQ];
    rewrite ?Hl; try done; exfalso; pose proof (Hext x ltac:(by left)); tauto.
Qed.

Lemma senderTxs_frame (p p' : TxPool) (sender : Z) :
  memFrame p p' -> all p' = all p -> indexValid p ->
  senderTxs p' sender = senderTxs p sender.
Proof.
  intros [_ Hframe] Hall Hvalid. unfold senderTxs. rewrite Hall.
  apply filter_ext_in. intros x Hx. destruct (Hvalid x Hx) as [a Ha].
  destruct (Hframe x a Ha) as (a' & Ha' & Hsame). rewrite Ha, Ha'. simpl.
  by rewrite (sameData_Tx _ _ Hsame).
Qed.

Lemma counted_frame (p p' : TxPool) :
  memFrame p p' -> all p' = all p -> indexValid p -> counted p -> counted p'.
Proof.
  intros Hframe Hall Hvalid Hcount s.
  rewrite (senderTxs_frame p p' s Hframe Hall Hvalid), Hall. apply Hcount.
Qed.

Lemma indexValid_frame (p p' : TxPool) :
  memFrame p p' -> all p' = all p -> indexValid p -> indexValid p'.
Proof.
  intros [_ Hframe] Hall Hvalid x Hx. rewrite Hall in Hx.
  destruct (Hvalid x Hx) as [a Ha]. destruct (Hframe x a Ha) as (a' & Ha' & _). by exists a'.
Qed.

(** * [discardLocked] *)

(** The cache answers with what was added last under a key. *)
Lemma Add_Get {V : Type} (c : LRU V) (k : Z) (v : V) :
  0 < lru_size c -> (simplelru.Get (simplelru.Add c k v) k).1 = Some v.
Proof.
  intros Hsize. unfold simplelru.Get, simplelru.Add.
  destruct (list_find (fun e => e.1 = k) (lru_items c)) as [[i e] |]; simpl.
  - rewrite decide_True by done. done.
  - case_bool_decide as Hfull; simpl.
    + destruct (lru_items c) as [| e l]; simpl in *; [lia |].
      rewrite decide_True by done. done.
    + rewrite decide_True by done. done.
Qed.

Lemma discardLocked_spec (x : nat) (reason : DiscardReason) (p : TxPool) (a : metaTx) :
  indexValid p -> indexSorted p -> counted p -> mem p !! x = Some a ->
  exists b',
    discardLocked x reason p
    = Some (set_discards (discards p ++ [(x, reason)])
           (set_discardReasonsLRU (simplelru.Add (discardReasonsLRU p) (IdHash (Tx a)) reason)
           (set_all b'
           (set_deletedTxs (deletedTxs p ++ [Some x])
           (set_byHash (base.delete (IdHash (Tx a)) (byHash p)) p)))))
    /\ BySenderAndNonce.get b' (mem p) (senderID (Tx a)) (nonce (Tx a)) = Some None
    /\ (forall y, y ∈ tree b'
                  <-> y ∈ tree (all p) /\ keyOf <$> mem p !! y <> Some (keyOf a))
    /\ indexValid (set_all b' p) /\ indexSorted (set_all b' p) /\ counted (set_all b' p).
Proof.
  intros Hvalid Hsorted Hcount Ha.
  destruct (delete_spec p x a Hvalid Hsorted Hcount Ha) as (b' & Hdel & Hrest).
  exists b'. split; [| exact Hrest].
  unfold discardLocked. rewrite Ha. simpl. rewrite Hdel. done.
Qed.

(** [discardLocked] returns on a pooled transaction.  It takes the
    sender and nonce of the transaction out of the index by nonce and
    its hash out of [byHash], appends it to [deletedTxs] and to the
    discards, and records the reason under the hash; it leaves the
    three sub-pools and the objects as they are. *)
Theorem discardLocked_records (x : nat) (reason : DiscardReason) (p : TxPool) (a : metaTx) :
  indexValid p -> indexSorted p -> counted p -> mem p !! x = Some a ->
  0 < lru_size (discardReasonsLRU p) ->
  exists p',
    discardLocked x reason p = Some p'
    /\ byHash p' = base.delete (IdHash (Tx a)) (byHash p)
    /\ BySenderAndNonce.get (all p') (mem p') (senderID (Tx a)) (nonce (Tx a)) = Some None
    /\ (forall y, y ∈ tree (all p')
                  <-> y ∈ tree (all p) /\ keyOf <$> mem p !! y <> Some (keyOf a))
    /\ (simplelru.Get (discardReasonsLRU p') (IdHash (Tx a))).1 = Some reason
    /\ deletedTxs p' = deletedTxs p ++ [Some x]
    /\ discards p' = discards p ++ [(x, reason)]
    /\ mem p' = mem p /\ pending p' = pending p /\ baseFee p' = baseFee p
    /\ queued p' = queued p
    /\ indexValid p' /\ indexSorted p' /\ counted p'.
Proof.
  intros Hvalid Hsorted Hcount Ha Hsize.
  destruct (discardLocked_spec x reason p a Hvalid Hsorted Hcount Ha)
    as (b' & Hdis & Hget & Htree & Hv' & Hs' & Hc').
  eexists. split; [exact Hdis |]. simpl.
  split; [done |]. split; [exact Hget |]. split; [exact Htree |].
  split; [by apply Add_Get |]. split; [done |]. split; [done |].
  split; [done |]. split; [done |]. split; [done |]. split; [done |].
  split; [exact Hv' |]. split; [exact Hs' | exact Hc'].
Qed.

Lemma discardLocked_records_witness :
  indexValid twoPending /\ indexSorted twoPending /\ counted twoPending
  /\ mem twoPending !! 0%nat = Some sampleIndexed
  /\ 0 < lru_size (discardReasonsLRU twoPending)
  /\ exists p',
      discardLocked 0 Mined twoPending = Some p'
      /\ byHash p' = base.delete 1 (byHash twoPending)
      /\ (simplelru.Get (discardReasonsLRU p') 1).1 = Some Mined.
Proof.
  destruct twoPending_index as [Hv Hs]. pose proof twoPending_counted as Hc.
  assert (Ha : mem twoPending !! 0%nat = Some sampleIndexed) by (vm_compute; reflexivity).
  assert (Hsize : 0 < lru_size (discardReasonsLRU twoPending)) by (vm_compute; reflexivity).
  split; [exact Hv |]. split; [exact Hs |]. split; [exact Hc |]. split; [exact Ha |].
  split; [exact Hsize |].
  destruct (discardLocked_records 0 Mined twoPending sampleIndexed Hv Hs Hc Ha Hsize)
    as (p' & Hdis & Hhash & _ & _ & Hlru & _).
  exists p'. split; [exact Hdis |]. split; [exact Hhash | exact Hlru].
Defined.

(** * Taking one transaction out of the pool *)

Lemma index_key_unique (p : TxPool) (x y : nat) :
  indexValid p -> indexSorted p -> x ∈ tree (all p) -> y ∈ tree (all p) ->
  keyOf <$> mem p !! x = keyOf <$> mem p !! y -> x = y.
Proof.
  intros Hvalid Hsorted Hx Hy Hkey.
  destruct (index_items p Hvalid Hsorted) as (items & _ & Hsnd & Hk & Hs & _).
  rewrite <- Hsnd in Hx, Hy.
  apply list_elem_of_fmap in Hx as (i & -> & Hi). apply list_elem_of_fmap in Hy as (j & -> & Hj).
  rewrite Forall_forall in Hk.
  destruct (Hk i Hi) as (a & Ha & Hka). destruct (Hk j Hj) as (b & Hb & Hkb).
  rewrite Ha, Hb in Hkey. simpl in Hkey.
  assert (Heq : i.1 = j.1) by congruence.
  by rewrite (keysSorted_unique items i j Hs Hi Hj Heq).
Qed.

Lemma poolsOK_same (p q : TxPool) :
  mem q = mem p -> (forall c, poolOf c q = poolOf c p) -> indexValid q ->
  poolsOK p -> poolsOK q.
Proof.
  intros Hmem Hpools Hvalid [Hwf Hty Hpl Htr]. split.
  - intros c. rewrite Hmem, Hpools. apply Hwf.
  - intros c Hc. rewrite Hpools. by apply Hty.
  - intros x a c Ha Hc. rewrite Hpools. rewrite Hmem in Ha. by apply Hpl.
  - exact Hvalid.
Qed.

(** Leaving the sub-pool and being discarded keeps the indexes in
    agreement. *)
Lemma discard_cleared (x : nat) (reason : DiscardReason) (p p1 : TxPool) (a : metaTx) :
  consistent p -> counted p -> x ∈ tree (all p) -> mem p !! x = Some a ->
  cleared [x] p p1 ->
  exists p2,
    discardLocked x reason p1 = Some p2
    /\ consistent p2 /\ counted p2 /\ memFrame p p2
    /\ discards p2 = discards p ++ [(x, reason)]
    /\ (forall y, y ∈ tree (all p2) <-> y ∈ tree (all p) /\ y <> x)
    /\ (forall c y, y ∈ members (poolOf c p2) <-> y ∈ members (poolOf c p) /\ y <> x)
    /\ byHash p2 = base.delete (IdHash (Tx a)) (byHash p)
    /\ BySenderAndNonce.get (all p2) (mem p2) (senderID (Tx a)) (nonce (Tx a)) = Some None
    /\ cfg p2 = cfg p /\ isLocalLRU p2 = isLocalLRU p
    /\ (forall y b, y <> x -> mem p !! y = Some b ->
          exists b', mem p2 !! y = Some b' /\ currentSubPool b' = currentSubPool b)
    /\ (forall c, poolOf c p2 = poolOf c p1).
Proof.
  intros [Hok Hsorted Hpooled Hhashed HbyHash] Hcount Hx Ha
    (Hrest & Hframe & Hok1 & Hmem1 & Hcsp1).
  pose proof (indexValid_of_poolsOK p Hok) as Hvalid.
  destruct Hrest as (Hall1 & Hhash1 & Hdis1 & Hdel1 & Hlru1 & Hlocal1 & Hcfg1).
  assert (Hvalid1 : indexValid p1) by (by apply (indexValid_frame p)).
  assert (Hsorted1 : indexSorted p1) by (by apply (indexSorted_frame p)).
  assert (Hcount1 : counted p1) by (by apply (counted_frame p)).
  destruct (proj2 Hframe x a Ha) as (a1 & Ha1 & Hsame).
  pose proof (sameData_Tx _ _ Hsame) as HTx.
  destruct (discardLocked_spec x reason p1 a1 Hvalid1 Hsorted1 Hcount1 Ha1)
    as (b' & Hdis & Hget & Htree & Hv' & Hs' & Hc').
  rewrite HTx in Hdis, Hget. rewrite Hhash1, Hdis1, Hdel1, Hlru1 in Hdis.
  eexists. split; [exact Hdis |].
  set (p2 := set_discards _ _).
  assert (Htree2 : forall y, y ∈ tree (all p2) <-> y ∈ tree (all p) /\ y <> x).
  { intros y. change (tree (all p2)) with (tree b'). rewrite Htree, Hall1. split.
    - intros [Hy Hne]. split; [done |]. intros ->. by rewrite Ha1 in Hne.
    - intros [Hy Hne]. split; [done |]. intros Hkey. apply Hne.
      apply (index_key_unique p1); [done | done | by rewrite Hall1 | by rewrite Hall1 |].
      by rewrite Ha1. }
  assert (Hmembers : forall c y,
            y ∈ members (poolOf c p2) <-> y ∈ members (poolOf c p) /\ y <> x).
  { intros c y. assert (poolOf c p2 = poolOf c p1) as -> by (by destruct c).
    rewrite Hmem1, list_elem_of_singleton. done. }
  assert (Hframe2 : memFrame p p2) by exact Hframe.
  assert (Hok2 : poolsOK p2).
  { apply (poolsOK_same p1); [done | by intros [] | exact Hv' | done]. }
  split; [| split; [| split; [| split; [| split; [| split; [| split; [| split]]]]]]].
  - split.
    + exact Hok2.
    + exact Hs'.
    + intros c y Hy. apply Hmembers in Hy as [Hy Hne]. apply Htree2. split; [| done].
      by apply (Hpooled c).
    + intros y b2 Hy Hb2. apply Htree2 in Hy as [Hy Hne].
      destruct (memFrame_back p p2 y b2 Hframe2 Hb2) as (b & Hb & Hsame').
      rewrite (sameData_Tx _ _ Hsame').
      change (byHash p2) with (base.delete (IdHash (Tx a)) (byHash p)).
      rewrite lookup_delete_ne; [by apply Hhashed |].
      intros Heq. pose proof (Hhashed x a Hx Ha) as H1. pose proof (Hhashed y b Hy Hb) as H2.
      rewrite Heq in H1. congruence.
    + intros h y Hy. change (byHash p2) with (base.delete (IdHash (Tx a)) (byHash p)) in Hy.
      apply lookup_delete_Some in Hy as [Hne Hy].
      destruct (HbyHash h y Hy) as (Hyt & b & Hb & Hbh).
      split.
      * apply Htree2. split; [done |]. intros ->. assert (b = a) as -> by congruence. done.
      * destruct (proj2 Hframe2 y b Hb) as (b2 & Hb2 & Hsame').
        exists b2. split; [done |]. by rewrite (sameData_Tx _ _ Hsame').
  - exact Hc'.
  - exact Hframe2.
  - done.
  - exact Htree2.
  - exact Hmembers.
  - done.
  - exact Hget.
  - split; [done |]. split; [done |]. split; [| by intros []].
    intros y b Hne Hb. apply Hcsp1; [| done]. by rewrite list_elem_of_singleton.
Qed.

Lemma discard_one (x : nat) (reason : DiscardReason) (p : TxPool) (a : metaTx) :
  consistent p -> counted p -> x ∈ tree (all p) -> mem p !! x = Some a ->
  exists p1 p2,
    removeFromSubPool p x = Some p1 /\ discardLocked x reason p1 = Some p2
    /\ consistent p2 /\ counted p2 /\ memFrame p p2
    /\ discards p2 = discards p ++ [(x, reason)]
    /\ (forall y, y ∈ tree (all p2) <-> y ∈ tree (all p) /\ y <> x)
    /\ (forall c y, y ∈ members (poolOf c p2) <-> y ∈ members (poolOf c p) /\ y <> x)
    /\ byHash p2 = base.delete (IdHash (Tx a)) (byHash p)
    /\ BySenderAndNonce.get (all p2) (mem p2) (senderID (Tx a)) (nonce (Tx a)) = Some None
    /\ cfg p2 = cfg p /\ isLocalLRU p2 = isLocalLRU p
    /\ (forall y b, y <> x -> mem p !! y = Some b ->
          exists b', mem p2 !! y = Some b' /\ currentSubPool b' = currentSubPool b).
Proof.
  intros Hcons Hcount Hx Ha.
  destruct (removeFromSubPool_ok p x (c_ok p Hcons) (mk_is_Some _ _ Ha)) as (p1 & Hrem & Hcl).
  destruct (discard_cleared x reason p p1 a Hcons Hcount Hx Ha Hcl)
    as (p2 & Hdis & H1 & H2 & H3 & H4 & H5 & H6 & H7 & H8 & H9 & H10 & H11 & _).
  exists p1, p2. split; [exact Hrem |]. split; [exact Hdis |]. done.
Qed.

(** * [addLocked] *)

Lemma get_None_tree (p : TxPool) (sender txNonce : Z) (y : nat) :
  indexValid p -> indexSorted p ->
  BySenderAndNonce.get (all p) (mem p) sender txNonce = Some None ->
  y ∈ tree (all p) -> keyOf <$> mem p !! y <> Some (sender, txNonce).
Proof.
  intros Hvalid Hsorted Hget Hy Hkey.
  destruct (get_spec p sender txNonce Hvalid Hsorted) as (r & Hr & Hiff).
  assert (r = None) as -> by congruence.
  pose proof (proj2 (Hiff y) (conj Hy Hkey)) as Hbad. discriminate Hbad.
Qed.

(** A transaction whose sender and nonce are not in the index enters
    the index, [byHash] and the queued sub-pool. *)
Lemma addLocked_fresh (mt : nat) (p : TxPool) (a : metaTx) :
  consistent p -> counted p -> mem p !! mt = Some a -> currentSubPool a = NoSubPool ->
  BySenderAndNonce.get (all p) (mem p) (senderID (Tx a)) (nonce (Tx a)) = Some None ->
  byHash p !! IdHash (Tx a) = None -> 0 <= nonce (Tx a) <= MaxUint64 ->
  exists p',
    addLocked mt p = Some (NotSet, p')
    /\ consistent p' /\ counted p' /\ memFrame p p'
    /\ (forall c y, y ∈ members (poolOf c p')
                    <-> (c = QueuedSubPool /\ y = mt) \/ y ∈ members (poolOf c p))
    /\ byHash p' = <[IdHash (Tx a) := mt]> (byHash p)
    /\ (forall y, y ∈ tree (all p') <-> y = mt \/ y ∈ tree (all p))
    /\ BySenderAndNonce.get (all p') (mem p') (senderID (Tx a)) (nonce (Tx a))
       = Some (Some mt)
    /\ discards p' = discards p /\ cfg p' = cfg p
    /\ (forall y b, y <> mt -> mem p !! y = Some b ->
          exists b', mem p' !! y = Some b' /\ currentSubPool b' = currentSubPool b).
Proof.
  intros [Hok Hsorted Hpooled Hhashed HbyHash] Hcount Ha Hcsp Hget Hfresh Hnonce.
  pose proof (indexValid_of_poolsOK p Hok) as Hvalid.
  destruct (replaceOrInsert_spec p mt a Hvalid Hsorted Hcount Ha Hnonce)
    as (old & b' & Hins & Hold & Hget' & Htree & Hv' & Hs' & Hc').
  assert (old = None) as -> by congruence.
  assert (Htree' : forall y, y ∈ tree b' <-> y = mt \/ y ∈ tree (all p)).
  { intros y. rewrite Htree. split; [tauto |]. intros [-> | Hy]; [by left |].
    right. split; [done |]. by apply (get_None_tree p). }
  unfold addLocked. rewrite Ha. simpl. rewrite Hget. simpl. rewrite Hins. simpl.
  set (p3 := if bool_decide (Z.land (subPool a) IsLocal <> 0) then _ else _).
  assert (Hmem3 : mem p3 = mem p) by (unfold p3; by case_bool_decide).
  assert (Hpools3 : forall c, poolOf c p3 = poolOf c p)
    by (intros c; unfold p3; case_bool_decide; by destruct c).
  assert (Hall3 : all p3 = b') by (unfold p3; by case_bool_decide).
  assert (Hhash3 : byHash p3 = <[IdHash (Tx a) := mt]> (byHash p))
    by (unfold p3; by case_bool_decide).
  assert (Hdis3 : discards p3 = discards p) by (unfold p3; by case_bool_decide).
  assert (Hcfg3 : cfg p3 = cfg p) by (unfold p3; by case_bool_decide).
  assert (Hvalid3 : indexValid p3).
  { intros y Hy. rewrite Hall3 in Hy. rewrite Hmem3. by apply Hv'. }
  assert (Hok3 : poolsOK p3) by (by apply (poolsOK_same p)).
  assert (Hsorted3 : indexSorted p3).
  { destruct Hs' as [Hs1 Hs2]. split.
    - rewrite Hmem3, Hall3. exact Hs1.
    - intros y b Hy Hb. rewrite Hall3 in Hy. rewrite Hmem3 in Hb. by apply (Hs2 y). }
  assert (Hcount3 : counted p3).
  { intros s. specialize (Hc' s). unfold senderTxs in *. rewrite Hmem3, Hall3. exact Hc'. }
  assert (Ha3 : mem p3 !! mt = Some a) by (by rewrite Hmem3).
  destruct (inQueued_Add p3 mt a Hok3 Ha3 Hcsp) as (p' & Hadd & Hatt).
  rewrite Hadd. simpl. exists p'. split; [done |].
  destruct Hatt as [Hrest Hframe Hothers _ _ Helem Hok' Hcspf].
  destruct Hrest as (Hall' & Hhash' & Hdis' & _ & _ & _ & Hcfg').
  assert (Hframe' : memFrame p p').
  { destruct Hframe as [Hlen Hfr]. split; [by rewrite Hlen, Hmem3 |].
    intros y b Hb. apply Hfr. by rewrite Hmem3. }
  assert (Hmembers : forall c y, y ∈ members (poolOf c p')
                                 <-> (c = QueuedSubPool /\ y = mt) \/ y ∈ members (poolOf c p)).
  { intros c y. destruct (decide (c = QueuedSubPool)) as [-> | Hc].
    - rewrite Helem, Hpools3. tauto.
    - assert (poolOf c p' = poolOf c p3) as ->.
      { destruct c; try done; try (by apply Hothers).
        rewrite !poolOf_NoSubPool. by apply Hothers. }
      rewrite Hpools3. tauto. }
  assert (Htree2 : forall y, y ∈ tree (all p') <-> y = mt \/ y ∈ tree (all p)).
  { intros y. rewrite Hall', Hall3. apply Htree'. }
  assert (Hsorted' : indexSorted p') by (by apply (indexSorted_frame p3)).
  assert (Hvalid' : indexValid p') by (by apply (indexValid_frame p3)).
  destruct (proj2 Hframe' mt a Ha) as (a' & Ha' & Hsame).
  pose proof (sameData_Tx _ _ Hsame) as HTx.
  split; [| split; [| split; [| split; [| split; [| split; [| split; [| split; [| split]]]]]]]].
  - split.
    + exact Hok'.
    + exact Hsorted'.
    + intros c y Hy. apply Hmembers in Hy as [[_ ->] | Hy]; apply Htree2; [by left |].
      right. by apply (Hpooled c).
    + intros y c' Hy Hc2. rewrite Hhash', Hhash3. apply Htree2 in Hy as [-> | Hy].
      * assert (c' = a') as -> by congruence. rewrite HTx. by rewrite lookup_insert_eq.
      * destruct (memFrame_back p p' y c' Hframe' Hc2) as (b & Hb & Hsame').
        rewrite (sameData_Tx _ _ Hsame').
        pose proof (Hhashed y b Hy Hb) as Hyh.
        rewrite lookup_insert_ne; [done |]. intros Heq. rewrite <- Heq in Hyh. congruence.
    + intros h y Hy. rewrite Hhash', Hhash3 in Hy.
      destruct (decide (h = IdHash (Tx a))) as [-> | Hne].
      * rewrite lookup_insert_eq in Hy. injection Hy as <-.
        split; [apply Htree2; by left |]. exists a'. split; [done |]. by rewrite HTx.
      * rewrite lookup_insert_ne in Hy by done.
        destruct (HbyHash h y Hy) as (Hyt & b & Hb & Hbh).
        split; [apply Htree2; by right |].
        destruct (proj2 Hframe' y b Hb) as (b2 & Hb2 & Hsame').
        exists b2. split; [done |]. by rewrite (sameData_Tx _ _ Hsame').
  - by apply (counted_frame p3).
  - exact Hframe'.
  - exact Hmembers.
  - by rewrite Hhash', Hhash3.
  - exact Htree2.
  - destruct (get_spec p' (senderID (Tx a)) (nonce (Tx a)) Hvalid' Hsorted')
      as (r & Hr & Hiff).
    rewrite Hr. f_equal. apply Hiff. split; [apply Htree2; by left |].
    rewrite Ha'. simpl. unfold keyOf. by rewrite HTx.
  - by rewrite Hdis', Hdis3.
  - by rewrite Hcfg', Hcfg3.
  - intros y b Hne Hb. apply Hcspf; [done |]. by rewrite Hmem3.
Qed.

(** After the pooled transaction of the same sender and nonce is
    taken out, [addLocked] goes on as on a pool that never had it. *)
Lemma addLocked_after_discard (mt found : nat) (p p1 p2 : TxPool) (a a2 f : metaTx) :
  mem p !! mt = Some a ->
  BySenderAndNonce.get (all p) (mem p) (senderID (Tx a)) (nonce (Tx a)) = Some (Some found) ->
  mem p !! found = Some f ->
  ~ (tip (Tx a) < priceThreshold (tip (Tx f)) (PriceBump (cfg p))
     \/ feeCap (Tx a) < priceThreshold (feeCap (Tx f)) (PriceBump (cfg p))) ->
  removeFromSubPool p found = Some p1 ->
  discardLocked found ReplacedByHigherTip p1 = Some p2 ->
  mem p2 !! mt = Some a2 -> Tx a2 = Tx a -> subPool a2 = subPool a ->
  BySenderAndNonce.get (all p2) (mem p2) (senderID (Tx a)) (nonce (Tx a)) = Some None ->
  addLocked mt p = addLocked mt p2.
Proof.
  intros Ha Hget Hf Hhigh Hrem Hdis Ha2 HTx Hsub Hget2.
  unfold addLocked. rewrite Ha, Ha2. simpl. rewrite HTx, Hsub, Hget, Hget2. simpl.
  rewrite Hf. simpl.
  assert (bool_decide (tip (Tx a) < priceThreshold (tip (Tx f)) (PriceBump (cfg p)))
          || bool_decide (feeCap (Tx a) < priceThreshold (feeCap (Tx f)) (PriceBump (cfg p)))
          = false) as ->.
  { apply orb_false_iff. split; apply bool_decide_eq_false_2; tauto. }
  rewrite Hrem. simpl. rewrite Hdis. done.
Qed.

Lemma addLocked_cases (mt : nat) (p : TxPool) (a : metaTx) :
  consistent p -> counted p ->
  mem p !! mt = Some a -> currentSubPool a = NoSubPool -> mt ∉ tree (all p) ->
  byHash p !! IdHash (Tx a) = None -> 0 <= nonce (Tx a) <= MaxUint64 ->
  exists r p',
    addLocked mt p = Some (r, p') /\ consistent p' /\ counted p'
    /\ let inserted :=
         r = NotSet /\ mt ∈ members (queued p')
         /\ byHash p' !! IdHash (Tx a) = Some mt
         /\ BySenderAndNonce.get (all p') (mem p') (senderID (Tx a)) (nonce (Tx a))
            = Some (Some mt) in
       (BySenderAndNonce.get (all p) (mem p) (senderID (Tx a)) (nonce (Tx a)) = Some None
        /\ inserted /\ discards p' = discards p)
       \/ (exists found f,
             BySenderAndNonce.get (all p) (mem p) (senderID (Tx a)) (nonce (Tx a))
             = Some (Some found)
             /\ mem p !! found = Some f
             /\ let low := tip (Tx a) < priceThreshold (tip (Tx f)) (PriceBump (cfg p))
                           \/ feeCap (Tx a)
                              < priceThreshold (feeCap (Tx f)) (PriceBump (cfg p)) in
                (low /\ r = NotReplaced /\ p' = p)
                \/ (~ low /\ inserted
                    /\ discards p' = discards p ++ [(found, ReplacedByHigherTip)]
                    /\ (found ∉ tree (all p'))
                    /\ forall c, found ∉ members (poolOf c p'))).
Proof.
  intros Hcons Hcount Ha Hcsp Hnew Hfresh Hnonce.
  pose proof (indexValid_of_poolsOK p (c_ok p Hcons)) as Hvalid.
  destruct (get_spec p (senderID (Tx a)) (nonce (Tx a)) Hvalid (c_sorted p Hcons))
    as (r0 & Hget & Hiff).
  destruct r0 as [found |].
  - destruct (proj1 (Hiff found) eq_refl) as [Hfound Hkey].
    destruct (mem p !! found) as [f |] eqn:Hf; [| done].
    simpl in Hkey. injection Hkey as Hs Hn.
    assert (Hne : found <> mt) by (intros ->; done).
    destruct (decide (tip (Tx a) < priceThreshold (tip (Tx f)) (PriceBump (cfg p))
                      \/ feeCap (Tx a) < priceThreshold (feeCap (Tx f)) (PriceBump (cfg p))))
      as [Hlow | Hhigh].
    + exists NotReplaced, p.
      split; [by apply (addLocked_NotReplaced mt found a f) |].
      split; [done |]. split; [done |].
      right. exists found, f. split; [done |]. split; [done |]. left. done.
    + destruct (discard_one found ReplacedByHigherTip p f Hcons Hcount Hfound Hf)
        as (p1 & p2 & Hrem & Hdis & Hcons2 & Hcount2 & Hframe2 & Hdiscards2 & Htree2
            & Hmembers2 & Hhash2 & Hget2 & Hcfg2 & _ & Hcsp2).
      destruct (proj2 Hframe2 mt a Ha) as (a2 & Ha2 & Hsame).
      pose proof (sameData_Tx _ _ Hsame) as HTx.
      assert (Hsub : subPool a2 = subPool a) by (symmetry; apply Hsame).
      destruct (Hcsp2 mt a ltac:(done) Ha) as (a2' & Ha2' & Hcsp').
      assert (a2' = a2) as -> by congruence.
      rewrite Hs, Hn in Hget2.
      rewrite (addLocked_after_discard mt found p p1 p2 a a2 f Ha Hget Hf Hhigh Hrem Hdis
                 Ha2 HTx Hsub Hget2).
      rewrite <- HTx in Hget2.
      destruct (addLocked_fresh mt p2 a2 Hcons2 Hcount2 Ha2 ltac:(congruence) Hget2)
        as (p' & Hadd & Hcons' & Hcount' & _ & Hmembers' & Hhash' & Htree' & Hget' & Hdis'
            & _).
      { rewrite Hhash2, HTx. apply lookup_delete_None. by right. }
      { by rewrite HTx. }
      rewrite HTx in Hhash', Hget'.
      exists NotSet, p'. split; [exact Hadd |]. split; [done |]. split; [done |].
      right. exists found, f. split; [done |]. split; [done |]. right.
      split; [done |]. split; [| split; [| split]].
      * split; [done |]. split; [apply (Hmembers' QueuedSubPool); by left |].
        split; [by rewrite Hhash', lookup_insert_eq | done].
      * by rewrite Hdis', Hdiscards2.
      * intros [Heq | Hin]%Htree'; [done |]. apply Htree2 in Hin as [_ Hin]. done.
      * intros c [[_ Heq] | Hin]%Hmembers'; [done |].
        apply Hmembers2 in Hin as [_ Hin]. done.
  - destruct (addLocked_fresh mt p a Hcons Hcount Ha Hcsp Hget Hfresh Hnonce)
      as (p' & Hadd & Hcons' & Hcount' & _ & Hmembers' & Hhash' & Htree' & Hget' & Hdis' & _).
    exists NotSet, p'. split; [exact Hadd |]. split; [done |]. split; [done |].
    left. split; [done |]. split; [| done].
    split; [done |]. split; [apply (Hmembers' QueuedSubPool); by left |].
    split; [by rewrite Hhash', lookup_insert_eq | done].
Qed.

(** [addLocked] on a new transaction of a pool whose indexes agree
    returns, and the indexes still agree.  When no transaction of that
    sender and nonce is pooled, the new one enters the index by nonce,
    [byHash] and the queued sub-pool.  When one is pooled and the tip or
    the fee cap of the new one is below its threshold, the answer is
    [NotReplaced] and the pool is as it was; otherwise the pooled one
    leaves its sub-pool and both indexes, discarded as
    [ReplacedByHigherTip], and the new one enters. *)
Theorem addLocked_keeps (mt : nat) (p : TxPool) (a : metaTx) :
  consistent p -> counted p ->
  mem p !! mt = Some a -> currentSubPool a = NoSubPool -> mt ∉ tree (all p) ->
  byHash p !! IdHash (Tx a) = None -> 0 <= nonce (Tx a) <= MaxUint64 ->
  exists r p',
    addLocked mt p = Some (r, p') /\ consistent p' /\ counted p'
    /\ let inserted :=
         r = NotSet /\ mt ∈ members (queued p')
         /\ byHash p' !! IdHash (Tx a) = Some mt
         /\ BySenderAndNonce.get (all p') (mem p') (senderID (Tx a)) (nonce (Tx a))
            = Some (Some mt) in
       (BySenderAndNonce.get (all p) (mem p) (senderID (Tx a)) (nonce (Tx a)) = Some None
        /\ inserted /\ discards p' = discards p)
       \/ (exists found f,
             BySenderAndNonce.get (all p) (mem p) (senderID (Tx a)) (nonce (Tx a))
             = Some (Some found)
             /\ mem p !! found = Some f
             /\ let low := tip (Tx a) < priceThreshold (tip (Tx f)) (PriceBump (cfg p))
                           \/ feeCap (Tx a)
                              < priceThreshold (feeCap (Tx f)) (PriceBump (cfg p)) in
                (low /\ r = NotReplaced /\ p' = p)
                \/ (~ low /\ inserted
                    /\ discards p' = discards p ++ [(found, ReplacedByHigherTip)]
                    /\ (found ∉ tree (all p'))
                    /\ forall c, found ∉ members (poolOf c p'))).
Proof. apply addLocked_cases. Qed.

(** A new object that is in no sub-pool keeps the indexes in
    agreement. *)
Lemma consistent_alloc (p : TxPool) (a : metaTx) :
  consistent p -> counted p -> currentSubPool a = NoSubPool ->
  consistent (set_mem (mem p ++ [a]) p) /\ counted (set_mem (mem p ++ [a]) p).
Proof.
  intros [Hok Hsorted Hpooled Hhashed HbyHash] Hcount Hcsp.
  set (q := set_mem (mem p ++ [a]) p).
  assert (Hmemq : mem q = mem p ++ [a]) by done.
  assert (Hallq : all q = all p) by done.
  assert (Hpoolsq : forall c, poolOf c q = poolOf c p) by (by intros []).
  assert (Hhashq : byHash q = byHash p) by done.
  assert (Hlook : forall x b, mem p !! x = Some b -> mem q !! x = Some b).
  { intros x b Hb. rewrite Hmemq. by apply lookup_app_l_Some. }
  assert (Hback : forall x b, x ∈ tree (all p) -> mem q !! x = Some b -> mem p !! x = Some b).
  { intros x b Hx Hb. destruct (ok_tree _ Hok x Hx) as [b0 Hb0].
    rewrite (Hlook x b0 Hb0) in Hb. congruence. }
  assert (Hvalid : indexValid q).
  { intros x Hx. rewrite Hallq in Hx. destruct (ok_tree _ Hok x Hx) as [b Hb].
    exists b. by apply Hlook. }
  split.
  - split.
    + destruct Hok as [Hwf Hty Hpl Htr]. split.
      * intros c. rewrite Hpoolsq. apply (poolwf_outside (mem p)); [apply Hwf |].
        intros y b _ Hb. by apply Hlook.
      * intros c Hc. rewrite Hpoolsq. by apply Hty.
      * intros x b c Hb Hc. rewrite Hpoolsq.
        destruct (mem p !! x) as [b0 |] eqn:Hb0.
        -- rewrite (Hlook x b0 Hb0) in Hb. injection Hb as <-. by apply Hpl.
        -- apply lookup_ge_None in Hb0.
           assert (Hx : x = length (mem p)).
           { apply lookup_lt_Some in Hb. rewrite Hmemq, length_app in Hb. simpl in Hb. lia. }
           rewrite Hmemq, Hx, lookup_app_r in Hb by lia. rewrite Nat.sub_diag in Hb.
           injection Hb as <-. split.
           ++ intros Hin.
              destruct (qwf_valid BestQueue (mem p) _ x (proj1 (Hwf c)) Hin) as [b1 Hb1].
              apply lookup_lt_Some in Hb1. lia.
           ++ intros Heq. congruence.
      * exact Hvalid.
    + destruct Hsorted as [Hs Hn]. split.
      * rewrite Hallq. eapply StronglySorted_impl_elem; [| exact Hs].
        intros x y Hx Hy (b & c & Hb & Hc & Hless). exists b, c.
        split; [by apply Hlook |]. split; [by apply Hlook | done].
      * intros x b Hx Hb. rewrite Hallq in Hx. apply (Hn x b Hx). by apply Hback.
    + intros c x. rewrite Hpoolsq, Hallq. apply Hpooled.
    + intros x b Hx Hb. rewrite Hallq in Hx. rewrite Hhashq.
      apply (Hhashed x b Hx). by apply Hback.
    + intros h x Hx. rewrite Hhashq in Hx. destruct (HbyHash h x Hx) as (Hxt & b & Hb & Hbh).
      rewrite Hallq. split; [done |]. exists b. split; [by apply Hlook | done].
  - intros s. specialize (Hcount s). unfold senderTxs in *. rewrite Hallq.
    rewrite (filter_ext_in _ (fun x => senderID ∘ Tx <$> mem p !! x = Some s));
      [exact Hcount |].
    intros x Hx. destruct (ok_tree _ Hok x Hx) as [b Hb]. by rewrite Hb, (Hlook x b Hb).
Qed.

Lemma twoPendingWith_consistent (tx : TxSlot) :
  consistent (twoPendingWith tx) /\ counted (twoPendingWith tx).
Proof.
  unfold twoPendingWith.
  apply (consistent_alloc twoPending (newMetaTx tx false 0) twoPending_consistent
           twoPending_counted).
  reflexivity.
Qed.

Lemma addLocked_keeps_witness :
  consistent (twoPendingWith txE) /\ counted (twoPendingWith txE)
  /\ mem (twoPendingWith txE) !! 2%nat = Some (newMetaTx txE false 0)
  /\ currentSubPool (newMetaTx txE false 0) = NoSubPool
  /\ (2%nat ∉ tree (all (twoPendingWith txE)))
  /\ byHash (twoPendingWith txE) !! IdHash (Tx (newMetaTx txE false 0)) = None
  /\ 0 <= nonce (Tx (newMetaTx txE false 0)) <= MaxUint64
  /\ exists r p',
      addLocked 2 (twoPendingWith txE) = Some (r, p') /\ consistent p' /\ counted p'.
Proof.
  destruct (twoPendingWith_consistent txE) as [Hc Hn].
  assert (Ha : mem (twoPendingWith txE) !! 2%nat = Some (newMetaTx txE false 0))
    by (vm_compute; reflexivity).
  assert (Hcsp : currentSubPool (newMetaTx txE false 0) = NoSubPool) by reflexivity.
  assert (Htree : tree (all (twoPendingWith txE)) = [0%nat; 1%nat])
    by (vm_compute; reflexivity).
  assert (Hnew : 2%nat ∉ tree (all (twoPendingWith txE))).
  { rewrite Htree. intros Hin. apply elem_of_cons in Hin as [Hin | Hin]; [done |].
    apply list_elem_of_singleton in Hin. done. }
  assert (Hfresh : byHash (twoPendingWith txE) !! IdHash (Tx (newMetaTx txE false 0)) = None)
    by (vm_compute; reflexivity).
  assert (Hnonce : 0 <= nonce (Tx (newMetaTx txE false 0)) <= MaxUint64)
    by (split; vm_compute; discriminate).
  split; [exact Hc |]. split; [exact Hn |]. split; [exact Ha |]. split; [exact Hcsp |].
  split; [exact Hnew |]. split; [exact Hfresh |]. split; [exact Hnonce |].
  destruct (addLocked_keeps 2 (twoPendingWith txE) (newMetaTx txE false 0)
              Hc Hn Ha Hcsp Hnew Hfresh Hnonce) as (r & p' & Hadd & Hc' & Hn' & _).
  exists r, p'. split; [exact Hadd |]. split; [exact Hc' | exact Hn'].
Defined.

(** * The price bump *)

(** While the products stay inside [uint64], a transaction replaces the
    pooled one of its sender and nonce exactly when its tip and its fee
    cap reach those of the pooled one raised by [PriceBump] percent:
    below either bound [addLocked] answers [NotReplaced] and changes
    nothing, otherwise the pooled transaction is discarded as
    [ReplacedByHigherTip] and the new one is queued. *)
Theorem addLocked_bump_rule (mt found : nat) (a f : metaTx) (p : TxPool) :
  poolsOK p ->
  mem p !! mt = Some a -> currentSubPool a = NoSubPool ->
  BySenderAndNonce.get (all p) (mem p) (senderID (Tx a)) (nonce (Tx a)) = Some (Some found) ->
  mem p !! found = Some f -> found <> mt ->
  0 <= tip (Tx f) -> 0 <= feeCap (Tx f) ->
  0 <= PriceBump (cfg p) -> 100 + PriceBump (cfg p) <= MaxUint64 ->
  tip (Tx f) * (100 + PriceBump (cfg p)) <= MaxUint64 ->
  feeCap (Tx f) * (100 + PriceBump (cfg p)) <= MaxUint64 ->
  let low := tip (Tx a) < tip (Tx f) * (100 + PriceBump (cfg p)) / 100
             \/ feeCap (Tx a) < feeCap (Tx f) * (100 + PriceBump (cfg p)) / 100 in
  (low -> addLocked mt p = Some (NotReplaced, p))
  /\ (~ low ->
      exists p',
        addLocked mt p = Some (NotSet, p')
        /\ discards p' = discards p ++ [(found, ReplacedByHigherTip)]
        /\ (forall c, found ∉ members (poolOf c p'))
        /\ mt ∈ members (queued p')
        /\ poolsOK p').
Proof.
  intros Hok Ha Hcsp Hget Hf Hne Htip Hfee Hbump Hfit Htipfit Hfeefit low.
  pose proof (priceThreshold_exact (tip (Tx f)) (PriceBump (cfg p)) Htip Hbump Htipfit Hfit)
    as Ht.
  pose proof (priceThreshold_exact (feeCap (Tx f)) (PriceBump (cfg p)) Hfee Hbump Hfeefit Hfit)
    as Hc.
  split.
  - intros Hlow. apply (addLocked_NotReplaced mt found a f p Ha Hget Hf).
    rewrite Ht, Hc. exact Hlow.
  - intros Hhigh. apply (addLocked_replaces mt found a f p Hok Ha Hcsp Hget Hf Hne).
    + rewrite Ht. unfold low in Hhigh. lia.
    + rewrite Hc. unfold low in Hhigh. lia.
Qed.

Lemma addLocked_bump_rule_witness :
  poolsOK (twoPendingWith txC)
  /\ mem (twoPendingWith txC) !! 2%nat = Some (newMetaTx txC false 0)
  /\ mem (twoPendingWith txC) !! 0%nat = Some sampleIndexed
  /\ feeCap txC < feeCap txA * (100 + PriceBump (cfg (twoPendingWith txC))) / 100
  /\ addLocked 2 (twoPendingWith txC) = Some (NotReplaced, twoPendingWith txC).
Proof.
  destruct (twoPendingWith_consistent txC) as [Hc _].
  assert (Ha : mem (twoPendingWith txC) !! 2%nat = Some (newMetaTx txC false 0))
    by (vm_compute; reflexivity).
  assert (Hf : mem (twoPendingWith txC) !! 0%nat = Some sampleIndexed)
    by (vm_compute; reflexivity).
  assert (Hlow : feeCap txC < feeCap txA * (100 + PriceBump (cfg (twoPendingWith txC))) / 100)
    by (vm_compute; reflexivity).
  split; [exact (c_ok _ Hc) |]. split; [exact Ha |]. split; [exact Hf |].
  split; [exact Hlow |].
  apply (addLocked_bump_rule 2 0 (newMetaTx txC false 0) sampleIndexed (twoPendingWith txC)
           (c_ok _ Hc) Ha eq_refl).
  - vm_compute. reflexivity.
  - exact Hf.
  - discriminate.
  - vm_compute. discriminate.
  - vm_compute. discriminate.
  - vm_compute. discriminate.
  - vm_compute. discriminate.
  - vm_compute. discriminate.
  - vm_compute. discriminate.
  - right. exact Hlow.
Defined.

(** * The limits of the sub-pools *)

(** Takes a successful chain of binds apart. *)
Ltac unbind H :=
  repeat first
    [ apply stdpp.option.bind_Some in H as (? & ? & H)
    | match type of H with
      | context [match ?x with (_, _) => _ end] => destruct x; simpl in H
      end ].

Lemma sameLimits_refl (p : TxPool) : sameLimits p p.
Proof. by intros c. Qed.

Lemma sameLimits_trans (p1 p2 p3 : TxPool) :
  sameLimits p1 p2 -> sameLimits p2 p3 -> sameLimits p1 p3.
Proof. intros H12 H23 c. by rewrite H23, H12. Qed.

Lemma noteAdded_limit (s s' : list metaTx * SubPool) (i : nat) :
  noteAdded s i = Some s' -> limit s'.2 = limit s.2.
Proof.
  unfold noteAdded. destruct s as [m sp]. intros H. unbind H.
  injection H as <-. simpl. by destruct (adding sp).
Qed.

Lemma PendingPool_Remove_limit (s s' : list metaTx * SubPool) (i : nat) :
  PendingPool.Remove s i = Some s' -> limit s'.2 = limit s.2.
Proof. unfold PendingPool.Remove. intros H. unbind H. by injection H as <-. Qed.

Lemma PendingPool_Updated_limit (s s' : list metaTx * SubPool) (i : nat) :
  PendingPool.Updated s i = Some s' -> limit s'.2 = limit s.2.
Proof. unfold PendingPool.Updated. intros H. unbind H. by injection H as <-. Qed.

Lemma PendingPool_Add_limit (s s' : list metaTx * SubPool) (i : nat) :
  PendingPool.Add s i = Some s' -> limit s'.2 = limit s.2.
Proof.
  unfold PendingPool.Add. intros H.
  apply stdpp.option.bind_Some in H as ([m sp] & Hnote & H). simpl in H.
  apply noteAdded_limit in Hnote. unbind H. injection H as <-. done.
Qed.


Lemma SubPool_Remove_limit (s s' : list metaTx * SubPool) (i : nat) :
  SubPool.Remove s i = Some s' -> limit s'.2 = limit s.2.
Proof. unfold SubPool.Remove. intros H. unbind H. by injection H as <-. Qed.

Lemma SubPool_Updated_limit (s s' : list metaTx * SubPool) (i : nat) :
  SubPool.Updated s i = Some s' -> limit s'.2 = limit s.2.
Proof. unfold SubPool.Updated. intros H. unbind H. by injection H as <-. Qed.


Lemma inPending_limits (f : list metaTx * SubPool -> option (list metaTx * SubPool))
  (p p' : TxPool) :
  (forall s s', f s = Some s' -> limit s'.2 = limit s.2) ->
  inPending f p = Some p' -> sameLimits p p'.
Proof.
  intros Hf H. unfold inPending in H.
  apply stdpp.option.bind_Some in H as ([m sp] & Hrun & H). injection H as <-.
  apply Hf in Hrun. simpl in Hrun. intros []; simpl; done.
Qed.

Lemma inBaseFee_limits (f : list metaTx * SubPool -> option (list metaTx * SubPool))
  (p p' : TxPool) :
  (forall s s', f s = Some s' -> limit s'.2 = limit s.2) ->
  inBaseFee f p = Some p' -> sameLimits p p'.
Proof.
  intros Hf H. unfold inBaseFee in H.
  apply stdpp.option.bind_Some in H as ([m sp] & Hrun & H). injection H as <-.
  apply Hf in Hrun. simpl in Hrun. intros []; simpl; done.
Qed.

Lemma inQueued_limits (f : list metaTx * SubPool -> option (list metaTx * SubPool))
  (p p' : TxPool) :
  (forall s s', f s = Some s' -> limit s'.2 = limit s.2) ->
  inQueued f p = Some p' -> sameLimits p p'.
Proof.
  intros Hf H. unfold inQueued in H.
  apply stdpp.option.bind_Some in H as ([m sp] & Hrun & H). injection H as <-.
  apply Hf in Hrun. simpl in Hrun. intros []; simpl; done.
Qed.

Lemma removeFromSubPool_limits (p p' : TxPool) (x : nat) :
  removeFromSubPool p x = Some p' -> sameLimits p p'.
Proof.
  unfold removeFromSubPool. intros H.
  apply stdpp.option.bind_Some in H as (a & _ & H).
  destruct (currentSubPool a).
  - injection H as <-. apply sameLimits_refl.
  - apply (inPending_limits _ p p' (fun s s' => PendingPool_Remove_limit s s' x) H).
  - apply (inBaseFee_limits _ p p' (fun s s' => SubPool_Remove_limit s s' x) H).
  - apply (inQueued_limits _ p p' (fun s s' => SubPool_Remove_limit s s' x) H).
Qed.

Lemma discardLocked_pools (p p' : TxPool) (x : nat) (reason : DiscardReason) :
  discardLocked x reason p = Some p' -> forall c, poolOf c p' = poolOf c p.
Proof.
  unfold discardLocked. intros H c. unbind H. injection H as <-. by destruct c.
Qed.

Lemma discardLocked_limits (p p' : TxPool) (x : nat) (reason : DiscardReason) :
  discardLocked x reason p = Some p' -> sameLimits p p'.
Proof. intros H c. by rewrite (discardLocked_pools p p' x reason H). Qed.

Lemma discard_all_limits (reason : DiscardReason) (V : list nat) :
  forall p p',
    foldl (fun acc mt => p ← acc; discardLocked mt reason p) (Some p) V = Some p' ->
    sameLimits p p'.
Proof.
  induction V as [| x V IH]; intros p p' Hfold.
  - simpl in Hfold. injection Hfold as <-. apply sameLimits_refl.
  - simpl in Hfold. destruct (discardLocked x reason p) as [p1 |] eqn:Hd.
    + apply (sameLimits_trans p p1 p'); [by apply (discardLocked_limits p p1 x reason) |].
      by apply IH.
    + rewrite foldl_None in Hfold by done. discriminate.
Qed.

Lemma updated_limits (p p' : TxPool) (mt : nat) (csp : SubPoolType) :
  match csp with
  | PendingSubPool => inPending (fun s => PendingPool.Updated s mt) p
  | BaseFeeSubPool => inBaseFee (fun s => SubPool.Updated s mt) p
  | QueuedSubPool => inQueued (fun s => SubPool.Updated s mt) p
  | NoSubPool => Some p
  end = Some p' ->
  sameLimits p p'.
Proof.
  destruct csp; intros H.
  - injection H as <-. apply sameLimits_refl.
  - apply (inPending_limits _ p p' (fun s s' => PendingPool_Updated_limit s s' mt) H).
  - apply (inBaseFee_limits _ p p' (fun s s' => SubPool_Updated_limit s s' mt) H).
  - apply (inQueued_limits _ p p' (fun s s' => SubPool_Updated_limit s s' mt) H).
Qed.


(** * Composing walks *)

Lemma walked_refl (sender : Z) (p : TxPool) : poolsOK p -> walked sender [] p p.
Proof.
  intros Hok. split.
  - apply sameRest_refl.
  - done.
  - apply sameLimits_refl.
  - done.
  - intros y b Hb. exists b. split; [done |]. split; [done |]. intros _. apply sameData_refl.
  - intros c y. split; [intros Hy; split; [done | apply not_elem_of_nil] | by intros [Hy _]].
  - intros y b _ Hb. by exists b.
Qed.

Lemma walked_app (sender : Z) (V W : list nat) (p p1 p2 : TxPool) :
  walked sender V p p1 -> walked sender W p1 p2 -> walked sender (V ++ W) p p2.
Proof.
  intros [Hr1 Hok1 HL1 Hl1 Ht1 Hm1 Hc1] [Hr2 Hok2 HL2 Hl2 Ht2 Hm2 Hc2]. split.
  - by apply (sameRest_trans p p1).
  - done.
  - by apply (sameLimits_trans p p1 p2).
  - congruence.
  - intros y b Hb. destruct (Ht1 y b Hb) as (b1 & Hb1 & HTx1 & Hs1).
    destruct (Ht2 y b1 Hb1) as (b2 & Hb2 & HTx2 & Hs2).
    exists b2. split; [done |]. split; [congruence |].
    intros Hne. apply (sameData_trans b b1); [by apply Hs1 |]. apply Hs2. by rewrite HTx1.
  - intros c y. rewrite Hm2, Hm1, elem_of_app. tauto.
  - intros y b Hy Hb. rewrite elem_of_app in Hy.
    destruct (Hc1 y b ltac:(tauto) Hb) as (b1 & Hb1 & Hcsp1).
    destruct (Hc2 y b1 ltac:(tauto) Hb1) as (b2 & Hb2 & Hcsp2).
    exists b2. split; [done | congruence].
Qed.

Lemma cleared_walked (sender : Z) (V : list nat) (p p' : TxPool) :
  cleared V p p' -> sameLimits p p' -> walked sender V p p'.
Proof.
  intros (Hrest & [Hlen Hframe] & Hok & Hmem & Hcsp) Hlimits.
  split; [done | done | done | done | | done | done].
  intros y b Hb. destruct (Hframe y b Hb) as (b' & Hb' & Hsame).
  exists b'. split; [done |]. split; [by apply sameData_Tx | done].
Qed.

Lemma lowNonce_walked (sender senderNonce : Z) (V : list nat) (p p' : TxPool) (x : nat) :
  walked sender V p p' -> lowNonce p' senderNonce x = lowNonce p senderNonce x.
Proof.
  intros Hw. unfold lowNonce. destruct (mem p !! x) as [b |] eqn:Hb.
  - destruct (wk_tx _ _ _ _ Hw x b Hb) as (b' & -> & -> & _). done.
  - apply lookup_ge_None in Hb. rewrite <- (wk_length _ _ _ _ Hw) in Hb.
    apply lookup_ge_None in Hb. by rewrite Hb.
Qed.

(** * Re-ordering a sub-pool *)

Lemma poolMoved_cleared (c : SubPoolType) (p : TxPool) (s' : list metaTx * SubPool) :
  poolsOK p -> c <> NoSubPool -> poolMoved (mem p, poolOf c p) s' ->
  cleared [] p (set_mem s'.1 (setPoolOf c s'.2 p)).
Proof.
  intros Hok Hc Hpm. set (p' := set_mem s'.1 (setPoolOf c s'.2 p)).
  assert (Hmem : mem p' = s'.1) by apply mem_setPoolOf.
  assert (Hpool : poolOf c p' = s'.2) by (by apply poolOf_setPoolOf).
  assert (Hothers : forall c', c' <> c -> c' <> NoSubPool -> poolOf c' p' = poolOf c' p)
    by (intros c' ? ?; by apply poolOf_setPoolOf_ne).
  assert (Hframe : forall y a, mem p !! y = Some a ->
            exists a', mem p' !! y = Some a' /\ sameData a a'
                       /\ currentSubPool a' = currentSubPool a
                       /\ (y ∉ members (poolOf c p) -> a' = a)).
  { intros y a Ha. rewrite Hmem. apply (pm_frame _ _ Hpm y a Ha). }
  assert (Helem : forall c0 y, y ∈ members (poolOf c0 p') <-> y ∈ members (poolOf c0 p)).
  { intros c0 y. destruct (decide (c0 = c)) as [-> | Hc0].
    { rewrite Hpool. apply (pm_elem _ _ Hpm). }
    destruct (decide (c0 = NoSubPool)) as [-> | Hc0'].
    - rewrite !poolOf_NoSubPool. destruct (decide (c = PendingSubPool)) as [-> | Hcp].
      + rewrite Hpool. apply (pm_elem _ _ Hpm).
      + by rewrite Hothers.
    - by rewrite Hothers. }
  assert (Hwf : forall c0, c0 <> NoSubPool -> poolwf (mem p') (poolOf c0 p')).
  { intros c0 Hc0'. destruct (decide (c0 = c)) as [-> | Hc0].
    { rewrite Hpool, Hmem. apply Hpm. }
    rewrite Hothers by done. eapply poolwf_outside; [apply (ok_wf p Hok) |].
    intros y a Hy Ha. destruct (Hframe y a Ha) as (a' & Ha' & _ & _ & Hout).
    assert (Hnot : y ∉ members (poolOf c p))
      by (eapply (poolsOK_disjoint p y c0 c); done).
    by rewrite <- (Hout Hnot). }
  split; [apply sameRest_setPoolOf |]. split; [| split; [| split]].
  - split; [rewrite Hmem; apply Hpm |].
    intros y a Ha. destruct (Hframe y a Ha) as (a' & Ha' & Hsame & _). eauto.
  - split.
    + intros c0. destruct (decide (c0 = NoSubPool)) as [-> | Hc0].
      * rewrite poolOf_NoSubPool. by apply Hwf.
      * by apply Hwf.
    + intros c0 Hc0. destruct (decide (c0 = c)) as [-> | Hne].
      * rewrite Hpool. destruct (pm_static _ _ Hpm) as [[_ ->] _]. by apply (ok_type p Hok).
      * rewrite Hothers by done. by apply (ok_type p Hok).
    + intros y a' c0 Ha' Hc0. rewrite Helem.
      assert (is_Some (mem p !! y)) as [a Ha].
      { apply lookup_lt_is_Some. pose proof (pm_length _ _ Hpm) as L. simpl in L.
        rewrite <- L, <- Hmem. by eapply lookup_lt_Some. }
      destruct (Hframe y a Ha) as (a'' & Ha'' & _ & Hcsp & _).
      assert (a'' = a') as -> by congruence. rewrite Hcsp.
      by apply (ok_placed p Hok).
    + intros y Hy. apply lookup_lt_is_Some. pose proof (pm_length _ _ Hpm) as L.
      simpl in L. rewrite Hmem, L. apply lookup_lt_is_Some. apply (ok_tree p Hok).
      destruct (sameRest_setPoolOf c s'.2 p s'.1) as [<- _]. done.
  - intros c0 y. rewrite Helem. split; [intros Hy; split; [done | apply not_elem_of_nil] |].
    by intros [Hy _].
  - intros y a _ Ha. destruct (Hframe y a Ha) as (a' & Ha' & _ & Hcsp & _). eauto.
Qed.

(** [Updated] on the sub-pool a transaction is in re-orders that
    sub-pool and nothing else. *)
Lemma updated_cleared (p : TxPool) (mt : nat) (a : metaTx) :
  poolsOK p -> mem p !! mt = Some a ->
  exists p',
    match currentSubPool a with
    | PendingSubPool => inPending (fun s => PendingPool.Updated s mt) p
    | BaseFeeSubPool => inBaseFee (fun s => SubPool.Updated s mt) p
    | QueuedSubPool => inQueued (fun s => SubPool.Updated s mt) p
    | NoSubPool => Some p
    end = Some p'
    /\ cleared [] p p'.
Proof.
  intros Hok Ha. destruct (currentSubPool a) eqn:Hcsp.
  - exists p. split; [done | by apply cleared_nil].
  - assert (Hin : mt ∈ members (pending p))
      by (by apply (ok_placed p Hok mt a PendingSubPool Ha)).
    destruct (PendingPool_Updated_moved (mem p) (pending p) mt (ok_wf p Hok PendingSubPool) Hin)
      as ([m sp] & Hupd & Hpm).
    unfold inPending. rewrite Hupd. simpl. eexists. split; [done |].
    by apply (poolMoved_cleared PendingSubPool p (m, sp)).
  - assert (Hin : mt ∈ members (baseFee p))
      by (by apply (ok_placed p Hok mt a BaseFeeSubPool Ha)).
    destruct (SubPool_Updated_moved (mem p) (baseFee p) mt (ok_wf p Hok BaseFeeSubPool) Hin)
      as ([m sp] & Hupd & Hpm).
    unfold inBaseFee. rewrite Hupd. simpl. eexists. split; [done |].
    by apply (poolMoved_cleared BaseFeeSubPool p (m, sp)).
  - assert (Hin : mt ∈ members (queued p))
      by (by apply (ok_placed p Hok mt a QueuedSubPool Ha)).
    destruct (SubPool_Updated_moved (mem p) (queued p) mt (ok_wf p Hok QueuedSubPool) Hin)
      as ([m sp] & Hupd & Hpm).
    unfold inQueued. rewrite Hupd. simpl. eexists. split; [done |].
    by apply (poolMoved_cleared QueuedSubPool p (m, sp)).
Qed.

(** * One step of the walk *)

Lemma setMt_walked (sender : Z) (p : TxPool) (mt : nat) (a a2 : metaTx) :
  poolsOK p -> mem p !! mt = Some a -> senderID (Tx a) = sender ->
  Tx a2 = Tx a -> bestIndex a2 = bestIndex a -> worstIndex a2 = worstIndex a ->
  currentSubPool a2 = currentSubPool a ->
  walked sender [] p (setMt mt a2 p).
Proof.
  intros Hok Ha Hsender HTx Hb Hw Hcsp.
  assert (Hlt : (mt < length (mem p))%nat) by (by eapply lookup_lt_Some).
  split.
  - by repeat split.
  - by apply (poolsOK_setMt p mt a a2).
  - intros c. by destruct c.
  - simpl. by rewrite length_insert.
  - intros y b Hy. simpl. destruct (decide (y = mt)) as [-> | Hne].
    + exists a2. rewrite list_lookup_insert_eq by done.
      assert (b = a) as -> by congruence. split; [done |]. split; [done |]. congruence.
    + exists b. rewrite list_lookup_insert_ne by done. split; [done |]. split; [done |].
      intros _. apply sameData_refl.
  - intros c y. assert (poolOf c (setMt mt a2 p) = poolOf c p) as -> by (by destruct c).
    split; [intros Hy; split; [done | apply not_elem_of_nil] | by intros [Hy _]].
  - intros y b _ Hy. simpl. destruct (decide (y = mt)) as [-> | Hne].
    + exists a2. rewrite list_lookup_insert_eq by done.
      assert (b = a) as -> by congruence. done.
    + exists b. by rewrite list_lookup_insert_ne.
Qed.

Lemma step_finish_walked (sender : Z) (p : TxPool) (mt : nat) (a a2 : metaTx)
  (csp : SubPoolType) (unsafe : bool) (n c r t_ : Z) (d : list nat) :
  poolsOK p -> mem p !! mt = Some a -> senderID (Tx a) = sender ->
  Tx a2 = Tx a -> bestIndex a2 = bestIndex a -> worstIndex a2 = worstIndex a ->
  currentSubPool a2 = currentSubPool a -> currentSubPool a2 = csp ->
  exists w',
    (p' ← (if unsafe then Some (setMt mt a2 p)
           else match csp with
                | PendingSubPool => inPending (fun s => PendingPool.Updated s mt) (setMt mt a2 p)
                | BaseFeeSubPool => inBaseFee (fun s => SubPool.Updated s mt) (setMt mt a2 p)
                | QueuedSubPool => inQueued (fun s => SubPool.Updated s mt) (setMt mt a2 p)
                | NoSubPool => Some (setMt mt a2 p)
                end);
     Some (true, mkWalk n c r t_ d p')) = Some (true, w')
    /\ walked sender [] p (walkPool w')
    /\ toDel w' = d ++ [].
Proof.
  intros Hok Ha Hsender HTx Hb Hw Hc Hcsp.
  pose proof (setMt_walked sender p mt a a2 Hok Ha Hsender HTx Hb Hw Hc) as Hset.
  assert (Ha2 : mem (setMt mt a2 p) !! mt = Some a2).
  { simpl. apply list_lookup_insert_eq. by eapply lookup_lt_Some. }
  rewrite app_nil_r. destruct unsafe.
  - simpl. eexists. split; [done |]. split; [exact Hset | done].
  - destruct (updated_cleared (setMt mt a2 p) mt a2 (wk_ok _ _ _ _ Hset) Ha2)
      as (p' & Hupd & Hcl).
    rewrite Hcsp in Hupd. rewrite Hupd. simpl. eexists. split; [done |].
    split; [| done]. simpl.
    apply (walked_app sender [] [] p (setMt mt a2 p) p' Hset).
    apply cleared_walked; [done |].
    apply (updated_limits (setMt mt a2 p) p' mt csp). exact Hupd.
Qed.

Lemma step_walked (sender senderNonce senderBalance protocolBaseFee blockGasLimit : Z)
  (unsafe : bool) (mt : nat) (w : Walk) (a : metaTx) :
  poolsOK (walkPool w) -> mem (walkPool w) !! mt = Some a -> senderID (Tx a) = sender ->
  let V := if bool_decide (senderNonce > nonce (Tx a)) then [mt] else [] in
  exists w',
    onSenderStateChangeStep senderNonce senderBalance protocolBaseFee blockGasLimit unsafe mt w
    = Some (true, w')
    /\ walked sender V (walkPool w) (walkPool w')
    /\ toDel w' = toDel w ++ V.
Proof.
  intros Hok Ha Hsender V. subst V.
  destruct a as [tx sp nd cbd mf mtip bi wi csp ts]. simpl in Hsender.
  cbv delta [onSenderStateChangeStep]; cbv beta.
  step_let. rewrite Ha, bind_Some. cbv beta.
  walk_step.
  all: try (eapply step_finish_walked; [exact Hok | exact Ha | done ..]).
  all: try (eexists; split; [reflexivity |]; split; [| by rewrite app_nil_r];
            by apply (setMt_walked sender _ mt _ _ Hok Ha)).
  destruct (removeFromSubPool_ok (walkPool w) mt Hok (mk_is_Some _ _ Ha)) as (p1 & Hrem & Hcl).
  rewrite Hrem. simpl. eexists. split; [reflexivity |]. split; [| done].
  apply cleared_walked; [done |]. by apply (removeFromSubPool_limits _ _ mt).
Qed.

(** * The whole walk *)

Lemma walk_iterate (sender senderNonce senderBalance protocolBaseFee blockGasLimit : Z)
  (unsafe : bool) (L : list nat) :
  forall w,
    poolsOK (walkPool w) ->
    (forall x, x ∈ L -> exists a, mem (walkPool w) !! x = Some a /\ senderID (Tx a) = sender) ->
    let V := filter (fun x => lowNonce (walkPool w) senderNonce x = true) L in
    exists w',
      iterate (onSenderStateChangeStep senderNonce senderBalance protocolBaseFee blockGasLimit
                 unsafe) L w = Some w'
      /\ walked sender V (walkPool w) (walkPool w')
      /\ toDel w' = toDel w ++ V.
Proof.
  induction L as [| x L IH]; intros w Hok HL V; subst V.
  - exists w. simpl. split; [done |]. split; [by apply walked_refl | by rewrite app_nil_r].
  - destruct (HL x ltac:(by left)) as (a & Ha & Hsender).
    destruct (step_walked sender senderNonce senderBalance protocolBaseFee blockGasLimit
                unsafe x w a Hok Ha Hsender) as (w1 & Hstep & Hw1 & Hdel1).
    simpl. rewrite Hstep. simpl.
    destruct (IH w1 (wk_ok _ _ _ _ Hw1)) as (w' & Hrun & Hw' & Hdel').
    { intros y Hy. destruct (HL y ltac:(by right)) as (b & Hb & Hsb).
      destruct (wk_tx _ _ _ _ Hw1 y b Hb) as (b' & Hb' & HTx & _).
      exists b'. split; [done | by rewrite HTx]. }
    exists w'. split; [exact Hrun |].
    assert (Hfilter : filter (fun y => lowNonce (walkPool w1) senderNonce y = true) L
                      = filter (fun y => lowNonce (walkPool w) senderNonce y = true) L).
    { apply filter_ext_in. intros y _.
      by rewrite (lowNonce_walked sender senderNonce _ (walkPool w) (walkPool w1) y Hw1). }
    rewrite Hfilter in Hw', Hdel'.
    assert (Hcons : filter (fun y => lowNonce (walkPool w) senderNonce y = true) (x :: L)
                    = (if bool_decide (senderNonce > nonce (Tx a)) then [x] else [])
                      ++ filter (fun y => lowNonce (walkPool w) senderNonce y = true) L).
    { assert (Hx : lowNonce (walkPool w) senderNonce x
                   = bool_decide (senderNonce > nonce (Tx a))) by (unfold lowNonce; by rewrite Ha).
      destruct (bool_decide (senderNonce > nonce (Tx a))).
      - by rewrite filter_cons_True.
      - rewrite filter_cons_False; [done |]. by rewrite Hx. }
    rewrite Hcons. split.
    + by apply (walked_app sender _ _ (walkPool w) (walkPool w1) (walkPool w')).
    + by rewrite Hdel', Hdel1, <- app_assoc.
Qed.

(** * Discarding what the walk collected *)

Lemma discard_all_counted (reason : DiscardReason) (V : list nat) :
  forall p p',
    indexValid p -> indexSorted p -> counted p ->
    (forall x, x ∈ V -> is_Some (mem p !! x)) ->
    foldl (fun acc mt => p ← acc; discardLocked mt reason p) (Some p) V = Some p' ->
    counted p'.
Proof.
  induction V as [| x V IH]; intros p p' Hvalid Hsorted Hcount HV Hfold.
  - simpl in Hfold. by injection Hfold as <-.
  - destruct (HV x ltac:(by left)) as [a Ha].
    destruct (discardLocked_spec x reason p a Hvalid Hsorted Hcount Ha)
      as (b' & Hdis & _ & _ & Hv' & Hs' & Hc').
    simpl in Hfold. rewrite Hdis in Hfold.
    refine (IH _ p' _ _ _ _ Hfold); [exact Hv' | exact Hs' | exact Hc' |].
    intros y Hy. apply (HV y). by right.
Qed.

Lemma onSenderStateChange_full
  (senderID_ senderNonce senderBalance protocolBaseFee blockGasLimit : Z)
  (unsafe : bool) (p : TxPool) :
  consistent p -> counted p ->
  exists p' l,
    onSenderStateChange senderID_ senderNonce senderBalance protocolBaseFee blockGasLimit
      unsafe discardLocked p = Some p'
    /\ consistent p' /\ counted p'
    /\ discards p' = discards p ++ ((fun x => (x, NonceTooLow)) <$> l)
    /\ (forall y, y ∈ l
                  <-> y ∈ tree (all p)
                      /\ holds p (fun tx => senderID tx = senderID_ /\ nonce tx < senderNonce) y)
    /\ (forall y, y ∈ tree (all p') <-> y ∈ tree (all p) /\ y ∉ l)
    /\ (forall c y, y ∈ members (poolOf c p') <-> y ∈ members (poolOf c p) /\ y ∉ l)
    /\ (forall h y, byHash p' !! h = Some y <-> byHash p !! h = Some y /\ y ∉ l)
    /\ (forall y b, mem p !! y = Some b ->
          exists b', mem p' !! y = Some b' /\ Tx b' = Tx b
                     /\ (senderID (Tx b) <> senderID_ -> sameData b b')
                     /\ (y ∉ l -> currentSubPool b' = currentSubPool b))
    /\ sameLimits p p' /\ length (mem p') = length (mem p).
Proof.
  intros [Hok Hsorted Hpooled Hhashed HbyHash] Hcount.
  pose proof (indexValid_of_poolsOK p Hok) as Hvalid.
  set (w0 := mkWalk senderNonce 0 MaxUint64 MaxUint64 [] p).
  set (L := senderTxs p senderID_).
  set (V := filter (fun x => lowNonce p senderNonce x = true) L).
  assert (HL : forall x, x ∈ L ->
                 exists a, mem p !! x = Some a /\ senderID (Tx a) = senderID_).
  { intros x Hx. unfold L, senderTxs in Hx. apply list_elem_of_filter in Hx as [Hs Hx].
    destruct (mem p !! x) as [a |]; [| done]. exists a. split; [done |].
    simpl in Hs. by injection Hs. }
  assert (HV : forall y, y ∈ V
                 <-> y ∈ tree (all p)
                     /\ holds p (fun tx => senderID tx = senderID_ /\ nonce tx < senderNonce) y).
  { intros y. unfold V, L, senderTxs, lowNonce, holds. rewrite !list_elem_of_filter. split.
    - intros (Hlow & Hs & Hy). split; [done |].
      destruct (mem p !! y) as [a |]; [| done]. exists a. split; [done |].
      simpl in Hs. apply bool_decide_eq_true in Hlow. injection Hs as Hs. lia.
    - intros (Hy & a & Ha & Hs & Hn). rewrite Ha. simpl.
      split; [apply bool_decide_eq_true; lia |]. split; [by rewrite Hs | done]. }
  assert (HVnodup : NoDup V).
  { apply NoDup_filter, NoDup_filter. by apply indexSorted_NoDup. }
  destruct (walk_iterate senderID_ senderNonce senderBalance protocolBaseFee blockGasLimit
              unsafe L w0 Hok HL) as (w' & Hrun & Hw & Hdel).
  change (walkPool w0) with p in Hw, Hdel. fold V in Hw, Hdel. simpl in Hdel.
  unfold onSenderStateChange.
  destruct (walk_sender p senderID_
              (onSenderStateChangeStep senderNonce senderBalance protocolBaseFee blockGasLimit
                 unsafe) w0 Hvalid Hsorted) as (Hasc & _ & _).
  fold w0. rewrite Hasc. fold L. rewrite Hrun. simpl. rewrite Hdel.
  set (p1 := walkPool w') in *.
  destruct Hw as [Hrest Hok1 Hlimits1 Hlen1 Htx1 Hmem1 Hcsp1].
  destruct Hrest as (Hall1 & Hhash1 & Hdis1 & _).
  assert (Hframe1 : forall y b, mem p !! y = Some b ->
                      exists b', mem p1 !! y = Some b' /\ Tx b' = Tx b).
  { intros y b Hb. destruct (Htx1 y b Hb) as (b' & Hb' & HTx & _). eauto. }
  assert (Hback1 : forall y b', mem p1 !! y = Some b' ->
                     exists b, mem p !! y = Some b /\ Tx b' = Tx b).
  { intros y b' Hb'. assert (is_Some (mem p !! y)) as [b Hb].
    { apply lookup_lt_is_Some. rewrite <- Hlen1. by eapply lookup_lt_Some. }
    destruct (Hframe1 y b Hb) as (b2 & Hb2 & HTx). exists b. split; [done | congruence]. }
  assert (Hvalid1 : indexValid p1).
  { intros y Hy. rewrite Hall1 in Hy. destruct (Hvalid y Hy) as [b Hb].
    destruct (Hframe1 y b Hb) as (b' & Hb' & _). by exists b'. }
  assert (Hsorted1 : indexSorted p1).
  { destruct Hsorted as [Hs Hn]. split.
    - rewrite Hall1. eapply StronglySorted_impl_elem; [| exact Hs].
      intros x y Hx Hy (b & c & Hb & Hc & Hless).
      destruct (Hframe1 x b Hb) as (b' & Hb' & HTxb).
      destruct (Hframe1 y c Hc) as (c' & Hc' & HTxc).
      exists b', c'. split; [done |]. split; [done |]. unfold keyOf. by rewrite HTxb, HTxc.
    - intros y b' Hy Hb'. rewrite Hall1 in Hy. destruct (Hback1 y b' Hb') as (b & Hb & ->).
      by apply (Hn y b). }
  assert (Hcount1 : counted p1).
  { intros s. specialize (Hcount s). unfold senderTxs in *. rewrite Hall1.
    rewrite (filter_ext_in _ (fun x => senderID ∘ Tx <$> mem p !! x = Some s));
      [exact Hcount |].
    intros x Hx. destruct (Hvalid x Hx) as [b Hb].
    destruct (Hframe1 x b Hb) as (b' & Hb' & HTx). rewrite Hb, Hb'. simpl. by rewrite HTx. }
  destruct (discard_all_index NonceTooLow V p1 Hok1 Hsorted1 HVnodup)
    as (p' & Hfold & Hdis & Hmem & Hpools & Hok' & Hsorted' & Htree & Hhash).
  { intros x Hx. rewrite Hall1. by apply HV. }
  assert (Hcount' : counted p').
  { apply (discard_all_counted NonceTooLow V p1 p' Hvalid1 Hsorted1 Hcount1); [| exact Hfold].
    intros x Hx. apply Hvalid1. rewrite Hall1. by apply HV. }
  exists p', V. split; [exact Hfold |].
  assert (Htree' : forall y, y ∈ tree (all p') <-> y ∈ tree (all p) /\ y ∉ V).
  { intros y. by rewrite Htree, Hall1. }
  assert (Hmembers : forall c y,
            y ∈ members (poolOf c p') <-> y ∈ members (poolOf c p) /\ y ∉ V).
  { intros c y. by rewrite Hpools, Hmem1. }
  assert (HbyHash' : forall h y, byHash p' !! h = Some y <-> byHash p !! h = Some y /\ y ∉ V).
  { intros h y. rewrite Hhash, Hhash1. split.
    - intros [Hy Hnot]. split; [done |]. intros Hv.
      destruct (HbyHash h y Hy) as (Hyt & b & Hb & Hbh).
      destruct (Hframe1 y b Hb) as (b1 & Hb1 & HTx).
      apply (Hnot y b1 Hv Hb1). by rewrite HTx.
    - intros [Hy Hno]. split; [done |]. intros v b1 Hv Hb1 Heq.
      destruct (Hback1 v b1 Hb1) as (b & Hb & HTx).
      apply HV in Hv as Hvt. destruct Hvt as [Hvt _].
      pose proof (Hhashed v b Hvt Hb) as Hvhash. rewrite <- HTx, Heq in Hvhash.
      assert (v = y) as -> by congruence. done. }
  split; [| split; [exact Hcount' |]].
  - split; [done | done | | |].
    + intros c x Hx. apply Hmembers in Hx as [Hx Hno]. apply Htree'. split; [| done].
      by apply (Hpooled c).
    + intros x b' Hx Hb'. apply Htree' in Hx as [Hx Hno]. rewrite Hmem in Hb'.
      destruct (Hback1 x b' Hb') as (b & Hb & HTx).
      apply HbyHash'. split; [| done]. rewrite HTx. by apply Hhashed.
    + intros h x Hx. apply HbyHash' in Hx as [Hx Hno].
      destruct (HbyHash h x Hx) as (Hxt & b & Hb & Hbh).
      split; [by apply Htree' |].
      destruct (Hframe1 x b Hb) as (b' & Hb' & HTx).
      exists b'. rewrite Hmem. split; [done |]. by rewrite HTx.
  - split; [by rewrite Hdis, Hdis1 |]. split; [exact HV |]. split; [exact Htree' |].
    split; [exact Hmembers |]. split; [exact HbyHash' |].
    split; [| split].
    + intros y b Hb. destruct (Htx1 y b Hb) as (b' & Hb' & HTx & Hsame).
      exists b'. rewrite Hmem. split; [done |]. split; [done |]. split; [done |].
      intros Hno. destruct (Hcsp1 y b Hno Hb) as (b2 & Hb2 & Hcsp). congruence.
    + intros c. by rewrite Hpools, (Hlimits1 c).
    + by rewrite Hmem.
Qed.

Lemma onSenderStateChange_cases
  (senderID_ senderNonce senderBalance protocolBaseFee blockGasLimit : Z)
  (unsafe : bool) (p : TxPool) :
  consistent p -> counted p ->
  exists p' l,
    onSenderStateChange senderID_ senderNonce senderBalance protocolBaseFee blockGasLimit
      unsafe discardLocked p = Some p'
    /\ consistent p' /\ counted p'
    /\ discards p' = discards p ++ ((fun x => (x, NonceTooLow)) <$> l)
    /\ (forall y, y ∈ l
                  <-> y ∈ tree (all p)
                      /\ holds p (fun tx => senderID tx = senderID_ /\ nonce tx < senderNonce) y)
    /\ (forall y, y ∈ tree (all p') <-> y ∈ tree (all p) /\ y ∉ l)
    /\ (forall c y, y ∈ members (poolOf c p') <-> y ∈ members (poolOf c p) /\ y ∉ l)
    /\ (forall h y, byHash p' !! h = Some y <-> byHash p !! h = Some y /\ y ∉ l)
    /\ (forall y b, mem p !! y = Some b ->
          exists b', mem p' !! y = Some b' /\ Tx b' = Tx b
                     /\ (senderID (Tx b) <> senderID_ -> sameData b b')
                     /\ (y ∉ l -> currentSubPool b' = currentSubPool b)).
Proof.
  intros Hcons Hcount.
  destruct (onSenderStateChange_full senderID_ senderNonce senderBalance protocolBaseFee
              blockGasLimit unsafe p Hcons Hcount)
    as (p' & l & H1 & H2 & H3 & H4 & H5 & H6 & H7 & H8 & H9 & _).
  exists p', l. done.
Qed.

(** [onSenderStateChange] on a pool whose indexes agree returns, and
    the indexes still agree.  The transactions of the sender whose
    nonce is below the nonce of the sender leave their sub-pool, the
    index by nonce and [byHash], discarded as [NonceTooLow], by
    increasing nonce; every other transaction stays in its sub-pool and
    in both indexes.  No object changes its transaction, and the
    objects of other senders change in nothing but their positions in
    the queues. *)
Theorem onSenderStateChange_sweeps
  (senderID_ senderNonce senderBalance protocolBaseFee blockGasLimit : Z)
  (unsafe : bool) (p : TxPool) :
  consistent p -> counted p ->
  exists p' l,
    onSenderStateChange senderID_ senderNonce senderBalance protocolBaseFee blockGasLimit
      unsafe discardLocked p = Some p'
    /\ consistent p' /\ counted p'
    /\ discards p' = discards p ++ ((fun x => (x, NonceTooLow)) <$> l)
    /\ (forall y, y ∈ l
                  <-> y ∈ tree (all p)
                      /\ holds p (fun tx => senderID tx = senderID_ /\ nonce tx < senderNonce) y)
    /\ (forall y, y ∈ tree (all p') <-> y ∈ tree (all p) /\ y ∉ l)
    /\ (forall c y, y ∈ members (poolOf c p') <-> y ∈ members (poolOf c p) /\ y ∉ l)
    /\ (forall h y, byHash p' !! h = Some y <-> byHash p !! h = Some y /\ y ∉ l)
    /\ (forall y b, mem p !! y = Some b ->
          exists b', mem p' !! y = Some b' /\ Tx b' = Tx b
                     /\ (senderID (Tx b) <> senderID_ -> sameData b b')
                     /\ (y ∉ l -> currentSubPool b' = currentSubPool b)).
Proof. apply onSenderStateChange_cases. Qed.

Lemma onSenderStateChange_sweeps_witness :
  consistent twoPending /\ counted twoPending
  /\ exists p' l,
      onSenderStateChange 1 1 (10 ^ 18) 7 30000000 false discardLocked twoPending = Some p'
      /\ consistent p'
      /\ discards p' = discards twoPending ++ ((fun x => (x, NonceTooLow)) <$> l)
      /\ 0%nat ∈ l.
Proof.
  pose proof twoPending_consistent as Hc. pose proof twoPending_counted as Hn.
  split; [exact Hc |]. split; [exact Hn |].
  destruct (onSenderStateChange_sweeps 1 1 (10 ^ 18) 7 30000000 false twoPending Hc Hn)
    as (p' & l & Hrun & Hc' & _ & Hdis & Hl & _).
  exists p', l. split; [exact Hrun |]. split; [exact Hc' |]. split; [exact Hdis |].
  apply Hl. split.
  - assert (Htree : tree (all twoPending) = [0%nat; 1%nat]) by (vm_compute; reflexivity).
    rewrite Htree. by left.
  - exists sampleIndexed. split; [vm_compute; reflexivity |].
    split; vm_compute; reflexivity.
Defined.

(** * Composing moves *)

Lemma settled_refl (p : TxPool) : consistent p -> counted p -> settled [] p p.
Proof.
  intros Hc Hn. split; try done.
  - apply memFrame_refl.
  - by rewrite app_nil_r.
  - intros y. split; [intros Hy; split; [done | apply not_elem_of_nil] | by intros [Hy _]].
  - intros y. split; [intros Hy; split; [done | apply not_elem_of_nil] | by intros [Hy _]].
  - intros h y. split; [intros Hy; split; [done | apply not_elem_of_nil] | by intros [Hy _]].
  - intros y Hy. by apply not_elem_of_nil in Hy.
Qed.

Lemma settled_trans (l1 l2 : list (nat * DiscardReason)) (p p1 p2 : TxPool) :
  settled l1 p p1 -> settled l2 p1 p2 -> settled (l1 ++ l2) p p2.
Proof.
  intros [Hc1 Hn1 Hf1 Hd1 Ht1 Hp1 Hh1 Hl1 Hfr1] [Hc2 Hn2 Hf2 Hd2 Ht2 Hp2 Hh2 Hl2 Hfr2].
  split.
  - done.
  - done.
  - by apply (memFrame_trans p p1).
  - by rewrite Hd2, Hd1, app_assoc.
  - intros y. rewrite Ht2, Ht1, fmap_app, elem_of_app. tauto.
  - intros y. rewrite Hp2, Hp1, fmap_app, elem_of_app. tauto.
  - intros h y. rewrite Hh2, Hh1, fmap_app, elem_of_app. tauto.
  - intros c. by rewrite Hl2, Hl1.
  - intros y. rewrite fmap_app, elem_of_app. intros [Hy | Hy]; [by apply Hfr1 |].
    apply Hfr2 in Hy. by apply Hp1 in Hy as [Hy _].
Qed.

Lemma consistent_frame (p p' : TxPool) :
  consistent p -> sameRest p p' -> memFrame p p' -> poolsOK p' ->
  (forall c y, y ∈ members (poolOf c p') -> pooled p y) ->
  consistent p'.
Proof.
  intros [Hok Hsorted Hpooled Hhashed HbyHash] Hrest Hframe Hok' Hsub.
  destruct Hrest as (Hall & Hhash & _). split.
  - done.
  - by apply (indexSorted_frame p).
  - intros c y Hy. destruct (Hsub c y Hy) as [c0 Hy0]. rewrite Hall. by apply (Hpooled c0).
  - intros x a' Hx Ha'. rewrite Hall in Hx. rewrite Hhash.
    destruct (memFrame_back p p' x a' Hframe Ha') as (a & Ha & Hsame).
    rewrite (sameData_Tx _ _ Hsame). by apply Hhashed.
  - intros h x Hx. rewrite Hhash in Hx. destruct (HbyHash h x Hx) as (Hxt & a & Ha & Hah).
    rewrite Hall. split; [done |].
    destruct (proj2 Hframe x a Ha) as (a' & Ha' & Hsame).
    exists a'. split; [done |]. by rewrite (sameData_Tx _ _ Hsame).
Qed.

Lemma attached_elem (c : SubPoolType) (x : nat) (p p' : TxPool) :
  c <> NoSubPool -> attached c x p p' ->
  forall c0 y, y ∈ members (poolOf c0 p')
               <-> (y = x /\ poolOf c0 p' = poolOf c p') \/ y ∈ members (poolOf c0 p).
Proof.
  intros Hc Hatt.
  assert (Hreal : forall c0 y, c0 <> NoSubPool ->
            (y ∈ members (poolOf c0 p')
             <-> (y = x /\ poolOf c0 p' = poolOf c p') \/ y ∈ members (poolOf c0 p))).
  { intros c0 y Hc0. destruct (decide (c0 = c)) as [-> | Hne].
    - rewrite (a_elem _ _ _ _ Hatt y). tauto.
    - rewrite (a_others _ _ _ _ Hatt c0 Hne Hc0). split; [tauto |].
      intros [[-> Heq] | Hy]; [| done].
      pose proof (proj2 (a_elem _ _ _ _ Hatt x) (or_introl eq_refl)) as Hx.
      by rewrite <- Heq in Hx. }
  intros c0 y. destruct (decide (c0 = NoSubPool)) as [-> | Hc0].
  - rewrite !poolOf_NoSubPool. by apply Hreal.
  - by apply Hreal.
Qed.

(** Popping a transaction and adding it to another sub-pool. *)
Lemma move_settled (c c' : SubPoolType) (x : nat) (p p1 p2 : TxPool) :
  consistent p -> counted p -> c <> NoSubPool -> c' <> NoSubPool ->
  detached c x p p1 -> attached c' x p1 p2 ->
  settled [] p p2.
Proof.
  intros Hcons Hcount Hc Hc' Hdet Hatt.
  pose proof (c_ok p Hcons) as Hok.
  pose proof (detached_cleared c x p p1 Hc Hok Hdet) as (Hrest1 & Hframe1 & Hok1 & Hmem1 & _).
  pose proof (attached_elem c' x p1 p2 Hc' Hatt) as Helem2.
  assert (Hx : x ∈ members (poolOf c p)) by (apply (d_elem _ _ _ _ Hdet); by left).
  assert (Hrest : sameRest p p2) by (apply (sameRest_trans p p1); [done | apply Hatt]).
  assert (Hframe : memFrame p p2) by (apply (memFrame_trans p p1); [done | apply Hatt]).
  assert (Hsub : forall c0 y, y ∈ members (poolOf c0 p2) -> pooled p y).
  { intros c0 y [[-> _] | Hy]%Helem2; [by exists c |].
    apply Hmem1 in Hy as [Hy _]. by exists c0. }
  assert (Hsup : forall y, pooled p y -> pooled p2 y).
  { intros y [c0 Hy]. destruct (decide (y = x)) as [-> | Hne].
    - exists c'. apply (a_elem _ _ _ _ Hatt). by left.
    - exists c0. apply Helem2. right. apply Hmem1. split; [done |].
      by rewrite list_elem_of_singleton. }
  assert (Hlimit : forall c0, c0 <> NoSubPool -> limit (poolOf c0 p2) = limit (poolOf c0 p)).
  { intros c0 Hc0.
    assert (H1 : limit (poolOf c0 p1) = limit (poolOf c0 p)).
    { destruct (decide (c0 = c)) as [-> | Hne]; [apply Hdet |].
      by rewrite (d_others _ _ _ _ Hdet c0 Hne Hc0). }
    rewrite <- H1. destruct (decide (c0 = c')) as [-> | Hne]; [apply Hatt |].
    by rewrite (a_others _ _ _ _ Hatt c0 Hne Hc0). }
  pose proof Hrest as (Hall & Hhash & Hdis & _).
  split.
  - apply (consistent_frame p); [done | done | done | apply Hatt | done].
  - apply (counted_frame p); [done | done | by apply indexValid_of_poolsOK | done].
  - done.
  - by rewrite Hdis, app_nil_r.
  - intros y. rewrite Hall. split; [intros Hy; split; [done | apply not_elem_of_nil] |].
    by intros [Hy _].
  - intros y. split; [| intros [Hy _]; by apply Hsup].
    intros [c0 Hy]. split; [by apply (Hsub c0) | apply not_elem_of_nil].
  - intros h y. rewrite Hhash. split; [intros Hy; split; [done | apply not_elem_of_nil] |].
    by intros [Hy _].
  - intros c0. destruct (decide (c0 = NoSubPool)) as [-> | Hc0].
    + rewrite !poolOf_NoSubPool. by apply Hlimit.
    + by apply Hlimit.
  - intros y Hy. by apply not_elem_of_nil in Hy.
Qed.

(** Popping a transaction and discarding it. *)
Lemma drop_settled (c : SubPoolType) (x : nat) (reason : DiscardReason) (p p1 : TxPool) :
  consistent p -> counted p -> c <> NoSubPool -> detached c x p p1 ->
  exists p2,
    discardLocked x reason p1 = Some p2
    /\ settled [(x, reason)] p p2
    /\ forall c0, poolOf c0 p2 = poolOf c0 p1.
Proof.
  intros Hcons Hcount Hc Hdet.
  pose proof (c_ok p Hcons) as Hok.
  pose proof (detached_cleared c x p p1 Hc Hok Hdet) as Hcl.
  assert (Hx : x ∈ members (poolOf c p)) by (apply (d_elem _ _ _ _ Hdet); by left).
  assert (Hxt : x ∈ tree (all p)) by (by apply (c_pooled p Hcons c)).
  destruct (ok_tree p Hok x Hxt) as [a Ha].
  destruct (discard_cleared x reason p p1 a Hcons Hcount Hxt Ha Hcl)
    as (p2 & Hdis & Hcons2 & Hcount2 & Hframe2 & Hdiscards2 & Htree2 & Hmembers2 & Hhash2
        & _ & _ & _ & _ & Hpools).
  exists p2. split; [exact Hdis |]. split; [| exact Hpools].
  assert (Hone : forall y, y ∉ [(x, reason)].*1 <-> y <> x).
  { intros y. simpl. by rewrite list_elem_of_singleton. }
  split.
  - done.
  - done.
  - done.
  - done.
  - intros y. rewrite Hone. apply Htree2.
  - intros y. rewrite Hone. split.
    + intros [c0 Hy]. apply Hmembers2 in Hy as [Hy Hne]. split; [by exists c0 | done].
    + intros [[c0 Hy] Hne]. exists c0. by apply Hmembers2.
  - intros h y. rewrite Hone, Hhash2, lookup_delete_Some. split.
    + intros [Hne Hy]. split; [done |]. intros ->.
      destruct (c_byHash p Hcons h x Hy) as (_ & a0 & Ha0 & Hah).
      assert (a0 = a) as -> by congruence. done.
    + intros [Hy Hne]. split; [| done]. intros <-.
      pose proof (c_hashed p Hcons x a Hxt Ha) as Hxh. congruence.
  - intros c0. rewrite Hpools.
    assert (Hlimit : forall c1, c1 <> NoSubPool -> limit (poolOf c1 p1) = limit (poolOf c1 p)).
    { intros c1 Hc1. destruct (decide (c1 = c)) as [-> | Hne]; [apply Hdet |].
      by rewrite (d_others _ _ _ _ Hdet c1 Hne Hc1). }
    destruct (decide (c0 = NoSubPool)) as [-> | Hc0].
    + rewrite !poolOf_NoSubPool. by apply Hlimit.
    + by apply Hlimit.
  - intros y Hy. simpl in Hy. apply list_elem_of_singleton in Hy as ->. by exists c.
Qed.

(** * The loops of [promote] *)

Ltac stays p := exists p, []; split; [done | by apply settled_refl].

Lemma demotePending_settled (pendingBaseFee : Z) (fuel : nat) :
  forall p, consistent p -> counted p -> (sizeIn PendingSubPool p <= fuel)%nat ->
    exists p' l, demotePending discardLocked pendingBaseFee fuel p = Some p'
                 /\ settled l p p'.
Proof.
  induction fuel as [| fuel IH]; intros p Hcons Hcount Hsize; pose proof (c_ok p Hcons) as Hok.
  - simpl. unfold PendingPool.Len. rewrite bool_decide_eq_false_2; [stays p |].
    unfold sizeIn, members in Hsize. simpl in Hsize. lia.
  - cbn [demotePending]. unfold PendingPool.Len, PendingPool.Worst.
    case_bool_decide as Hlen; [| stays p].
    destruct (root_exists WorstQueue p PendingSubPool Hok) as (x & a & Hx0 & Hhd & Hin & Ha).
    { unfold members. simpl. lia. }
    simpl in Hx0, Hhd. rewrite Hhd. simpl. rewrite Ha. simpl.
    destruct (bool_decide (subPool a < BaseFeePoolBits) || bool_decide (minFeeCap a < pendingBaseFee));
      [| stays p].
    destruct (popPending_PopWorst p x Hok Hx0) as (p1 & Hpop & Hdet).
    rewrite Hpop. simpl.
    destruct (d_self _ _ _ _ Hdet) as (a1 & Ha1 & Hcsp1).
    destruct (detached_sizes PendingSubPool x p p1) as [Hs1 Hs1']; [done | done |].
    assert (exists p2 l2, (if bool_decide (subPool a >= BaseFeePoolBits)
                           then inBaseFee (fun s => SubPool.Add s x) p1
                           else if bool_decide (subPool a >= QueuedPoolBits)
                           then inQueued (fun s => SubPool.Add s x) p1
                           else discardLocked x FeeTooLow p1) = Some p2
              /\ settled l2 p p2
              /\ sizeIn PendingSubPool p2 = sizeIn PendingSubPool p1)
      as (p2 & l2 & Hstep & Hset2 & Hs2).
    { case_bool_decide.
      - destruct (inBaseFee_Add p1 x a1) as (p2 & Hadd & Hatt); [apply Hdet | done | done |].
        exists p2, []. split; [done |].
        split; [by apply (move_settled PendingSubPool BaseFeeSubPool x p p1 p2) |].
        by apply (attached_sizes BaseFeeSubPool x p1 p2).
      - case_bool_decide.
        + destruct (inQueued_Add p1 x a1) as (p2 & Hadd & Hatt); [apply Hdet | done | done |].
          exists p2, []. split; [done |].
          split; [by apply (move_settled PendingSubPool QueuedSubPool x p p1 p2) |].
          by apply (attached_sizes QueuedSubPool x p1 p2).
        + destruct (drop_settled PendingSubPool x FeeTooLow p p1 Hcons Hcount)
            as (p2 & Hd & Hset & Hpools); [done | done |].
          exists p2, [(x, FeeTooLow)]. split; [done |]. split; [done |].
          unfold sizeIn. by rewrite Hpools. }
    rewrite Hstep. simpl.
    destruct (IH p2) as (p' & l & Hloop & Hset); [apply Hset2 | apply Hset2 | lia |].
    exists p', (l2 ++ l). split; [done |]. by apply (settled_trans l2 l p p2 p').
Qed.

Lemma promoteBaseFee_settled (pendingBaseFee : Z) (fuel : nat) :
  forall p, consistent p -> counted p -> (sizeIn BaseFeeSubPool p <= fuel)%nat ->
    exists p' l, promoteBaseFee pendingBaseFee fuel p = Some p' /\ settled l p p'.
Proof.
  induction fuel as [| fuel IH]; intros p Hcons Hcount Hsize; pose proof (c_ok p Hcons) as Hok.
  - simpl. unfold SubPool.Len, Interface.Len. rewrite bool_decide_eq_false_2; [stays p |].
    unfold sizeIn, members in Hsize. simpl in Hsize. lia.
  - cbn [promoteBaseFee]. unfold SubPool.Len, Interface.Len, SubPool.Best.
    case_bool_decide as Hlen; [| stays p].
    destruct (root_exists BestQueue p BaseFeeSubPool Hok) as (x & a & Hx0 & Hhd & Hin & Ha).
    { unfold members. simpl. lia. }
    simpl in Hx0, Hhd. rewrite Hhd. simpl. rewrite Ha. simpl.
    destruct (bool_decide (subPool a >= BaseFeePoolBits) && bool_decide (minFeeCap a >= pendingBaseFee));
      [| stays p].
    destruct (popBaseFee_PopBest p x Hok Hx0) as (p1 & Hpop & Hdet).
    rewrite Hpop. simpl.
    destruct (d_self _ _ _ _ Hdet) as (a1 & Ha1 & Hcsp1).
    destruct (detached_sizes BaseFeeSubPool x p p1) as [Hs1 Hs1']; [done | done |].
    destruct (inPending_Add p1 x a1) as (p2 & Hadd & Hatt); [apply Hdet | done | done |].
    rewrite Hadd. simpl.
    destruct (attached_sizes PendingSubPool x p1 p2) as [_ Hs2]; [done | done |].
    pose proof (move_settled BaseFeeSubPool PendingSubPool x p p1 p2 Hcons Hcount
                  ltac:(done) ltac:(done) Hdet Hatt) as Hset2.
    destruct (IH p2) as (p' & l & Hloop & Hset); [apply Hset2 | apply Hset2 | |].
    { rewrite Hs2 by done. lia. }
    exists p', ([] ++ l). split; [done |]. by apply (settled_trans [] l p p2 p').
Qed.

Lemma demoteBaseFee_settled (fuel : nat) :
  forall p, consistent p -> counted p -> (sizeIn BaseFeeSubPool p <= fuel)%nat ->
    exists p' l, demoteBaseFee discardLocked fuel p = Some p' /\ settled l p p'.
Proof.
  induction fuel as [| fuel IH]; intros p Hcons Hcount Hsize; pose proof (c_ok p Hcons) as Hok.
  - simpl. unfold SubPool.Len, Interface.Len. rewrite bool_decide_eq_false_2; [stays p |].
    unfold sizeIn, members in Hsize. simpl in Hsize. lia.
  - cbn [demoteBaseFee]. unfold SubPool.Len, Interface.Len, SubPool.Worst.
    case_bool_decide as Hlen; [| stays p].
    destruct (root_exists WorstQueue p BaseFeeSubPool Hok) as (x & a & Hx0 & Hhd & Hin & Ha).
    { unfold members. simpl. lia. }
    simpl in Hx0, Hhd. rewrite Hhd. simpl. rewrite Ha. simpl.
    case_bool_decide as Hbad; [| stays p].
    destruct (popBaseFee_PopWorst p x Hok Hx0) as (p1 & Hpop & Hdet).
    rewrite Hpop. simpl.
    destruct (d_self _ _ _ _ Hdet) as (a1 & Ha1 & Hcsp1).
    destruct (detached_sizes BaseFeeSubPool x p p1) as [Hs1 Hs1']; [done | done |].
    assert (exists p2 l2, (if bool_decide (subPool a >= QueuedPoolBits)
                           then inQueued (fun s => SubPool.Add s x) p1
                           else discardLocked x FeeTooLow p1) = Some p2
              /\ settled l2 p p2
              /\ sizeIn BaseFeeSubPool p2 = sizeIn BaseFeeSubPool p1)
      as (p2 & l2 & Hstep & Hset2 & Hs2).
    { case_bool_decide.
      - destruct (inQueued_Add p1 x a1) as (p2 & Hadd & Hatt); [apply Hdet | done | done |].
        exists p2, []. split; [done |].
        split; [by apply (move_settled BaseFeeSubPool QueuedSubPool x p p1 p2) |].
        by apply (attached_sizes QueuedSubPool x p1 p2).
      - destruct (drop_settled BaseFeeSubPool x FeeTooLow p p1 Hcons Hcount)
          as (p2 & Hd & Hset & Hpools); [done | done |].
        exists p2, [(x, FeeTooLow)]. split; [done |]. split; [done |].
        unfold sizeIn. by rewrite Hpools. }
    rewrite Hstep. simpl.
    destruct (IH p2) as (p' & l & Hloop & Hset); [apply Hset2 | apply Hset2 | lia |].
    exists p', (l2 ++ l). split; [done |]. by apply (settled_trans l2 l p p2 p').
Qed.

Lemma promoteQueued_settled (pendingBaseFee : Z) (fuel : nat) :
  forall p, consistent p -> counted p -> (sizeIn QueuedSubPool p <= fuel)%nat ->
    exists p' l, promoteQueued pendingBaseFee fuel p = Some p' /\ settled l p p'.
Proof.
  induction fuel as [| fuel IH]; intros p Hcons Hcount Hsize; pose proof (c_ok p Hcons) as Hok.
  - simpl. unfold SubPool.Len, Interface.Len. rewrite bool_decide_eq_false_2; [stays p |].
    unfold sizeIn, members in Hsize. simpl in Hsize. lia.
  - cbn [promoteQueued]. unfold SubPool.Len, Interface.Len, SubPool.Best.
    case_bool_decide as Hlen; [| stays p].
    destruct (root_exists BestQueue p QueuedSubPool Hok) as (x & a & Hx0 & Hhd & Hin & Ha).
    { unfold members. simpl. lia. }
    simpl in Hx0, Hhd. rewrite Hhd. simpl. rewrite Ha. simpl.
    case_bool_decide as Hgood; [| stays p].
    destruct (popQueued_PopBest p x Hok Hx0) as (p1 & Hpop & Hdet).
    rewrite Hpop. simpl.
    destruct (d_self _ _ _ _ Hdet) as (a1 & Ha1 & Hcsp1).
    destruct (detached_sizes QueuedSubPool x p p1) as [Hs1 Hs1']; [done | done |].
    assert (exists p2, (if bool_decide (minFeeCap a >= pendingBaseFee)
                        then inPending (fun s => PendingPool.Add s x) p1
                        else inBaseFee (fun s => SubPool.Add s x) p1) = Some p2
              /\ settled [] p p2
              /\ sizeIn QueuedSubPool p2 = sizeIn QueuedSubPool p1)
      as (p2 & Hstep & Hset2 & Hs2).
    { case_bool_decide.
      - destruct (inPending_Add p1 x a1) as (p2 & Hadd & Hatt); [apply Hdet | done | done |].
        exists p2. split; [done |].
        split; [by apply (move_settled QueuedSubPool PendingSubPool x p p1 p2) |].
        by apply (attached_sizes PendingSubPool x p1 p2).
      - destruct (inBaseFee_Add p1 x a1) as (p2 & Hadd & Hatt); [apply Hdet | done | done |].
        exists p2. split; [done |].
        split; [by apply (move_settled QueuedSubPool BaseFeeSubPool x p p1 p2) |].
        by apply (attached_sizes BaseFeeSubPool x p1 p2). }
    rewrite Hstep. simpl.
    destruct (IH p2) as (p' & l & Hloop & Hset); [apply Hset2 | apply Hset2 | lia |].
    exists p', ([] ++ l). split; [done |]. by apply (settled_trans [] l p p2 p').
Qed.

Lemma discardQueued_settled (fuel : nat) :
  forall p, consistent p -> counted p -> (sizeIn QueuedSubPool p <= fuel)%nat ->
    exists p' l, discardQueued discardLocked fuel p = Some p' /\ settled l p p'.
Proof.
  induction fuel as [| fuel IH]; intros p Hcons Hcount Hsize; pose proof (c_ok p Hcons) as Hok.
  - simpl. unfold SubPool.Len, Interface.Len. rewrite bool_decide_eq_false_2; [stays p |].
    unfold sizeIn, members in Hsize. simpl in Hsize. lia.
  - cbn [discardQueued]. unfold SubPool.Len, Interface.Len, SubPool.Worst.
    case_bool_decide as Hlen; [| stays p].
    destruct (root_exists WorstQueue p QueuedSubPool Hok) as (x & a & Hx0 & Hhd & Hin & Ha).
    { unfold members. simpl. lia. }
    simpl in Hx0, Hhd. rewrite Hhd. simpl. rewrite Ha. simpl.
    case_bool_decide as Hbad; [| stays p].
    destruct (popQueued_PopWorst p x Hok Hx0) as (p1 & Hpop & Hdet).
    rewrite Hpop. simpl.
    destruct (detached_sizes QueuedSubPool x p p1) as [Hs1 Hs1']; [done | done |].
    destruct (drop_settled QueuedSubPool x FeeTooLow p p1 Hcons Hcount)
      as (p2 & Hd & Hset2 & Hpools); [done | done |].
    rewrite Hd. simpl.
    destruct (IH p2) as (p' & l & Hloop & Hset); [apply Hset2 | apply Hset2 | |].
    { unfold sizeIn in *. rewrite Hpools. lia. }
    exists p', ([(x, FeeTooLow)] ++ l). split; [done |].
    by apply (settled_trans [(x, FeeTooLow)] l p p2 p').
Qed.

Lemma overflowPending_settled (fuel : nat) :
  forall p, consistent p -> counted p -> 0 <= limit (pending p) ->
    (sizeIn PendingSubPool p <= fuel)%nat ->
    exists p' l, overflowPending discardLocked fuel p = Some p' /\ settled l p p'.
Proof.
  induction fuel as [| fuel IH]; intros p Hcons Hcount Hlimit Hsize;
    pose proof (c_ok p Hcons) as Hok.
  - simpl. unfold PendingPool.Len.
    assert (length (ms (best (pending p))) = 0%nat) as Hz
      by (unfold sizeIn, members in Hsize; simpl in Hsize; lia).
    rewrite bool_decide_eq_false_2 by lia. stays p.
  - cbn [overflowPending]. unfold PendingPool.Len.
    case_bool_decide as Hlen; [| stays p].
    destruct (root_exists WorstQueue p PendingSubPool Hok) as (x & a & Hx0 & Hhd & Hin & Ha).
    { unfold members. simpl. lia. }
    simpl in Hx0, Hin.
    destruct (popPending_PopWorst p x Hok Hx0) as (p1 & Hpop & Hdet).
    rewrite Hpop. simpl.
    destruct (detached_sizes PendingSubPool x p p1) as [Hs1 Hs1']; [done | done |].
    destruct (drop_settled PendingSubPool x PendingPoolOverflow p p1 Hcons Hcount)
      as (p2 & Hd & Hset2 & Hpools); [done | done |].
    rewrite Hd. simpl.
    destruct (IH p2) as (p' & l & Hloop & Hset); [apply Hset2 | apply Hset2 | | |].
    { pose proof (st_limit _ _ _ Hset2 PendingSubPool) as HL. simpl in HL. by rewrite HL. }
    { unfold sizeIn in *. rewrite Hpools. lia. }
    exists p', ([(x, PendingPoolOverflow)] ++ l). split; [done |].
    by apply (settled_trans [(x, PendingPoolOverflow)] l p p2 p').
Qed.

Lemma overflowBaseFee_settled (fuel : nat) :
  forall p, consistent p -> counted p -> 0 <= limit (baseFee p) ->
    (sizeIn BaseFeeSubPool p <= fuel)%nat ->
    exists p' l, overflowBaseFee discardLocked fuel p = Some p' /\ settled l p p'.
Proof.
  induction fuel as [| fuel IH]; intros p Hcons Hcount Hlimit Hsize;
    pose proof (c_ok p Hcons) as Hok.
  - simpl. unfold SubPool.Len, Interface.Len.
    assert (length (ms (best (baseFee p))) = 0%nat) as Hz
      by (unfold sizeIn, members in Hsize; simpl in Hsize; lia).
    rewrite bool_decide_eq_false_2 by lia. stays p.
  - cbn [overflowBaseFee]. unfold SubPool.Len, Interface.Len.
    case_bool_decide as Hlen; [| stays p].
    destruct (root_exists WorstQueue p BaseFeeSubPool Hok) as (x & a & Hx0 & Hhd & Hin & Ha).
    { unfold members. simpl. lia. }
    simpl in Hx0, Hin.
    destruct (popBaseFee_PopWorst p x Hok Hx0) as (p1 & Hpop & Hdet).
    rewrite Hpop. simpl.
    destruct (detached_sizes BaseFeeSubPool x p p1) as [Hs1 Hs1']; [done | done |].
    destruct (drop_settled BaseFeeSubPool x BaseFeePoolOverflow p p1 Hcons Hcount)
      as (p2 & Hd & Hset2 & Hpools); [done | done |].
    rewrite Hd. simpl.
    destruct (IH p2) as (p' & l & Hloop & Hset); [apply Hset2 | apply Hset2 | | |].
    { pose proof (st_limit _ _ _ Hset2 BaseFeeSubPool) as HL. simpl in HL. by rewrite HL. }
    { unfold sizeIn in *. rewrite Hpools. lia. }
    exists p', ([(x, BaseFeePoolOverflow)] ++ l). split; [done |].
    by apply (settled_trans [(x, BaseFeePoolOverflow)] l p p2 p').
Qed.

Lemma overflowQueued_settled (fuel : nat) :
  forall p, consistent p -> counted p -> 0 <= limit (queued p) ->
    (sizeIn QueuedSubPool p <= fuel)%nat ->
    exists p' l, overflowQueued discardLocked fuel p = Some p' /\ settled l p p'.
Proof.
  induction fuel as [| fuel IH]; intros p Hcons Hcount Hlimit Hsize;
    pose proof (c_ok p Hcons) as Hok.
  - simpl. unfold SubPool.Len, Interface.Len.
    assert (length (ms (best (queued p))) = 0%nat) as Hz
      by (unfold sizeIn, members in Hsize; simpl in Hsize; lia).
    rewrite bool_decide_eq_false_2 by lia. stays p.
  - cbn [overflowQueued]. unfold SubPool.Len, Interface.Len.
    case_bool_decide as Hlen; [| stays p].
    destruct (root_exists WorstQueue p QueuedSubPool Hok) as (x & a & Hx0 & Hhd & Hin & Ha).
    { unfold members. simpl. lia. }
    simpl in Hx0, Hin.
    destruct (popQueued_PopWorst p x Hok Hx0) as (p1 & Hpop & Hdet).
    rewrite Hpop. simpl.
    destruct (detached_sizes QueuedSubPool x p p1) as [Hs1 Hs1']; [done | done |].
    destruct (drop_settled QueuedSubPool x QueuedPoolOverflow p p1 Hcons Hcount)
      as (p2 & Hd & Hset2 & Hpools); [done | done |].
    rewrite Hd. simpl.
    destruct (IH p2) as (p' & l & Hloop & Hset); [apply Hset2 | apply Hset2 | | |].
    { pose proof (st_limit _ _ _ Hset2 QueuedSubPool) as HL. simpl in HL. by rewrite HL. }
    { unfold sizeIn in *. rewrite Hpools. lia. }
    exists p', ([(x, QueuedPoolOverflow)] ++ l). split; [done |].
    by apply (settled_trans [(x, QueuedPoolOverflow)] l p p2 p').
Qed.

(** The eight loops of [promote], one after the other. *)
Lemma promote_settled (pendingBaseFee : Z) (p : TxPool) :
  consistent p -> counted p ->
  0 <= limit (pending p) -> 0 <= limit (baseFee p) -> 0 <= limit (queued p) ->
  exists p' l, promote discardLocked pendingBaseFee p = Some p' /\ settled l p p'.
Proof.
  intros Hcons Hcount HLp HLb HLq. unfold promote.
  destruct (demotePending_settled pendingBaseFee (sizeOf (pending p)) p)
    as (p1 & l1 & H1 & S1); [done | done | done |].
  rewrite H1. simpl.
  destruct (promoteBaseFee_settled pendingBaseFee (sizeOf (baseFee p1)) p1)
    as (p2 & l2 & H2 & S2); [apply S1 | apply S1 | done |].
  rewrite H2. simpl.
  pose proof (settled_trans _ _ _ _ _ S1 S2) as T2.
  destruct (demoteBaseFee_settled (sizeOf (baseFee p2)) p2)
    as (p3 & l3 & H3 & S3); [apply S2 | apply S2 | done |].
  rewrite H3. simpl.
  pose proof (settled_trans _ _ _ _ _ T2 S3) as T3.
  destruct (promoteQueued_settled pendingBaseFee (sizeOf (queued p3)) p3)
    as (p4 & l4 & H4 & S4); [apply S3 | apply S3 | done |].
  rewrite H4. simpl.
  pose proof (settled_trans _ _ _ _ _ T3 S4) as T4.
  destruct (discardQueued_settled (sizeOf (queued p4)) p4)
    as (p5 & l5 & H5 & S5); [apply S4 | apply S4 | done |].
  rewrite H5. simpl.
  pose proof (settled_trans _ _ _ _ _ T4 S5) as T5.
  destruct (overflowPending_settled (sizeOf (pending p5)) p5)
    as (p6 & l6 & H6 & S6); [apply S5 | apply S5 | | done |].
  { pose proof (st_limit _ _ _ T5 PendingSubPool) as HL. simpl in HL. by rewrite HL. }
  rewrite H6. simpl.
  pose proof (settled_trans _ _ _ _ _ T5 S6) as T6.
  destruct (overflowBaseFee_settled (sizeOf (baseFee p6)) p6)
    as (p7 & l7 & H7 & S7); [apply S6 | apply S6 | | done |].
  { pose proof (st_limit _ _ _ T6 BaseFeeSubPool) as HL. simpl in HL. by rewrite HL. }
  rewrite H7. simpl.
  pose proof (settled_trans _ _ _ _ _ T6 S7) as T7.
  destruct (overflowQueued_settled (sizeOf (queued p7)) p7)
    as (p8 & l8 & H8 & S8); [apply S7 | apply S7 | | done |].
  { pose proof (st_limit _ _ _ T7 QueuedSubPool) as HL. simpl in HL. by rewrite HL. }
  exists p8, ((((((((l1 ++ l2) ++ l3) ++ l4) ++ l5) ++ l6) ++ l7) ++ l8)).
  split; [done |]. exact (settled_trans _ _ _ _ _ T7 S8).
Qed.

Lemma promote_conserves_spec (pendingBaseFee : Z) (p : TxPool) :
  consistent p -> counted p ->
  0 <= limit (pending p) -> 0 <= limit (baseFee p) -> 0 <= limit (queued p) ->
  exists p' l,
    promote discardLocked pendingBaseFee p = Some p'
    /\ consistent p' /\ counted p'
    /\ discards p' = discards p ++ l
    /\ (forall y, y ∈ l.*1 -> pooled p y)
    /\ (forall y, pooled p' y <-> pooled p y /\ y ∉ l.*1)
    /\ (forall y, y ∈ tree (all p') <-> y ∈ tree (all p) /\ y ∉ l.*1)
    /\ (forall h y, byHash p' !! h = Some y <-> byHash p !! h = Some y /\ y ∉ l.*1)
    /\ length (mem p') = length (mem p)
    /\ (forall y a, mem p !! y = Some a ->
          exists a', mem p' !! y = Some a' /\ sameData a a').
Proof.
  intros Hcons Hcount HLp HLb HLq.
  destruct (promote_settled pendingBaseFee p Hcons Hcount HLp HLb HLq) as (p' & l & Hrun & S).
  exists p', l. split; [done |].
  split; [apply S |]. split; [apply S |]. split; [apply S |]. split; [apply S |].
  split; [apply S |]. split; [apply S |]. split; [apply S |].
  destruct (st_frame _ _ _ S) as [Hlen Hdata]. split; [done | done].
Qed.

(** [promote] neither loses nor invents a transaction.  On a pool whose
    indexes agree, whose counts by sender are right and whose limits are
    not negative, it returns; the transactions it discarded were in a
    sub-pool and are now in none, in neither index; every other pooled
    transaction is still in a sub-pool and in both indexes; no
    transaction object changes its data; the indexes agree again and the
    counts are right. *)
Theorem promote_conserves (pendingBaseFee : Z) (p : TxPool) :
  consistent p -> counted p ->
  0 <= limit (pending p) -> 0 <= limit (baseFee p) -> 0 <= limit (queued p) ->
  exists p' l,
    promote discardLocked pendingBaseFee p = Some p'
    /\ consistent p' /\ counted p'
    /\ discards p' = discards p ++ l
    /\ (forall y, y ∈ l.*1 -> pooled p y)
    /\ (forall y, pooled p' y <-> pooled p y /\ y ∉ l.*1)
    /\ (forall y, y ∈ tree (all p') <-> y ∈ tree (all p) /\ y ∉ l.*1)
    /\ (forall h y, byHash p' !! h = Some y <-> byHash p !! h = Some y /\ y ∉ l.*1)
    /\ length (mem p') = length (mem p)
    /\ (forall y a, mem p !! y = Some a ->
          exists a', mem p' !! y = Some a' /\ sameData a a').
Proof. apply promote_conserves_spec. Qed.

Lemma threePending_consistent : consistent threePending.
Proof. apply consistentb_sound. vm_compute. reflexivity. Qed.

Lemma threePending_counted : counted threePending.
Proof. apply countedb_sound. vm_compute. reflexivity. Qed.

Lemma promote_conserves_witness :
  consistent threePending /\ counted threePending
  /\ exists p' l,
    promote discardLocked 10 threePending = Some p'
    /\ consistent p' /\ counted p'
    /\ discards p' = discards threePending ++ l
    /\ (forall y, y ∈ l.*1 -> pooled threePending y)
    /\ (forall y, pooled p' y <-> pooled threePending y /\ y ∉ l.*1)
    /\ (forall y, y ∈ tree (all p') <-> y ∈ tree (all threePending) /\ y ∉ l.*1)
    /\ (forall h y, byHash p' !! h = Some y <-> byHash threePending !! h = Some y /\ y ∉ l.*1)
    /\ length (mem p') = length (mem threePending)
    /\ (forall y a, mem threePending !! y = Some a ->
          exists a', mem p' !! y = Some a' /\ sameData a a').
Proof.
  split; [exact threePending_consistent |]. split; [exact threePending_counted |].
  apply (promote_conserves 10 threePending threePending_consistent threePending_counted);
    vm_compute; discriminate.
Defined.

(** * The loops of [promote], what they take out *)

Lemma promote_halves (discard : nat -> DiscardReason -> TxPool -> option TxPool)
  (pendingBaseFee : Z) (p : TxPool) :
  promote discard pendingBaseFee p
  = requalify discard pendingBaseFee p ≫= enforceLimits discard.
Proof.
  unfold promote, requalify, enforceLimits.
  destruct (demotePending _ _ _ _) as [p1 |]; [simpl | done].
  destruct (promoteBaseFee _ _ _) as [p2 |]; [simpl | done].
  destruct (demoteBaseFee _ _ _) as [p3 |]; [simpl | done].
  destruct (promoteQueued _ _ _) as [p4 |]; [simpl | done].
  by destruct (discardQueued _ _ _) as [p5 |].
Qed.

Lemma shifted_refl (p : TxPool) : poolsOK p -> shifted [] p p.
Proof.
  intros Hok. split.
  - by apply advanced_refl.
  - apply memFrame_refl.
  - intros y. split; [intros Hy; split; [done | apply not_elem_of_nil] | by intros [Hy _]].
  - intros y Hy. by apply not_elem_of_nil in Hy.
Qed.

Lemma shifted_trans (l1 l2 : list (nat * DiscardReason)) (p p1 p2 : TxPool) :
  shifted l1 p p1 -> shifted l2 p1 p2 -> shifted (l1 ++ l2) p p2.
Proof.
  intros [Ha1 Hf1 Hp1 Hfr1] [Ha2 Hf2 Hp2 Hfr2]. split.
  - by apply (advanced_trans l1 l2 p p1 p2).
  - by apply (memFrame_trans p p1).
  - intros y. rewrite Hp2, Hp1, fmap_app, elem_of_app. tauto.
  - intros y. rewrite fmap_app, elem_of_app. intros [Hy | Hy]; [by apply Hfr1 |].
    apply Hfr2 in Hy. by apply Hp1 in Hy as [Hy _].
Qed.

(** Popping a transaction and adding it to another sub-pool. *)
Lemma move_shifted (c c' : SubPoolType) (x : nat) (p p1 p2 : TxPool) :
  poolsOK p -> c <> NoSubPool -> c' <> NoSubPool ->
  detached c x p p1 -> attached c' x p1 p2 ->
  shifted [] p p2.
Proof.
  intros Hok Hc Hc' Hdet Hatt.
  pose proof (detached_cleared c x p p1 Hc Hok Hdet) as (_ & Hframe1 & _ & Hmem1 & _).
  pose proof (attached_elem c' x p1 p2 Hc' Hatt) as Helem2.
  assert (Hx : x ∈ members (poolOf c p)) by (apply (d_elem _ _ _ _ Hdet); by left).
  split.
  - apply (advanced_trans [] [] p p1 p2).
    + by apply (detached_advanced c x).
    + by apply (attached_advanced c' x).
  - apply (memFrame_trans p p1); [done | apply Hatt].
  - intros y. split.
    + intros [c0 Hy]. split; [| apply not_elem_of_nil].
      apply Helem2 in Hy as [[-> _] | Hy]; [by exists c |].
      apply Hmem1 in Hy as [Hy _]. by exists c0.
    + intros [[c0 Hy] _]. destruct (decide (y = x)) as [-> | Hne].
      * exists c'. apply (a_elem _ _ _ _ Hatt). by left.
      * exists c0. apply Helem2. right. apply Hmem1. split; [done |].
        by rewrite list_elem_of_singleton.
  - intros y Hy. by apply not_elem_of_nil in Hy.
Qed.

(** Popping a transaction and discarding it. *)
Lemma drop_shifted (c : SubPoolType) (x : nat) (reason : DiscardReason) (p p1 : TxPool) :
  poolsOK p -> c <> NoSubPool -> detached c x p p1 ->
  exists p2,
    discardLocked x reason p1 = Some p2
    /\ shifted [(x, reason)] p p2
    /\ (forall c0, poolOf c0 p2 = poolOf c0 p1).
Proof.
  intros Hok Hc Hdet.
  pose proof (detached_cleared c x p p1 Hc Hok Hdet) as (_ & Hframe1 & Hok1 & Hmem1 & _).
  assert (Hx : x ∈ members (poolOf c p)) by (apply (d_elem _ _ _ _ Hdet); by left).
  destruct (d_self _ _ _ _ Hdet) as (a1 & Ha1 & _).
  destruct (discardLocked_ok x reason p1 Hok1) as (p2 & Hdis & Hmem & Hpools & _);
    [by exists a1 |].
  destruct (discardLocked_advanced x reason p1 Hok1) as (p2' & Hdis' & Hadv & _);
    [by exists a1 |].
  assert (p2' = p2) as -> by congruence.
  exists p2. split; [done |]. split; [| done].
  assert (Hone : forall y, y ∉ [(x, reason)].*1 <-> y ∉ [x]) by done.
  split.
  - apply (advanced_trans [] [(x, reason)] p p1 p2); [| done].
    by apply (detached_advanced c x).
  - destruct Hframe1 as [Hlen Hdata]. split; by rewrite Hmem.
  - intros y. rewrite Hone. split.
    + intros [c0 Hy]. rewrite Hpools in Hy. apply Hmem1 in Hy as [Hy Hne].
      split; [by exists c0 | done].
    + intros [[c0 Hy] Hne]. exists c0. rewrite Hpools. by apply Hmem1.
  - intros y Hy. simpl in Hy. apply list_elem_of_singleton in Hy as ->. by exists c.
Qed.

Lemma lowFee_back (l : list (nat * DiscardReason)) (p p' : TxPool) :
  memFrame p p' -> lowFee p' l -> lowFee p l.
Proof.
  intros Hframe Hl. eapply Forall_impl; [exact Hl |].
  intros e [Hr (a' & Ha' & Hlow)]. split; [done |].
  destruct (memFrame_back p p' e.1 a' Hframe Ha') as (a & Ha & Hsame).
  exists a. split; [done |]. destruct Hsame as (_ & -> & _). done.
Qed.

Lemma lowFee_app (p : TxPool) (l1 l2 : list (nat * DiscardReason)) :
  lowFee p l1 -> lowFee p l2 -> lowFee p (l1 ++ l2).
Proof. apply Forall_app_2. Qed.

Lemma lowFee_tagged (p : TxPool) (l : list (nat * DiscardReason)) :
  lowFee p l -> tagged FeeTooLow l.
Proof. intros Hl. eapply Forall_impl; [exact Hl |]. by intros e [Hr _]. Qed.

Lemma detached_Permutation (c : SubPoolType) (x : nat) (p p' : TxPool) :
  poolsOK p -> c <> NoSubPool -> detached c x p p' ->
  members (poolOf c p) ≡ₚ x :: members (poolOf c p').
Proof.
  intros Hok Hc Hdet. apply NoDup_Permutation.
  - apply (qwf_NoDup BestQueue (mem p)). apply (ok_wf p Hok c).
  - apply NoDup_cons. split.
    + destruct (d_self _ _ _ _ Hdet) as (a' & Ha' & Hno).
      by apply (not_member_of_NoSubPool p' x a' c (d_ok _ _ _ _ Hdet)).
    + apply (qwf_NoDup BestQueue (mem p')). apply (ok_wf p' (d_ok _ _ _ _ Hdet) c).
  - intros y. rewrite elem_of_cons. apply (d_elem _ _ _ _ Hdet).
Qed.

Ltac rests p := exists p, []; split; [done |]; split; [by apply shifted_refl | constructor].

Lemma demotePending_shifts (pendingBaseFee : Z) (fuel : nat) :
  forall p, poolsOK p -> (sizeIn PendingSubPool p <= fuel)%nat ->
    exists p' l, demotePending discardLocked pendingBaseFee fuel p = Some p'
                 /\ shifted l p p' /\ lowFee p l.
Proof.
  induction fuel as [| fuel IH]; intros p Hok Hsize.
  - exists p, []. split; [| split; [by apply shifted_refl | constructor]].
    simpl. unfold PendingPool.Len. rewrite bool_decide_eq_false_2; [done |].
    unfold sizeIn, members in Hsize. simpl in Hsize. lia.
  - cbn [demotePending]. unfold PendingPool.Len, PendingPool.Worst.
    case_bool_decide as Hlen; [| rests p].
    destruct (root_exists WorstQueue p PendingSubPool Hok) as (x & a & Hx0 & Hhd & Hin & Ha).
    { unfold members. simpl. lia. }
    simpl in Hx0, Hhd. rewrite Hhd. simpl. rewrite Ha. simpl.
    destruct (bool_decide (subPool a < BaseFeePoolBits) || bool_decide (minFeeCap a < pendingBaseFee));
      [| rests p].
    destruct (popPending_PopWorst p x Hok Hx0) as (p1 & Hpop & Hdet).
    rewrite Hpop. simpl.
    destruct (d_self _ _ _ _ Hdet) as (a1 & Ha1 & Hcsp1).
    destruct (detached_sizes PendingSubPool x p p1) as [Hs1 Hs1']; [done | done |].
    assert (exists p2 l2, (if bool_decide (subPool a >= BaseFeePoolBits)
                           then inBaseFee (fun s => SubPool.Add s x) p1
                           else if bool_decide (subPool a >= QueuedPoolBits)
                           then inQueued (fun s => SubPool.Add s x) p1
                           else discardLocked x FeeTooLow p1) = Some p2
              /\ shifted l2 p p2 /\ lowFee p l2
              /\ sizeIn PendingSubPool p2 = sizeIn PendingSubPool p1)
      as (p2 & l2 & Hstep & Hsh2 & Hlow2 & Hs2).
    { case_bool_decide.
      - destruct (inBaseFee_Add p1 x a1) as (p2 & Hadd & Hatt); [apply Hdet | done | done |].
        exists p2, []. split; [done |].
        split; [by apply (move_shifted PendingSubPool BaseFeeSubPool x p p1 p2) |].
        split; [constructor |].
        by apply (attached_sizes BaseFeeSubPool x p1 p2).
      - case_bool_decide as Hq.
        + destruct (inQueued_Add p1 x a1) as (p2 & Hadd & Hatt); [apply Hdet | done | done |].
          exists p2, []. split; [done |].
          split; [by apply (move_shifted PendingSubPool QueuedSubPool x p p1 p2) |].
          split; [constructor |].
          by apply (attached_sizes QueuedSubPool x p1 p2).
        + destruct (drop_shifted PendingSubPool x FeeTooLow p p1 Hok) as (p2 & Hd & Hsh & Hpools);
            [done | done |].
          exists p2, [(x, FeeTooLow)]. split; [done |]. split; [done |]. split.
          * constructor; [| constructor]. split; [done |]. exists a. split; [done | lia].
          * unfold sizeIn. by rewrite Hpools. }
    rewrite Hstep. simpl.
    destruct (IH p2) as (p' & l & Hloop & Hsh & Hlow); [apply Hsh2 | lia |].
    exists p', (l2 ++ l). split; [done |]. split.
    + by apply (shifted_trans l2 l p p2 p').
    + apply lowFee_app; [done |]. apply (lowFee_back l p p2); [apply Hsh2 | done].
Qed.

Lemma promoteBaseFee_shifts (pendingBaseFee : Z) (fuel : nat) :
  forall p, poolsOK p -> (sizeIn BaseFeeSubPool p <= fuel)%nat ->
    exists p' l, promoteBaseFee pendingBaseFee fuel p = Some p'
                 /\ shifted l p p' /\ lowFee p l.
Proof.
  induction fuel as [| fuel IH]; intros p Hok Hsize.
  - exists p, []. split; [| split; [by apply shifted_refl | constructor]].
    simpl. unfold SubPool.Len, Interface.Len. rewrite bool_decide_eq_false_2; [done |].
    unfold sizeIn, members in Hsize. simpl in Hsize. lia.
  - cbn [promoteBaseFee]. unfold SubPool.Len, Interface.Len, SubPool.Best.
    case_bool_decide as Hlen; [| rests p].
    destruct (root_exists BestQueue p BaseFeeSubPool Hok) as (x & a & Hx0 & Hhd & Hin & Ha).
    { unfold members. simpl. lia. }
    simpl in Hx0, Hhd. rewrite Hhd. simpl. rewrite Ha. simpl.
    destruct (bool_decide (subPool a >= BaseFeePoolBits) && bool_decide (minFeeCap a >= pendingBaseFee));
      [| rests p].
    destruct (popBaseFee_PopBest p x Hok Hx0) as (p1 & Hpop & Hdet).
    rewrite Hpop. simpl.
    destruct (d_self _ _ _ _ Hdet) as (a1 & Ha1 & Hcsp1).
    destruct (detached_sizes BaseFeeSubPool x p p1) as [Hs1 Hs1']; [done | done |].
    destruct (inPending_Add p1 x a1) as (p2 & Hadd & Hatt); [apply Hdet | done | done |].
    rewrite Hadd. simpl.
    destruct (attached_sizes PendingSubPool x p1 p2) as [_ Hs2]; [done | done |].
    pose proof (move_shifted BaseFeeSubPool PendingSubPool x p p1 p2 Hok) as Hsh2.
    destruct (IH p2) as (p' & l & Hloop & Hsh & Hlow).
    { apply Hatt. } { rewrite Hs2 by done. lia. }
    exists p', ([] ++ l). split; [done |]. split.
    + apply (shifted_trans [] l p p2 p'); [by apply Hsh2 | done].
    + apply (lowFee_back l p p2); [by apply Hsh2 | done].
Qed.

Lemma demoteBaseFee_shifts (fuel : nat) :
  forall p, poolsOK p -> (sizeIn BaseFeeSubPool p <= fuel)%nat ->
    exists p' l, demoteBaseFee discardLocked fuel p = Some p'
                 /\ shifted l p p' /\ lowFee p l.
Proof.
  induction fuel as [| fuel IH]; intros p Hok Hsize.
  - exists p, []. split; [| split; [by apply shifted_refl | constructor]].
    simpl. unfold SubPool.Len, Interface.Len. rewrite bool_decide_eq_false_2; [done |].
    unfold sizeIn, members in Hsize. simpl in Hsize. lia.
  - cbn [demoteBaseFee]. unfold SubPool.Len, Interface.Len, SubPool.Worst.
    case_bool_decide as Hlen; [| rests p].
    destruct (root_exists WorstQueue p BaseFeeSubPool Hok) as (x & a & Hx0 & Hhd & Hin & Ha).
    { unfold members. simpl. lia. }
    simpl in Hx0, Hhd. rewrite Hhd. simpl. rewrite Ha. simpl.
    case_bool_decide as Hbad; [| rests p].
    destruct (popBaseFee_PopWorst p x Hok Hx0) as (p1 & Hpop & Hdet).
    rewrite Hpop. simpl.
    destruct (d_self _ _ _ _ Hdet) as (a1 & Ha1 & Hcsp1).
    destruct (detached_sizes BaseFeeSubPool x p p1) as [Hs1 Hs1']; [done | done |].
    assert (exists p2 l2, (if bool_decide (subPool a >= QueuedPoolBits)
                           then inQueued (fun s => SubPool.Add s x) p1
                           else discardLocked x FeeTooLow p1) = Some p2
              /\ shifted l2 p p2 /\ lowFee p l2
              /\ sizeIn BaseFeeSubPool p2 = sizeIn BaseFeeSubPool p1)
      as (p2 & l2 & Hstep & Hsh2 & Hlow2 & Hs2).
    { case_bool_decide as Hq.
      - destruct (inQueued_Add p1 x a1) as (p2 & Hadd & Hatt); [apply Hdet | done | done |].
        exists p2, []. split; [done |].
        split; [by apply (move_shifted BaseFeeSubPool QueuedSubPool x p p1 p2) |].
        split; [constructor |].
        by apply (attached_sizes QueuedSubPool x p1 p2).
      - destruct (drop_shifted BaseFeeSubPool x FeeTooLow p p1 Hok) as (p2 & Hd & Hsh & Hpools);
          [done | done |].
        exists p2, [(x, FeeTooLow)]. split; [done |]. split; [done |]. split.
        + constructor; [| constructor]. split; [done |]. exists a. split; [done | lia].
        + unfold sizeIn. by rewrite Hpools. }
    rewrite Hstep. simpl.
    destruct (IH p2) as (p' & l & Hloop & Hsh & Hlow); [apply Hsh2 | lia |].
    exists p', (l2 ++ l). split; [done |]. split.
    + by apply (shifted_trans l2 l p p2 p').
    + apply lowFee_app; [done |]. apply (lowFee_back l p p2); [apply Hsh2 | done].
Qed.

Lemma promoteQueued_shifts (pendingBaseFee : Z) (fuel : nat) :
  forall p, poolsOK p -> (sizeIn QueuedSubPool p <= fuel)%nat ->
    exists p' l, promoteQueued pendingBaseFee fuel p = Some p'
                 /\ shifted l p p' /\ lowFee p l.
Proof.
  induction fuel as [| fuel IH]; intros p Hok Hsize.
  - exists p, []. split; [| split; [by apply shifted_refl | constructor]].
    simpl. unfold SubPool.Len, Interface.Len. rewrite bool_decide_eq_false_2; [done |].
    unfold sizeIn, members in Hsize. simpl in Hsize. lia.
  - cbn [promoteQueued]. unfold SubPool.Len, Interface.Len, SubPool.Best.
    case_bool_decide as Hlen; [| rests p].
    destruct (root_exists BestQueue p QueuedSubPool Hok) as (x & a & Hx0 & Hhd & Hin & Ha).
    { unfold members. simpl. lia. }
    simpl in Hx0, Hhd. rewrite Hhd. simpl. rewrite Ha. simpl.
    case_bool_decide as Hgood; [| rests p].
    destruct (popQueued_PopBest p x Hok Hx0) as (p1 & Hpop & Hdet).
    rewrite Hpop. simpl.
    destruct (d_self _ _ _ _ Hdet) as (a1 & Ha1 & Hcsp1).
    destruct (detached_sizes QueuedSubPool x p p1) as [Hs1 Hs1']; [done | done |].
    assert (exists p2, (if bool_decide (minFeeCap a >= pendingBaseFee)
                        then inPending (fun s => PendingPool.Add s x) p1
                        else inBaseFee (fun s => SubPool.Add s x) p1) = Some p2
              /\ shifted [] p p2
              /\ sizeIn QueuedSubPool p2 = sizeIn QueuedSubPool p1)
      as (p2 & Hstep & Hsh2 & Hs2).
    { case_bool_decide.
      - destruct (inPending_Add p1 x a1) as (p2 & Hadd & Hatt); [apply Hdet | done | done |].
        exists p2. split; [done |].
        split; [by apply (move_shifted QueuedSubPool PendingSubPool x p p1 p2) |].
        by apply (attached_sizes PendingSubPool x p1 p2).
      - destruct (inBaseFee_Add p1 x a1) as (p2 & Hadd & Hatt); [apply Hdet | done | done |].
        exists p2. split; [done |].
        split; [by apply (move_shifted QueuedSubPool BaseFeeSubPool x p p1 p2) |].
        by apply (attached_sizes BaseFeeSubPool x p1 p2). }
    rewrite Hstep. simpl.
    destruct (IH p2) as (p' & l & Hloop & Hsh & Hlow); [apply Hsh2 | lia |].
    exists p', ([] ++ l). split; [done |]. split.
    + by apply (shifted_trans [] l p p2 p').
    + apply (lowFee_back l p p2); [apply Hsh2 | done].
Qed.

Lemma discardQueued_shifts (fuel : nat) :
  forall p, poolsOK p -> (sizeIn QueuedSubPool p <= fuel)%nat ->
    exists p' l, discardQueued discardLocked fuel p = Some p'
                 /\ shifted l p p' /\ lowFee p l.
Proof.
  induction fuel as [| fuel IH]; intros p Hok Hsize.
  - exists p, []. split; [| split; [by apply shifted_refl | constructor]].
    simpl. unfold SubPool.Len, Interface.Len. rewrite bool_decide_eq_false_2; [done |].
    unfold sizeIn, members in Hsize. simpl in Hsize. lia.
  - cbn [discardQueued]. unfold SubPool.Len, Interface.Len, SubPool.Worst.
    case_bool_decide as Hlen; [| rests p].
    destruct (root_exists WorstQueue p QueuedSubPool Hok) as (x & a & Hx0 & Hhd & Hin & Ha).
    { unfold members. simpl. lia. }
    simpl in Hx0, Hhd. rewrite Hhd. simpl. rewrite Ha. simpl.
    case_bool_decide as Hbad; [| rests p].
    destruct (popQueued_PopWorst p x Hok Hx0) as (p1 & Hpop & Hdet).
    rewrite Hpop. simpl.
    destruct (detached_sizes QueuedSubPool x p p1) as [Hs1 Hs1']; [done | done |].
    destruct (drop_shifted QueuedSubPool x FeeTooLow p p1 Hok) as (p2 & Hd & Hsh2 & Hpools);
      [done | done |].
    rewrite Hd. simpl.
    destruct (IH p2) as (p' & l & Hloop & Hsh & Hlow).
    { apply Hsh2. } { unfold sizeIn in *. rewrite Hpools. lia. }
    exists p', ([(x, FeeTooLow)] ++ l). split; [done |]. split.
    + by apply (shifted_trans [(x, FeeTooLow)] l p p2 p').
    + apply lowFee_app; [| apply (lowFee_back l p p2); [apply Hsh2 | done]].
      constructor; [| constructor]. split; [done |]. by exists a.
Qed.

(** ** The capacity loops

    The three loops differ in the sub-pool, in the method that pops its
    worst transaction and in the reason they log. *)
Section Overflow.

Variable c : SubPoolType.
Variable r : DiscardReason.
Variable pop : TxPool -> option (nat * TxPool).
Variable loop : nat -> TxPool -> option TxPool.

Hypothesis c_real : c <> NoSubPool.

Hypothesis loop_eq : forall fuel p,
  loop fuel p
  = if bool_decide (Z.of_nat (sizeIn c p) > limit (poolOf c p)) then
      match fuel with
      | O => None
      | S fuel' => '(i, p) ← pop p; p ← discardLocked i r p; loop fuel' p
      end
    else Some p.

Hypothesis pop_worst : forall p x,
  poolsOK p -> ms (worst (poolOf c p)) !! 0%nat = Some x ->
  exists p', pop p = Some (x, p') /\ detached c x p p'.

Lemma evicted_refl (p : TxPool) :
  Z.of_nat (sizeIn c p) <= limit (poolOf c p) -> evicted c [] p p.
Proof. intros Hle. split; [done | simpl; lia | done]. Qed.

Lemma overflow_evicts (fuel : nat) :
  forall p, poolsOK p -> 0 <= limit (poolOf c p) -> (sizeIn c p <= fuel)%nat ->
    exists p' l, loop fuel p = Some p'
      /\ shifted l p p' /\ tagged r l /\ evicted c l p p'
      /\ Z.of_nat (sizeIn c p') <= limit (poolOf c p).
Proof.
  induction fuel as [| fuel IH]; intros p Hok Hlimit Hsize; rewrite loop_eq.
  - rewrite bool_decide_eq_false_2 by lia.
    exists p, []. split; [done |]. split; [by apply shifted_refl |]. split; [constructor |].
    split; [apply evicted_refl |]; lia.
  - case_bool_decide as Hlen.
    2: { exists p, []. split; [done |]. split; [by apply shifted_refl |].
         split; [constructor |]. split; [apply evicted_refl |]; lia. }
    destruct (root_exists WorstQueue p c Hok) as (x & a & Hx0 & _ & Hin & Ha);
      [unfold sizeIn in Hlen; lia |].
    simpl in Hx0.
    destruct (pop_worst p x Hok Hx0) as (p1 & Hpop & Hdet).
    rewrite Hpop. simpl.
    destruct (detached_sizes c x p p1) as [Hs1 _]; [done | done |].
    pose proof (detached_Permutation c x p p1 Hok c_real Hdet) as Hperm1.
    destruct (drop_shifted c x r p p1 Hok c_real Hdet) as (p2 & Hd & Hsh2 & Hpools).
    rewrite Hd. simpl.
    assert (HL2 : limit (poolOf c p2) = limit (poolOf c p)).
    { rewrite Hpools. apply Hdet. }
    assert (Hs2 : sizeIn c p2 = sizeIn c p1) by (unfold sizeIn; by rewrite Hpools).
    destruct (IH p2) as (p' & l & Hloop & Hsh & Htag & [Hperm Hexcess Hothers] & Hle).
    { apply Hsh2. } { by rewrite HL2. } { lia. }
    exists p', ([(x, r)] ++ l). split; [done |].
    split; [by apply (shifted_trans [(x, r)] l p p2 p') |].
    split; [by constructor |]. split; [| by rewrite <- HL2].
    split.
    + rewrite Hperm1. simpl. f_equiv. by rewrite <- Hperm, Hpools.
    + simpl. rewrite Hexcess, HL2. lia.
    + intros c' Hne Hc'. rewrite (Hothers c' Hne Hc'), Hpools.
      by apply (d_others _ _ _ _ Hdet).
Qed.

End Overflow.

Lemma overflowPending_evicts (fuel : nat) (p : TxPool) :
  poolsOK p -> 0 <= limit (pending p) -> (sizeIn PendingSubPool p <= fuel)%nat ->
  exists p' l, overflowPending discardLocked fuel p = Some p'
    /\ shifted l p p' /\ tagged PendingPoolOverflow l /\ evicted PendingSubPool l p p'
    /\ Z.of_nat (sizeIn PendingSubPool p') <= limit (pending p).
Proof.
  apply (overflow_evicts PendingSubPool PendingPoolOverflow
           (popPending PendingPool.PopWorst) (overflowPending discardLocked)); [done | |].
  - by intros [].
  - apply popPending_PopWorst.
Qed.

Lemma overflowBaseFee_evicts (fuel : nat) (p : TxPool) :
  poolsOK p -> 0 <= limit (baseFee p) -> (sizeIn BaseFeeSubPool p <= fuel)%nat ->
  exists p' l, overflowBaseFee discardLocked fuel p = Some p'
    /\ shifted l p p' /\ tagged BaseFeePoolOverflow l /\ evicted BaseFeeSubPool l p p'
    /\ Z.of_nat (sizeIn BaseFeeSubPool p') <= limit (baseFee p).
Proof.
  apply (overflow_evicts BaseFeeSubPool BaseFeePoolOverflow
           (popBaseFee SubPool.PopWorst) (overflowBaseFee discardLocked)); [done | |].
  - by intros [].
  - apply popBaseFee_PopWorst.
Qed.

Lemma overflowQueued_evicts (fuel : nat) (p : TxPool) :
  poolsOK p -> 0 <= limit (queued p) -> (sizeIn QueuedSubPool p <= fuel)%nat ->
  exists p' l, overflowQueued discardLocked fuel p = Some p'
    /\ shifted l p p' /\ tagged QueuedPoolOverflow l /\ evicted QueuedSubPool l p p'
    /\ Z.of_nat (sizeIn QueuedSubPool p') <= limit (queued p).
Proof.
  apply (overflow_evicts QueuedSubPool QueuedPoolOverflow
           (popQueued SubPool.PopWorst) (overflowQueued discardLocked)); [done | |].
  - by intros [].
  - apply popQueued_PopWorst.
Qed.

Lemma requalify_shifts (pendingBaseFee : Z) (p : TxPool) :
  poolsOK p ->
  exists q fees, requalify discardLocked pendingBaseFee p = Some q
                 /\ shifted fees p q /\ lowFee p fees.
Proof.
  intros Hok. unfold requalify.
  destruct (demotePending_shifts pendingBaseFee (sizeOf (pending p)) p Hok)
    as (p1 & l1 & -> & S1 & F1); [done |]. simpl.
  pose proof (adv_ok _ _ _ (sh_advanced _ _ _ S1)) as Hok1.
  destruct (promoteBaseFee_shifts pendingBaseFee (sizeOf (baseFee p1)) p1 Hok1)
    as (p2 & l2 & -> & S2 & F2); [done |]. simpl.
  pose proof (adv_ok _ _ _ (sh_advanced _ _ _ S2)) as Hok2.
  pose proof (shifted_trans _ _ _ _ _ S1 S2) as T2.
  destruct (demoteBaseFee_shifts (sizeOf (baseFee p2)) p2 Hok2)
    as (p3 & l3 & -> & S3 & F3); [done |]. simpl.
  pose proof (adv_ok _ _ _ (sh_advanced _ _ _ S3)) as Hok3.
  pose proof (shifted_trans _ _ _ _ _ T2 S3) as T3.
  destruct (promoteQueued_shifts pendingBaseFee (sizeOf (queued p3)) p3 Hok3)
    as (p4 & l4 & -> & S4 & F4); [done |]. simpl.
  pose proof (adv_ok _ _ _ (sh_advanced _ _ _ S4)) as Hok4.
  pose proof (shifted_trans _ _ _ _ _ T3 S4) as T4.
  destruct (discardQueued_shifts (sizeOf (queued p4)) p4 Hok4)
    as (p5 & l5 & -> & S5 & F5); [done |].
  pose proof (shifted_trans _ _ _ _ _ T4 S5) as T5.
  exists p5, ((((l1 ++ l2) ++ l3) ++ l4) ++ l5). split; [done |]. split; [done |].
  repeat apply lowFee_app.
  - done.
  - by apply (lowFee_back l2 p p1); [apply S1 |].
  - by apply (lowFee_back l3 p p2); [apply T2 |].
  - by apply (lowFee_back l4 p p3); [apply T3 |].
  - by apply (lowFee_back l5 p p4); [apply T4 |].
Qed.

Lemma enforceLimits_evicts (q : TxPool) :
  poolsOK q ->
  0 <= limit (pending q) -> 0 <= limit (baseFee q) -> 0 <= limit (queued q) ->
  exists p' overPending overBaseFee overQueued,
    enforceLimits discardLocked q = Some p'
    /\ shifted (overPending ++ overBaseFee ++ overQueued) q p'
    /\ tagged PendingPoolOverflow overPending
    /\ tagged BaseFeePoolOverflow overBaseFee
    /\ tagged QueuedPoolOverflow overQueued
    /\ (forall c, c <> NoSubPool -> Z.of_nat (sizeIn c p') <= limit (poolOf c q))
    /\ (forall c l, (c = PendingSubPool /\ l = overPending)
                    \/ (c = BaseFeeSubPool /\ l = overBaseFee)
                    \/ (c = QueuedSubPool /\ l = overQueued) ->
          members (poolOf c q) ≡ₚ l.*1 ++ members (poolOf c p')
          /\ length l = Z.to_nat (Z.of_nat (sizeIn c q) - limit (poolOf c q))).
Proof.
  intros Hok HLp HLb HLq. unfold enforceLimits.
  destruct (overflowPending_evicts (sizeOf (pending q)) q Hok HLp)
    as (p6 & vp & -> & S6 & T6 & [M6 X6 O6] & B6); [done |]. simpl.
  pose proof (adv_ok _ _ _ (sh_advanced _ _ _ S6)) as Hok6.
  pose proof (O6 BaseFeeSubPool) as E6b. pose proof (O6 QueuedSubPool) as E6q.
  simpl in E6b, E6q. specialize (E6b ltac:(done) ltac:(done)).
  specialize (E6q ltac:(done) ltac:(done)).
  destruct (overflowBaseFee_evicts (sizeOf (baseFee p6)) p6 Hok6)
    as (p7 & vb & -> & S7 & T7 & [M7 X7 O7] & B7); [by rewrite E6b | done |]. simpl.
  pose proof (adv_ok _ _ _ (sh_advanced _ _ _ S7)) as Hok7.
  pose proof (O7 PendingSubPool) as E7p. pose proof (O7 QueuedSubPool) as E7q.
  simpl in E7p, E7q. specialize (E7p ltac:(done) ltac:(done)).
  specialize (E7q ltac:(done) ltac:(done)).
  destruct (overflowQueued_evicts (sizeOf (queued p7)) p7 Hok7)
    as (p8 & vq & Hrun & S8 & T8 & [M8 X8 O8] & B8); [by rewrite E7q, E6q | done |].
  pose proof (O8 PendingSubPool) as E8p. pose proof (O8 BaseFeeSubPool) as E8b.
  simpl in E8p, E8b. specialize (E8p ltac:(done) ltac:(done)).
  specialize (E8b ltac:(done) ltac:(done)).
  exists p8, vp, vb, vq. split; [done |].
  split; [apply (shifted_trans vp _ q p6 p8 S6), (shifted_trans vb vq p6 p7 p8 S7 S8) |].
  split; [done |]. split; [done |]. split; [done |].
  unfold sizeIn in *. simpl in *. split.
  - intros [] Hc; simpl; [done | by rewrite E8p, E7p | by rewrite E8b, <- E6b | ].
    by rewrite <- E6q, <- E7q.
  - intros c l [[-> ->] | [[-> ->] | [-> ->]]]; simpl.
    + by rewrite E8p, E7p.
    + by rewrite E8b, <- E6b.
    + by rewrite <- E6q, <- E7q.
Qed.

(** C7.  On a well-formed pool with non-negative limits [promote]
    returns, and each sub-pool then holds at most its limit.  The five
    loops that requalify leave the pool [q], the three capacity loops
    take it to the result [p'].  What the capacity loops take out of a
    sub-pool is what they log for it: the log of [promote] is, in this
    order, the discards of the first five loops, all [FeeTooLow] and of
    transactions whose markers are below [QueuedPoolBits], then the
    transactions taken out of pending, all [PendingPoolOverflow], those
    taken out of baseFee, all [BaseFeePoolOverflow], and those taken out
    of queued, all [QueuedPoolOverflow]; each of the three lists, with
    what the sub-pool holds in the end, is what the sub-pool held in
    [q], and it has as many entries as the sub-pool held above its limit
    in [q].  Every transaction logged was in a sub-pool, and a
    transaction is in a sub-pool in the end exactly when it was in one
    and is not logged. *)
Theorem promote_capacity (pendingBaseFee : Z) (p : TxPool) :
  poolsOK p ->
  0 <= limit (pending p) -> 0 <= limit (baseFee p) -> 0 <= limit (queued p) ->
  exists q p' fees overPending overBaseFee overQueued,
    promote discardLocked pendingBaseFee p = Some p'
    /\ requalify discardLocked pendingBaseFee p = Some q
    /\ enforceLimits discardLocked q = Some p'
    /\ PendingPool.Len (pending p') <= limit (pending p')
    /\ SubPool.Len (baseFee p') <= limit (baseFee p')
    /\ SubPool.Len (queued p') <= limit (queued p')
    /\ discards q = discards p ++ fees
    /\ discards p' = discards p ++ fees ++ overPending ++ overBaseFee ++ overQueued
    /\ tagged FeeTooLow fees
    /\ (forall x, x ∈ fees.*1 -> unqualified p x)
    /\ tagged PendingPoolOverflow overPending
    /\ tagged BaseFeePoolOverflow overBaseFee
    /\ tagged QueuedPoolOverflow overQueued
    /\ members (pending q) ≡ₚ overPending.*1 ++ members (pending p')
    /\ length overPending = Z.to_nat (PendingPool.Len (pending q) - limit (pending q))
    /\ members (baseFee q) ≡ₚ overBaseFee.*1 ++ members (baseFee p')
    /\ length overBaseFee = Z.to_nat (SubPool.Len (baseFee q) - limit (baseFee q))
    /\ members (queued q) ≡ₚ overQueued.*1 ++ members (queued p')
    /\ length overQueued = Z.to_nat (SubPool.Len (queued q) - limit (queued q))
    /\ (forall c, limit (poolOf c q) = limit (poolOf c p)
                  /\ limit (poolOf c p') = limit (poolOf c p))
    /\ (forall y, y ∈ (fees ++ overPending ++ overBaseFee ++ overQueued).*1 -> pooled p y)
    /\ (forall y, pooled p' y
                  <-> pooled p y /\ y ∉ (fees ++ overPending ++ overBaseFee ++ overQueued).*1)
    /\ poolsOK p'.
Proof.
  intros Hok HLp HLb HLq.
  destruct (requalify_shifts pendingBaseFee p Hok) as (q & fees & Hq & Sq & Fq).
  pose proof (sh_advanced _ _ _ Sq) as Aq.
  pose proof (adv_limit _ _ _ Aq) as Lq.
  pose proof (Lq PendingSubPool) as LqP. pose proof (Lq BaseFeeSubPool) as LqB.
  pose proof (Lq QueuedSubPool) as LqQ. simpl in LqP, LqB, LqQ.
  destruct (enforceLimits_evicts q (adv_ok _ _ _ Aq))
    as (p' & vp & vb & vq & Hp' & Sp & Tp & Tb & Tq & Hbound & Hev);
    [by rewrite LqP | by rewrite LqB | by rewrite LqQ |].
  pose proof (shifted_trans _ _ _ _ _ Sq Sp) as S.
  pose proof (sh_advanced _ _ _ Sp) as Ap.
  pose proof (sh_advanced _ _ _ S) as A.
  pose proof (adv_limit _ _ _ Ap) as Lp.
  exists q, p', fees, vp, vb, vq.
  split; [by rewrite promote_halves, Hq |]. split; [done |]. split; [done |].
  split.
  { pose proof (Lp PendingSubPool) as HL. simpl in HL. rewrite HL.
    exact (Hbound PendingSubPool ltac:(done)). }
  split.
  { pose proof (Lp BaseFeeSubPool) as HL. simpl in HL. rewrite HL.
    exact (Hbound BaseFeeSubPool ltac:(done)). }
  split.
  { pose proof (Lp QueuedSubPool) as HL. simpl in HL. rewrite HL.
    exact (Hbound QueuedSubPool ltac:(done)). }
  split; [apply Aq |]. split; [apply A |].
  split; [by apply (lowFee_tagged p) |].
  split.
  { intros x Hx. apply list_elem_of_fmap in Hx as (e & -> & He).
    unfold lowFee in Fq. rewrite Forall_forall in Fq. by apply Fq. }
  split; [done |]. split; [done |]. split; [done |].
  destruct (Hev PendingSubPool vp) as [Mp Xp]; [by left |].
  destruct (Hev BaseFeeSubPool vb) as [Mb Xb]; [right; by left |].
  destruct (Hev QueuedSubPool vq) as [Mq Xq]; [right; by right |].
  split; [done |]. split; [done |]. split; [done |]. split; [done |].
  split; [done |]. split; [done |].
  split. { intros c. split; [apply Lq | apply (adv_limit _ _ _ A)]. }
  split; [apply S |]. split; [apply S | apply A].
Qed.

Lemma promote_capacity_witness :
  poolsOK threePending
  /\ 0 <= limit (pending threePending) /\ 0 <= limit (baseFee threePending)
  /\ 0 <= limit (queued threePending)
  /\ exists q p',
    requalify discardLocked 10 threePending = Some q
    /\ promote discardLocked 10 threePending = Some p'
    /\ members (pending q) = [0%nat; 1%nat; 2%nat] /\ limit (pending q) = 2
    /\ members (pending p') = [2%nat; 1%nat]
    /\ discards q = []
    /\ discards p' = [(0%nat, PendingPoolOverflow)].
Proof.
  assert (Hok : poolsOK threePending) by (apply poolsOKb_sound; vm_compute; reflexivity).
  split; [exact Hok |].
  split; [vm_compute; discriminate |]. split; [vm_compute; discriminate |].
  split; [vm_compute; discriminate |].
  destruct (promote_capacity 10 threePending Hok) as (q & p' & _ & _ & _ & _ & Hp & Hq & _);
    [vm_compute; discriminate | vm_compute; discriminate | vm_compute; discriminate |].
  exists q, p'. split; [exact Hq |]. split; [exact Hp |].
  vm_compute in Hq. injection Hq as <-. vm_compute in Hp. injection Hp as <-.
  repeat split.
Defined.

(** * The sender registry *)

Lemma registered_new (traced : gset string) :
  registered (sendersBatch.newSendersCache traced).
Proof. split; simpl; [done | done | unfold MaxUint64; lia]. Qed.

Lemma registered_injective (sc : sendersBatch.t) (a1 a2 : string) (id : Z) :
  registered sc ->
  sendersBatch.senderIDs sc !! a1 = Some id -> sendersBatch.senderIDs sc !! a2 = Some id ->
  a1 = a2.
Proof.
  intros Hreg H1 H2.
  pose proof (reg_back sc Hreg _ _ H1) as B1.
  pose proof (reg_back sc Hreg _ _ H2) as B2. congruence.
Qed.

Lemma getOrCreateID_known (sc : sendersBatch.t) (addr : string) (id : Z) :
  sendersBatch.senderIDs sc !! addr = Some id ->
  sendersBatch.getOrCreateID sc addr
  = ((id, bool_decide (addr ∈ sendersBatch.tracedSenders sc)), sc).
Proof. intros H. unfold sendersBatch.getOrCreateID. by rewrite H. Qed.

Lemma getOrCreateID_spec (sc : sendersBatch.t) (addr : string) :
  registered sc ->
  (sendersBatch.senderIDs sc !! addr = None -> sendersBatch.senderID sc < MaxUint64) ->
  exists id sc',
    sendersBatch.getOrCreateID sc addr
    = ((id, bool_decide (addr ∈ sendersBatch.tracedSenders sc)), sc')
    /\ registered sc'
    /\ sendersBatch.getID sc' addr = (id, true)
    /\ sendersBatch.senderID2Addr sc' !! id = Some addr
    /\ 1 <= id
    /\ (forall addr', addr' <> addr ->
          sendersBatch.getID sc' addr' = sendersBatch.getID sc addr')
    /\ (forall addr' id', addr' <> addr ->
          sendersBatch.getID sc' addr' = (id', true) -> id' <> id)
    /\ (forall id0, sendersBatch.getID sc addr = (id0, true) -> id = id0 /\ sc' = sc)
    /\ (sendersBatch.getID sc addr = (0, false) ->
          id = sendersBatch.senderID sc + 1 /\ sendersBatch.senderID sc' = id)
    /\ sendersBatch.senderID sc <= sendersBatch.senderID sc'
    /\ sendersBatch.senderID sc' <= sendersBatch.senderID sc + 1
    /\ sendersBatch.tracedSenders sc' = sendersBatch.tracedSenders sc
    /\ sendersBatch.getOrCreateID sc' addr
       = ((id, bool_decide (addr ∈ sendersBatch.tracedSenders sc)), sc').
Proof.
  intros Hreg Hroom.
  destruct (sendersBatch.senderIDs sc !! addr) as [id |] eqn:Hid.
  - exists id, sc. rewrite (getOrCreateID_known sc addr id Hid).
    split; [done |]. split; [done |].
    split; [by unfold sendersBatch.getID; rewrite Hid |].
    split; [by apply (reg_back sc Hreg) |].
    split; [by apply (reg_range sc Hreg addr id) |].
    split; [done |].
    split.
    { intros addr' id' Hne Hget Heq. subst id'.
      unfold sendersBatch.getID in Hget.
      destruct (sendersBatch.senderIDs sc !! addr') as [i |] eqn:Hi; [| done].
      injection Hget as ->. apply Hne. by apply (registered_injective sc addr' addr id). }
    split.
    { intros id0. unfold sendersBatch.getID. rewrite Hid. by intros [= ->]. }
    split; [by unfold sendersBatch.getID; rewrite Hid |].
    split; [lia |]. split; [lia |]. done.
  - specialize (Hroom eq_refl). pose proof (reg_counter sc Hreg) as Hc.
    assert (Hu : u64 (sendersBatch.senderID sc + 1) = sendersBatch.senderID sc + 1).
    { unfold u64. apply Z.mod_small. unfold MaxUint64 in *. lia. }
    set (id := sendersBatch.senderID sc + 1).
    set (sc' := sendersBatch.mk id (<[addr := id]> (sendersBatch.senderIDs sc))
                  (<[id := addr]> (sendersBatch.senderID2Addr sc))
                  (sendersBatch.tracedSenders sc)).
    assert (Hrun : sendersBatch.getOrCreateID sc addr
                   = ((id, bool_decide (addr ∈ sendersBatch.tracedSenders sc)), sc')).
    { unfold sendersBatch.getOrCreateID. rewrite Hid. cbv zeta. by rewrite Hu. }
    assert (Hfresh : forall addr' id', sendersBatch.senderIDs sc !! addr' = Some id' ->
              id' <> id).
    { intros addr' id' H'. pose proof (reg_range sc Hreg _ _ H'). unfold id. lia. }
    exists id, sc'. split; [done |].
    split.
    { split; simpl.
      - intros a i Hai. destruct (decide (a = addr)) as [-> | Hne].
        + rewrite lookup_insert_eq in Hai. injection Hai as <-. by rewrite lookup_insert_eq.
        + rewrite lookup_insert_ne in Hai by done.
          rewrite lookup_insert_ne by (intros <-; by apply (Hfresh a id)).
          by apply (reg_back sc Hreg).
      - intros a i Hai. destruct (decide (a = addr)) as [-> | Hne].
        + rewrite lookup_insert_eq in Hai. injection Hai as <-. unfold id. lia.
        + rewrite lookup_insert_ne in Hai by done.
          pose proof (reg_range sc Hreg _ _ Hai). unfold id. lia.
      - unfold id, MaxUint64 in *. lia. }
    split; [unfold sendersBatch.getID; simpl; by rewrite lookup_insert_eq |].
    split; [simpl; by rewrite lookup_insert_eq |].
    split; [unfold id; lia |].
    split.
    { intros addr' Hne. unfold sendersBatch.getID. simpl.
      by rewrite lookup_insert_ne. }
    split.
    { intros addr' id' Hne. unfold sendersBatch.getID. simpl.
      rewrite lookup_insert_ne by done.
      destruct (sendersBatch.senderIDs sc !! addr') as [i |] eqn:Hi; [| done].
      intros [= ->]. by apply (Hfresh addr'). }
    split; [intros id0; unfold sendersBatch.getID; by rewrite Hid |].
    split; [done |].
    split; [simpl; unfold id; lia |]. split; [simpl; unfold id; lia |].
    split; [done |].
    unfold sendersBatch.getOrCreateID. simpl. by rewrite lookup_insert_eq.
Qed.

(** [getOrCreateID] interns an address once.  In a registry that is in
    order and whose counter has not reached the last [uint64], it returns
    the id the address has, or gives it the next id; afterwards [getID]
    finds that id and [senderID2Addr] leads back to the address, the
    other addresses keep their ids, none of which is the id returned, and
    a second call returns the same id and changes nothing. *)
Theorem getOrCreateID_registers (sc : sendersBatch.t) (addr : string) :
  registered sc -> sendersBatch.senderID sc < MaxUint64 ->
  exists id sc',
    sendersBatch.getOrCreateID sc addr
    = ((id, bool_decide (addr ∈ sendersBatch.tracedSenders sc)), sc')
    /\ registered sc'
    /\ sendersBatch.getID sc' addr = (id, true)
    /\ sendersBatch.senderID2Addr sc' !! id = Some addr
    /\ 1 <= id
    /\ (forall addr', addr' <> addr ->
          sendersBatch.getID sc' addr' = sendersBatch.getID sc addr')
    /\ (forall addr' id', addr' <> addr ->
          sendersBatch.getID sc' addr' = (id', true) -> id' <> id)
    /\ (forall id0, sendersBatch.getID sc addr = (id0, true) -> id = id0 /\ sc' = sc)
    /\ (sendersBatch.getID sc addr = (0, false) ->
          id = sendersBatch.senderID sc + 1 /\ sendersBatch.senderID sc' = id)
    /\ sendersBatch.getOrCreateID sc' addr
       = ((id, bool_decide (addr ∈ sendersBatch.tracedSenders sc)), sc').
Proof.
  intros Hreg Hroom.
  destruct (getOrCreateID_spec sc addr Hreg (fun _ => Hroom))
    as (id & sc' & H1 & H2 & H3 & H4 & H5 & H6 & H7 & H8 & H9 & _ & _ & _ & H10).
  exists id, sc'. repeat (split; [assumption |]). assumption.
Qed.

Lemma getOrCreateID_registers_witness :
  registered (sampleRegistry ["a"; "b"])
  /\ sendersBatch.senderID (sampleRegistry ["a"; "b"]) < MaxUint64
  /\ exists sc',
    sendersBatch.getOrCreateID (sampleRegistry ["a"; "b"]) "c" = ((3, false), sc')
    /\ sendersBatch.getID sc' "c" = (3, true)
    /\ sendersBatch.getID sc' "a" = (1, true)
    /\ sendersBatch.getOrCreateID sc' "a" = ((1, false), sc').
Proof.
  assert (Hreg : registered (sampleRegistry ["a"; "b"])).
  { unfold sampleRegistry. simpl.
    pose proof (registered_new ∅) as H0.
    destruct (getOrCreateID_spec _ "a" H0) as (i1 & s1 & E1 & R1 & _).
    { intros _. vm_compute. reflexivity. }
    rewrite E1. simpl.
    destruct (getOrCreateID_spec s1 "b" R1) as (i2 & s2 & E2 & R2 & _).
    { intros _. rewrite <- (f_equal snd E1 : _ = s1). vm_compute. reflexivity. }
    by rewrite E2. }
  split; [exact Hreg |]. split; [vm_compute; reflexivity |].
  destruct (getOrCreateID_registers (sampleRegistry ["a"; "b"]) "c" Hreg)
    as (id & sc' & Hrun & _ & Hget & _ & _ & Hothers & _ & _ & Hnew & _).
  { vm_compute. reflexivity. }
  destruct Hnew as [Hid _]; [vm_compute; reflexivity |].
  assert (id = 3) as -> by (rewrite Hid; vm_compute; reflexivity).
  exists sc'. split.
  { rewrite Hrun. do 2 f_equal. }
  split; [done |].
  assert (Ha : sendersBatch.getID sc' "a" = (1, true)).
  { rewrite Hothers by done. vm_compute. reflexivity. }
  split; [done |].
  unfold sendersBatch.getID in Ha.
  destruct (sendersBatch.senderIDs sc' !! "a") as [i |] eqn:Hi; [| done].
  injection Ha as ->. rewrite (getOrCreateID_known sc' "a" 1 Hi). do 2 f_equal.
  assert (Ht : sendersBatch.tracedSenders sc' = ∅).
  { rewrite <- (f_equal snd Hrun : _ = sc'). reflexivity. }
  rewrite Ht. done.
Defined.

Lemma getID_Some (sc : sendersBatch.t) (addr : string) (id : Z) :
  sendersBatch.getID sc addr = (id, true) <-> sendersBatch.senderIDs sc !! addr = Some id.
Proof.
  unfold sendersBatch.getID.
  destruct (sendersBatch.senderIDs sc !! addr) as [i |]; split; intros H; congruence.
Qed.

Lemma registerNewSenders_spec (senders : list string) (sc : sendersBatch.t) :
  registered sc ->
  forall txs : list TxSlot,
    sendersBatch.senderID sc + Z.of_nat (length txs) <= MaxUint64 ->
    (length txs <= length senders)%nat ->
    exists txs' flags sc',
      sendersBatch.registerNewSenders sc txs senders = Some (txs', flags, sc')
      /\ registered sc'
      /\ sendersBatch.senderID sc' <= sendersBatch.senderID sc + Z.of_nat (length txs)
      /\ sendersBatch.tracedSenders sc' = sendersBatch.tracedSenders sc
      /\ length txs' = length txs /\ length flags = length txs
      /\ (forall i txn' addr, txs' !! i = Some txn' -> senders !! i = Some addr ->
            sendersBatch.senderIDs sc' !! addr = Some (senderID txn')
            /\ flags !! i = Some (bool_decide (addr ∈ sendersBatch.tracedSenders sc)))
      /\ (forall i txn, txs !! i = Some txn ->
            exists id, txs' !! i = Some (stamped id txn))
      /\ (forall addr id, sendersBatch.senderIDs sc !! addr = Some id ->
            sendersBatch.senderIDs sc' !! addr = Some id).
Proof.
  intros Hreg txs. induction txs as [| x txs IH] using rev_ind; intros Hroom Hlen.
  - exists [], [], sc. simpl in *. split; [done |]. split; [done |].
    split; [lia |]. split; [done |]. split; [done |]. split; [done |].
    split; [intros i t a Hi; by rewrite lookup_nil in Hi |].
    split; [intros i t Hi; by rewrite lookup_nil in Hi | done].
  - rewrite length_app in Hroom, Hlen. simpl in Hroom, Hlen.
    destruct IH as (txs' & flags & sc1 & Hrun & Hreg1 & Hcount & Htr & Hl1 & Hl2 & Hids
                    & Hst & Hmono); [lia | lia |].
    unfold sendersBatch.registerNewSenders in *.
    rewrite indexed_snoc, foldl_app, Hrun. simpl.
    destruct (lookup_lt_is_Some_2 senders (length txs)) as [addr Haddr]; [lia |].
    rewrite Haddr. simpl.
    destruct (getOrCreateID_spec sc1 addr Hreg1)
      as (id & sc2 & Hget & Hreg2 & Hfind & _ & _ & Hothers & _ & Hsame & _ & Hle & Hle'
          & Htr2 & _); [intros _; lia |].
    rewrite Hget. simpl.
    assert (Hkeep : forall a i, sendersBatch.senderIDs sc1 !! a = Some i ->
              sendersBatch.senderIDs sc2 !! a = Some i).
    { intros a i Hai. destruct (decide (a = addr)) as [-> | Hne].
      - destruct (Hsame i) as [-> ->]; [by apply getID_Some | done].
      - apply getID_Some. rewrite Hothers by done. by apply getID_Some. }
    eexists _, _, sc2. split; [reflexivity |]. split; [done |].
    split; [rewrite length_app; simpl; lia |]. split; [congruence |].
    split; [rewrite !length_app; simpl; lia |].
    split; [rewrite !length_app; simpl; lia |].
    split.
    { intros i t a Hi Ha.
      destruct (decide (i < length txs')%nat) as [Hlt | Hge].
      - rewrite lookup_app_l in Hi by done.
        destruct (Hids i t a Hi Ha) as [Hid Hflag].
        split; [by apply Hkeep |]. rewrite lookup_app_l by lia. done.
      - assert (i = length txs') as ->.
        { apply lookup_lt_Some in Hi. rewrite length_app in Hi. simpl in Hi. lia. }
        rewrite list_lookup_middle in Hi by done. injection Hi as <-. simpl.
        rewrite Hl1 in Ha. assert (a = addr) as -> by congruence.
        split; [by apply getID_Some |].
        rewrite list_lookup_middle by lia. by rewrite Htr. }
    split.
    { intros i t Hi.
      destruct (decide (i < length txs)%nat) as [Hlt | Hge].
      - rewrite lookup_app_l in Hi by done.
        destruct (Hst i t Hi) as [j Hj]. exists j. rewrite lookup_app_l by lia. done.
      - assert (i = length txs) as ->.
        { apply lookup_lt_Some in Hi. rewrite length_app in Hi. simpl in Hi. lia. }
        rewrite list_lookup_middle in Hi by done. injection Hi as <-.
        exists id. rewrite list_lookup_middle by lia. done. }
    intros a i Hai. by apply Hkeep, Hmono.
Qed.

(** [registerNewSenders] gives the transactions of a batch the ids of
    their senders.  When the registry is in order, has room for as many
    new ids as there are transactions and there is an address for every
    transaction, it returns without panic; every transaction carries the
    id [getID] then finds for its address, so two transactions carry the
    same id exactly when their addresses are the same; nothing else of a
    transaction changes, and the ids given out before stay. *)
Theorem registerNewSenders_stamps (sc : sendersBatch.t) (txs : list TxSlot)
  (senders : list string) :
  registered sc ->
  sendersBatch.senderID sc + Z.of_nat (length txs) <= MaxUint64 ->
  (length txs <= length senders)%nat ->
  exists txs' flags sc',
    sendersBatch.registerNewSenders sc txs senders = Some (txs', flags, sc')
    /\ registered sc'
    /\ length txs' = length txs
    /\ (forall i txn' addr, txs' !! i = Some txn' -> senders !! i = Some addr ->
          sendersBatch.getID sc' addr = (senderID txn', true)
          /\ flags !! i = Some (bool_decide (addr ∈ sendersBatch.tracedSenders sc)))
    /\ (forall i j ti tj ai aj,
          txs' !! i = Some ti -> txs' !! j = Some tj ->
          senders !! i = Some ai -> senders !! j = Some aj ->
          (senderID ti = senderID tj <-> ai = aj))
    /\ (forall i txn, txs !! i = Some txn ->
          exists id, txs' !! i = Some (stamped id txn))
    /\ (forall addr id, sendersBatch.getID sc addr = (id, true) ->
          sendersBatch.getID sc' addr = (id, true)).
Proof.
  intros Hreg Hroom Hlen.
  destruct (registerNewSenders_spec senders sc Hreg txs Hroom Hlen)
    as (txs' & flags & sc' & Hrun & Hreg' & _ & _ & Hl & _ & Hids & Hst & Hmono).
  exists txs', flags, sc'. split; [done |]. split; [done |]. split; [done |].
  split.
  { intros i t a Hi Ha. destruct (Hids i t a Hi Ha) as [Hid Hflag].
    split; [by apply getID_Some | done]. }
  split.
  { intros i j ti tj ai aj Hi Hj Hai Haj.
    destruct (Hids i ti ai Hi Hai) as [Hidi _].
    destruct (Hids j tj aj Hj Haj) as [Hidj _].
    split.
    - intros Heq. rewrite Heq in Hidi.
      by apply (registered_injective sc' ai aj (senderID tj)).
    - intros <-. congruence. }
  split; [done |].
  intros a i Hai. apply getID_Some. apply Hmono. by apply getID_Some.
Qed.

Lemma registerNewSenders_stamps_witness :
  registered (sampleRegistry ["a"])
  /\ sendersBatch.senderID (sampleRegistry ["a"]) + Z.of_nat (length [txA; txB; txC])
     <= MaxUint64
  /\ (length [txA; txB; txC] <= length ["b"; "a"; "b"])%nat
  /\ exists txs' flags sc',
    sendersBatch.registerNewSenders (sampleRegistry ["a"]) [txA; txB; txC] ["b"; "a"; "b"]
    = Some (txs', flags, sc')
    /\ senderID <$> txs' = [2; 1; 2]
    /\ registered sc'.
Proof.
  assert (Hreg : registered (sampleRegistry ["a"])).
  { unfold sampleRegistry. simpl.
    destruct (getOrCreateID_spec _ "a" (registered_new ∅)) as (i1 & s1 & E1 & R1 & _).
    { intros _. vm_compute. reflexivity. }
    by rewrite E1. }
  split; [exact Hreg |]. split; [vm_compute; discriminate |]. split; [simpl; lia |].
  destruct (registerNewSenders_stamps (sampleRegistry ["a"]) [txA; txB; txC]
              ["b"; "a"; "b"] Hreg)
    as (txs' & flags & sc' & Hrun & Hreg' & _); [vm_compute; discriminate | simpl; lia |].
  exists txs', flags, sc'. split; [done |]. split; [| done].
  assert (Hc : fst <$> (fst <$> sendersBatch.registerNewSenders (sampleRegistry ["a"])
                                  [txA; txB; txC] ["b"; "a"; "b"])
               = Some txs') by (by rewrite Hrun).
  vm_compute in Hc. injection Hc as <-. reflexivity.
Defined.

(** * The last seen block *)

(** The bits of the byte [k] bits up. *)
Lemma octet_bit (n k i : Z) :
  0 <= k -> 0 <= i ->
  Z.testbit (Z.shiftl (binary.byte (Z.shiftr n k)) k) i
  = bool_decide (k <= i < k + 8) && Z.testbit n i.
Proof.
  intros Hk Hi. rewrite Z.shiftl_spec by done. unfold binary.byte.
  change 256 with (2 ^ 8).
  destruct (decide (i < k)) as [Hlt | Hge].
  - rewrite Z.testbit_neg_r by lia. rewrite bool_decide_eq_false_2 by lia. done.
  - destruct (decide (i - k < 8)) as [Hlow | Hhigh].
    + rewrite Z.mod_pow2_bits_low by lia. rewrite Z.shiftr_spec by lia.
      rewrite bool_decide_eq_true_2 by lia. simpl. f_equal. lia.
    + rewrite Z.mod_pow2_bits_high by lia. rewrite bool_decide_eq_false_2 by lia. done.
Qed.

Lemma byte_range (x : Z) : 0 <= binary.byte x < 256.
Proof. unfold binary.byte. apply Z.mod_pos_bound. lia. Qed.

Lemma Uint64_PutUint64 (b : list Z) (n : Z) :
  (8 <= length b)%nat -> 0 <= n <= MaxUint64 ->
  exists b', binary.PutUint64 b n = Some b'
             /\ binary.Uint64 b' = Some n
             /\ length b' = length b
             /\ drop 8 b' = drop 8 b
             /\ Forall (fun x => 0 <= x < 256) (take 8 b').
Proof.
  intros Hlen Hn. unfold binary.PutUint64. rewrite bool_decide_eq_true_2 by done.
  eexists. split; [reflexivity |].
  split.
  { cbn [app binary.Uint64]. f_equal. apply Z.bits_inj'. intros i Hi.
    replace (binary.byte n) with (Z.shiftl (binary.byte (Z.shiftr n 0)) 0)
      by (by rewrite Z.shiftl_0_r, Z.shiftr_0_r).
    rewrite !Z.lor_spec, !octet_bit by lia.
    destruct (decide (i < 64)) as [Hlow | Hhigh].
    - repeat case_bool_decide; try lia; simpl;
        rewrite ?orb_false_r, ?orb_true_r, ?orb_false_l; try done;
        destruct (Z.testbit n i); done.
    - assert (Z.testbit n i = false) as ->.
      { destruct (decide (n = 0)) as [-> | Hn0]; [apply Z.bits_0 |].
        apply Z.bits_above_log2; [lia |].
        assert (Z.log2 n < 64); [| lia].
        apply Z.log2_lt_pow2; [lia |]. unfold MaxUint64 in Hn. lia. }
      by rewrite !andb_false_r. }
  split.
  { cbn [app length]. rewrite length_drop. lia. }
  split; [done |].
  cbn [app take]. repeat (constructor; [apply byte_range |]). constructor.
Qed.

Lemma LastSeenBlock_spec (ensure : list Z -> nat -> list Z) (tx : InfoTx) (n : Z)
  (buf : list Z) :
  (8 <= length (ensure buf 8%nat))%nat ->
  failing tx = false -> 0 <= n <= MaxUint64 ->
  exists tx' v,
    PutLastSeenBlock ensure tx n buf = Some (Some tx')
    /\ LastSeenBlock tx' = Some (Some n)
    /\ values tx' = <[PoolLastSeenBlockKey := v]> (values tx)
    /\ length v = length (ensure buf 8%nat)
    /\ drop 8 v = drop 8 (ensure buf 8%nat)
    /\ Forall (fun x => 0 <= x < 256) (take 8 v)
    /\ failing tx' = false.
Proof.
  intros Hlen Hworks Hn. unfold PutLastSeenBlock. cbv zeta.
  destruct (Uint64_PutUint64 (ensure buf 8%nat) n) as (v & Hput & Hget & Hlv & Hrest & Hbytes);
    [done | done |].
  rewrite Hput. simpl. unfold Put. rewrite Hworks.
  eexists _, v. split; [reflexivity |].
  split.
  { unfold LastSeenBlock, GetOne. simpl. rewrite lookup_insert_eq. simpl.
    rewrite bool_decide_eq_false_2 by lia. by rewrite Hget. }
  done.
Qed.

(** What [PutLastSeenBlock] writes, [LastSeenBlock] reads back.  In a
    transaction whose operations succeed, for any buffer, and when
    [EnsureEnoughSize] gives eight bytes or more, [PutLastSeenBlock]
    stores under [last_seen_block] a value that starts with the eight
    bytes of the block number and touches no other key; [LastSeenBlock]
    then returns that number. *)
Theorem LastSeenBlock_round_trip (ensure : list Z -> nat -> list Z) (tx : InfoTx) (n : Z)
  (buf : list Z) :
  (8 <= length (ensure buf 8%nat))%nat ->
  failing tx = false -> 0 <= n <= MaxUint64 ->
  exists tx' v,
    PutLastSeenBlock ensure tx n buf = Some (Some tx')
    /\ LastSeenBlock tx' = Some (Some n)
    /\ values tx' !! PoolLastSeenBlockKey = Some v
    /\ length v = length (ensure buf 8%nat)
    /\ Forall (fun x => 0 <= x < 256) (take 8 v)
    /\ binary.Uint64 v = Some n
    /\ (forall k, k <> PoolLastSeenBlockKey -> values tx' !! k = values tx !! k).
Proof.
  intros Hlen Hworks Hn.
  destruct (LastSeenBlock_spec ensure tx n buf Hlen Hworks Hn)
    as (tx' & v & Hput & Hget & Hvals & Hlv & _ & Hbytes & Hw').
  exists tx', v. split; [done |]. split; [done |].
  split; [by rewrite Hvals, lookup_insert_eq |]. split; [done |]. split; [done |].
  split.
  { unfold LastSeenBlock, GetOne in Hget. rewrite Hw', Hvals, lookup_insert_eq in Hget.
    simpl in Hget. rewrite bool_decide_eq_false_2 in Hget by lia.
    destruct (binary.Uint64 v) as [m |]; [| done]. simpl in Hget. congruence. }
  intros k Hk. by rewrite Hvals, lookup_insert_ne.
Qed.

Lemma LastSeenBlock_round_trip_witness :
  (8 <= length (sampleEnsure [] 8%nat))%nat
  /\ failing sampleInfo = false /\ 0 <= 13000000 <= MaxUint64
  /\ exists tx',
    PutLastSeenBlock sampleEnsure sampleInfo 13000000 [] = Some (Some tx')
    /\ LastSeenBlock tx' = Some (Some 13000000)
    /\ values tx' !! PoolLastSeenBlockKey = Some [0; 0; 0; 0; 0; 198; 93; 64].
Proof.
  split; [vm_compute; lia |].
  split; [reflexivity |]. split; [vm_compute; split; discriminate |].
  destruct (LastSeenBlock_round_trip sampleEnsure sampleInfo 13000000 [])
    as (tx' & v & Hput & Hget & Hv & _);
    [vm_compute; lia | reflexivity | vm_compute; split; discriminate |].
  exists tx'. split; [exact Hput |]. split; [exact Hget |].
  assert (Hc : PutLastSeenBlock sampleEnsure sampleInfo 13000000 [] = Some (Some tx'))
    by exact Hput.
  vm_compute in Hc. injection Hc as <-. vm_compute. reflexivity.
Defined.

(** * Sorting the best of pending *)





















